(** * The ordered map of [c/ordered_map/src/ordered_map.c]

    A shallow embedding of the red-black tree that backs the ordered map,
    written over an explicit memory: tree nodes, map headers and iterators
    are records stored at addresses, pointers are optional addresses
    ([None] is the C [NULL], which the source also uses as the leaf
    sentinel [NIL]), and every function of the source is a computation in
    a state-and-failure monad.  A computation that yields [None] stands
    for an execution with undefined behaviour (a dereference of [NULL] or
    of a dangling pointer) or for a loop that exhausted its fuel. *)

From stdpp Require Import gmap list sorting.
From Stdlib Require Import ZArith.

Local Open Scope Z_scope.

(** ** Data model *)

(** [rb_color_t] *)
Inductive rb_color_t := RB_RED | RB_BLACK.

Global Instance rb_color_eq_dec : EqDecision rb_color_t.
Proof. solve_decision. Defined.

(** [rb_node_t*]: the address of a node, or [NIL]. *)
Abbreviation node_ptr := (option positive).
Abbreviation NIL := (@None positive).

(** A [void*] payload pointer that is not [NULL] designates an object: the
    address it holds and the bytes found there.  Keys are never rewritten
    once stored and a stored value is only rewritten through the node that
    owns it, so the bytes travel with the pointer. *)
Record object := Obj { obj_addr : positive; obj_bytes : list Z }.

Global Instance object_eq_dec : EqDecision object.
Proof. solve_decision. Defined.

Abbreviation void_ptr := (option object).
Abbreviation NULL := (@None object).

Module Node.
(** [struct rb_node] *)
Record t := Make {
  key : void_ptr;
  value : void_ptr;
  parent : node_ptr;
  left : node_ptr;
  right : node_ptr;
  color : rb_color_t
}.
Definition set_key v n := Make v (value n) (parent n) (left n) (right n) (color n).
Definition set_value v n := Make (key n) v (parent n) (left n) (right n) (color n).
Definition set_parent v n := Make (key n) (value n) v (left n) (right n) (color n).
Definition set_left v n := Make (key n) (value n) (parent n) v (right n) (color n).
Definition set_right v n := Make (key n) (value n) (parent n) (left n) v (color n).
Definition set_color v n := Make (key n) (value n) (parent n) (left n) (right n) v.
(** the contents of a node fresh from [malloc], before any field is
    assigned *)
Definition blank := Make NULL NULL NIL NIL NIL RB_RED.
End Node.

Module Config.
(** [ordered_map_config_t].  A comparator reads the two objects it is
    given; a copy hook yields the bytes of the new object, or [None] when
    it returns [NULL]; a destructor hook is opaque to the map, so only
    its presence is recorded here and its calls are recorded in the
    trace of the memory. *)
Record t := Make {
  key_compare : option (list Z → list Z → Z);
  key_destructor : bool;
  value_destructor : bool;
  key_copy : option (list Z → option (list Z));
  value_copy : option (list Z → option (list Z));
  key_size : N;
  value_size : N
}.
End Config.

Module Stats.
(** [ordered_map_stats_t], without the three running averages of
    wall-clock time (floating point over [clock()]). *)
Record t := Make {
  insert_count : N;
  delete_count : N;
  search_count : N;
  total_operations : N;
  max_height : N;
  current_height : N
}.
Definition zero := Make 0 0 0 0 0 0.
Definition set_insert_count v s :=
  Make v (delete_count s) (search_count s) (total_operations s) (max_height s) (current_height s).
Definition set_delete_count v s :=
  Make (insert_count s) v (search_count s) (total_operations s) (max_height s) (current_height s).
Definition set_search_count v s :=
  Make (insert_count s) (delete_count s) v (total_operations s) (max_height s) (current_height s).
Definition set_total_operations v s :=
  Make (insert_count s) (delete_count s) (search_count s) v (max_height s) (current_height s).
Definition set_max_height v s :=
  Make (insert_count s) (delete_count s) (search_count s) (total_operations s) v (current_height s).
Definition set_current_height v s :=
  Make (insert_count s) (delete_count s) (search_count s) (total_operations s) (max_height s) v.
End Stats.

Module Map.
(** [struct ordered_map] *)
Record t := Make {
  root : node_ptr;
  config : Config.t;
  size : N;
  stats : Stats.t;
  stats_enabled : bool
}.
Definition set_root v m := Make v (config m) (size m) (stats m) (stats_enabled m).
Definition set_size v m := Make (root m) (config m) v (stats m) (stats_enabled m).
Definition set_stats v m := Make (root m) (config m) (size m) v (stats_enabled m).
End Map.

(** [ordered_map_iter_direction_t] *)
Inductive ordered_map_iter_direction_t :=
  ORDERED_MAP_ITER_FORWARD | ORDERED_MAP_ITER_BACKWARD.

Global Instance direction_eq_dec : EqDecision ordered_map_iter_direction_t.
Proof. solve_decision. Defined.

Module Iter.
(** [struct ordered_map_iterator] *)
Record t := Make {
  map : option positive;
  current : node_ptr;
  direction : ordered_map_iter_direction_t;
  valid : bool
}.
Definition set_current v i := Make (map i) v (direction i) (valid i).
End Iter.

(** [ordered_map_error_t] *)
Inductive ordered_map_error_t :=
| ORDERED_MAP_SUCCESS
| ORDERED_MAP_ERROR_NULL_POINTER
| ORDERED_MAP_ERROR_INVALID_CONFIG
| ORDERED_MAP_ERROR_OUT_OF_MEMORY
| ORDERED_MAP_ERROR_KEY_NOT_FOUND
| ORDERED_MAP_ERROR_ITERATOR_INVALID
| ORDERED_MAP_ERROR_ITERATOR_END.

Global Instance error_eq_dec : EqDecision ordered_map_error_t.
Proof. solve_decision. Defined.

(** What the map does to payload storage that it does not keep in a node:
    calls of the caller's destructor hooks and [free] of the buffers it
    allocated itself.  The hooks are the caller's code.  A call of a
    destructor hook is recorded with its argument and has no other effect
    here, and a copy hook always returns a new address; what the hook does
    to the storage it is handed (nothing for [int_destructor] of the
    tests, [free] for [string_destructor] and for the hooks of the
    examples) is to be read off the trace.  A pointer that occurs twice as
    the argument of a destructor has been handed to the hook twice, and
    what is said about the bytes behind a pointer holds as long as no
    hook that releases storage has been handed that pointer. *)
Inductive event :=
| EvKeyDestructor (p : void_ptr)
| EvValueDestructor (p : void_ptr)
| EvFree (p : void_ptr).

Global Instance event_eq_dec : EqDecision event.
Proof. solve_decision. Defined.

(** The memory.  [avail] is the number of allocations [malloc] can still
    serve; [brk] is the address the next payload buffer receives. *)
Record state := State {
  nodes : gmap positive Node.t;
  maps : gmap positive Map.t;
  iters : gmap positive Iter.t;
  brk : positive;
  avail : nat;
  trace : list event
}.

Definition set_nodes v s := State v (maps s) (iters s) (brk s) (avail s) (trace s).
Definition set_maps v s := State (nodes s) v (iters s) (brk s) (avail s) (trace s).
Definition set_iters v s := State (nodes s) (maps s) v (brk s) (avail s) (trace s).
Definition set_brk v s := State (nodes s) (maps s) (iters s) v (avail s) (trace s).
Definition set_avail v s := State (nodes s) (maps s) (iters s) (brk s) v (trace s).
Definition set_trace v s := State (nodes s) (maps s) (iters s) (brk s) (avail s) v.

(** ** The monad of the embedding *)

Definition M (A : Type) : Type := state → option (A * state).

Definition ret {A} (a : A) : M A := λ s, Some (a, s).
Definition bind {A B} (m : M A) (k : A → M B) : M B :=
  λ s, match m s with Some (a, s') => k a s' | None => None end.
Definition crash {A} : M A := λ _, None.

Notation "'do' x <- m ; k" := (bind m (λ x, k))
  (at level 10, x name, m at level 100, k at level 200, format "'[v' 'do'  x  <-  m ; '/' k ']'").
Notation "'do' ' p <- m ; k" := (bind m (λ x, match x with p => k end))
  (at level 10, p strict pattern, m at level 100, k at level 200).
Notation "'do_' m ; k" := (bind m (λ _, k))
  (at level 10, m at level 100, k at level 200, format "'[v' 'do_'  m ; '/' k ']'").

(** [when c m] is the C statement [if (c) m;]. *)
Definition when (c : bool) (m : M unit) : M unit := if c then m else ret tt.

(** Reading and writing a field of the node behind a pointer; both are
    undefined on [NIL] and on an address that holds no node. *)
Definition rd {A} (f : Node.t → A) (p : node_ptr) : M A :=
  λ s, match p with
       | Some a => match nodes s !! a with
                   | Some n => Some (f n, s)
                   | None => None
                   end
       | None => None
       end.

Definition wr (upd : Node.t → Node.t) (p : node_ptr) : M unit :=
  λ s, match p with
       | Some a => match nodes s !! a with
                   | Some n => Some (tt, set_nodes (<[a := upd n]> (nodes s)) s)
                   | None => None
                   end
       | None => None
       end.

(** The same for the fields of a map header. *)
Definition rdm {A} (f : Map.t → A) (map : positive) : M A :=
  λ s, match maps s !! map with
       | Some m => Some (f m, s)
       | None => None
       end.

Definition wrm (upd : Map.t → Map.t) (map : positive) : M unit :=
  λ s, match maps s !! map with
       | Some m => Some (tt, set_maps (<[map := upd m]> (maps s)) s)
       | None => None
       end.

(** And for the fields of an iterator. *)
Definition rdi {A} (f : Iter.t → A) (iter : positive) : M A :=
  λ s, match iters s !! iter with
       | Some i => Some (f i, s)
       | None => None
       end.

Definition wri (upd : Iter.t → Iter.t) (iter : positive) : M unit :=
  λ s, match iters s !! iter with
       | Some i => Some (tt, set_iters (<[iter := upd i]> (iters s)) s)
       | None => None
       end.

Definition log (e : event) : M unit := λ s, Some (tt, set_trace (trace s ++ [e]) s).

(** [malloc(sizeof(rb_node_t))]: [NIL] when the allocator is exhausted. *)
Definition malloc_node : M node_ptr :=
  λ s, match avail s with
       | O => Some (NIL, s)
       | S n =>
           let a := fresh (dom (nodes s)) in
           Some (Some a, set_avail n (set_nodes (<[a := Node.blank]> (nodes s)) s))
       end.

(** [free(node)] for a node pointer that is not [NIL]. *)
Definition free_node (p : node_ptr) : M unit :=
  λ s, match p with
       | Some a => match nodes s !! a with
                   | Some _ => Some (tt, set_avail (S (avail s)) (set_nodes (delete a (nodes s)) s))
                   | None => None
                   end
       | None => Some (tt, s)
       end.

(** [malloc(size)] of a payload buffer: the address of the new buffer, or
    [None] when the allocator is exhausted. *)
Definition malloc_bytes : M (option positive) :=
  λ s, match avail s with
       | O => Some (None, s)
       | S n => Some (Some (brk s), set_avail n (set_brk (Pos.succ (brk s)) s))
       end.

(** [free(p)] of a payload buffer; [free(NULL)] does nothing. *)
Definition free_bytes (p : void_ptr) : M unit :=
  match p with
  | Some _ => do_ log (EvFree p); λ s, Some (tt, set_avail (S (avail s)) s)
  | None => ret tt
  end.

(** The first [n] bytes read by [memcpy(_, src, n)]; reading past the end
    of the source object is undefined. *)
Definition memcpy_read (src : void_ptr) (n : N) : M (list Z) :=
  match src with
  | Some o =>
      if decide (N.to_nat n ≤ length (obj_bytes o))%nat
      then ret (take (N.to_nat n) (obj_bytes o))
      else crash
  | None => crash
  end.

(** [memcpy(dst, src, n)] into an existing buffer: the buffer as it is
    afterwards. *)
Definition memcpy_into (dst src : void_ptr) (n : N) : M void_ptr :=
  do bs <- memcpy_read src n;
  match dst with
  | Some o =>
      if decide (N.to_nat n ≤ length (obj_bytes o))%nat
      then ret (Some (Obj (obj_addr o) (bs ++ drop (N.to_nat n) (obj_bytes o))))
      else crash
  | None => crash
  end.

(** A call of a copy hook: the hook reads its argument and the object it
    returns is placed at a new address. *)
Definition call_copy (copy : list Z → option (list Z)) (src : void_ptr) : M void_ptr :=
  match src with
  | Some o =>
      match copy (obj_bytes o) with
      | Some bs => λ s, Some (Some (Obj (brk s) bs), set_brk (Pos.succ (brk s)) s)
      | None => ret NULL
      end
  | None => crash
  end.

(** A call of the comparator; both arguments are dereferenced. *)
Definition call_compare (compare : option (list Z → list Z → Z)) (k1 k2 : void_ptr) : M Z :=
  match compare, k1, k2 with
  | Some cmp, Some o1, Some o2 => ret (cmp (obj_bytes o1) (obj_bytes o2))
  | _, _, _ => crash
  end.

(** [size_t] arithmetic *)
Definition SIZE_MOD : N := 2 ^ 64.
Definition size_incr (n : N) : N := ((n + 1) mod SIZE_MOD)%N.
Definition size_decr (n : N) : N := ((n + SIZE_MOD - 1) mod SIZE_MOD)%N.

(** ** Helper functions of the tree *)

Definition is_nil (p : node_ptr) : bool := if p is None then true else false.
Definition is_null (p : void_ptr) : bool := if p is None then true else false.
Definition ptr_eqb (p q : node_ptr) : bool := bool_decide (p = q).
Definition color_eqb (c d : rb_color_t) : bool := bool_decide (c = d).

(** The bound handed to every loop over the tree: one more than the
    number of nodes that exist. *)
Definition get_fuel : M nat := λ s, Some (S (size (nodes s)), s).

(** What [create_node] stores for a key or a value, by ownership mode:
    a byte copy into a new buffer when the size is positive, the result of
    the copy hook when there is one, the caller's pointer otherwise.  In
    the first two modes [create_node] tests the result against [NULL]. *)
Definition checked (size : N) (copy : option (list Z → option (list Z))) : bool :=
  (0 <? size)%N || (if copy is Some _ then true else false).

Definition materialize (size : N) (copy : option (list Z → option (list Z)))
    (src : void_ptr) : M void_ptr :=
  if (0 <? size)%N then
    do buf <- malloc_bytes;
    match buf with
    | None => ret NULL
    | Some a => do bs <- memcpy_read src size; ret (Some (Obj a bs))
    end
  else
    match copy with
    | Some f => call_copy f src
    | None => ret src
    end.

Definition create_node (key value : void_ptr) (config : Config.t) : M node_ptr :=
  do node <- malloc_node;
  if is_nil node then ret NIL else
  (* Allocate and copy key *)
  do k <- materialize (Config.key_size config) (Config.key_copy config) key;
  do_ wr (Node.set_key k) node;
  if checked (Config.key_size config) (Config.key_copy config) && is_null k then
    do_ free_node node;
    ret NIL
  else
  (* Allocate and copy value *)
  do v <- materialize (Config.value_size config) (Config.value_copy config) value;
  do_ wr (Node.set_value v) node;
  if checked (Config.value_size config) (Config.value_copy config) && is_null v then
    do nk <- rd Node.key node;
    do_ (if (0 <? Config.key_size config)%N then free_bytes nk
         else when (Config.key_destructor config) (log (EvKeyDestructor nk)));
    do_ free_node node;
    ret NIL
  else
  do_ wr (Node.set_parent NIL) node;
  do_ wr (Node.set_left NIL) node;
  do_ wr (Node.set_right NIL) node;
  do_ wr (Node.set_color RB_RED) node;
  ret node.

Definition destroy_node (node : node_ptr) (config : Config.t) : M unit :=
  if is_nil node then ret tt else
  (* Free key *)
  do nk <- rd Node.key node;
  do_ (if (0 <? Config.key_size config)%N then free_bytes nk
       else when (Config.key_destructor config) (log (EvKeyDestructor nk)));
  (* Free value *)
  do nv <- rd Node.value node;
  do_ (if (0 <? Config.value_size config)%N then free_bytes nv
       else when (Config.value_destructor config) (log (EvValueDestructor nv)));
  free_node node.

Definition get_color (node : node_ptr) : M rb_color_t :=
  if is_nil node then ret RB_BLACK else rd Node.color node.

Definition set_color (node : node_ptr) (c : rb_color_t) : M unit :=
  when (negb (is_nil node)) (wr (Node.set_color c) node).

Definition left_rotate (map : positive) (x : node_ptr) : M unit :=
  do y <- rd Node.right x;
  do yl <- rd Node.left y;
  do_ wr (Node.set_right yl) x;
  do_ when (negb (is_nil yl)) (wr (Node.set_parent x) yl);
  do xp <- rd Node.parent x;
  do_ wr (Node.set_parent xp) y;
  do_ (if is_nil xp then wrm (Map.set_root y) map
       else
         do xpl <- rd Node.left xp;
         if ptr_eqb x xpl then wr (Node.set_left y) xp
         else wr (Node.set_right y) xp);
  do_ wr (Node.set_left x) y;
  wr (Node.set_parent y) x.

Definition right_rotate (map : positive) (y : node_ptr) : M unit :=
  do x <- rd Node.left y;
  do xr <- rd Node.right x;
  do_ wr (Node.set_left xr) y;
  do_ when (negb (is_nil xr)) (wr (Node.set_parent y) xr);
  do yp <- rd Node.parent y;
  do_ wr (Node.set_parent yp) x;
  do_ (if is_nil yp then wrm (Map.set_root x) map
       else
         do ypr <- rd Node.right yp;
         if ptr_eqb y ypr then wr (Node.set_right x) yp
         else wr (Node.set_left x) yp);
  do_ wr (Node.set_right y) x;
  wr (Node.set_parent x) y.

(** The [while] loop of [insert_fixup]. *)
Fixpoint insert_fixup_loop (fuel : nat) (map : positive) (z : node_ptr) : M unit :=
  match fuel with
  | O => crash
  | S fuel =>
      do zp <- rd Node.parent z;
      do c <- get_color zp;
      if negb (color_eqb c RB_RED) then ret tt else
      do zpp <- rd Node.parent zp;
      do zppl <- rd Node.left zpp;
      if ptr_eqb zp zppl then
        do y <- rd Node.right zpp;
        do cy <- get_color y;
        if color_eqb cy RB_RED then
          do_ set_color zp RB_BLACK;
          do_ set_color y RB_BLACK;
          do_ set_color zpp RB_RED;
          insert_fixup_loop fuel map zpp
        else
          do zpr <- rd Node.right zp;
          do z <- (if ptr_eqb z zpr then
                     do_ left_rotate map zp;
                     ret zp
                   else ret z);
          do zp <- rd Node.parent z;
          do_ set_color zp RB_BLACK;
          do zpp <- rd Node.parent zp;
          do_ set_color zpp RB_RED;
          do_ right_rotate map zpp;
          insert_fixup_loop fuel map z
      else
        do y <- rd Node.left zpp;
        do cy <- get_color y;
        if color_eqb cy RB_RED then
          do_ set_color zp RB_BLACK;
          do_ set_color y RB_BLACK;
          do_ set_color zpp RB_RED;
          insert_fixup_loop fuel map zpp
        else
          do zpl <- rd Node.left zp;
          do z <- (if ptr_eqb z zpl then
                     do_ right_rotate map zp;
                     ret zp
                   else ret z);
          do zp <- rd Node.parent z;
          do_ set_color zp RB_BLACK;
          do zpp <- rd Node.parent zp;
          do_ set_color zpp RB_RED;
          do_ left_rotate map zpp;
          insert_fixup_loop fuel map z
  end.

Definition insert_fixup (map : positive) (z : node_ptr) : M unit :=
  do fuel <- get_fuel;
  do_ insert_fixup_loop fuel map z;
  do root <- rdm Map.root map;
  set_color root RB_BLACK.

Fixpoint tree_minimum_loop (fuel : nat) (node : node_ptr) : M node_ptr :=
  match fuel with
  | O => crash
  | S fuel =>
      do l <- rd Node.left node;
      if is_nil l then ret node else tree_minimum_loop fuel l
  end.

Definition tree_minimum (node : node_ptr) : M node_ptr :=
  do fuel <- get_fuel; tree_minimum_loop fuel node.

Fixpoint tree_maximum_loop (fuel : nat) (node : node_ptr) : M node_ptr :=
  match fuel with
  | O => crash
  | S fuel =>
      do r <- rd Node.right node;
      if is_nil r then ret node else tree_maximum_loop fuel r
  end.

Definition tree_maximum (node : node_ptr) : M node_ptr :=
  do fuel <- get_fuel; tree_maximum_loop fuel node.

(** [while (y != NIL && node == y->right) { node = y; y = y->parent; }] *)
Fixpoint successor_loop (fuel : nat) (node y : node_ptr) : M node_ptr :=
  match fuel with
  | O => crash
  | S fuel =>
      if is_nil y then ret y else
      do yr <- rd Node.right y;
      if ptr_eqb node yr then
        do yp <- rd Node.parent y;
        successor_loop fuel y yp
      else ret y
  end.

Definition tree_successor (node : node_ptr) : M node_ptr :=
  do r <- rd Node.right node;
  if negb (is_nil r) then tree_minimum r else
  do y <- rd Node.parent node;
  do fuel <- get_fuel;
  successor_loop fuel node y.

(** [while (y != NIL && node == y->left) { node = y; y = y->parent; }] *)
Fixpoint predecessor_loop (fuel : nat) (node y : node_ptr) : M node_ptr :=
  match fuel with
  | O => crash
  | S fuel =>
      if is_nil y then ret y else
      do yl <- rd Node.left y;
      if ptr_eqb node yl then
        do yp <- rd Node.parent y;
        predecessor_loop fuel y yp
      else ret y
  end.

Definition tree_predecessor (node : node_ptr) : M node_ptr :=
  do l <- rd Node.left node;
  if negb (is_nil l) then tree_maximum l else
  do y <- rd Node.parent node;
  do fuel <- get_fuel;
  predecessor_loop fuel node y.

Definition transplant (map : positive) (u v : node_ptr) : M unit :=
  do up <- rd Node.parent u;
  do_ (if is_nil up then wrm (Map.set_root v) map
       else
         do upl <- rd Node.left up;
         if ptr_eqb u upl then wr (Node.set_left v) up
         else wr (Node.set_right v) up);
  when (negb (is_nil v))
    (do up <- rd Node.parent u; wr (Node.set_parent up) v).

(** The [while] loop of [delete_fixup]; the result is the final [x]. *)
Fixpoint delete_fixup_loop (fuel : nat) (map : positive) (x : node_ptr) : M node_ptr :=
  match fuel with
  | O => crash
  | S fuel =>
      do root <- rdm Map.root map;
      if ptr_eqb x root then ret x else
      if is_nil x then ret x else
      do cx <- get_color x;
      if negb (color_eqb cx RB_BLACK) then ret x else
      do xp <- rd Node.parent x;
      do xpl <- rd Node.left xp;
      if ptr_eqb x xpl then
        do w <- rd Node.right xp;
        do cw <- get_color w;
        do w <- (if color_eqb cw RB_RED then
                   do_ set_color w RB_BLACK;
                   do_ set_color xp RB_RED;
                   do_ left_rotate map xp;
                   do xp <- rd Node.parent x;
                   rd Node.right xp
                 else ret w);
        do wl <- rd Node.left w;
        do cwl <- get_color wl;
        do both <- (if color_eqb cwl RB_BLACK then
                      do wr_ <- rd Node.right w;
                      do cwr <- get_color wr_;
                      ret (color_eqb cwr RB_BLACK)
                    else ret false);
        if both then
          do_ set_color w RB_RED;
          do xp <- rd Node.parent x;
          delete_fixup_loop fuel map xp
        else
          do wr_ <- rd Node.right w;
          do cwr <- get_color wr_;
          do w <- (if color_eqb cwr RB_BLACK then
                     do wl <- rd Node.left w;
                     do_ set_color wl RB_BLACK;
                     do_ set_color w RB_RED;
                     do_ right_rotate map w;
                     do xp <- rd Node.parent x;
                     rd Node.right xp
                   else ret w);
          do xp <- rd Node.parent x;
          do cxp <- get_color xp;
          do_ set_color w cxp;
          do_ set_color xp RB_BLACK;
          do wr_ <- rd Node.right w;
          do_ set_color wr_ RB_BLACK;
          do_ left_rotate map xp;
          do root <- rdm Map.root map;
          delete_fixup_loop fuel map root
      else
        do w <- rd Node.left xp;
        do cw <- get_color w;
        do w <- (if color_eqb cw RB_RED then
                   do_ set_color w RB_BLACK;
                   do_ set_color xp RB_RED;
                   do_ right_rotate map xp;
                   do xp <- rd Node.parent x;
                   rd Node.left xp
                 else ret w);
        do wr_ <- rd Node.right w;
        do cwr <- get_color wr_;
        do both <- (if color_eqb cwr RB_BLACK then
                      do wl <- rd Node.left w;
                      do cwl <- get_color wl;
                      ret (color_eqb cwl RB_BLACK)
                    else ret false);
        if both then
          do_ set_color w RB_RED;
          do xp <- rd Node.parent x;
          delete_fixup_loop fuel map xp
        else
          do wl <- rd Node.left w;
          do cwl <- get_color wl;
          do w <- (if color_eqb cwl RB_BLACK then
                     do wr_ <- rd Node.right w;
                     do_ set_color wr_ RB_BLACK;
                     do_ set_color w RB_RED;
                     do_ left_rotate map w;
                     do xp <- rd Node.parent x;
                     rd Node.left xp
                   else ret w);
          do xp <- rd Node.parent x;
          do cxp <- get_color xp;
          do_ set_color w cxp;
          do_ set_color xp RB_BLACK;
          do wl <- rd Node.left w;
          do_ set_color wl RB_BLACK;
          do_ right_rotate map xp;
          do root <- rdm Map.root map;
          delete_fixup_loop fuel map root
  end.

Definition delete_fixup (map : positive) (x : node_ptr) : M unit :=
  do fuel <- get_fuel;
  do x <- delete_fixup_loop fuel map x;
  when (negb (is_nil x)) (set_color x RB_BLACK).

Fixpoint tree_search_loop (fuel : nat) (current : node_ptr) (key : void_ptr)
    (compare : option (list Z → list Z → Z)) : M node_ptr :=
  match fuel with
  | O => crash
  | S fuel =>
      if is_nil current then ret NIL else
      do ck <- rd Node.key current;
      do cmp <- call_compare compare key ck;
      if cmp =? 0 then ret current
      else if cmp <? 0 then
        do l <- rd Node.left current;
        tree_search_loop fuel l key compare
      else
        do r <- rd Node.right current;
        tree_search_loop fuel r key compare
  end.

Definition tree_search (root : node_ptr) (key : void_ptr)
    (compare : option (list Z → list Z → Z)) : M node_ptr :=
  do fuel <- get_fuel; tree_search_loop fuel root key compare.

Fixpoint tree_height_rec (fuel : nat) (node : node_ptr) : M N :=
  match fuel with
  | O => crash
  | S fuel =>
      if is_nil node then ret 0%N else
      do l <- rd Node.left node;
      do left_height <- tree_height_rec fuel l;
      do r <- rd Node.right node;
      do right_height <- tree_height_rec fuel r;
      ret (size_incr (if (right_height <? left_height)%N then left_height else right_height))
  end.

Definition tree_height (node : node_ptr) : M N :=
  do fuel <- get_fuel; tree_height_rec fuel node.

Fixpoint destroy_tree_rec (fuel : nat) (root : node_ptr) (config : Config.t) : M unit :=
  match fuel with
  | O => crash
  | S fuel =>
      if is_nil root then ret tt else
      do l <- rd Node.left root;
      do_ destroy_tree_rec fuel l config;
      do r <- rd Node.right root;
      do_ destroy_tree_rec fuel r config;
      destroy_node root config
  end.

Definition destroy_tree (root : node_ptr) (config : Config.t) : M unit :=
  do fuel <- get_fuel; destroy_tree_rec fuel root config.

(** ** Public API *)

(** [malloc(sizeof(ordered_map_t))] and [malloc(sizeof(ordered_map_iterator_t))] *)
Definition malloc_map (init : Map.t) : M (option positive) :=
  λ s, match avail s with
       | O => Some (None, s)
       | S n =>
           let a := fresh (dom (maps s)) in
           Some (Some a, set_avail n (set_maps (<[a := init]> (maps s)) s))
       end.

Definition malloc_iter (init : Iter.t) : M (option positive) :=
  λ s, match avail s with
       | O => Some (None, s)
       | S n =>
           let a := fresh (dom (iters s)) in
           Some (Some a, set_avail n (set_iters (<[a := init]> (iters s)) s))
       end.

Definition ordered_map_create (config : option Config.t) : M (option positive) :=
  match config with
  | None => ret None
  | Some cfg =>
      if Config.key_compare cfg is None then ret None else
      malloc_map (Map.Make NIL cfg 0 Stats.zero true)
  end.

Definition ordered_map_destroy (map : option positive) : M unit :=
  match map with
  | None => ret tt
  | Some m =>
      do root <- rdm Map.root m;
      do config <- rdm Map.config m;
      do_ destroy_tree root config;
      λ s, Some (tt, set_avail (S (avail s)) (set_maps (delete m (maps s)) s))
  end.

(** The statistics block of [ordered_map_insert], run when
    [map->stats_enabled]; [with_height] is set on the path that linked a
    new node. *)
Definition record_insert (m : positive) (with_height : bool) : M unit :=
  do enabled <- rdm Map.stats_enabled m;
  when enabled
    (do st <- rdm Map.stats m;
     do_ wrm (Map.set_stats (Stats.set_insert_count (size_incr (Stats.insert_count st)) st)) m;
     do st <- rdm Map.stats m;
     do_ wrm (Map.set_stats (Stats.set_total_operations (size_incr (Stats.total_operations st)) st)) m;
     when with_height
       (do root <- rdm Map.root m;
        do h <- tree_height root;
        do st <- rdm Map.stats m;
        do_ wrm (Map.set_stats (Stats.set_current_height h st)) m;
        do st <- rdm Map.stats m;
        when (Stats.max_height st <? Stats.current_height st)%N
          (wrm (Map.set_stats (Stats.set_max_height (Stats.current_height st) st)) m))).

(** The descent of [ordered_map_insert]:
    [while (x != NIL) { y = x; x = compare(new_node->key, x->key) < 0 ? x->left : x->right; }],
    yielding the final [y]. *)
Fixpoint insert_descend (fuel : nat) (compare : option (list Z → list Z → Z))
    (new_node y x : node_ptr) : M node_ptr :=
  match fuel with
  | O => crash
  | S fuel =>
      if is_nil x then ret y else
      do nk <- rd Node.key new_node;
      do xk <- rd Node.key x;
      do cmp <- call_compare compare nk xk;
      if cmp <? 0 then
        do l <- rd Node.left x;
        insert_descend fuel compare new_node x l
      else
        do r <- rd Node.right x;
        insert_descend fuel compare new_node x r
  end.

Definition ordered_map_insert (map : option positive) (key value : void_ptr)
    : M ordered_map_error_t :=
  match map with
  | None => ret ORDERED_MAP_ERROR_NULL_POINTER
  | Some m =>
  if is_null key || is_null value then ret ORDERED_MAP_ERROR_NULL_POINTER else
  do config <- rdm Map.config m;
  (* Check if key already exists *)
  do root <- rdm Map.root m;
  do existing <- tree_search root key (Config.key_compare config);
  if negb (is_nil existing) then
    (* Update existing value *)
    do_ when (Config.value_destructor config)
          (do old <- rd Node.value existing; log (EvValueDestructor old));
    do stored <-
      (if (0 <? Config.value_size config)%N then
         do old <- rd Node.value existing;
         do new_bytes <- memcpy_into old value (Config.value_size config);
         do_ wr (Node.set_value new_bytes) existing;
         ret true
       else
         match Config.value_copy config with
         | Some copy =>
             do new_value <- call_copy copy value;
             if is_null new_value then ret false else
             do_ when (Config.value_destructor config)
                   (do old <- rd Node.value existing; log (EvValueDestructor old));
             do_ wr (Node.set_value new_value) existing;
             ret true
         | None =>
             do_ wr (Node.set_value value) existing;
             ret true
         end);
    if negb stored then ret ORDERED_MAP_ERROR_OUT_OF_MEMORY else
    do_ record_insert m false;
    ret ORDERED_MAP_SUCCESS
  else
  (* Create new node *)
  do new_node <- create_node key value config;
  if is_nil new_node then ret ORDERED_MAP_ERROR_OUT_OF_MEMORY else
  (* Insert into tree *)
  do x <- rdm Map.root m;
  do fuel <- get_fuel;
  do y <- insert_descend fuel (Config.key_compare config) new_node NIL x;
  do_ wr (Node.set_parent y) new_node;
  do_ (if is_nil y then wrm (Map.set_root new_node) m
       else
         do nk <- rd Node.key new_node;
         do yk <- rd Node.key y;
         do cmp <- call_compare (Config.key_compare config) nk yk;
         if cmp <? 0 then wr (Node.set_left new_node) y
         else wr (Node.set_right new_node) y);
  (* Fix Red-Black Tree properties *)
  do_ insert_fixup m new_node;
  do sz <- rdm Map.size m;
  do_ wrm (Map.set_size (size_incr sz)) m;
  do_ record_insert m true;
  ret ORDERED_MAP_SUCCESS
  end.

(** The statistics block of [ordered_map_remove]. *)
Definition record_remove (m : positive) : M unit :=
  do enabled <- rdm Map.stats_enabled m;
  when enabled
    (do st <- rdm Map.stats m;
     do_ wrm (Map.set_stats (Stats.set_delete_count (size_incr (Stats.delete_count st)) st)) m;
     do st <- rdm Map.stats m;
     do_ wrm (Map.set_stats (Stats.set_total_operations (size_incr (Stats.total_operations st)) st)) m;
     do root <- rdm Map.root m;
     do h <- tree_height root;
     do st <- rdm Map.stats m;
     wrm (Map.set_stats (Stats.set_current_height h st)) m).

Definition ordered_map_remove (map : option positive) (key : void_ptr)
    : M ordered_map_error_t :=
  match map with
  | None => ret ORDERED_MAP_ERROR_NULL_POINTER
  | Some m =>
  if is_null key then ret ORDERED_MAP_ERROR_NULL_POINTER else
  do config <- rdm Map.config m;
  do root <- rdm Map.root m;
  do z <- tree_search root key (Config.key_compare config);
  if is_nil z then ret ORDERED_MAP_ERROR_KEY_NOT_FOUND else
  do zc <- rd Node.color z;
  do zl <- rd Node.left z;
  do zr <- rd Node.right z;
  do '(x, y_original_color) <-
    (if is_nil zl then
       do_ transplant m z zr;
       ret (zr, zc)
     else if is_nil zr then
       do_ transplant m z zl;
       ret (zl, zc)
     else
       do y <- tree_minimum zr;
       do y_original_color <- rd Node.color y;
       do x <- rd Node.right y;
       do yp <- rd Node.parent y;
       do_ (if ptr_eqb yp z then
              when (negb (is_nil x)) (wr (Node.set_parent y) x)
            else
              do yr <- rd Node.right y;
              do_ transplant m y yr;
              do zr <- rd Node.right z;
              do_ wr (Node.set_right zr) y;
              do yr <- rd Node.right y;
              when (negb (is_nil yr)) (wr (Node.set_parent y) yr));
       do_ transplant m z y;
       do zl <- rd Node.left z;
       do_ wr (Node.set_left zl) y;
       do yl <- rd Node.left y;
       do_ wr (Node.set_parent y) yl;
       do zc <- rd Node.color z;
       do_ wr (Node.set_color zc) y;
       ret (x, y_original_color));
  do_ when (color_eqb y_original_color RB_BLACK) (delete_fixup m x);
  do_ destroy_node z config;
  do sz <- rdm Map.size m;
  do_ wrm (Map.set_size (size_decr sz)) m;
  do_ record_remove m;
  ret ORDERED_MAP_SUCCESS
  end.

(** The statistics block shared by [ordered_map_get] and
    [ordered_map_contains]. *)
Definition record_search (m : positive) : M unit :=
  do enabled <- rdm Map.stats_enabled m;
  when enabled
    (do st <- rdm Map.stats m;
     do_ wrm (Map.set_stats (Stats.set_search_count (size_incr (Stats.search_count st)) st)) m;
     do st <- rdm Map.stats m;
     wrm (Map.set_stats (Stats.set_total_operations (size_incr (Stats.total_operations st)) st)) m).

Definition ordered_map_get (map : option positive) (key : void_ptr) : M void_ptr :=
  match map with
  | None => ret NULL
  | Some m =>
      if is_null key then ret NULL else
      do root <- rdm Map.root m;
      do config <- rdm Map.config m;
      do node <- tree_search root key (Config.key_compare config);
      do_ record_search m;
      if negb (is_nil node) then rd Node.value node else ret NULL
  end.

Definition ordered_map_contains (map : option positive) (key : void_ptr) : M bool :=
  match map with
  | None => ret false
  | Some m =>
      if is_null key then ret false else
      do root <- rdm Map.root m;
      do config <- rdm Map.config m;
      do node <- tree_search root key (Config.key_compare config);
      let result := negb (is_nil node) in
      do_ record_search m;
      ret result
  end.

Definition ordered_map_empty (map : option positive) : M bool :=
  match map with
  | None => ret true
  | Some m => do sz <- rdm Map.size m; ret (sz =? 0)%N
  end.

Definition ordered_map_size (map : option positive) : M N :=
  match map with
  | None => ret 0%N
  | Some m => rdm Map.size m
  end.

Definition ordered_map_get_or_default (map : option positive) (key default_value : void_ptr)
    : M void_ptr :=
  do value <- ordered_map_get map key;
  if negb (is_null value) then ret value else ret default_value.

Definition ordered_map_put_if_absent (map : option positive) (key value : void_ptr)
    : M ordered_map_error_t :=
  do present <- ordered_map_contains map key;
  if present then ret ORDERED_MAP_SUCCESS
  else ordered_map_insert map key value.

Definition ordered_map_replace (map : option positive) (key value : void_ptr)
    : M ordered_map_error_t :=
  do present <- ordered_map_contains map key;
  if negb present then ret ORDERED_MAP_ERROR_KEY_NOT_FOUND
  else ordered_map_insert map key value.

Definition ordered_map_replace_if_present (map : option positive) (key value : void_ptr)
    : M ordered_map_error_t :=
  do present <- ordered_map_contains map key;
  if negb present then ret ORDERED_MAP_SUCCESS
  else ordered_map_insert map key value.

Definition ordered_map_min_key (map : option positive) : M void_ptr :=
  match map with
  | None => ret NULL
  | Some m =>
      do root <- rdm Map.root m;
      if is_nil root then ret NULL else
      do n <- tree_minimum root; rd Node.key n
  end.

Definition ordered_map_max_key (map : option positive) : M void_ptr :=
  match map with
  | None => ret NULL
  | Some m =>
      do root <- rdm Map.root m;
      if is_nil root then ret NULL else
      do n <- tree_maximum root; rd Node.key n
  end.

Definition ordered_map_clear (map : option positive) : M ordered_map_error_t :=
  match map with
  | None => ret ORDERED_MAP_ERROR_NULL_POINTER
  | Some m =>
      do root <- rdm Map.root m;
      do config <- rdm Map.config m;
      do_ destroy_tree root config;
      do_ wrm (Map.set_root NIL) m;
      do_ wrm (Map.set_size 0%N) m;
      ret ORDERED_MAP_SUCCESS
  end.

(** ** Iterators *)

Definition ordered_map_iterator_create (map : option positive)
    (direction : ordered_map_iter_direction_t) : M (option positive) :=
  match map with
  | None => ret None
  | Some m =>
      do iter <- malloc_iter (Iter.Make map NIL direction true);
      match iter with
      | None => ret None
      | Some it =>
          do root <- rdm Map.root m;
          do_ (if is_nil root then wri (Iter.set_current NIL) it
               else
                 do c <- (if bool_decide (direction = ORDERED_MAP_ITER_FORWARD)
                          then tree_minimum root else tree_maximum root);
                 wri (Iter.set_current c) it);
          ret iter
      end
  end.

Definition ordered_map_iterator_destroy (iter : option positive) : M unit :=
  match iter with
  | None => ret tt
  | Some it =>
      λ s, match iters s !! it with
           | Some _ => Some (tt, set_avail (S (avail s)) (set_iters (delete it (iters s)) s))
           | None => None
           end
  end.

Definition ordered_map_iterator_has_next (iter : option positive) : M bool :=
  match iter with
  | None => ret false
  | Some it =>
      do v <- rdi Iter.valid it;
      do c <- rdi Iter.current it;
      ret (v && negb (is_nil c))
  end.

Definition ordered_map_iterator_next (iter : option positive) : M ordered_map_error_t :=
  match iter with
  | None => ret ORDERED_MAP_ERROR_NULL_POINTER
  | Some it =>
      do v <- rdi Iter.valid it;
      if negb v then ret ORDERED_MAP_ERROR_ITERATOR_INVALID else
      do c <- rdi Iter.current it;
      if is_nil c then ret ORDERED_MAP_ERROR_ITERATOR_END else
      do d <- rdi Iter.direction it;
      do n <- (if bool_decide (d = ORDERED_MAP_ITER_FORWARD)
               then tree_successor c else tree_predecessor c);
      do_ wri (Iter.set_current n) it;
      ret ORDERED_MAP_SUCCESS
  end.

Definition ordered_map_iterator_key (iter : option positive) : M void_ptr :=
  match iter with
  | None => ret NULL
  | Some it =>
      do c <- rdi Iter.current it;
      if is_nil c then ret NULL else rd Node.key c
  end.

Definition ordered_map_iterator_value (iter : option positive) : M void_ptr :=
  match iter with
  | None => ret NULL
  | Some it =>
      do c <- rdi Iter.current it;
      if is_nil c then ret NULL else rd Node.value c
  end.

(** The traversal loop of [ordered_map_print],
    [while (has_next(iter)) { key(iter); value(iter); next(iter); }],
    with the pairs handed to the two printers collected in order. *)
Fixpoint iterate_loop (fuel : nat) (iter : option positive) : M (list (void_ptr * void_ptr)) :=
  match fuel with
  | O => crash
  | S fuel =>
      do more <- ordered_map_iterator_has_next iter;
      if negb more then ret [] else
      do k <- ordered_map_iterator_key iter;
      do v <- ordered_map_iterator_value iter;
      do_ ordered_map_iterator_next iter;
      do rest <- iterate_loop fuel iter;
      ret ((k, v) :: rest)
  end.

(** A full traversal by a cursor of the given direction: create the
    iterator, advance until past the end, destroy it.  [None] when the
    iterator could not be created. *)
Definition traverse (map : option positive) (direction : ordered_map_iter_direction_t)
    : M (option (list (void_ptr * void_ptr))) :=
  do iter <- ordered_map_iterator_create map direction;
  if iter is None then ret None else
  do fuel <- get_fuel;
  do out <- iterate_loop fuel iter;
  do_ ordered_map_iterator_destroy iter;
  ret (Some out).

(** ** Diagnostics *)

Definition ordered_map_validate (map : option positive) : M bool :=
  match map with
  | None => ret false
  | Some _ => ret true (* Placeholder *)
  end.

(** ** The red-black invariants, as checks over the memory *)

Fixpoint black_height (fuel : nat) (h : gmap positive Node.t) (p : node_ptr) : option nat :=
  match fuel with
  | O => None
  | S fuel =>
      match p with
      | None => Some O
      | Some a =>
          match h !! a with
          | None => None
          | Some n =>
              match black_height fuel h (Node.left n), black_height fuel h (Node.right n) with
              | Some bl, Some br =>
                  if decide (bl = br)
                  then Some (if Node.color n is RB_BLACK then S bl else bl)
                  else None
              | _, _ => None
              end
          end
      end
  end.

Definition color_of (h : gmap positive Node.t) (p : node_ptr) : rb_color_t :=
  match p with
  | None => RB_BLACK
  | Some a => if h !! a is Some n then Node.color n else RB_BLACK
  end.

Fixpoint no_red_red (fuel : nat) (h : gmap positive Node.t) (p : node_ptr) : bool :=
  match fuel with
  | O => false
  | S fuel =>
      match p with
      | None => true
      | Some a =>
          match h !! a with
          | None => false
          | Some n =>
              (if Node.color n is RB_RED
               then color_eqb (color_of h (Node.left n)) RB_BLACK
                    && color_eqb (color_of h (Node.right n)) RB_BLACK
               else true)
              && no_red_red fuel h (Node.left n) && no_red_red fuel h (Node.right n)
          end
      end
  end.

(** Invariant 2: the root is black. *)
Definition root_is_black (map : positive) : M bool :=
  λ s, if maps s !! map is Some m
       then Some (color_eqb (color_of (nodes s) (Map.root m)) RB_BLACK, s)
       else None.

(** Invariant 4: no red node has a red child. *)
Definition red_nodes_have_black_children (map : positive) : M bool :=
  λ s, if maps s !! map is Some m
       then Some (no_red_red (S (size (nodes s))) (nodes s) (Map.root m), s)
       else None.

(** Invariant 5: every path from a node to its descendant leaves passes
    through the same number of black nodes. *)
Definition black_heights_agree (map : positive) : M bool :=
  λ s, if maps s !! map is Some m
       then Some (bool_decide (is_Some (black_height (S (size (nodes s))) (nodes s) (Map.root m))), s)
       else None.

Definition red_black_invariants (map : positive) : M bool :=
  do a <- root_is_black map;
  do b <- red_nodes_have_black_children map;
  do c <- black_heights_agree map;
  ret (a && b && c).

(** ** Callbacks and configurations of the test suite *)

(** Reading an [int] through a pointer, on a little-endian machine. *)
Definition int_of_bytes (bs : list Z) : Z :=
  let u := foldr (λ b acc, b + 256 * acc) 0 (take 4 bs) in
  if u <? 2 ^ 31 then u else u - 2 ^ 32.

Definition bytes_of_int (n : Z) : list Z :=
  [n mod 256; (n / 256) mod 256; (n / 65536) mod 256; (n / 16777216) mod 256].

(** [int_compare] of [tests/test_ordered_map.c] *)
Definition int_compare (a b : list Z) : Z :=
  let ia := int_of_bytes a in
  let ib := int_of_bytes b in
  (if ib <? ia then 1 else 0) - (if ia <? ib then 1 else 0).

(** The configuration of the integer tests: inline keys and values of
    [sizeof(int)] bytes, with the no-op [int_destructor] as both hooks. *)
Definition int_config : Config.t :=
  Config.Make (Some int_compare) true true None None 4 4.

(** A configuration in copy/destroy mode, as in the string and
    [test_data_t] tests: both copy hooks duplicate their argument, both
    destructor hooks are present, both sizes are 0. *)
Definition copy_config : Config.t :=
  Config.Make (Some int_compare) true true (Some (λ bs, Some bs)) (Some (λ bs, Some bs)) 0 0.

(** The same with a value copy hook that fails ([NULL]) on any value
    longer than four bytes. *)
Definition short_value_copy (bs : list Z) : option (list Z) :=
  if decide (length bs ≤ 4)%nat then Some bs else None.

Definition failing_copy_config : Config.t :=
  Config.Make (Some int_compare) true true (Some (λ bs, Some bs)) (Some short_value_copy) 0 0.

(** A pointer to a caller's [int] holding [n], at address [a]. *)
Definition int_at (a : positive) (n : Z) : void_ptr := Some (Obj a (bytes_of_int n)).

(** A memory with nothing allocated and room for a hundred allocations;
    payload buffers are handed out from address 1000. *)
Definition boot : state := State ∅ ∅ ∅ 1000%positive 100 [].

(** [insert(map, &k, &v)] for each [(k, v)] in turn, the caller's two
    variables living at addresses 1 and 2; the list of the results. *)
Fixpoint insert_all (map : option positive) (kvs : list (Z * Z)) : M (list ordered_map_error_t) :=
  match kvs with
  | [] => ret []
  | (k, v) :: kvs =>
      do e <- ordered_map_insert map (int_at 1 k) (int_at 2 v);
      do es <- insert_all map kvs;
      ret (e :: es)
  end.

(** The stored value of the node that holds the key, read from the tree
    without going through the public getters. *)
Definition stored_value (map : option positive) (key : void_ptr) : M void_ptr :=
  match map with
  | None => ret NULL
  | Some m =>
      do root <- rdm Map.root m;
      do config <- rdm Map.config m;
      do node <- tree_search root key (Config.key_compare config);
      if is_nil node then ret NULL else rd Node.value node
  end.

Definition get_trace : M (list event) := λ s, Some (trace s, s).

(** [run prog s] is the result of [prog] from [s], without the final memory. *)
Definition run {A} (prog : M A) (s : state) : option A := fst <$> prog s.

(** ** Scenarios *)

(** Insert 1, 2, 3, 4 into a new integer map and remove 1, which by then
    is a black leaf.  Reported: the results of the inserts, the three
    invariants just before the removal, the result of the removal, then
    invariants 2, 4 and 5 and the answer of [ordered_map_validate] after
    it. *)
Definition remove_black_leaf : M (list ordered_map_error_t * bool * ordered_map_error_t
                                  * bool * bool * bool * bool) :=
  do map <- ordered_map_create (Some int_config);
  do es <- insert_all map [(1, 10); (2, 20); (3, 30); (4, 40)];
  do before <- (if map is Some m then red_black_invariants m else ret false);
  do e <- ordered_map_remove map (int_at 1 1);
  do rb <- (if map is Some m then root_is_black m else ret false);
  do rr <- (if map is Some m then red_nodes_have_black_children m else ret false);
  do bh <- (if map is Some m then black_heights_agree m else ret false);
  do v <- ordered_map_validate map;
  ret (es, before, e, rb, rr, bh, v).

(** Insert (7, 70) into a new map of the given configuration, then insert
    key 7 again with the value [v2].  Reported: the result of the first
    insert, the stored value and the trace after it, then the result of
    the second insert and the stored value, the trace and the size after
    it. *)
Definition overwrite (cfg : Config.t) (v2 : void_ptr)
    : M (ordered_map_error_t * void_ptr * list event
         * ordered_map_error_t * void_ptr * list event * N) :=
  do map <- ordered_map_create (Some cfg);
  do e1 <- ordered_map_insert map (int_at 1 7) (int_at 2 70);
  do old <- stored_value map (int_at 1 7);
  do t1 <- get_trace;
  do e2 <- ordered_map_insert map (int_at 1 7) v2;
  do new <- stored_value map (int_at 1 7);
  do t2 <- get_trace;
  do sz <- ordered_map_size map;
  ret (e1, old, t1, e2, new, t2, sz).



(** The number of calls of the value destructor on [p] in a trace. *)
Definition value_destructions (p : void_ptr) (t : list event) : nat :=
  length (filter (λ e, e = EvValueDestructor p) t).

(** ** The tree that a memory represents *)

(** The shape of a tree of nodes: which address sits where. *)
Inductive tree := Leaf | Br (l : tree) (a : positive) (r : tree).

Global Instance tree_eq_dec : EqDecision tree.
Proof. solve_decision. Defined.

Fixpoint inorder (t : tree) : list positive :=
  match t with
  | Leaf => []
  | Br l a r => inorder l ++ a :: inorder r
  end.

(** The pointer to a tree: the address of its root node, [NIL] for the
    empty tree. *)
Definition troot (t : tree) : node_ptr :=
  match t with
  | Leaf => NIL
  | Br _ a _ => Some a
  end.

Fixpoint height (t : tree) : nat :=
  match t with
  | Leaf => O
  | Br l _ r => S (Nat.max (height l) (height r))
  end.

(** [rep h t par]: in the node heap [h] the nodes of [t] are linked as [t]
    says, children to parents as well as parents to children, and the
    root of [t] has parent pointer [par]. *)
Fixpoint rep (h : gmap positive Node.t) (t : tree) (par : node_ptr) : Prop :=
  match t with
  | Leaf => True
  | Br l a r =>
      ∃ n, h !! a = Some n
           ∧ Node.parent n = par
           ∧ Node.left n = troot l
           ∧ Node.right n = troot r
           ∧ rep h l (Some a)
           ∧ rep h r (Some a)
  end.

(** A tree with a hole, as the list of steps from the hole up to the
    root: the hole is the left child of [a], whose right subtree is [r],
    or the right child of [a], whose left subtree is [l]. *)
Inductive step := InL (a : positive) (r : tree) | InR (l : tree) (a : positive).

Global Instance step_eq_dec : EqDecision step.
Proof. solve_decision. Defined.

Fixpoint plug (c : list step) (t : tree) : tree :=
  match c with
  | [] => t
  | InL a r :: c => plug c (Br t a r)
  | InR l a :: c => plug c (Br l a t)
  end.

(** The parent of the hole. *)
Definition cparent (c : list step) : node_ptr :=
  match c with
  | [] => NIL
  | InL a _ :: _ => Some a
  | InR _ a :: _ => Some a
  end.

(** The addresses before and after the hole, in order. *)
Fixpoint cbefore (c : list step) : list positive :=
  match c with
  | [] => []
  | InL _ _ :: c => cbefore c
  | InR l a :: c => cbefore c ++ inorder l ++ [a]
  end.

Fixpoint cafter (c : list step) : list positive :=
  match c with
  | [] => []
  | InL a r :: c => a :: inorder r ++ cafter c
  | InR _ _ :: c => cafter c
  end.

(** [crep h c p]: the nodes around the hole are linked as [c] says, with
    the pointer [p] in the hole. *)
Fixpoint crep (h : gmap positive Node.t) (c : list step) (p : node_ptr) : Prop :=
  match c with
  | [] => True
  | InL a r :: c =>
      ∃ n, h !! a = Some n
           ∧ Node.parent n = cparent c
           ∧ Node.left n = p
           ∧ Node.right n = troot r
           ∧ rep h r (Some a)
           ∧ crep h c (Some a)
  | InR l a :: c =>
      ∃ n, h !! a = Some n
           ∧ Node.parent n = cparent c
           ∧ Node.left n = troot l
           ∧ Node.right n = p
           ∧ rep h l (Some a)
           ∧ crep h c (Some a)
  end.

(** The bytes of the key stored in the node at [a]. *)
Definition key_bytes (h : gmap positive Node.t) (a : positive) : list Z :=
  match h !! a with
  | Some n => if Node.key n is Some o then obj_bytes o else []
  | None => []
  end.

(** The laws of a comparator: a strict order whose incomparable keys are
    the equal ones. *)
Record comparator_laws (cmp : list Z → list Z → Z) : Prop := {
  cmp_antisym : ∀ a b, cmp a b < 0 ↔ 0 < cmp b a;
  cmp_lt_le_trans : ∀ a b c, cmp a b < 0 → cmp b c ≤ 0 → cmp a c < 0;
  cmp_le_lt_trans : ∀ a b c, cmp a b ≤ 0 → cmp b c < 0 → cmp a c < 0
}.

(** Every node of the tree holds a key and a value; a value stored inline
    fills a buffer of [value_size] bytes. *)
Definition payloads (cfg : Config.t) (h : gmap positive Node.t) (t : tree) : Prop :=
  ∀ a, a ∈ inorder t →
    ∃ n ko vo, h !! a = Some n
               ∧ Node.key n = Some ko
               ∧ Node.value n = Some vo
               ∧ ((0 < Config.value_size cfg)%N →
                  length (obj_bytes vo) = N.to_nat (Config.value_size cfg)).

(** The keys ascend strictly along the in-order sequence. *)
Definition ordered (cmp : list Z → list Z → Z) (h : gmap positive Node.t) (l : list positive) : Prop :=
  StronglySorted (λ a b, cmp (key_bytes h a) (key_bytes h b) < 0) l.

(** [well_formed s map t]: the map at [map] is a search tree of shape [t]:
    its header points at the root of [t], the nodes are linked as [t]
    says and are pairwise distinct, each holds a key and a value, the keys
    ascend in order under the map's comparator, which obeys the laws, the
    root is black, and the size field is a [size_t]. *)
Definition well_formed (s : state) (map : positive) (t : tree) : Prop :=
  ∃ m cmp,
    maps s !! map = Some m
    ∧ Map.root m = troot t
    ∧ Config.key_compare (Map.config m) = Some cmp
    ∧ comparator_laws cmp
    ∧ (Map.size m < SIZE_MOD)%N
    ∧ rep (nodes s) t NIL
    ∧ NoDup (inorder t)
    ∧ payloads (Map.config m) (nodes s) t
    ∧ ordered cmp (nodes s) (inorder t)
    ∧ color_of (nodes s) (troot t) = RB_BLACK.

(** The key and value pointers held by the node at [a]. *)
Definition binding (h : gmap positive Node.t) (a : positive) : void_ptr * void_ptr :=
  match h !! a with
  | Some n => (Node.key n, Node.value n)
  | None => (NULL, NULL)
  end.

(** An executable reading of the shape of the tree below a pointer, for
    checking a given memory. *)
Fixpoint shape_of (fuel : nat) (h : gmap positive Node.t) (p par : node_ptr) : option tree :=
  match fuel with
  | O => None
  | S fuel =>
      match p with
      | None => Some Leaf
      | Some a =>
          match h !! a with
          | None => None
          | Some n =>
              if decide (Node.parent n = par) then
                match shape_of fuel h (Node.left n) p, shape_of fuel h (Node.right n) p with
                | Some l, Some r => Some (Br l a r)
                | _, _ => None
                end
              else None
          end
      end
  end.

(** The element that follows [x] in a list, as a pointer. *)
Fixpoint next_in (x : positive) (l : list positive) : node_ptr :=
  match l with
  | [] => NIL
  | a :: l => if decide (a = x) then head l else next_in x l
  end.

(** The order in which a cursor of the given direction visits the nodes. *)
Definition visit_order (d : ordered_map_iter_direction_t) (l : list positive) : list positive :=
  if d is ORDERED_MAP_ITER_FORWARD then l else reverse l.

(** The bytes behind a payload pointer. *)
Definition ptr_bytes (p : void_ptr) : list Z :=
  if p is Some o then obj_bytes o else [].

(** The first node of a list whose key the comparator finds equal to the
    bytes [kb]. *)
Definition find_key (cmp : list Z → list Z → Z) (h : gmap positive Node.t)
    (kb : list Z) (l : list positive) : node_ptr :=
  head (filter (λ a, cmp kb (key_bytes h a) = 0) l).

(** The bytes that a key or value has once stored, by ownership mode:
    the first [size] bytes, or what the copy hook returns, or the bytes
    themselves; [None] when they cannot be stored (the source object is
    shorter than [size], or the hook fails). *)
Definition stored_bytes (size : N) (copy : option (list Z → option (list Z)))
    (bs : list Z) : option (list Z) :=
  if (0 <? size)%N then
    if decide (N.to_nat size ≤ length bs)%nat then Some (take (N.to_nat size) bs) else None
  else
    match copy with
    | Some f => f bs
    | None => Some bs
    end.

(** [same_contents map s s']: from [s] to [s'] nothing that a client can
    observe of the map has changed: the nodes, the root, the size, the
    configuration and the trace of releases are the same (the statistics
    may differ). *)
Definition same_contents (map : positive) (s s' : state) : Prop :=
  nodes s' = nodes s
  ∧ trace s' = trace s
  ∧ iters s' = iters s
  ∧ avail s' = avail s
  ∧ brk s' = brk s
  ∧ ∃ m m', maps s !! map = Some m
            ∧ maps s' !! map = Some m'
            ∧ Map.root m' = Map.root m
            ∧ Map.size m' = Map.size m
            ∧ Map.config m' = Map.config m.

(** What the update path of [ordered_map_insert] hands to the value
    destructor when it stores the new value, [old] being the value the
    node held: [old] once before anything is stored and, when the new
    value comes from the copy hook, [old] once more after the hook has
    returned. *)
Definition overwrite_release (cfg : Config.t) (old : void_ptr) : list event :=
  (if Config.value_destructor cfg then [EvValueDestructor old] else [])
  ++ (if (0 <? Config.value_size cfg)%N then []
      else match Config.value_copy cfg with
           | Some _ => if Config.value_destructor cfg then [EvValueDestructor old] else []
           | None => []
           end).

(** The three links of a node. *)
Definition links (n : Node.t) : node_ptr * node_ptr * node_ptr :=
  (Node.parent n, Node.left n, Node.right n).

(** ** Checking a given memory *)

Definition check_payloads (cfg : Config.t) (h : gmap positive Node.t) (l : list positive) : bool :=
  forallb (λ a,
    match h !! a with
    | Some n =>
        match Node.key n, Node.value n with
        | Some _, Some vo =>
            if (0 <? Config.value_size cfg)%N
            then bool_decide (length (obj_bytes vo) = N.to_nat (Config.value_size cfg))
            else true
        | _, _ => false
        end
    | None => false
    end) l.

Fixpoint check_ascending (cmp : list Z → list Z → Z) (ks : list (list Z)) : bool :=
  match ks with
  | [] => true
  | k :: ks => forallb (λ k', cmp k k' <? 0) ks && check_ascending cmp ks
  end.

(** The shape of the tree of a map when everything in [well_formed]
    that can be computed holds of it; the laws of the comparator are left
    to be proved. *)
Definition check_well_formed (s : state) (map : positive) : option tree :=
  match maps s !! map with
  | None => None
  | Some m =>
      match Config.key_compare (Map.config m),
            shape_of (S (size (nodes s))) (nodes s) (Map.root m) NIL with
      | Some cmp, Some t =>
          if bool_decide (NoDup (inorder t))
             && check_payloads (Map.config m) (nodes s) (inorder t)
             && check_ascending cmp (key_bytes (nodes s) <$> inorder t)
             && color_eqb (color_of (nodes s) (Map.root m)) RB_BLACK
             && (Map.size m <? SIZE_MOD)%N
          then Some t else None
      | _, _ => None
      end
  end.

(** The memory after [ordered_map_create] and nine inserts, the first
    scenario of the specification; the map is at address 1. *)
Definition demo_state : state :=
  match (do map <- ordered_map_create (Some int_config);
         insert_all map [(5, 50); (2, 20); (8, 80); (1, 10); (9, 90);
                         (3, 30); (7, 70); (4, 40); (6, 60)]) boot with
  | Some (_, s) => s
  | None => boot
  end.

Definition demo_tree : tree :=
  default Leaf (check_well_formed demo_state 1).

(** The configuration of the integer maps of the examples: inline keys
    and values of [sizeof(int)] bytes and no hooks. *)
Definition plain_config : Config.t :=
  Config.Make (Some int_compare) false false None None 4 4.

(** A map of that configuration with five bindings. *)
Definition plain_state : state :=
  match (do map <- ordered_map_create (Some plain_config);
         insert_all map [(4, 40); (2, 20); (6, 60); (1, 10); (3, 30)]) boot with
  | Some (_, s) => s
  | None => boot
  end.

Definition plain_tree : tree :=
  default Leaf (check_well_formed plain_state 1).

(** The map at [map] has the tree [t]: the header points at its root and
    the nodes are linked as [t] says, each address once. *)
Definition tree_at (map : positive) (s : state) (t : tree) : Prop :=
  ∃ m, maps s !! map = Some m
       ∧ Map.root m = troot t
       ∧ rep (nodes s) t NIL
       ∧ NoDup (inorder t).

(** What stays the same through rotations and recolourings: the key and
    the value of every node, every field of the header but the root, and
    the rest of the memory. *)
Definition payload (n : Node.t) : void_ptr * void_ptr := (Node.key n, Node.value n).

Definition header (m : Map.t) : Config.t * N * Stats.t * bool :=
  (Map.config m, Map.size m, Map.stats m, Map.stats_enabled m).

Record surgery (map : positive) (s s' : state) : Prop := {
  surgery_payload : ∀ a, payload <$> nodes s' !! a = payload <$> nodes s !! a;
  surgery_header : header <$> maps s' !! map = header <$> maps s !! map;
  surgery_iters : iters s' = iters s;
  surgery_brk : brk s' = brk s;
  surgery_avail : avail s' = avail s;
  surgery_trace : trace s' = trace s
}.

(** [leaf_in n t]: the node [n] is in [t] and has no children. *)
Definition leaf_in (n : positive) (t : tree) : Prop :=
  ∃ c, t = plug c (Br Leaf n Leaf).

(** Where the node just inserted sits once [insert_fixup] is done: it is
    still a leaf, or it was rotated up by a double rotation and then has
    a left subtree and a red right child that has no left child. *)
Definition inserted_shape (n : positive) (h : gmap positive Node.t) (t : tree) : Prop :=
  leaf_in n t
  ∨ ∃ c l y r, t = plug c (Br l n (Br Leaf y r))
               ∧ l ≠ Leaf
               ∧ color_of h (Some y) = RB_RED.

(** Where the node just inserted sits while [insert_fixup] runs at [z]:
    it is [z] itself, still without children, or a leaf below [z]. *)
Definition inserted_under (n : positive) (l : tree) (z : positive) (r : tree) : Prop :=
  (z = n ∧ l = Leaf ∧ r = Leaf) ∨ leaf_in n l ∨ leaf_in n r.

(** An object can be read by [memcpy] over [size] bytes. *)
Definition readable (size : N) (o : object) : Prop :=
  (0 < size)%N → (N.to_nat size ≤ length (obj_bytes o))%nat.

(** * The rest of the public API *)

(** [ordered_map_min_value], [ordered_map_max_value] *)
Definition ordered_map_min_value (map : option positive) : M void_ptr :=
  match map with
  | None => ret NULL
  | Some m =>
      do root <- rdm Map.root m;
      if is_nil root then ret NULL else
      do n <- tree_minimum root; rd Node.value n
  end.

Definition ordered_map_max_value (map : option positive) : M void_ptr :=
  match map with
  | None => ret NULL
  | Some m =>
      do root <- rdm Map.root m;
      if is_nil root then ret NULL else
      do n <- tree_maximum root; rd Node.value n
  end.

(** [copy_tree]: the recursion is bounded by the fuel of the caller. *)
Fixpoint copy_tree_rec (fuel : nat) (root : node_ptr) (config : Config.t) : M node_ptr :=
  match fuel with
  | O => crash
  | S fuel =>
      if is_nil root then ret NIL else
      do k <- rd Node.key root;
      do v <- rd Node.value root;
      do new_node <- create_node k v config;
      if is_nil new_node then ret NIL else
      do l <- rd Node.left root;
      do nl <- copy_tree_rec fuel l config;
      do_ wr (Node.set_left nl) new_node;
      do nl <- rd Node.left new_node;
      do_ when (negb (is_nil nl)) (wr (Node.set_parent new_node) nl);
      do r <- rd Node.right root;
      do nr <- copy_tree_rec fuel r config;
      do_ wr (Node.set_right nr) new_node;
      do nr <- rd Node.right new_node;
      do_ when (negb (is_nil nr)) (wr (Node.set_parent new_node) nr);
      do c <- rd Node.color root;
      do_ wr (Node.set_color c) new_node;
      ret new_node
  end.

Definition copy_tree (root : node_ptr) (config : Config.t) : M node_ptr :=
  do fuel <- get_fuel; copy_tree_rec fuel root config.

(** [ordered_map_copy] *)
Definition ordered_map_copy (map : option positive) : M (option positive) :=
  match map with
  | None => ret None
  | Some m =>
      do config <- rdm Map.config m;
      do new_map <- ordered_map_create (Some config);
      match new_map with
      | None => ret None
      | Some nm =>
          do root <- rdm Map.root m;
          do config <- rdm Map.config m;
          do new_root <- copy_tree root config;
          do_ wrm (Map.set_root new_root) nm;
          do sz <- rdm Map.size m;
          do_ wrm (Map.set_size sz) nm;
          do st <- rdm Map.stats m;
          do_ wrm (Map.set_stats st) nm;
          do en <- rdm Map.stats_enabled m;
          do_ wrm (λ x, Map.Make (Map.root x) (Map.config x) (Map.size x) (Map.stats x) en) nm;
          ret new_map
      end
  end.

(** [iter->map], dereferenced *)
Definition iter_map (it : positive) : M positive :=
  do mp <- rdi Iter.map it;
  if mp is Some m then ret m else crash.

(** [ordered_map_iterator_seek] *)
Definition ordered_map_iterator_seek (iter : option positive) (key : void_ptr)
    : M ordered_map_error_t :=
  match iter with
  | None => ret ORDERED_MAP_ERROR_NULL_POINTER
  | Some it =>
      if is_null key then ret ORDERED_MAP_ERROR_NULL_POINTER else
      do m <- iter_map it;
      do root <- rdm Map.root m;
      do config <- rdm Map.config m;
      do c <- tree_search root key (Config.key_compare config);
      do_ wri (Iter.set_current c) it;
      do c <- rdi Iter.current it;
      if negb (is_nil c) then ret ORDERED_MAP_SUCCESS
      else ret ORDERED_MAP_ERROR_KEY_NOT_FOUND
  end.

(** [ordered_map_iterator_seek_first], [ordered_map_iterator_seek_last] *)
Definition ordered_map_iterator_seek_first (iter : option positive) : M ordered_map_error_t :=
  match iter with
  | None => ret ORDERED_MAP_ERROR_NULL_POINTER
  | Some it =>
      do m <- iter_map it;
      do root <- rdm Map.root m;
      do c <- (if is_nil root then ret NIL else
               do d <- rdi Iter.direction it;
               if bool_decide (d = ORDERED_MAP_ITER_FORWARD)
               then tree_minimum root else tree_maximum root);
      do_ wri (Iter.set_current c) it;
      ret ORDERED_MAP_SUCCESS
  end.

Definition ordered_map_iterator_seek_last (iter : option positive) : M ordered_map_error_t :=
  match iter with
  | None => ret ORDERED_MAP_ERROR_NULL_POINTER
  | Some it =>
      do m <- iter_map it;
      do root <- rdm Map.root m;
      do c <- (if is_nil root then ret NIL else
               do d <- rdi Iter.direction it;
               if bool_decide (d = ORDERED_MAP_ITER_FORWARD)
               then tree_maximum root else tree_minimum root);
      do_ wri (Iter.set_current c) it;
      ret ORDERED_MAP_SUCCESS
  end.

(** The traversal loop of [ordered_map_print] on an iterator the caller
    holds: from the cursor to the end. *)
Definition iterate (iter : option positive) : M (list (void_ptr * void_ptr)) :=
  do fuel <- get_fuel; iterate_loop fuel iter.

(** [ordered_map_get_stats], without the three running averages, and
    [ordered_map_reset_stats] *)
Definition ordered_map_get_stats (map : option positive) : M Stats.t :=
  match map with
  | None => ret Stats.zero
  | Some m =>
      do st <- rdm Map.stats m;
      do root <- rdm Map.root m;
      do h <- tree_height root;
      ret (Stats.set_current_height h st)
  end.

Definition ordered_map_reset_stats (map : option positive) : M unit :=
  match map with
  | None => ret tt
  | Some m => wrm (Map.set_stats Stats.zero) m
  end.

(** * Vocabulary for the further properties *)

(** What [destroy_node] does to a key and to a value pointer: [free] for
    a buffer the map allocated ([free(NULL)] does nothing), the caller's
    destructor hook when there is one, nothing otherwise. *)
Definition key_release (cfg : Config.t) (p : void_ptr) : list event :=
  if (0 <? Config.key_size cfg)%N then (if p is Some _ then [EvFree p] else [])
  else if Config.key_destructor cfg then [EvKeyDestructor p] else [].

Definition value_release (cfg : Config.t) (p : void_ptr) : list event :=
  if (0 <? Config.value_size cfg)%N then (if p is Some _ then [EvFree p] else [])
  else if Config.value_destructor cfg then [EvValueDestructor p] else [].

Definition node_release (cfg : Config.t) (kv : void_ptr * void_ptr) : list event :=
  key_release cfg kv.1 ++ value_release cfg kv.2.

(** The buffers among the released payloads: each [free] returns one
    allocation. *)
Definition is_free (e : event) : bool := if e is EvFree _ then true else false.

(** The memory of the first scenario with a forward iterator on its map,
    at address 1, as [ordered_map_iterator_create] leaves it: on the
    first node in order. *)
Definition demo_cursor : Iter.t :=
  Iter.Make (Some 1%positive) (head (inorder demo_tree)) ORDERED_MAP_ITER_FORWARD true.

Definition demo_cursor_state : state :=
  set_iters (<[1%positive := demo_cursor]> (iters demo_state)) demo_state.

(** ** The red-black invariants over a tree shape *)

(** [rb h t n]: with the colours that the node heap [h] gives them, the
    nodes of [t] obey invariants 4 and 5: no red node has a red child,
    and every path from the root of [t] down to a leaf passes [n] black
    nodes. *)
Fixpoint rb (h : gmap positive Node.t) (t : tree) (n : nat) : Prop :=
  match t with
  | Leaf => n = O
  | Br l a r =>
      match color_of h (Some a) with
      | RB_RED => color_of h (troot l) = RB_BLACK ∧ color_of h (troot r) = RB_BLACK
                  ∧ rb h l n ∧ rb h r n
      | RB_BLACK => ∃ k, n = S k ∧ rb h l k ∧ rb h r k
      end
  end.

(** The node and the sibling subtree of a step. *)
Definition step_node (f : step) : positive :=
  match f with InL a _ => a | InR _ a => a end.

Definition step_sibling (f : step) : tree :=
  match f with InL _ r => r | InR l _ => l end.

(** [crb h c n]: the same for the part of a tree around a hole that
    takes a subtree with [n] black nodes on every path; nothing is asked
    of the root of that subtree and its parent. *)
Fixpoint crb (h : gmap positive Node.t) (c : list step) (n : nat) : Prop :=
  match c with
  | [] => True
  | f :: c' =>
      rb h (step_sibling f) n
      ∧ match color_of h (Some (step_node f)) with
        | RB_RED => color_of h (troot (step_sibling f)) = RB_BLACK
                    ∧ color_of h (cparent c') = RB_BLACK
                    ∧ crb h c' n
        | RB_BLACK => crb h c' (S n)
        end
  end.

(** ** Building a map *)

(** [insert(map, k, v)] for each pair in turn; the list of the results. *)
Fixpoint insert_each (map : option positive) (kvs : list (object * object))
    : M (list ordered_map_error_t) :=
  match kvs with
  | [] => ret []
  | (k, v) :: kvs =>
      do e <- ordered_map_insert map (Some k) (Some v);
      do es <- insert_each map kvs;
      ret (e :: es)
  end.

(** A key and a value that [ordered_map_insert] can take under a
    configuration: both can be read over the configured sizes, and the
    comparator finds the stored form of the key equal to the key. *)
Definition insertable (cfg : Config.t) (cmp : list Z → list Z → Z) (kv : object * object)
    : Prop :=
  readable (Config.key_size cfg) kv.1
  ∧ readable (Config.value_size cfg) kv.2
  ∧ ∀ kb, stored_bytes (Config.key_size cfg) (Config.key_copy cfg) (obj_bytes kv.1) = Some kb →
          cmp (obj_bytes kv.1) kb = 0.

(** * Trees and their representation in memory *)

Section tree_facts.
Implicit Types (t l r : tree) (c : list step) (h : gmap positive Node.t) (a x : positive).

Lemma troot_inorder t a : troot t = Some a → a ∈ inorder t.
Proof. destruct t; simpl; [done|]. intros [= ->]. set_solver. Qed.

Lemma troot_nil t : troot t = NIL → t = Leaf.
Proof. by destruct t. Qed.

Lemma inorder_plug c t : inorder (plug c t) = cbefore c ++ inorder t ++ cafter c.
Proof.
  revert t. induction c as [|[a r|l a] c IH]; intros t; simpl.
  - by rewrite app_nil_r.
  - rewrite IH. simpl. by rewrite <- !app_assoc.
  - rewrite IH. simpl. by rewrite <- !app_assoc.
Qed.

Lemma plug_app c1 c2 t : plug (c1 ++ c2) t = plug c2 (plug c1 t).
Proof. revert t. induction c1 as [|[a r|l a] c1 IH]; intros t; simpl; auto. Qed.

Lemma in_plug t a : a ∈ inorder t → ∃ c l r, t = plug c (Br l a r).
Proof.
  induction t as [|l IHl b r IHr]; simpl; [set_solver|].
  rewrite elem_of_app, elem_of_cons. intros [H|[->|H]].
  - destruct (IHl H) as (c & l' & r' & ->).
    exists (c ++ [InL b r]), l', r'. by rewrite plug_app.
  - by exists [], l, r.
  - destruct (IHr H) as (c & l' & r' & ->).
    exists (c ++ [InR l b]), l', r'. by rewrite plug_app.
Qed.

Lemma rep_ext h h' t par :
  (∀ a, a ∈ inorder t → h' !! a = h !! a) → rep h t par → rep h' t par.
Proof.
  revert par. induction t as [|l IHl b r IHr]; intros par Hext; simpl; [done|].
  intros (n & Hn & Hp & Hl & Hr & Hrl & Hrr).
  exists n. rewrite Hext by set_solver. repeat split; auto.
  - apply IHl; [|done]. intros a Ha. apply Hext. set_solver.
  - apply IHr; [|done]. intros a Ha. apply Hext. set_solver.
Qed.

Lemma crep_ext h h' c p :
  (∀ a, a ∈ cbefore c ++ cafter c → h' !! a = h !! a) → crep h c p → crep h' c p.
Proof.
  revert p. induction c as [|[a r|l a] c IH]; intros p Hext; simpl; [done| |].
  - intros (n & Hn & Hp & Hl & Hr & Hrr & Hc).
    exists n. rewrite Hext by (simpl; set_solver). repeat split; auto.
    + eapply rep_ext; [|done]. intros b Hb. apply Hext. simpl. set_solver.
    + apply IH; [|done]. intros b Hb. apply Hext. simpl. set_solver.
  - intros (n & Hn & Hp & Hl & Hr & Hrl & Hc).
    exists n. rewrite Hext by (simpl; set_solver). repeat split; auto.
    + eapply rep_ext; [|done]. intros b Hb. apply Hext. simpl. set_solver.
    + apply IH; [|done]. intros b Hb. apply Hext. simpl. set_solver.
Qed.

Lemma rep_plug h c t :
  rep h (plug c t) NIL ↔ rep h t (cparent c) ∧ crep h c (troot t).
Proof.
  revert t. induction c as [|[a r|l a] c IH]; intros t; simpl.
  - tauto.
  - rewrite IH. simpl. split.
    + intros [(n & ? & ? & ? & ? & ? & ?) ?]. split; [done|]. by exists n.
    + intros [? (n & ? & ? & ? & ? & ? & ?)]. split; [|done]. by exists n.
  - rewrite IH. simpl. split.
    + intros [(n & ? & ? & ? & ? & ? & ?) ?]. split; [done|]. by exists n.
    + intros [? (n & ? & ? & ? & ? & ? & ?)]. split; [|done]. by exists n.
Qed.

Lemma rep_lookup h t par a : rep h t par → a ∈ inorder t → is_Some (h !! a).
Proof.
  revert par. induction t as [|l IHl b r IHr]; intros par; simpl; [set_solver|].
  intros (n & Hn & _ & _ & _ & Hrl & Hrr).
  rewrite elem_of_app, elem_of_cons. intros [H|[->|H]]; eauto.
Qed.

Lemma height_le_length t : (height t ≤ length (inorder t))%nat.
Proof.
  induction t as [|l IHl b r IHr]; simpl; [done|].
  rewrite length_app. simpl. lia.
Qed.

Lemma NoDup_length_le_size h (l : list positive) :
  NoDup l → (∀ a, a ∈ l → is_Some (h !! a)) → (length l ≤ size h)%nat.
Proof.
  intros Hnd Hin.
  rewrite <- size_dom, <- (size_list_to_set (C := gset positive) l) by done.
  apply subseteq_size. intros a Ha. apply elem_of_dom, Hin. set_solver.
Qed.

Lemma rep_length_le_size h t par :
  rep h t par → NoDup (inorder t) → (length (inorder t) ≤ size h)%nat.
Proof.
  intros Hrep Hnd. apply NoDup_length_le_size; [done|].
  intros a Ha. by eapply rep_lookup.
Qed.

Lemma rep_height_lt_fuel h t par :
  rep h t par → NoDup (inorder t) → (height t < S (size h))%nat.
Proof.
  intros Hrep Hnd. pose proof (height_le_length t).
  pose proof (rep_length_le_size _ _ _ Hrep Hnd). lia.
Qed.

End tree_facts.

(** * Minimum, maximum, successor and predecessor *)

Lemma bind_eq {A B} (m : M A) (k : A → M B) s a s' :
  m s = Some (a, s') → bind m k s = k a s'.
Proof. unfold bind. by intros ->. Qed.

Lemma rd_eq {A} (f : Node.t → A) a n s :
  nodes s !! a = Some n → rd f (Some a) s = Some (f n, s).
Proof. unfold rd. by intros ->. Qed.

Lemma inorder_nonempty t : t ≠ Leaf → inorder t ≠ [].
Proof. destruct t as [|l a r]; [done|]. intros _. simpl. by destruct (inorder l). Qed.

Lemma head_app_nonempty {A} (l1 l2 : list A) : l1 ≠ [] → head (l1 ++ l2) = head l1.
Proof. intros H. by destruct l1. Qed.

Lemma last_app_nonempty {A} (l1 l2 : list A) : l2 ≠ [] → last (l1 ++ l2) = last l2.
Proof.
  intros H. destruct l2 as [|b l2]; [done|].
  apply last_app_cons.
Qed.

(** Reduce the pointer tests of the code once their arguments are known. *)
Ltac tests := cbn [negb andb orb is_nil is_null troot cparent].

Lemma is_nil_troot t : t ≠ Leaf → is_nil (troot t) = false.
Proof. by destruct t. Qed.

Lemma tree_minimum_loop_spec s t par fuel :
  rep (nodes s) t par → t ≠ Leaf → (height t ≤ fuel)%nat →
  tree_minimum_loop fuel (troot t) s = Some (head (inorder t), s).
Proof.
  revert par fuel. induction t as [|l IHl a r _]; intros par fuel Hrep Hne Hfuel; [done|].
  destruct Hrep as (n & Hn & _ & Hl & _ & Hrl & _).
  destruct fuel as [|fuel]; [simpl in Hfuel; lia|]. simpl in Hfuel.
  simpl. rewrite (bind_eq _ _ _ _ _ (rd_eq Node.left _ _ _ Hn)). rewrite Hl.
  destruct (decide (l = Leaf)) as [->|Hl'].
  - done.
  - rewrite is_nil_troot by done.
    rewrite (IHl (Some a) fuel Hrl) by (done || lia).
    by rewrite head_app_nonempty by by apply inorder_nonempty.
Qed.

Lemma tree_maximum_loop_spec s t par fuel :
  rep (nodes s) t par → t ≠ Leaf → (height t ≤ fuel)%nat →
  tree_maximum_loop fuel (troot t) s = Some (last (inorder t), s).
Proof.
  revert par fuel. induction t as [|l _ a r IHr]; intros par fuel Hrep Hne Hfuel; [done|].
  destruct Hrep as (n & Hn & _ & _ & Hr & _ & Hrr).
  destruct fuel as [|fuel]; [simpl in Hfuel; lia|]. simpl in Hfuel.
  simpl. rewrite (bind_eq _ _ _ _ _ (rd_eq Node.right _ _ _ Hn)). rewrite Hr.
  destruct (decide (r = Leaf)) as [->|Hr'].
  - simpl. by rewrite last_snoc.
  - rewrite is_nil_troot by done.
    rewrite (IHr (Some a) fuel Hrr) by (done || lia).
    rewrite last_app_cons, last_cons.
    destruct (last (inorder r)) eqn:E; [done|].
    apply last_None in E. by apply inorder_nonempty in E.
Qed.

Lemma ptr_eqb_refl (p : node_ptr) : ptr_eqb p p = true.
Proof. unfold ptr_eqb. by apply bool_decide_eq_true. Qed.

Lemma ptr_eqb_ne (p q : node_ptr) : p ≠ q → ptr_eqb p q = false.
Proof. unfold ptr_eqb. by apply bool_decide_eq_false. Qed.

Lemma troot_disjoint t r :
  t ≠ Leaf → (∀ a, a ∈ inorder t → a ∉ inorder r) → troot t ≠ troot r.
Proof.
  destruct t as [|l a r']; [done|]. intros _ Hdis Heq. simpl in Heq.
  symmetry in Heq. apply troot_inorder in Heq.
  apply (Hdis a); [simpl; set_solver|done].
Qed.

Lemma next_in_app x l1 l2 : x ∉ l1 → next_in x (l1 ++ x :: l2) = head l2.
Proof.
  induction l1 as [|a l1 IH]; simpl; intros Hx.
  - by rewrite decide_True.
  - rewrite decide_False by set_solver. apply IH. set_solver.
Qed.

Lemma length_ctx_le c : (length c ≤ length (cbefore c) + length (cafter c))%nat.
Proof.
  induction c as [|[a r|l a] c IH]; simpl; [done| |].
  - rewrite length_app. lia.
  - rewrite !length_app. simpl. lia.
Qed.

Lemma get_fuel_eq {A} (k : nat → M A) s : bind get_fuel k s = k (S (size (nodes s))) s.
Proof. done. Qed.

Lemma successor_loop_spec s c t fuel :
  crep (nodes s) c (troot t) → t ≠ Leaf → NoDup (inorder (plug c t)) →
  (length c < fuel)%nat →
  successor_loop fuel (troot t) (cparent c) s = Some (head (cafter c), s).
Proof.
  revert t fuel. induction c as [|[a r|l a] c IH]; intros t fuel Hc Hne Hnd Hfuel;
    (destruct fuel as [|fuel]; [simpl in Hfuel; lia|]); simpl in Hfuel; simpl.
  - done.
  - destruct Hc as (n & Hn & Hp & Hl & Hr & Hrr & Hc).
    rewrite (bind_eq _ _ _ _ _ (rd_eq Node.right _ _ _ Hn)), Hr.
    rewrite ptr_eqb_ne; [done|].
    apply troot_disjoint; [done|]. intros b Hb Hb'.
    simpl in Hnd. rewrite inorder_plug in Hnd. simpl in Hnd.
    apply NoDup_app in Hnd as (_ & _ & Hnd).
    apply NoDup_app in Hnd as (Hnd & _ & _).
    apply NoDup_app in Hnd as (_ & Hnd & _).
    apply (Hnd b Hb). set_solver.
  - destruct Hc as (n & Hn & Hp & Hl & Hr & Hrl & Hc).
    rewrite (bind_eq _ _ _ _ _ (rd_eq Node.right _ _ _ Hn)), Hr.
    rewrite ptr_eqb_refl.
    rewrite (bind_eq _ _ _ _ _ (rd_eq Node.parent _ _ _ Hn)), Hp.
    apply (IH (Br l a t)); [done|done|done|lia].
Qed.

Lemma predecessor_loop_spec s c t fuel :
  crep (nodes s) c (troot t) → t ≠ Leaf → NoDup (inorder (plug c t)) →
  (length c < fuel)%nat →
  predecessor_loop fuel (troot t) (cparent c) s = Some (last (cbefore c), s).
Proof.
  revert t fuel. induction c as [|[a r|l a] c IH]; intros t fuel Hc Hne Hnd Hfuel;
    (destruct fuel as [|fuel]; [simpl in Hfuel; lia|]); simpl in Hfuel; simpl.
  - done.
  - destruct Hc as (n & Hn & Hp & Hl & Hr & Hrr & Hc).
    rewrite (bind_eq _ _ _ _ _ (rd_eq Node.left _ _ _ Hn)), Hl.
    rewrite ptr_eqb_refl.
    rewrite (bind_eq _ _ _ _ _ (rd_eq Node.parent _ _ _ Hn)), Hp.
    apply (IH (Br t a r)); [done|done|done|lia].
  - destruct Hc as (n & Hn & Hp & Hl & Hr & Hrl & Hc).
    rewrite (bind_eq _ _ _ _ _ (rd_eq Node.left _ _ _ Hn)), Hl.
    rewrite ptr_eqb_ne.
    + by rewrite app_assoc, last_snoc.
    + apply troot_disjoint; [done|]. intros b Hb Hb'.
      simpl in Hnd. rewrite inorder_plug in Hnd. simpl in Hnd.
      apply NoDup_app in Hnd as (_ & _ & Hnd).
      apply NoDup_app in Hnd as (Hnd & _ & _).
      apply NoDup_app in Hnd as (_ & Hnd & _).
      apply (Hnd b Hb'). set_solver.
Qed.

Lemma fuel_for_subtree s c t :
  rep (nodes s) (plug c t) NIL → NoDup (inorder (plug c t)) →
  (height t ≤ S (size (nodes s)))%nat ∧ (length c < S (size (nodes s)))%nat.
Proof.
  intros Hrep Hnd. pose proof (rep_length_le_size _ _ _ Hrep Hnd) as Hlen.
  rewrite inorder_plug, !length_app in Hlen.
  pose proof (height_le_length t). pose proof (length_ctx_le c).
  split; [lia|].
  destruct t as [|l a r]; simpl in *; [|rewrite length_app in *; simpl in *; lia].
  (* the hole is empty: every step still contributes its own node *)
  lia.
Qed.

Lemma NoDup_plug_node c l x r :
  NoDup (inorder (plug c (Br l x r))) →
  x ∉ (cbefore c ++ inorder l) ∧ x ∉ (inorder r ++ cafter c).
Proof.
  rewrite inorder_plug. simpl. rewrite <- !app_assoc. simpl.
  rewrite (app_assoc (cbefore c)).
  intros Hnd. apply NoDup_app in Hnd as (_ & Hdis & Hnd).
  apply NoDup_cons in Hnd as (Hx & _). split; [|done].
  intros Hin. apply (Hdis x Hin). set_solver.
Qed.

Lemma inorder_plug_node c l x r :
  inorder (plug c (Br l x r)) = (cbefore c ++ inorder l) ++ x :: (inorder r ++ cafter c).
Proof. rewrite inorder_plug. simpl. by rewrite <- !app_assoc. Qed.

Lemma tree_successor_spec s c l x r :
  rep (nodes s) (plug c (Br l x r)) NIL → NoDup (inorder (plug c (Br l x r))) →
  tree_successor (Some x) s = Some (next_in x (inorder (plug c (Br l x r))), s).
Proof.
  intros Hrep Hnd.
  destruct (NoDup_plug_node _ _ _ _ Hnd) as [Hx1 Hx2].
  rewrite inorder_plug_node, next_in_app by done.
  pose proof Hrep as Hrep'. apply rep_plug in Hrep' as [Ht Hc].
  destruct Ht as (n & Hn & Hp & Hl & Hr & Hrl & Hrr).
  unfold tree_successor.
  rewrite (bind_eq _ _ _ _ _ (rd_eq Node.right _ _ _ Hn)), Hr; cbv beta.
  destruct (decide (r = Leaf)) as [->|Hne].
  - tests.
    rewrite (bind_eq _ _ _ _ _ (rd_eq Node.parent _ _ _ Hn)), Hp; cbv beta.
    rewrite get_fuel_eq.
    apply (successor_loop_spec s c (Br l x Leaf)); [done|done|done|].
    by apply (fuel_for_subtree s c (Br l x Leaf)).
  - rewrite is_nil_troot by done. tests.
    unfold tree_minimum. rewrite get_fuel_eq.
    rewrite (tree_minimum_loop_spec s r (Some x)); [|done|done|].
    + by rewrite head_app_nonempty by by apply inorder_nonempty.
    + pose proof (fuel_for_subtree s c (Br l x r) Hrep Hnd) as [H _]. simpl in H. lia.
Qed.

Lemma tree_predecessor_spec s c l x r :
  rep (nodes s) (plug c (Br l x r)) NIL → NoDup (inorder (plug c (Br l x r))) →
  tree_predecessor (Some x) s = Some (next_in x (reverse (inorder (plug c (Br l x r)))), s).
Proof.
  intros Hrep Hnd.
  destruct (NoDup_plug_node _ _ _ _ Hnd) as [Hx1 Hx2].
  rewrite inorder_plug_node, reverse_app, reverse_cons, <- app_assoc. simpl.
  rewrite next_in_app by (by rewrite elem_of_reverse).
  rewrite reverse_app.
  pose proof Hrep as Hrep'. apply rep_plug in Hrep' as [Ht Hc].
  destruct Ht as (n & Hn & Hp & Hl & Hr & Hrl & Hrr).
  unfold tree_predecessor.
  rewrite (bind_eq _ _ _ _ _ (rd_eq Node.left _ _ _ Hn)), Hl; cbv beta.
  destruct (decide (l = Leaf)) as [->|Hne].
  - tests.
    rewrite (bind_eq _ _ _ _ _ (rd_eq Node.parent _ _ _ Hn)), Hp; cbv beta.
    rewrite get_fuel_eq. cbn [inorder]. rewrite reverse_nil. cbn [app]. rewrite head_reverse.
    apply (predecessor_loop_spec s c (Br Leaf x r)); [done|done|done|].
    by apply (fuel_for_subtree s c (Br Leaf x r)).
  - rewrite is_nil_troot by done. tests.
    unfold tree_maximum. rewrite get_fuel_eq.
    rewrite (tree_maximum_loop_spec s l (Some x)); [|done|done|].
    + rewrite head_app_nonempty, head_reverse; [done|].
      intros E. apply (f_equal reverse) in E. rewrite reverse_involutive in E.
      by apply inorder_nonempty in E.
    + pose proof (fuel_for_subtree s c (Br l x r) Hrep Hnd) as [H _]. simpl in H. lia.
Qed.

(** * Cursors *)

Lemma state_eta s : State (nodes s) (maps s) (iters s) (brk s) (avail s) (trace s) = s.
Proof. by destruct s. Qed.

Lemma rdi_eq {A} (f : Iter.t → A) it i s :
  iters s !! it = Some i → rdi f it s = Some (f i, s).
Proof. unfold rdi. by intros ->. Qed.

Lemma wri_eq upd it i s :
  iters s !! it = Some i →
  wri upd it s = Some (tt, set_iters (<[it := upd i]> (iters s)) s).
Proof. unfold wri. by intros ->. Qed.

Lemma rdm_eq {A} (f : Map.t → A) map m s :
  maps s !! map = Some m → rdm f map s = Some (f m, s).
Proof. unfold rdm. by intros ->. Qed.

Lemma tree_step_spec s t x d :
  rep (nodes s) t NIL → NoDup (inorder t) → x ∈ inorder t →
  (if bool_decide (d = ORDERED_MAP_ITER_FORWARD)
   then tree_successor (Some x) else tree_predecessor (Some x)) s
  = Some (next_in x (visit_order d (inorder t)), s).
Proof.
  intros Hrep Hnd Hx. destruct (in_plug _ _ Hx) as (c & l & r & ->).
  destruct d; cbn [visit_order].
  - by apply tree_successor_spec.
  - by apply tree_predecessor_spec.
Qed.

Lemma has_next_eq s it i :
  iters s !! it = Some i →
  ordered_map_iterator_has_next (Some it) s
  = Some (Iter.valid i && negb (is_nil (Iter.current i)), s).
Proof.
  intros Hit. unfold ordered_map_iterator_has_next, bind, rdi.
  rewrite Hit. simpl. by rewrite Hit.
Qed.

Lemma iterator_key_eq s it i x n :
  iters s !! it = Some i → Iter.current i = Some x → nodes s !! x = Some n →
  ordered_map_iterator_key (Some it) s = Some (Node.key n, s).
Proof.
  intros Hit Hc Hn. unfold ordered_map_iterator_key, bind, rdi, rd.
  rewrite Hit, Hc. simpl. by rewrite Hn.
Qed.

Lemma iterator_value_eq s it i x n :
  iters s !! it = Some i → Iter.current i = Some x → nodes s !! x = Some n →
  ordered_map_iterator_value (Some it) s = Some (Node.value n, s).
Proof.
  intros Hit Hc Hn. unfold ordered_map_iterator_value, bind, rdi, rd.
  rewrite Hit, Hc. simpl. by rewrite Hn.
Qed.

Lemma iterator_next_eq s t it i x :
  rep (nodes s) t NIL → NoDup (inorder t) → x ∈ inorder t →
  iters s !! it = Some i → Iter.valid i = true → Iter.current i = Some x →
  ordered_map_iterator_next (Some it) s
  = Some (ORDERED_MAP_SUCCESS,
          set_iters (<[it := Iter.set_current
                              (next_in x (visit_order (Iter.direction i) (inorder t))) i]>
                       (iters s)) s).
Proof.
  intros Hrep Hnd Hx Hit Hv Hc. unfold ordered_map_iterator_next.
  rewrite (bind_eq _ _ _ _ _ (rdi_eq Iter.valid _ _ _ Hit)), Hv. cbn [negb].
  rewrite (bind_eq _ _ _ _ _ (rdi_eq Iter.current _ _ _ Hit)), Hc. cbn [is_nil].
  rewrite (bind_eq _ _ _ _ _ (rdi_eq Iter.direction _ _ _ Hit)).
  rewrite (bind_eq _ _ _ _ _ (tree_step_spec s t x _ Hrep Hnd Hx)).
  by rewrite (bind_eq _ _ _ _ _ (wri_eq _ _ _ _ Hit)).
Qed.

Lemma set_current_same s it i :
  iters s !! it = Some i → Iter.current i = NIL →
  set_iters (<[it := Iter.set_current NIL i]> (iters s)) s = s.
Proof.
  intros Hit Hc. rewrite insert_id.
  - by destruct s.
  - rewrite Hit. f_equal. destruct i; simpl in *. by subst.
Qed.

Lemma iterate_loop_spec s t it d fuel pre suf i :
  rep (nodes s) t NIL → NoDup (inorder t) →
  visit_order d (inorder t) = pre ++ suf →
  iters s !! it = Some i →
  Iter.valid i = true → Iter.direction i = d → Iter.current i = head suf →
  (length suf < fuel)%nat →
  iterate_loop fuel (Some it) s
  = Some (binding (nodes s) <$> suf,
          set_iters (<[it := Iter.set_current NIL i]> (iters s)) s).
Proof.
  intros Hrep Hnd. revert s pre fuel i Hrep.
  induction suf as [|x suf IH]; intros s pre fuel i Hrep Hord Hit Hv Hd Hcur Hfuel;
    (destruct fuel as [|fuel]; [simpl in Hfuel; lia|]); simpl in Hfuel;
    cbn [iterate_loop]; rewrite (bind_eq _ _ _ _ _ (has_next_eq _ _ _ Hit)), Hv, Hcur.
  - by rewrite set_current_same.
  - assert (Hx : x ∈ inorder t).
    { assert (x ∈ visit_order d (inorder t)) as H by (rewrite Hord; set_solver).
      destruct d; cbn [visit_order] in H; [done|]. by rewrite elem_of_reverse in H. }
    assert (Hnd' : NoDup (visit_order d (inorder t))).
    { destruct d; cbn [visit_order]; [done|]. by rewrite reverse_Permutation. }
    destruct (rep_lookup _ _ _ _ Hrep Hx) as [n Hn].
    cbn [head negb andb is_nil].
    rewrite (bind_eq _ _ _ _ _ (iterator_key_eq _ _ _ _ _ Hit Hcur Hn)).
    rewrite (bind_eq _ _ _ _ _ (iterator_value_eq _ _ _ _ _ Hit Hcur Hn)).
    rewrite (bind_eq _ _ _ _ _ (iterator_next_eq _ _ _ _ _ Hrep Hnd Hx Hit Hv Hcur)).
    rewrite Hd, Hord, next_in_app.
    2:{ rewrite Hord in Hnd'. apply NoDup_app in Hnd' as (_ & Hdis & _).
        intros Hin. apply (Hdis x Hin). set_solver. }
    set (s1 := set_iters (<[it := Iter.set_current (head suf) i]> (iters s)) s).
    rewrite (bind_eq _ _ s1 (binding (nodes s) <$> suf)
               (set_iters (<[it := Iter.set_current NIL i]> (iters s)) s)).
    + simpl. unfold ret, binding. by rewrite Hn.
    + rewrite (IH s1 (pre ++ [x]) fuel (Iter.set_current (head suf) i));
        [|done|by rewrite <- app_assoc|by subst s1; simpl; rewrite lookup_insert_eq
         |done|done|done|lia].
      subst s1. simpl. unfold set_iters. simpl. by rewrite insert_insert_eq.
Qed.

Lemma iterator_create_spec s map m t d n :
  maps s !! map = Some m → Map.root m = troot t →
  rep (nodes s) t NIL → NoDup (inorder t) → avail s = S n →
  let it := fresh (dom (iters s)) in
  let i := Iter.Make (Some map) (head (visit_order d (inorder t))) d true in
  ordered_map_iterator_create (Some map) d s
  = Some (Some it, set_avail n (set_iters (<[it := i]> (iters s)) s)).
Proof.
  intros Hm Hroot Hrep Hnd Hav it i.
  unfold ordered_map_iterator_create.
  set (i0 := Iter.Make (Some map) NIL d true).
  set (s1 := set_avail n (set_iters (<[it := i0]> (iters s)) s)).
  assert (Hmalloc : malloc_iter i0 s = Some (Some it, s1)).
  { unfold malloc_iter. by rewrite Hav. }
  rewrite (bind_eq _ _ _ _ _ Hmalloc). cbv beta iota.
  assert (Hm1 : maps s1 !! map = Some m) by done.
  assert (Hit1 : iters s1 !! it = Some i0) by (subst s1; simpl; by rewrite lookup_insert_eq).
  rewrite (bind_eq _ _ _ _ _ (rdm_eq Map.root _ _ _ Hm1)), Hroot.
  assert (Hfinal : set_iters (<[it := i]> (iters s1)) s1
                   = set_avail n (set_iters (<[it := i]> (iters s)) s)).
  { subst s1. unfold set_iters, set_avail. simpl. by rewrite insert_insert_eq. }
  destruct (decide (t = Leaf)) as [->|Hne].
  - tests. rewrite (bind_eq _ _ _ _ _ (wri_eq _ _ _ _ Hit1)).
    unfold ret. rewrite <- Hfinal. do 4 f_equal.
    subst i i0. by destruct d.
  - rewrite is_nil_troot by done.
    assert (Hrep1 : rep (nodes s1) t NIL) by done.
    pose proof (rep_height_lt_fuel _ _ _ Hrep1 Hnd) as Hfuel.
    assert (Hext : (if bool_decide (d = ORDERED_MAP_ITER_FORWARD)
                    then tree_minimum (troot t) else tree_maximum (troot t)) s1
                   = Some (head (visit_order d (inorder t)), s1)).
    { destruct d; simpl.
      - unfold tree_minimum. rewrite get_fuel_eq.
        apply (tree_minimum_loop_spec s1 t NIL); [done|done|lia].
      - unfold tree_maximum. rewrite get_fuel_eq. rewrite head_reverse.
        apply (tree_maximum_loop_spec s1 t NIL); [done|done|lia]. }
    cbv iota.
    erewrite bind_eq.
    2:{ rewrite (bind_eq _ _ _ _ _ Hext). apply (wri_eq _ _ _ _ Hit1). }
    unfold ret. by rewrite <- Hfinal.
Qed.

Lemma traverse_spec s map m t d n :
  maps s !! map = Some m → Map.root m = troot t →
  rep (nodes s) t NIL → NoDup (inorder t) → avail s = S n →
  traverse (Some map) d s
  = Some (Some (binding (nodes s) <$> visit_order d (inorder t)), s).
Proof.
  intros Hm Hroot Hrep Hnd Hav. unfold traverse.
  rewrite (bind_eq _ _ _ _ _ (iterator_create_spec s map m t d n Hm Hroot Hrep Hnd Hav)).
  cbv beta iota.
  set (it := fresh (dom (iters s))).
  set (i := Iter.Make (Some map) (head (visit_order d (inorder t))) d true).
  set (s1 := set_avail n (set_iters (<[it := i]> (iters s)) s)).
  rewrite get_fuel_eq.
  assert (Hrep1 : rep (nodes s1) t NIL) by done.
  assert (Hit1 : iters s1 !! it = Some i) by (subst s1; simpl; by rewrite lookup_insert_eq).
  assert (Hlen : (length (visit_order d (inorder t)) < S (size (nodes s1)))%nat).
  { pose proof (rep_length_le_size _ _ _ Hrep1 Hnd).
    destruct d; cbn [visit_order]; rewrite ?length_reverse; lia. }
  rewrite (bind_eq _ _ _ _ _
             (iterate_loop_spec s1 t it d (S (size (nodes s1))) [] (visit_order d (inorder t)) i
                Hrep1 Hnd eq_refl Hit1 eq_refl eq_refl eq_refl Hlen)).
  unfold ordered_map_iterator_destroy, bind, ret. subst s1. simpl.
  rewrite lookup_insert_eq. simpl. do 2 f_equal.
  rewrite !delete_insert_eq, delete_id.
  - rewrite <- Hav. by destruct s.
  - apply not_elem_of_dom. apply is_fresh.
Qed.

(** * Searching *)

Section comparator.
Context (cmp : list Z → list Z → Z) (Hcmp : comparator_laws cmp).

Lemma cmp_refl a : cmp a a = 0.
Proof.
  destruct Hcmp as [Hanti _ _]. pose proof (Hanti a a). lia.
Qed.

Lemma cmp_eq_sym a b : cmp a b = 0 → cmp b a = 0.
Proof.
  destruct Hcmp as [Hanti _ _]. pose proof (Hanti a b). pose proof (Hanti b a). lia.
Qed.

Lemma cmp_gt_lt a b : 0 < cmp a b → cmp b a < 0.
Proof. destruct Hcmp as [Hanti _ _]. pose proof (Hanti b a). lia. Qed.

Lemma cmp_le_ge a b : cmp a b ≤ 0 → 0 ≤ cmp b a.
Proof. destruct Hcmp as [Hanti _ _]. pose proof (Hanti b a). lia. Qed.

Lemma cmp_ge_le a b : 0 ≤ cmp a b → cmp b a ≤ 0.
Proof. destruct Hcmp as [Hanti _ _]. pose proof (Hanti a b). lia. Qed.

(** A key below the probe, and a key above it, do not match it. *)
Lemma below_no_match kb x y : cmp x y < 0 → 0 ≤ cmp kb y → cmp kb x ≠ 0.
Proof.
  intros Hxy Hky Hkx.
  pose proof (cmp_le_lt_trans _ Hcmp kb x y ltac:(lia) Hxy). lia.
Qed.

Lemma above_no_match kb x y : cmp x y < 0 → cmp kb x ≤ 0 → cmp kb y ≠ 0.
Proof.
  intros Hxy Hkx Hky.
  pose proof (cmp_le_lt_trans _ Hcmp kb x y Hkx Hxy). lia.
Qed.

Lemma find_key_none h kb l :
  (∀ a, a ∈ l → cmp kb (key_bytes h a) ≠ 0) → find_key cmp h kb l = NIL.
Proof.
  intros H. unfold find_key.
  induction l as [|a l IH]; [done|].
  rewrite filter_cons_False by (apply H; set_solver).
  apply IH. intros b Hb. apply H. set_solver.
Qed.

Lemma find_key_app h kb l1 l2 :
  (∀ a, a ∈ l1 → cmp kb (key_bytes h a) ≠ 0) →
  find_key cmp h kb (l1 ++ l2) = find_key cmp h kb l2.
Proof.
  intros H. unfold find_key. rewrite filter_app.
  induction l1 as [|a l1 IH]; [done|].
  rewrite filter_cons_False by (apply H; set_solver).
  apply IH. intros b Hb. apply H. set_solver.
Qed.

Lemma find_key_app_l h kb l1 l2 :
  (∀ a, a ∈ l2 → cmp kb (key_bytes h a) ≠ 0) →
  find_key cmp h kb (l1 ++ l2) = find_key cmp h kb l1.
Proof.
  intros H. unfold find_key. rewrite filter_app.
  replace (filter (λ a, cmp kb (key_bytes h a) = 0) l2) with (@nil positive).
  - by rewrite app_nil_r.
  - symmetry. induction l2 as [|a l2 IH]; [done|].
    rewrite filter_cons_False by (apply H; set_solver).
    apply IH. intros b Hb. apply H. set_solver.
Qed.

Lemma find_key_here h kb a l :
  cmp kb (key_bytes h a) = 0 → find_key cmp h kb (a :: l) = Some a.
Proof. intros H. unfold find_key. by rewrite filter_cons_True. Qed.

Lemma find_key_Some h kb l a :
  find_key cmp h kb l = Some a → a ∈ l ∧ cmp kb (key_bytes h a) = 0.
Proof.
  unfold find_key. intros H.
  assert (a ∈ filter (λ a, cmp kb (key_bytes h a) = 0) l) as Hin.
  { destruct (filter _ l); simplify_eq/=. set_solver. }
  apply list_elem_of_filter in Hin. tauto.
Qed.

Lemma find_key_None h kb l a :
  find_key cmp h kb l = NIL → a ∈ l → cmp kb (key_bytes h a) ≠ 0.
Proof.
  unfold find_key. intros H Ha Hm.
  assert (a ∈ filter (λ a, cmp kb (key_bytes h a) = 0) l) as Hin
    by by apply list_elem_of_filter.
  destruct (filter _ l); simplify_eq/=. set_solver.
Qed.

(** In an ordered list at most one key matches the probe. *)
Lemma find_key_unique h kb l a :
  ordered cmp h l → a ∈ l → cmp kb (key_bytes h a) = 0 →
  find_key cmp h kb l = Some a.
Proof.
  intros Hord Ha Hm. apply list_elem_of_split in Ha as (l1 & l2 & ->).
  apply StronglySorted_app in Hord as (Hlt & _ & _).
  rewrite find_key_app; [by apply find_key_here|].
  intros b Hb. eapply below_no_match; [apply (Hlt b a Hb); set_solver|lia].
Qed.

End comparator.

Lemma payloads_sub cfg h t t' :
  (∀ a, a ∈ inorder t' → a ∈ inorder t) → payloads cfg h t → payloads cfg h t'.
Proof. intros Hsub Hp a Ha. apply Hp, Hsub, Ha. Qed.

Lemma key_bytes_eq h a n ko :
  h !! a = Some n → Node.key n = Some ko → key_bytes h a = obj_bytes ko.
Proof. intros Hn Hk. unfold key_bytes. by rewrite Hn, Hk. Qed.

Lemma tree_search_loop_spec cmp cfg s t par ko fuel :
  comparator_laws cmp →
  rep (nodes s) t par → payloads cfg (nodes s) t → ordered cmp (nodes s) (inorder t) →
  (height t < fuel)%nat →
  tree_search_loop fuel (troot t) (Some ko) (Some cmp) s
  = Some (find_key cmp (nodes s) (obj_bytes ko) (inorder t), s).
Proof.
  intros Hcmp. revert par fuel.
  induction t as [|l IHl a r IHr]; intros par fuel Hrep Hpay Hord Hfuel;
    (destruct fuel as [|fuel]; [lia|]); simpl in Hfuel; cbn [tree_search_loop troot is_nil].
  - done.
  - destruct Hrep as (n & Hn & _ & Hl & Hr & Hrl & Hrr).
    destruct (Hpay a) as (n' & ka & va & Hn' & Hka & _); [simpl; set_solver|].
    rewrite Hn in Hn'. injection Hn' as <-.
    rewrite (bind_eq _ _ _ _ _ (rd_eq Node.key _ _ _ Hn)), Hka.
    cbn [call_compare]. unfold ret at 1, bind at 1.
    pose proof (key_bytes_eq _ _ _ _ Hn Hka) as Hkb. rewrite <- Hkb.
    simpl in Hord. apply StronglySorted_app in Hord as (Hlt & Hordl & Hord).
    apply StronglySorted_cons in Hord as (Hgt & Hordr).
    rewrite Forall_forall in Hgt.
    set (kb := obj_bytes ko).
    assert (Hleft : 0 ≤ cmp kb (key_bytes (nodes s) a) →
                    ∀ b, b ∈ inorder l → cmp kb (key_bytes (nodes s) b) ≠ 0).
    { intros H0 b Hb. eapply (below_no_match cmp Hcmp); [|exact H0].
      apply (Hlt b a Hb). set_solver. }
    assert (Hright : cmp kb (key_bytes (nodes s) a) < 0 →
                     ∀ b, b ∈ a :: inorder r → cmp kb (key_bytes (nodes s) b) ≠ 0).
    { intros H0 b Hb. apply elem_of_cons in Hb as [->|Hb]; [lia|].
      eapply (above_no_match cmp Hcmp); [apply (Hgt b Hb)|lia]. }
    destruct (Z.eqb_spec (cmp kb (key_bytes (nodes s) a)) 0) as [Heq|Hne].
    + unfold ret. f_equal. f_equal. symmetry. cbn [inorder].
      rewrite (find_key_app cmp Hcmp (nodes s) kb (inorder l) (a :: inorder r) (Hleft ltac:(lia))).
      by apply find_key_here.
    + destruct (Z.ltb_spec (cmp kb (key_bytes (nodes s) a)) 0) as [Hlt0|Hge0].
      * rewrite (bind_eq _ _ _ _ _ (rd_eq Node.left _ _ _ Hn)), Hl.
        assert (Hpl : payloads cfg (nodes s) l).
        { eapply payloads_sub; [|done]. simpl. set_solver. }
        rewrite (IHl (Some a) fuel Hrl Hpl Hordl ltac:(lia)).
        f_equal. f_equal. symmetry. cbn [inorder].
        apply (find_key_app_l cmp Hcmp (nodes s) kb (inorder l) (a :: inorder r) (Hright Hlt0)).
      * rewrite (bind_eq _ _ _ _ _ (rd_eq Node.right _ _ _ Hn)), Hr.
        assert (Hpr : payloads cfg (nodes s) r).
        { eapply payloads_sub; [|done]. simpl. set_solver. }
        rewrite (IHr (Some a) fuel Hrr Hpr Hordr ltac:(lia)).
        f_equal. f_equal. symmetry. cbn [inorder].
        rewrite (find_key_app cmp Hcmp (nodes s) kb (inorder l) (a :: inorder r) (Hleft Hge0)).
        unfold find_key. by rewrite filter_cons_False.
Qed.

(** * Queries *)

Lemma same_contents_refl map m s : maps s !! map = Some m → same_contents map s s.
Proof. intros Hm. split_and!; try done. by exists m, m. Qed.

Lemma same_contents_trans map s1 s2 s3 :
  same_contents map s1 s2 → same_contents map s2 s3 → same_contents map s1 s3.
Proof.
  intros (Hn & Ht & Hi & Ha & Hb & m1 & m2 & Hm1 & Hm2 & Hr & Hs & Hc)
         (Hn' & Ht' & Hi' & Ha' & Hb' & m2' & m3 & Hm2' & Hm3 & Hr' & Hs' & Hc').
  rewrite Hm2 in Hm2'. injection Hm2' as <-.
  split_and!; try congruence. exists m1, m3. split_and!; congruence.
Qed.

Lemma well_formed_same_contents map s s' t :
  well_formed s map t → same_contents map s s' → well_formed s' map t.
Proof.
  intros (m & cmp & Hm & Hroot & Hcmp & Hlaws & Hsz & Hrep & Hnd & Hpay & Hord & Hblack)
         (Hn & _ & _ & _ & _ & m0 & m' & Hm0 & Hm' & Hr & Hs & Hc).
  rewrite Hm in Hm0. injection Hm0 as <-.
  exists m', cmp. rewrite Hn, Hr, Hs, Hc. by split_and!.
Qed.

Lemma wrm_eq upd map m s :
  maps s !! map = Some m →
  wrm upd map s = Some (tt, set_maps (<[map := upd m]> (maps s)) s).
Proof. unfold wrm. by intros ->. Qed.

(** A change of the statistics block alone. *)
Lemma same_contents_stats map m st s :
  maps s !! map = Some m →
  same_contents map s (set_maps (<[map := Map.set_stats st m]> (maps s)) s).
Proof.
  intros Hm. split_and!; try done. exists m, (Map.set_stats st m).
  simpl. by rewrite lookup_insert_eq.
Qed.

Lemma record_search_spec map m s :
  maps s !! map = Some m →
  ∃ s', record_search map s = Some (tt, s') ∧ same_contents map s s'.
Proof.
  intros Hm. unfold record_search.
  rewrite (bind_eq _ _ _ _ _ (rdm_eq Map.stats_enabled _ _ _ Hm)).
  destruct (Map.stats_enabled m); cbn [when].
  - rewrite (bind_eq _ _ _ _ _ (rdm_eq Map.stats _ _ _ Hm)).
    rewrite (bind_eq _ _ _ _ _ (wrm_eq _ _ _ _ Hm)).
    set (s1 := set_maps _ s).
    assert (Hm1 : maps s1 !! map = Some (Map.set_stats
       (Stats.set_search_count (size_incr (Stats.search_count (Map.stats m))) (Map.stats m)) m))
      by (subst s1; simpl; by rewrite lookup_insert_eq).
    rewrite (bind_eq _ _ _ _ _ (rdm_eq Map.stats _ _ _ Hm1)).
    rewrite (wrm_eq _ _ _ _ Hm1).
    eexists. split; [done|].
    eapply same_contents_trans; [by apply (same_contents_stats map m)|].
    by apply (same_contents_stats map).
  - eexists. split; [done|]. by eapply same_contents_refl.
Qed.

Lemma tree_search_spec s map t m cmp ko :
  well_formed s map t → maps s !! map = Some m →
  Config.key_compare (Map.config m) = Some cmp →
  tree_search (Map.root m) (Some ko) (Config.key_compare (Map.config m)) s
  = Some (find_key cmp (nodes s) (obj_bytes ko) (inorder t), s).
Proof.
  intros (m' & cmp' & Hm' & Hroot & Hcmp' & Hlaws & Hsz & Hrep & Hnd & Hpay & Hord & Hblack) Hm Hcmp.
  rewrite Hm in Hm'. injection Hm' as <-. rewrite Hcmp in Hcmp'. injection Hcmp' as <-.
  unfold tree_search. rewrite get_fuel_eq, Hroot, Hcmp.
  apply (tree_search_loop_spec cmp (Map.config m) s t NIL); try done.
  by apply rep_height_lt_fuel with NIL.
Qed.

Lemma contains_spec s map t m cmp ko :
  well_formed s map t → maps s !! map = Some m →
  Config.key_compare (Map.config m) = Some cmp →
  ∃ s', ordered_map_contains (Some map) (Some ko) s
        = Some (negb (is_nil (find_key cmp (nodes s) (obj_bytes ko) (inorder t))), s')
        ∧ same_contents map s s'.
Proof.
  intros Hwf Hm Hcmp. unfold ordered_map_contains. cbn [is_null].
  rewrite (bind_eq _ _ _ _ _ (rdm_eq Map.root _ _ _ Hm)).
  rewrite (bind_eq _ _ _ _ _ (rdm_eq Map.config _ _ _ Hm)).
  rewrite (bind_eq _ _ _ _ _ (tree_search_spec s map t m cmp ko Hwf Hm Hcmp)).
  destruct (record_search_spec map m s Hm) as (s' & Hrec & Hsame).
  rewrite (bind_eq _ _ _ _ _ Hrec). by exists s'.
Qed.

Lemma get_spec s map t m cmp ko :
  well_formed s map t → maps s !! map = Some m →
  Config.key_compare (Map.config m) = Some cmp →
  ∃ s', ordered_map_get (Some map) (Some ko) s
        = Some (match find_key cmp (nodes s) (obj_bytes ko) (inorder t) with
                | Some a => (binding (nodes s) a).2
                | None => NULL
                end, s')
        ∧ same_contents map s s'.
Proof.
  intros Hwf Hm Hcmp. unfold ordered_map_get. cbn [is_null].
  rewrite (bind_eq _ _ _ _ _ (rdm_eq Map.root _ _ _ Hm)).
  rewrite (bind_eq _ _ _ _ _ (rdm_eq Map.config _ _ _ Hm)).
  rewrite (bind_eq _ _ _ _ _ (tree_search_spec s map t m cmp ko Hwf Hm Hcmp)).
  destruct (record_search_spec map m s Hm) as (s' & Hrec & Hsame).
  rewrite (bind_eq _ _ _ _ _ Hrec). exists s'. split; [|done].
  destruct (find_key _ _ _ _) as [a|] eqn:Hfind; cbn [is_nil negb]; [|done].
  apply (find_key_Some cmp) in Hfind as [Ha _].
  2:{ destruct Hwf as (? & ? & ? & ? & ? & ? & ?). naive_solver. }
  destruct Hwf as (m' & cmp' & Hm' & Hroot & Hcmp' & Hlaws & Hsz & Hrep & Hnd & Hpay & Hord & Hblack).
  destruct (rep_lookup _ _ _ _ Hrep Ha) as [n Hn].
  destruct Hsame as (Hnodes & _).
  unfold rd, binding. by rewrite Hnodes, Hn.
Qed.

Lemma well_formed_inv s map t m cmp :
  well_formed s map t → maps s !! map = Some m →
  Config.key_compare (Map.config m) = Some cmp →
  Map.root m = troot t
  ∧ comparator_laws cmp
  ∧ (Map.size m < SIZE_MOD)%N
  ∧ rep (nodes s) t NIL
  ∧ NoDup (inorder t)
  ∧ payloads (Map.config m) (nodes s) t
  ∧ ordered cmp (nodes s) (inorder t)
  ∧ color_of (nodes s) (troot t) = RB_BLACK.
Proof.
  intros (m' & cmp' & Hm' & Hroot & Hcmp' & Hlaws & Hsz & Hrep & Hnd & Hpay & Hord & Hblack) Hm Hcmp.
  rewrite Hm in Hm'. injection Hm' as <-. rewrite Hcmp in Hcmp'. injection Hcmp' as <-.
  done.
Qed.

(** * Updates of nodes *)

Lemma wr_eq upd a n s :
  nodes s !! a = Some n →
  wr upd (Some a) s = Some (tt, set_nodes (<[a := upd n]> (nodes s)) s).
Proof. unfold wr. by intros ->. Qed.

(** Stepping through the code: resolve the first read or write of the
    computation against what is known of the memory. *)
Ltac solve_lookup :=
  cbn [nodes maps iters set_nodes set_maps set_iters set_avail set_brk set_trace];
  repeat first [rewrite lookup_insert_eq | rewrite lookup_insert_ne by congruence];
  first [reflexivity | eassumption].

Ltac mstep :=
  erewrite bind_eq;
  [| first [apply rd_eq | apply wr_eq | apply rdm_eq | apply wrm_eq]; solve_lookup];
  cbv beta.

Lemma rep_same_links h h' t par :
  (∀ a, a ∈ inorder t → links <$> h' !! a = links <$> h !! a) →
  rep h t par → rep h' t par.
Proof.
  revert par. induction t as [|l IHl b r IHr]; intros par Hext; simpl; [done|].
  intros (n & Hn & Hp & Hl & Hr & Hrl & Hrr).
  assert (Hb : links <$> h' !! b = links <$> h !! b) by (apply Hext; set_solver).
  rewrite Hn in Hb. destruct (h' !! b) as [n'|] eqn:Hn'; [|done].
  injection Hb as Hb1 Hb2 Hb3.
  exists n'. split_and!; try congruence.
  - apply IHl; [|done]. intros a Ha. apply Hext. set_solver.
  - apply IHr; [|done]. intros a Ha. apply Hext. set_solver.
Qed.

Lemma key_bytes_insert h a n n' b :
  h !! a = Some n → Node.key n' = Node.key n →
  key_bytes (<[a := n']> h) b = key_bytes h b.
Proof.
  intros Hn Hk. unfold key_bytes.
  destruct (decide (a = b)) as [->|Hne].
  - by rewrite lookup_insert_eq, Hn, Hk.
  - by rewrite lookup_insert_ne.
Qed.

Lemma ordered_ext cmp h h' l :
  (∀ a, key_bytes h' a = key_bytes h a) → ordered cmp h l → ordered cmp h' l.
Proof.
  intros Hext. unfold ordered. induction 1 as [|a l Hs IH Hall]; constructor; [done|].
  eapply Forall_impl; [done|]. intros b. simpl. by rewrite !Hext.
Qed.

Lemma find_key_ext cmp h h' kb l :
  (∀ a, key_bytes h' a = key_bytes h a) → find_key cmp h' kb l = find_key cmp h kb l.
Proof.
  intros Hext. unfold find_key. f_equal.
  induction l as [|a l IH]; [done|].
  rewrite !filter_cons, Hext, IH. done.
Qed.

Lemma color_of_insert h a n n' p :
  h !! a = Some n → Node.color n' = Node.color n →
  color_of (<[a := n']> h) p = color_of h p.
Proof.
  intros Hn Hc. destruct p as [b|]; [|done]. simpl.
  destruct (decide (a = b)) as [->|Hne].
  - by rewrite lookup_insert_eq, Hn, Hc.
  - by rewrite lookup_insert_ne.
Qed.

(** * Insert on a key that is present *)

Lemma record_insert_plain_spec map m s :
  maps s !! map = Some m →
  ∃ s', record_insert map false s = Some (tt, s') ∧ same_contents map s s'.
Proof.
  intros Hm. unfold record_insert.
  rewrite (bind_eq _ _ _ _ _ (rdm_eq Map.stats_enabled _ _ _ Hm)).
  destruct (Map.stats_enabled m); cbn [when].
  - do 4 mstep. eexists. split; [done|].
    eapply same_contents_trans; [by apply (same_contents_stats map m)|].
    apply (same_contents_stats map). solve_lookup.
  - eexists. split; [done|]. by eapply same_contents_refl.
Qed.

(** Replacing the value held by one node of a well-formed map. *)
Lemma well_formed_set_value s map t m a n g s' :
  well_formed s map t → maps s !! map = Some m →
  nodes s !! a = Some n →
  ((0 < Config.value_size (Map.config m))%N →
   length (obj_bytes g) = N.to_nat (Config.value_size (Map.config m))) →
  nodes s' = <[a := Node.set_value (Some g) n]> (nodes s) →
  maps s' = maps s →
  well_formed s' map t.
Proof.
  intros (m' & cmp & Hm' & Hroot & Hcmp & Hlaws & Hsz & Hrep & Hnd & Hpay & Hord & Hblack)
         Hm Hn Hlen Hnodes Hmaps.
  rewrite Hm in Hm'. injection Hm' as <-.
  exists m, cmp. rewrite Hmaps, Hnodes. split_and!; try done.
  - eapply rep_same_links; [|done]. intros b _.
    destruct (decide (a = b)) as [->|Hne].
    + by rewrite lookup_insert_eq, Hn.
    + by rewrite lookup_insert_ne.
  - intros b Hb. destruct (Hpay b Hb) as (nb & kb & vb & Hnb & Hkb & Hvb & Hlb).
    destruct (decide (a = b)) as [->|Hne].
    + rewrite lookup_insert_eq. rewrite Hn in Hnb. injection Hnb as ->.
      by exists (Node.set_value (Some g) nb), kb, g.
    + rewrite lookup_insert_ne by done. by exists nb, kb, vb.
  - eapply ordered_ext; [|done]. intros b. by eapply key_bytes_insert.
  - by erewrite color_of_insert.
Qed.

Ltac mstep_refl := erewrite bind_eq; [|reflexivity]; cbv beta.

Lemma memcpy_into_eq d o n s :
  (N.to_nat n ≤ length (obj_bytes o))%nat → (N.to_nat n ≤ length (obj_bytes d))%nat →
  memcpy_into (Some d) (Some o) n s
  = Some (Some (Obj (obj_addr d) (take (N.to_nat n) (obj_bytes o)
                                  ++ drop (N.to_nat n) (obj_bytes d))), s).
Proof.
  intros Ho Hd. unfold memcpy_into, memcpy_read, bind.
  rewrite decide_True by done. unfold ret. by rewrite decide_True by done.
Qed.

Lemma insert_existing_spec s map t m cmp ko vo a n bs :
  well_formed s map t → maps s !! map = Some m →
  Config.key_compare (Map.config m) = Some cmp →
  find_key cmp (nodes s) (obj_bytes ko) (inorder t) = Some a →
  nodes s !! a = Some n →
  stored_bytes (Config.value_size (Map.config m)) (Config.value_copy (Map.config m))
    (obj_bytes vo) = Some bs →
  ∃ s' g,
    ordered_map_insert (Some map) (Some ko) (Some vo) s = Some (ORDERED_MAP_SUCCESS, s')
    ∧ obj_bytes g = bs
    ∧ (Config.value_size (Map.config m) = 0%N → Config.value_copy (Map.config m) = None → g = vo)
    ∧ nodes s' = <[a := Node.set_value (Some g) n]> (nodes s)
    ∧ iters s' = iters s ∧ avail s' = avail s
    ∧ (∃ m', maps s' !! map = Some m' ∧ Map.root m' = Map.root m
             ∧ Map.size m' = Map.size m ∧ Map.config m' = Map.config m)
    ∧ well_formed s' map t.
Proof.
  intros Hwf Hm Hcmp Hfind Hn Hstored.
  unfold ordered_map_insert. cbn [is_null orb].
  do 2 mstep.
  rewrite (bind_eq _ _ _ _ _ (tree_search_spec s map t m cmp ko Hwf Hm Hcmp)).
  rewrite Hfind. cbn [is_nil negb].
  (* the old value, which the tree invariant says is there *)
  pose proof (well_formed_inv _ _ _ _ _ Hwf Hm Hcmp)
    as (Hroot & Hlaws & Hsz & Hrep & Hnd & Hpay & Hord & Hblack).
  apply (find_key_Some cmp Hlaws) in Hfind as [Ha Hmatch].
  destruct (Hpay a Ha) as (n' & ka & va & Hn' & Hka & Hva & Hlen).
  rewrite Hn in Hn'. injection Hn' as <-.
  (* the first call of the destructor *)
  set (s1 := if Config.value_destructor (Map.config m)
             then set_trace (trace s ++ [EvValueDestructor (Node.value n)]) s else s).
  assert (Hd1 : when (Config.value_destructor (Map.config m))
                  (do old <- rd Node.value (Some a); log (EvValueDestructor old)) s
                = Some (tt, s1)).
  { subst s1. destruct (Config.value_destructor (Map.config m)); cbn [when]; [|done].
    by mstep. }
  rewrite (bind_eq _ _ _ _ _ Hd1).
  assert (Hn1 : nodes s1 !! a = Some n) by (subst s1; by destruct (Config.value_destructor _)).
  assert (Hm1 : maps s1 !! map = Some m) by (subst s1; by destruct (Config.value_destructor _)).
  assert (Hnodes1 : nodes s1 = nodes s) by (subst s1; by destruct (Config.value_destructor _)).
  assert (Hmaps1 : maps s1 = maps s) by (subst s1; by destruct (Config.value_destructor _)).
  assert (Hiters1 : iters s1 = iters s) by (subst s1; by destruct (Config.value_destructor _)).
  assert (Havail1 : avail s1 = avail s) by (subst s1; by destruct (Config.value_destructor _)).
  clearbody s1.
  (* storing the new value *)
  assert (∃ s2 g, (if (0 <? Config.value_size (Map.config m))%N then
         do old <- rd Node.value (Some a);
         do new_bytes <- memcpy_into old (Some vo) (Config.value_size (Map.config m));
         do_ wr (Node.set_value new_bytes) (Some a);
         ret true
       else
         match Config.value_copy (Map.config m) with
         | Some copy =>
             do new_value <- call_copy copy (Some vo);
             if is_null new_value then ret false else
             do_ when (Config.value_destructor (Map.config m))
                   (do old <- rd Node.value (Some a); log (EvValueDestructor old));
             do_ wr (Node.set_value new_value) (Some a);
             ret true
         | None =>
             do_ wr (Node.set_value (Some vo)) (Some a);
             ret true
         end) s1 = Some (true, s2)
       ∧ obj_bytes g = bs
       ∧ (Config.value_size (Map.config m) = 0%N → Config.value_copy (Map.config m) = None → g = vo)
       ∧ ((0 < Config.value_size (Map.config m))%N →
          length (obj_bytes g) = N.to_nat (Config.value_size (Map.config m)))
       ∧ nodes s2 = <[a := Node.set_value (Some g) n]> (nodes s)
       ∧ maps s2 = maps s ∧ iters s2 = iters s ∧ avail s2 = avail s)
    as (s2 & g & Hstore & Hg & Hborrow & Hglen & Hnodes2 & Hmaps2 & Hiters2 & Havail2).
  { unfold stored_bytes in Hstored.
    destruct (0 <? Config.value_size (Map.config m))%N eqn:Hsize.
    - apply N.ltb_lt in Hsize. specialize (Hlen Hsize).
      destruct (decide (N.to_nat (Config.value_size (Map.config m)) ≤ length (obj_bytes vo))%nat)
        as [Hfit|]; [|done].
      injection Hstored as <-.
      mstep. rewrite Hva.
      rewrite (bind_eq _ _ _ _ _ (memcpy_into_eq va vo _ s1 Hfit ltac:(lia))).
      mstep.
      eexists _, (Obj (obj_addr va) (take _ (obj_bytes vo))). split; [reflexivity|].
      split_and!; try done.
      + lia.
      + intros _. cbn [obj_bytes]. rewrite length_take. lia.
      + cbn [nodes set_nodes]. rewrite Hnodes1. do 3 f_equal.
        rewrite drop_ge by lia. by rewrite app_nil_r.
    - apply N.ltb_ge in Hsize.
      destruct (Config.value_copy (Map.config m)) as [copy|] eqn:Hcopy.
      + unfold call_copy at 1. cbn [obj_bytes]. rewrite Hstored.
        mstep_refl. cbn [is_null].
        set (s1' := set_brk _ s1).
        set (s1'' := if Config.value_destructor (Map.config m)
                     then set_trace (trace s1' ++ [EvValueDestructor (Node.value n)]) s1'
                     else s1').
        assert (Hd2 : when (Config.value_destructor (Map.config m))
                  (do old <- rd Node.value (Some a); log (EvValueDestructor old)) s1'
                = Some (tt, s1'')).
        { subst s1''. destruct (Config.value_destructor (Map.config m)); cbn [when]; [|done].
          by mstep. }
        rewrite (bind_eq _ _ _ _ _ Hd2).
        assert (Hn1'' : nodes s1'' !! a = Some n)
          by (subst s1'' s1'; by destruct (Config.value_destructor _)).
        mstep.
        eexists _, (Obj (brk s1) bs). split; [reflexivity|].
        split_and!; try done.
        * lia.
        * subst s1'' s1'. cbn [nodes set_nodes]. rewrite <- Hnodes1.
          by destruct (Config.value_destructor _).
        * subst s1'' s1'. cbn [maps set_nodes]. rewrite <- Hmaps1.
          by destruct (Config.value_destructor _).
        * subst s1'' s1'. cbn [iters set_nodes]. rewrite <- Hiters1.
          by destruct (Config.value_destructor _).
        * subst s1'' s1'. cbn [avail set_nodes]. rewrite <- Havail1.
          by destruct (Config.value_destructor _).
      + injection Hstored as <-. mstep.
        eexists _, vo. split; [reflexivity|].
        split_and!; try done.
        * lia.
        * cbn [nodes set_nodes]. by rewrite Hnodes1. }
  rewrite (bind_eq _ _ _ _ _ Hstore). cbn [negb].
  assert (Hm2 : maps s2 !! map = Some m) by by rewrite Hmaps2.
  destruct (record_insert_plain_spec map m s2 Hm2) as (s3 & Hrec & Hsame).
  rewrite (bind_eq _ _ _ _ _ Hrec).
  assert (Hwf2 : well_formed s2 map t) by by eapply well_formed_set_value.
  pose proof Hsame as (Hnodes3 & _ & Hiters3 & Havail3 & _ & m2 & m3 & Hm2' & Hm3 & Hr3 & Hs3 & Hc3).
  rewrite Hm2 in Hm2'. injection Hm2' as <-.
  exists s3, g. split_and!; try done; try congruence.
  - by exists m3.
  - by eapply well_formed_same_contents.
Qed.

Lemma insert_existing_oom s map t m cmp ko vo a :
  well_formed s map t → maps s !! map = Some m →
  Config.key_compare (Map.config m) = Some cmp →
  find_key cmp (nodes s) (obj_bytes ko) (inorder t) = Some a →
  stored_bytes (Config.value_size (Map.config m)) (Config.value_copy (Map.config m))
    (obj_bytes vo) = None →
  (0 < Config.value_size (Map.config m))%N
  ∨ ∃ s', ordered_map_insert (Some map) (Some ko) (Some vo) s
          = Some (ORDERED_MAP_ERROR_OUT_OF_MEMORY, s')
          ∧ nodes s' = nodes s ∧ maps s' = maps s.
Proof.
  intros Hwf Hm Hcmp Hfind Hstored.
  unfold stored_bytes in Hstored.
  destruct (0 <? Config.value_size (Map.config m))%N eqn:Hsize.
  { left. by apply N.ltb_lt. }
  right.
  destruct (Config.value_copy (Map.config m)) as [copy|] eqn:Hcopy; [|done].
  unfold ordered_map_insert. cbn [is_null orb].
  do 2 mstep.
  rewrite (bind_eq _ _ _ _ _ (tree_search_spec s map t m cmp ko Hwf Hm Hcmp)).
  rewrite Hfind. cbn [is_nil negb].
  pose proof (well_formed_inv _ _ _ _ _ Hwf Hm Hcmp)
    as (Hroot & Hlaws & Hsz & Hrep & Hnd & Hpay & Hord & Hblack).
  apply (find_key_Some cmp Hlaws) in Hfind as [Ha Hmatch].
  destruct (rep_lookup _ _ _ _ Hrep Ha) as [n Hn].
  set (s1 := if Config.value_destructor (Map.config m)
             then set_trace (trace s ++ [EvValueDestructor (Node.value n)]) s else s).
  assert (Hd1 : when (Config.value_destructor (Map.config m))
                  (do old <- rd Node.value (Some a); log (EvValueDestructor old)) s
                = Some (tt, s1)).
  { subst s1. destruct (Config.value_destructor (Map.config m)); cbn [when]; [|done].
    by mstep. }
  rewrite (bind_eq _ _ _ _ _ Hd1), Hsize, Hcopy.
  unfold call_copy at 1. cbn [obj_bytes]. rewrite Hstored.
  mstep_refl. cbn [negb].
  eexists. split; [reflexivity|].
  subst s1. by destruct (Config.value_destructor _).
Qed.

(** The calls of the value destructor on the update path of
    [ordered_map_insert], in every ownership mode. *)
Lemma insert_existing_events s map t m cmp ko vo a n bs :
  well_formed s map t → maps s !! map = Some m →
  Config.key_compare (Map.config m) = Some cmp →
  find_key cmp (nodes s) (obj_bytes ko) (inorder t) = Some a →
  nodes s !! a = Some n →
  stored_bytes (Config.value_size (Map.config m)) (Config.value_copy (Map.config m))
    (obj_bytes vo) = Some bs →
  ∃ s', ordered_map_insert (Some map) (Some ko) (Some vo) s = Some (ORDERED_MAP_SUCCESS, s')
        ∧ trace s' = trace s ++ overwrite_release (Map.config m) (Node.value n).
Proof.
  intros Hwf Hm Hcmp Hfind Hn Hstored.
  unfold ordered_map_insert. cbn [is_null orb].
  do 2 mstep.
  rewrite (bind_eq _ _ _ _ _ (tree_search_spec s map t m cmp ko Hwf Hm Hcmp)).
  rewrite Hfind. cbn [is_nil negb].
  pose proof (well_formed_inv _ _ _ _ _ Hwf Hm Hcmp)
    as (Hroot & Hlaws & Hsz & Hrep & Hnd & Hpay & Hord & Hblack).
  apply (find_key_Some cmp Hlaws) in Hfind as [Ha Hmatch].
  destruct (Hpay a Ha) as (n' & ka & va & Hn' & Hka & Hva & Hlen).
  rewrite Hn in Hn'. injection Hn' as <-.
  unfold overwrite_release.
  (* the first call of the destructor *)
  set (once := if Config.value_destructor (Map.config m)
               then [EvValueDestructor (Node.value n)] else []).
  set (s1 := if Config.value_destructor (Map.config m)
             then set_trace (trace s ++ [EvValueDestructor (Node.value n)]) s else s).
  assert (Hd1 : when (Config.value_destructor (Map.config m))
                  (do old <- rd Node.value (Some a); log (EvValueDestructor old)) s
                = Some (tt, s1)).
  { subst s1. destruct (Config.value_destructor (Map.config m)); cbn [when]; [|done].
    by mstep. }
  rewrite (bind_eq _ _ _ _ _ Hd1).
  assert (Hn1 : nodes s1 !! a = Some n) by (subst s1; by destruct (Config.value_destructor _)).
  assert (Hmaps1 : maps s1 = maps s) by (subst s1; by destruct (Config.value_destructor _)).
  assert (Ht1 : trace s1 = trace s ++ once).
  { subst s1 once. destruct (Config.value_destructor _); [done|by rewrite app_nil_r]. }
  clearbody s1.
  (* storing the new value *)
  assert (∃ s2, (if (0 <? Config.value_size (Map.config m))%N then
         do old <- rd Node.value (Some a);
         do new_bytes <- memcpy_into old (Some vo) (Config.value_size (Map.config m));
         do_ wr (Node.set_value new_bytes) (Some a);
         ret true
       else
         match Config.value_copy (Map.config m) with
         | Some copy =>
             do new_value <- call_copy copy (Some vo);
             if is_null new_value then ret false else
             do_ when (Config.value_destructor (Map.config m))
                   (do old <- rd Node.value (Some a); log (EvValueDestructor old));
             do_ wr (Node.set_value new_value) (Some a);
             ret true
         | None =>
             do_ wr (Node.set_value (Some vo)) (Some a);
             ret true
         end) s1 = Some (true, s2)
       ∧ maps s2 = maps s
       ∧ trace s2 = trace s1
                    ++ (if (0 <? Config.value_size (Map.config m))%N then []
                        else match Config.value_copy (Map.config m) with
                             | Some _ => once
                             | None => []
                             end))
    as (s2 & Hstore & Hmaps2 & Ht2).
  { unfold stored_bytes in Hstored.
    destruct (0 <? Config.value_size (Map.config m))%N eqn:Hsize.
    - apply N.ltb_lt in Hsize. specialize (Hlen Hsize).
      destruct (decide (N.to_nat (Config.value_size (Map.config m)) ≤ length (obj_bytes vo))%nat)
        as [Hfit|]; [|done].
      mstep. rewrite Hva.
      rewrite (bind_eq _ _ _ _ _ (memcpy_into_eq va vo _ s1 Hfit ltac:(lia))).
      mstep.
      eexists. split; [reflexivity|]. cbn [maps trace set_nodes].
      by rewrite app_nil_r.
    - destruct (Config.value_copy (Map.config m)) as [copy|] eqn:Hcopy.
      + unfold call_copy at 1. cbn [obj_bytes]. rewrite Hstored.
        mstep_refl. cbn [is_null].
        set (s1' := set_brk _ s1).
        set (s1'' := if Config.value_destructor (Map.config m)
                     then set_trace (trace s1' ++ [EvValueDestructor (Node.value n)]) s1'
                     else s1').
        assert (Hd2 : when (Config.value_destructor (Map.config m))
                  (do old <- rd Node.value (Some a); log (EvValueDestructor old)) s1'
                = Some (tt, s1'')).
        { subst s1''. destruct (Config.value_destructor (Map.config m)); cbn [when]; [|done].
          by mstep. }
        rewrite (bind_eq _ _ _ _ _ Hd2).
        assert (Hn1'' : nodes s1'' !! a = Some n)
          by (subst s1'' s1'; by destruct (Config.value_destructor _)).
        mstep.
        eexists. split; [reflexivity|].
        subst s1'' s1' once. cbn [maps trace set_nodes].
        destruct (Config.value_destructor _); cbn [maps trace set_trace set_brk].
        * done.
        * by rewrite app_nil_r.
      + mstep.
        eexists. split; [reflexivity|]. cbn [maps trace set_nodes].
        by rewrite app_nil_r. }
  rewrite (bind_eq _ _ _ _ _ Hstore). cbn [negb].
  assert (Hm2 : maps s2 !! map = Some m) by by rewrite Hmaps2.
  destruct (record_insert_plain_spec map m s2 Hm2) as (s3 & Hrec & Hsame).
  rewrite (bind_eq _ _ _ _ _ Hrec).
  destruct Hsame as (_ & Ht3 & _).
  exists s3. split; [done|].
  rewrite Ht3, Ht2, Ht1. by rewrite <- (assoc_L (++)).
Qed.

(** With no value destructor the update path hands nothing over; with
    values stored inline it hands the old value over at most once. *)
Lemma overwrite_release_none cfg old :
  Config.value_destructor cfg = false → overwrite_release cfg old = [].
Proof.
  unfold overwrite_release. intros ->.
  by destruct (0 <? _)%N, (Config.value_copy cfg).
Qed.

Lemma overwrite_release_once cfg old :
  Config.value_destructor cfg = false ∨ (0 < Config.value_size cfg)%N →
  overwrite_release cfg old
  = if Config.value_destructor cfg then [EvValueDestructor old] else [].
Proof.
  intros [Hnone|Hpos].
  - by rewrite (overwrite_release_none _ _ Hnone), Hnone.
  - unfold overwrite_release. apply N.ltb_lt in Hpos. rewrite Hpos. by rewrite app_nil_r.
Qed.

(** * Rotations and recolourings *)

Lemma surgery_refl map s : surgery map s s.
Proof. by split. Qed.

Lemma surgery_trans map s1 s2 s3 : surgery map s1 s2 → surgery map s2 s3 → surgery map s1 s3.
Proof. intros [] []. split; intros; congruence. Qed.

(** Reading the node under focus. *)
Lemma tree_at_node map s c l x r :
  tree_at map s (plug c (Br l x r)) →
  ∃ n, nodes s !! x = Some n
       ∧ Node.parent n = cparent c
       ∧ Node.left n = troot l
       ∧ Node.right n = troot r.
Proof.
  intros (m & _ & _ & Hrep & _). apply rep_plug in Hrep as [(n & ? & ? & ? & ? & _) _].
  by exists n.
Qed.

Lemma tree_at_lookup map s t a : tree_at map s t → a ∈ inorder t → is_Some (nodes s !! a).
Proof. intros (m & _ & _ & Hrep & _) Ha. by eapply rep_lookup. Qed.

Lemma get_color_eq s p :
  (∀ a, p = Some a → is_Some (nodes s !! a)) →
  get_color p s = Some (color_of (nodes s) p, s).
Proof.
  intros H. unfold get_color. destruct p as [a|]; [|done]. cbn [is_nil].
  destruct (H a eq_refl) as [n Hn]. rewrite (rd_eq _ _ _ _ Hn). simpl. by rewrite Hn.
Qed.

Lemma color_of_insert_eq h a n : color_of (<[a := n]> h) (Some a) = Node.color n.
Proof. simpl. by rewrite lookup_insert_eq. Qed.

Lemma color_of_insert_ne h a n p : p ≠ Some a → color_of (<[a := n]> h) p = color_of h p.
Proof.
  intros Hne. destruct p as [b|]; [|done]. simpl.
  rewrite lookup_insert_ne; [done|congruence].
Qed.

Lemma set_color_spec map s t z col :
  tree_at map s t → z ∈ inorder t →
  ∃ s', set_color (Some z) col s = Some (tt, s')
        ∧ tree_at map s' t
        ∧ surgery map s s'
        ∧ color_of (nodes s') (Some z) = col
        ∧ ∀ p, p ≠ Some z → color_of (nodes s') p = color_of (nodes s) p.
Proof.
  intros Ht Hz. destruct (tree_at_lookup _ _ _ _ Ht Hz) as [n Hn].
  unfold set_color. cbn [is_nil negb when]. rewrite (wr_eq _ _ _ _ Hn).
  eexists. split; [done|]. cbn [nodes set_nodes].
  destruct Ht as (m & Hm & Hroot & Hrep & Hnd).
  split_and!.
  - exists m. split_and!; try done. cbn [nodes set_nodes].
    eapply rep_same_links; [|done]. intros b _.
    destruct (decide (z = b)) as [->|Hne].
    + by rewrite lookup_insert_eq, Hn.
    + by rewrite lookup_insert_ne.
  - split; try done. intros b. cbn [nodes set_nodes].
    destruct (decide (z = b)) as [->|Hne].
    + by rewrite lookup_insert_eq, Hn.
    + by rewrite lookup_insert_ne.
  - apply color_of_insert_eq.
  - intros p Hp. by apply color_of_insert_ne.
Qed.

(** Writes as [alter]. *)
Lemma wr_alter upd a s :
  is_Some (nodes s !! a) →
  wr upd (Some a) s = Some (tt, set_nodes (alter upd a (nodes s)) s).
Proof.
  intros [n Hn]. rewrite (wr_eq _ _ _ _ Hn). do 3 f_equal.
  symmetry. by apply alter_alt_Some.
Qed.

(** A subtree whose root alone was given a new parent pointer. *)
Lemma rep_reparent h h' t par par' :
  rep h t par → NoDup (inorder t) →
  (∀ a, a ∈ inorder t → Some a ≠ troot t → h' !! a = h !! a) →
  (∀ a, troot t = Some a → h' !! a = Node.set_parent par' <$> h !! a) →
  rep h' t par'.
Proof.
  destruct t as [|l a r]; [done|]. simpl.
  intros (n & Hn & Hp & Hl & Hr & Hrl & Hrr) Hnd Hother Hroot.
  apply NoDup_app in Hnd as (_ & Hdis & Hnd). apply NoDup_cons in Hnd as (Har & _).
  exists (Node.set_parent par' n). rewrite (Hroot a eq_refl), Hn. split_and!; try done.
  - eapply rep_ext; [|done]. intros b Hb. apply Hother; [set_solver|].
    intros [= Hba]. subst b. apply (Hdis a Hb). set_solver.
  - eapply rep_ext; [|done]. intros b Hb. apply Hother; [set_solver|].
    intros [= Hba]. by subst b.
Qed.

(** A context whose innermost node alone was given a new pointer in the
    hole. *)
Lemma crep_rehole h h' c p q :
  crep h c p → NoDup (cbefore c ++ cafter c) →
  (∀ a, a ∈ cbefore c ++ cafter c → Some a ≠ cparent c → h' !! a = h !! a) →
  match c with
  | [] => True
  | InL a _ :: _ => h' !! a = Node.set_left q <$> h !! a
  | InR _ a :: _ => h' !! a = Node.set_right q <$> h !! a
  end →
  crep h' c q.
Proof.
  destruct c as [|[a r|l a] c]; [done| |]; simpl.
  - intros (n & Hn & Hp & Hl & Hr & Hrr & Hc) Hnd Hother Hhole.
    exists (Node.set_left q n). rewrite Hhole, Hn. split_and!; try done.
    + eapply rep_ext; [|done]. intros b Hb. apply Hother; [set_solver|].
      intros [= Hba]. subst b. apply NoDup_app in Hnd as (_ & _ & Hnd).
      apply NoDup_cons in Hnd as (Hnd & _). set_solver.
    + eapply crep_ext; [|done]. intros b Hb. apply Hother; [set_solver|].
      intros [= Hba]. subst b. apply NoDup_app in Hnd as (_ & Hdis & Hnd).
      apply NoDup_cons in Hnd as (Hnd & _).
      apply elem_of_app in Hb as [Hb|Hb]; [apply (Hdis _ Hb)|]; set_solver.
  - intros (n & Hn & Hp & Hl & Hr & Hrl & Hc) Hnd Hother Hhole.
    exists (Node.set_right q n). rewrite Hhole, Hn. split_and!; try done.
    + eapply rep_ext; [|done]. intros b Hb. apply Hother; [set_solver|].
      intros [= Hba]. subst b. apply NoDup_app in Hnd as (Hnd & _ & _).
      rewrite app_assoc in Hnd. apply NoDup_app in Hnd as (Hnd & Hdis & _).
      apply (Hdis a); set_solver.
    + eapply crep_ext; [|done]. intros b Hb. apply Hother; [set_solver|].
      intros [= Hba]. subst b. rewrite <- !app_assoc in Hnd.
      apply NoDup_app in Hnd as (_ & Hdis & Hnd).
      apply NoDup_app in Hnd as (_ & Hdis' & Hnd).
      apply NoDup_app in Hnd as (_ & Hdis'' & _).
      apply elem_of_app in Hb as [Hb|Hb]; [apply (Hdis _ Hb)|apply (Hdis'' a)]; set_solver.
Qed.

Lemma inorder_plug_perm c t : inorder (plug c t) ≡ₚ inorder t ++ cbefore c ++ cafter c.
Proof.
  rewrite inorder_plug. rewrite (app_assoc _ (inorder t)).
  rewrite (Permutation_app_comm (cbefore c)). by rewrite <- app_assoc.
Qed.

Lemma NoDup_plug c t :
  NoDup (inorder (plug c t)) ↔
  NoDup (inorder t) ∧ (∀ a, a ∈ inorder t → a ∉ cbefore c ++ cafter c)
  ∧ NoDup (cbefore c ++ cafter c).
Proof. rewrite inorder_plug_perm. apply NoDup_app. Qed.

Lemma cparent_in c a : cparent c = Some a → a ∈ cbefore c ++ cafter c.
Proof. destruct c as [|[b r|l b] c]; simpl; [done| |]; intros [= ->]; set_solver. Qed.

(** Lookups through a chain of [alter]s, given the needed disequalities
    as hypotheses. *)
Ltac lookup_alters :=
  cbn [nodes maps iters set_nodes set_maps set_iters set_avail set_brk set_trace];
  repeat first [rewrite lookup_alter_eq | rewrite lookup_alter_ne by congruence];
  repeat match goal with
         | H : ?h !! ?a = Some _ |- context [?h !! ?a] => rewrite H
         end;
  cbn [fmap option_fmap option_map].

Ltac rd_alter :=
  erewrite bind_eq; [| apply rd_eq; lookup_alters; reflexivity]; cbv beta;
  cbn [Node.parent Node.left Node.right Node.color Node.key Node.value
       Node.set_parent Node.set_left Node.set_right Node.set_color].

Ltac wr_alter_step :=
  erewrite bind_eq;
  [| apply wr_alter; lookup_alters; rewrite ?fmap_is_Some; eauto]; cbv beta.

(** The statement [if (u->parent == NIL) map->root = v; else if (u ==
    u->parent->left) u->parent->left = v; else u->parent->right = v;]
    shared by [left_rotate] and [transplant]. *)
Lemma replace_child_spec map m s c u v :
  maps s !! map = Some m → crep (nodes s) c (Some u) → u ∉ cbefore c ++ cafter c →
  (if is_nil (cparent c) then wrm (Map.set_root v) map
   else
     do upl <- rd Node.left (cparent c);
     if ptr_eqb (Some u) upl then wr (Node.set_left v) (cparent c)
     else wr (Node.set_right v) (cparent c)) s
  = Some (tt, match c with
              | [] => set_maps (<[map := Map.set_root v m]> (maps s)) s
              | InL a _ :: _ => set_nodes (alter (Node.set_left v) a (nodes s)) s
              | InR _ a :: _ => set_nodes (alter (Node.set_right v) a (nodes s)) s
              end).
Proof.
  intros Hm Hc Hu. destruct c as [|[a r|l a] c]; cbn [cparent is_nil].
  - by rewrite (wrm_eq _ _ _ _ Hm).
  - destruct Hc as (n & Hn & Hp & Hl & Hr & Hrr & Hc).
    rewrite (bind_eq _ _ _ _ _ (rd_eq Node.left _ _ _ Hn)), Hl, ptr_eqb_refl.
    by rewrite wr_alter by by rewrite Hn.
  - destruct Hc as (n & Hn & Hp & Hl & Hr & Hrl & Hc).
    rewrite (bind_eq _ _ _ _ _ (rd_eq Node.left _ _ _ Hn)), Hl, ptr_eqb_ne.
    + by rewrite wr_alter by by rewrite Hn.
    + intros Heq. symmetry in Heq. apply troot_inorder in Heq.
      apply Hu. simpl. set_solver.
Qed.

(** The mirror image, as in [right_rotate]. *)
Lemma replace_child_spec_r map m s c u v :
  maps s !! map = Some m → crep (nodes s) c (Some u) → u ∉ cbefore c ++ cafter c →
  (if is_nil (cparent c) then wrm (Map.set_root v) map
   else
     do upr <- rd Node.right (cparent c);
     if ptr_eqb (Some u) upr then wr (Node.set_right v) (cparent c)
     else wr (Node.set_left v) (cparent c)) s
  = Some (tt, match c with
              | [] => set_maps (<[map := Map.set_root v m]> (maps s)) s
              | InL a _ :: _ => set_nodes (alter (Node.set_left v) a (nodes s)) s
              | InR _ a :: _ => set_nodes (alter (Node.set_right v) a (nodes s)) s
              end).
Proof.
  intros Hm Hc Hu. destruct c as [|[a r|l a] c]; cbn [cparent is_nil].
  - by rewrite (wrm_eq _ _ _ _ Hm).
  - destruct Hc as (n & Hn & Hp & Hl & Hr & Hrr & Hc).
    rewrite (bind_eq _ _ _ _ _ (rd_eq Node.right _ _ _ Hn)), Hr, ptr_eqb_ne.
    + by rewrite wr_alter by by rewrite Hn.
    + intros Heq. symmetry in Heq. apply troot_inorder in Heq.
      apply Hu. simpl. set_solver.
  - destruct Hc as (n & Hn & Hp & Hl & Hr & Hrl & Hc).
    rewrite (bind_eq _ _ _ _ _ (rd_eq Node.right _ _ _ Hn)), Hr, ptr_eqb_refl.
    by rewrite wr_alter by by rewrite Hn.
Qed.

Lemma troot_plug_cons f c t t' : troot (plug (f :: c) t) = troot (plug (f :: c) t').
Proof.
  revert f t t'. induction c as [|g c IH]; intros f t t'.
  - by destruct f.
  - destruct f; simpl; apply (IH g).
Qed.

Lemma surgery_alter_links map s h' :
  (∀ a, payload <$> h' !! a = payload <$> nodes s !! a) →
  surgery map s (set_nodes h' s).
Proof. intros H. by split. Qed.

Lemma inorder_rotate c a x b y d :
  inorder (plug c (Br (Br a x b) y d)) = inorder (plug c (Br a x (Br b y d))).
Proof.
  rewrite !inorder_plug. f_equal. f_equal. simpl.
  rewrite <- !app_assoc. simpl. by rewrite <- ?app_assoc.
Qed.

Lemma left_rotate_spec map s c a x b y d :
  tree_at map s (plug c (Br a x (Br b y d))) →
  ∃ s', left_rotate map (Some x) s = Some (tt, s')
        ∧ tree_at map s' (plug c (Br (Br a x b) y d))
        ∧ surgery map s s'
        ∧ ∀ p, color_of (nodes s') p = color_of (nodes s) p.
Proof.
  intros (m & Hm & Hroot & Hrep & Hnd).
  pose proof Hrep as Hrep0. apply rep_plug in Hrep0 as [Hsub Hc].
  destruct Hsub as (nx & Hnx & Hpx & Hlx & Hrx & Hra & Hsub).
  destruct Hsub as (ny & Hny & Hpy & Hly & Hry & Hrb & Hrd).
  pose proof Hnd as Hnd0. apply NoDup_plug in Hnd0 as (Hnds & Hdis & Hndc).
  simpl in Hnds, Hdis.
  apply NoDup_app in Hnds as (Hnda & Hdisa & Hnds).
  apply NoDup_cons in Hnds as (Hx & Hnds).
  apply NoDup_app in Hnds as (Hndb & Hdisb & Hnds).
  apply NoDup_cons in Hnds as (Hy & Hndd).
  assert (Hxy : x ≠ y) by set_solver.
  assert (Hxc : x ∉ cbefore c ++ cafter c) by (apply Hdis; set_solver).
  assert (Hyc : y ∉ cbefore c ++ cafter c) by (apply Hdis; set_solver).
  assert (Hxp : ∀ xp, cparent c = Some xp → xp ≠ x ∧ xp ≠ y ∧ xp ∉ inorder a
                      ∧ xp ∉ inorder b ∧ xp ∉ inorder d).
  { intros xp Hxp. apply cparent_in in Hxp.
    split_and!; intros ?; subst; try done;
      match goal with H : ?z ∈ inorder _ |- _ => apply (Hdis z); [set_solver|done] end. }
  assert (Hrbx : ∀ rb, troot b = Some rb → rb ≠ x ∧ rb ≠ y ∧ rb ∉ cbefore c ++ cafter c).
  { intros rb Hb. apply troot_inorder in Hb. split_and!; [set_solver..|].
    apply Hdis. set_solver. }
  unfold left_rotate.
  rd_alter. rewrite Hrx. cbn [troot]. rd_alter. rewrite Hly.
  wr_alter_step.
  (* the conditional write of [y->left->parent] *)
  set (h1 := alter (Node.set_right (troot b)) x (nodes s)).
  set (h2 := match troot b with
             | Some rb => alter (Node.set_parent (Some x)) rb h1
             | None => h1
             end).
  assert (Hwhen : when (negb (is_nil (troot b))) (wr (Node.set_parent (Some x)) (troot b))
                    (set_nodes h1 s) = Some (tt, set_nodes h2 s)).
  { subst h2. destruct (troot b) as [rb|] eqn:Htb; cbn [is_nil negb when]; [|done].
    destruct (Hrbx rb eq_refl) as (? & ? & ?).
    rewrite wr_alter; [done|]. subst h1. lookup_alters.
    eapply rep_lookup; [exact Hrb|]. by apply troot_inorder. }
  rewrite (bind_eq _ _ _ _ _ Hwhen).
  assert (Hh2x : h2 !! x = Some (Node.set_right (troot b) nx)).
  { subst h2 h1. destruct (troot b) as [rb|] eqn:Htb.
    - destruct (Hrbx rb eq_refl) as (? & ? & ?). by lookup_alters.
    - by lookup_alters. }
  assert (Hh2y : h2 !! y = Some ny).
  { subst h2 h1. destruct (troot b) as [rb|] eqn:Htb.
    - destruct (Hrbx rb eq_refl) as (? & ? & ?). by lookup_alters.
    - by lookup_alters. }
  rewrite (bind_eq _ _ _ _ _ (rd_eq Node.parent x _ (set_nodes h2 s) Hh2x)).
  cbn [Node.parent Node.set_right]. rewrite Hpx.
  rewrite (bind_eq _ _ _ _ _ (wr_alter _ y (set_nodes h2 s) ltac:(cbn [nodes set_nodes]; rewrite Hh2y; eauto))).
  cbn [nodes set_nodes].
  set (h3 := alter (Node.set_parent (cparent c)) y h2).
  assert (Hc3 : crep (nodes (set_nodes h3 s)) c (Some x)).
  { eapply crep_ext; [|exact Hc]. intros z Hz. cbn [nodes set_nodes].
    subst h3 h2 h1.
    assert (z ≠ x) by (intros ->; done). assert (z ≠ y) by (intros ->; done).
    destruct (troot b) as [rb|] eqn:Htb.
    - destruct (Hrbx rb eq_refl) as (? & ? & ?).
      assert (z ≠ rb) by (intros ->; done). by lookup_alters.
    - by lookup_alters. }
  rewrite (bind_eq _ _ _ _ _ (replace_child_spec map m (set_nodes h3 s) c x (Some y) Hm Hc3 Hxc)).
  set (s4 := match c with [] => _ | InL _ _ :: _ => _ | InR _ _ :: _ => _ end).
  assert (Hs4 : ∃ h4 m4, s4 = set_maps (<[map := m4]> (maps s)) (set_nodes h4 s)
                  ∧ header m4 = header m
                  ∧ Map.root m4 = troot (plug c (Br (Br a x b) y d))
                  ∧ (∀ z, Some z ≠ cparent c → h4 !! z = h3 !! z)
                  ∧ match c with
                    | [] => True
                    | InL p _ :: _ => h4 !! p = Node.set_left (Some y) <$> h3 !! p
                    | InR _ p :: _ => h4 !! p = Node.set_right (Some y) <$> h3 !! p
                    end).
  { subst s4. destruct c as [|[p r|l p] c].
    - exists h3, (Map.set_root (Some y) m). by split_and!.
    - exists (alter (Node.set_left (Some y)) p h3), m. split_and!; try done.
      + unfold set_maps, set_nodes. simpl. by rewrite insert_id.
      + rewrite Hroot. apply troot_plug_cons.
      + intros z Hz. simpl in Hz. rewrite lookup_alter_ne; [done|congruence].
      + by rewrite lookup_alter_eq.
    - exists (alter (Node.set_right (Some y)) p h3), m. split_and!; try done.
      + unfold set_maps, set_nodes. simpl. by rewrite insert_id.
      + rewrite Hroot. apply troot_plug_cons.
      + intros z Hz. simpl in Hz. rewrite lookup_alter_ne; [done|congruence].
      + by rewrite lookup_alter_eq. }
  destruct Hs4 as (h4 & m4 & -> & Hhdr & Hroot4 & Hh4 & Hhole).
  assert (Hh4x : h4 !! x = Some (Node.set_right (troot b) nx)).
  { rewrite Hh4.
    - subst h3. by rewrite lookup_alter_ne.
    - intros Heq. symmetry in Heq. by destruct (Hxp x Heq) as (? & _). }
  assert (Hh4y : h4 !! y = Some (Node.set_parent (cparent c) ny)).
  { rewrite Hh4.
    - subst h3. by rewrite lookup_alter_eq, Hh2y.
    - intros Heq. symmetry in Heq. by destruct (Hxp y Heq) as (_ & ? & _). }
  rewrite (bind_eq _ _ _ _ _ (wr_alter _ y (set_maps (<[map := m4]> (maps s)) (set_nodes h4 s))
             ltac:(cbn [nodes set_nodes set_maps]; rewrite Hh4y; eauto))).
  rewrite wr_alter.
  2:{ cbn [nodes set_nodes set_maps]. rewrite lookup_alter_ne by done. rewrite Hh4x. eauto. }
  eexists. split; [reflexivity|].
  cbn [nodes set_nodes set_maps].
  set (h' := alter (Node.set_parent (Some y)) x (alter (Node.set_left (Some x)) y h4)).
  (* what the final heap holds *)
  assert (Hx' : h' !! x = Some (Node.set_parent (Some y) (Node.set_right (troot b) nx))).
  { subst h'. rewrite lookup_alter_eq, lookup_alter_ne by done. by rewrite Hh4x. }
  assert (Hy' : h' !! y = Some (Node.set_left (Some x) (Node.set_parent (cparent c) ny))).
  { subst h'. rewrite lookup_alter_ne, lookup_alter_eq by done. by rewrite Hh4y. }
  assert (Hother : ∀ z, z ≠ x → z ≠ y → Some z ≠ cparent c → Some z ≠ troot b →
                        h' !! z = nodes s !! z).
  { intros z ? ? ? ?. subst h'. rewrite !lookup_alter_ne by done.
    rewrite Hh4 by done. subst h3 h2 h1. rewrite lookup_alter_ne by done.
    destruct (troot b) as [rb|]; rewrite ?lookup_alter_ne; congruence. }
  assert (Hrb' : ∀ rb, troot b = Some rb →
                       h' !! rb = Node.set_parent (Some x) <$> nodes s !! rb).
  { intros rb Htb. destruct (Hrbx rb Htb) as (? & ? & Hrbc).
    subst h'. rewrite !lookup_alter_ne by done.
    rewrite Hh4.
    - subst h3 h2 h1. rewrite lookup_alter_ne by done. rewrite Htb.
      rewrite lookup_alter_eq, lookup_alter_ne; done.
    - intros Heq. symmetry in Heq. apply cparent_in in Heq. done. }
  assert (Hp' : match c with
                | [] => True
                | InL p _ :: _ => h' !! p = Node.set_left (Some y) <$> nodes s !! p
                | InR _ p :: _ => h' !! p = Node.set_right (Some y) <$> nodes s !! p
                end).
  { destruct c as [|[p r|l p] c]; [done| |];
      destruct (Hxp p eq_refl) as (? & ? & ? & Hpb & ?);
      subst h'; rewrite !lookup_alter_ne by done; rewrite Hhole;
      subst h3 h2 h1; rewrite lookup_alter_ne by done;
      (destruct (troot b) as [rb|] eqn:Htb;
       [assert (rb ≠ p) by (intros ->; apply Hpb; by apply troot_inorder);
        rewrite lookup_alter_ne by done|]);
      by rewrite lookup_alter_ne by done. }
  split_and!.
  - exists m4. split_and!.
    + cbn [maps set_maps set_nodes]. by rewrite lookup_insert_eq.
    + done.
    + apply rep_plug. split.
      * exists (Node.set_left (Some x) (Node.set_parent (cparent c) ny)).
        split_and!; try done.
        -- exists (Node.set_parent (Some y) (Node.set_right (troot b) nx)).
           split_and!; try done.
           ++ eapply rep_ext; [|exact Hra]. intros z Hz. apply Hother.
              ** intros ->. set_solver.
              ** intros ->. set_solver.
              ** intros Heq. symmetry in Heq. destruct (Hxp z Heq) as (_ & _ & ? & _). done.
              ** intros Heq. symmetry in Heq. apply troot_inorder in Heq. set_solver.
           ++ eapply rep_reparent; [exact Hrb|done| |done].
              intros z Hz Hzr. apply Hother; try done.
              ** intros ->. set_solver.
              ** intros ->. set_solver.
              ** intros Heq. symmetry in Heq. destruct (Hxp z Heq) as (_ & _ & _ & ? & _). done.
        -- eapply rep_ext; [|exact Hrd]. intros z Hz. apply Hother.
           ++ intros ->. set_solver.
           ++ intros ->. set_solver.
           ++ intros Heq. symmetry in Heq. destruct (Hxp z Heq) as (_ & _ & _ & _ & ?). done.
           ++ intros Heq. symmetry in Heq. apply troot_inorder in Heq. set_solver.
      * eapply crep_rehole; [exact Hc|done| |done].
        intros z Hz Hzp. apply Hother; try done.
        -- intros ->. set_solver.
        -- intros ->. set_solver.
        -- intros Heq. symmetry in Heq. destruct (Hrbx z Heq) as (_ & _ & ?). done.
    + by rewrite inorder_rotate.
  - split; try done.
    + intros z. cbn [nodes set_nodes set_maps]. fold h'.
      destruct (decide (z = x)) as [->|Hzx]; [by rewrite Hx', Hnx|].
      destruct (decide (z = y)) as [->|Hzy]; [by rewrite Hy', Hny|].
      destruct (decide (Some z = troot b)) as [Hzb|Hzb].
      { rewrite (Hrb' z) by done. by destruct (nodes s !! z). }
      destruct (decide (Some z = cparent c)) as [Hzp|Hzp].
      { destruct c as [|[p r|l p] c]; [done| |]; simpl in Hzp; injection Hzp as ->;
          rewrite Hp'; by destruct (nodes s !! p). }
      by rewrite Hother.
    + cbn [maps set_maps set_nodes]. rewrite lookup_insert_eq, Hm. simpl. by rewrite Hhdr.
  - intros [z|]; [|done]. unfold color_of. cbn [nodes set_nodes set_maps]. fold h'.
    destruct (decide (z = x)) as [->|Hzx]; [by rewrite Hx', Hnx|].
    destruct (decide (z = y)) as [->|Hzy]; [by rewrite Hy', Hny|].
    destruct (decide (Some z = troot b)) as [Hzb|Hzb].
    { rewrite (Hrb' z) by done. by destruct (nodes s !! z). }
    destruct (decide (Some z = cparent c)) as [Hzp|Hzp].
    { destruct c as [|[p r|l p] c]; [done| |]; simpl in Hzp; injection Hzp as ->;
        rewrite Hp'; by destruct (nodes s !! p). }
    by rewrite Hother.
Qed.

Lemma right_rotate_spec map s c a x b y d :
  tree_at map s (plug c (Br (Br a x b) y d)) →
  ∃ s', right_rotate map (Some y) s = Some (tt, s')
        ∧ tree_at map s' (plug c (Br a x (Br b y d)))
        ∧ surgery map s s'
        ∧ ∀ p, color_of (nodes s') p = color_of (nodes s) p.
Proof.
  intros (m & Hm & Hroot & Hrep & Hnd).
  pose proof Hrep as Hrep0. apply rep_plug in Hrep0 as [Hsub Hc].
  destruct Hsub as (ny & Hny & Hpy & Hly & Hry & Hsub & Hrd).
  destruct Hsub as (nx & Hnx & Hpx & Hlx & Hrx & Hra & Hrb).
  pose proof Hnd as Hnd0. rewrite inorder_rotate in Hnd0.
  apply NoDup_plug in Hnd0 as (Hnds & Hdis & Hndc).
  simpl in Hnds, Hdis.
  apply NoDup_app in Hnds as (Hnda & Hdisa & Hnds).
  apply NoDup_cons in Hnds as (Hx & Hnds).
  apply NoDup_app in Hnds as (Hndb & Hdisb & Hnds).
  apply NoDup_cons in Hnds as (Hy & Hndd).
  assert (Hxy : x ≠ y) by set_solver.
  assert (Hxc : x ∉ cbefore c ++ cafter c) by (apply Hdis; set_solver).
  assert (Hyc : y ∉ cbefore c ++ cafter c) by (apply Hdis; set_solver).
  assert (Hxp : ∀ xp, cparent c = Some xp → xp ≠ x ∧ xp ≠ y ∧ xp ∉ inorder a
                      ∧ xp ∉ inorder b ∧ xp ∉ inorder d).
  { intros xp Hxp. apply cparent_in in Hxp.
    split_and!; intros ?; subst; try done;
      match goal with H : ?z ∈ inorder _ |- _ => apply (Hdis z); [set_solver|done] end. }
  assert (Hrbx : ∀ rb, troot b = Some rb → rb ≠ x ∧ rb ≠ y ∧ rb ∉ cbefore c ++ cafter c).
  { intros rb Hb. apply troot_inorder in Hb. split_and!; [set_solver..|].
    apply Hdis. set_solver. }
  unfold right_rotate.
  rd_alter. rewrite Hly. cbn [troot]. rd_alter. rewrite Hrx.
  wr_alter_step.
  (* the conditional write of [x->right->parent] *)
  set (h1 := alter (Node.set_left (troot b)) y (nodes s)).
  set (h2 := match troot b with
             | Some rb => alter (Node.set_parent (Some y)) rb h1
             | None => h1
             end).
  assert (Hwhen : when (negb (is_nil (troot b))) (wr (Node.set_parent (Some y)) (troot b))
                    (set_nodes h1 s) = Some (tt, set_nodes h2 s)).
  { subst h2. destruct (troot b) as [rb|] eqn:Htb; cbn [is_nil negb when]; [|done].
    destruct (Hrbx rb eq_refl) as (? & ? & ?).
    rewrite wr_alter; [done|]. subst h1. lookup_alters.
    eapply rep_lookup; [exact Hrb|]. by apply troot_inorder. }
  rewrite (bind_eq _ _ _ _ _ Hwhen).
  assert (Hh2y : h2 !! y = Some (Node.set_left (troot b) ny)).
  { subst h2 h1. destruct (troot b) as [rb|] eqn:Htb.
    - destruct (Hrbx rb eq_refl) as (? & ? & ?). by lookup_alters.
    - by lookup_alters. }
  assert (Hh2x : h2 !! x = Some nx).
  { subst h2 h1. destruct (troot b) as [rb|] eqn:Htb.
    - destruct (Hrbx rb eq_refl) as (? & ? & ?). by lookup_alters.
    - by lookup_alters. }
  rewrite (bind_eq _ _ _ _ _ (rd_eq Node.parent y _ (set_nodes h2 s) Hh2y)).
  cbn [Node.parent Node.set_left]. rewrite Hpy.
  rewrite (bind_eq _ _ _ _ _ (wr_alter _ x (set_nodes h2 s)
             ltac:(cbn [nodes set_nodes]; rewrite Hh2x; eauto))).
  cbn [nodes set_nodes].
  set (h3 := alter (Node.set_parent (cparent c)) x h2).
  assert (Hc3 : crep (nodes (set_nodes h3 s)) c (Some y)).
  { eapply crep_ext; [|exact Hc]. intros z Hz. cbn [nodes set_nodes].
    subst h3 h2 h1.
    assert (z ≠ x) by (intros ->; done). assert (z ≠ y) by (intros ->; done).
    destruct (troot b) as [rb|] eqn:Htb.
    - destruct (Hrbx rb eq_refl) as (? & ? & ?).
      assert (z ≠ rb) by (intros ->; done). by lookup_alters.
    - by lookup_alters. }
  rewrite (bind_eq _ _ _ _ _ (replace_child_spec_r map m (set_nodes h3 s) c y (Some x) Hm Hc3 Hyc)).
  set (s4 := match c with [] => _ | InL _ _ :: _ => _ | InR _ _ :: _ => _ end).
  assert (Hs4 : ∃ h4 m4, s4 = set_maps (<[map := m4]> (maps s)) (set_nodes h4 s)
                  ∧ header m4 = header m
                  ∧ Map.root m4 = troot (plug c (Br a x (Br b y d)))
                  ∧ (∀ z, Some z ≠ cparent c → h4 !! z = h3 !! z)
                  ∧ match c with
                    | [] => True
                    | InL p _ :: _ => h4 !! p = Node.set_left (Some x) <$> h3 !! p
                    | InR _ p :: _ => h4 !! p = Node.set_right (Some x) <$> h3 !! p
                    end).
  { subst s4. destruct c as [|[p r|l p] c].
    - exists h3, (Map.set_root (Some x) m). by split_and!.
    - exists (alter (Node.set_left (Some x)) p h3), m. split_and!; try done.
      + unfold set_maps, set_nodes. simpl. by rewrite insert_id.
      + rewrite Hroot. apply troot_plug_cons.
      + intros z Hz. simpl in Hz. rewrite lookup_alter_ne; [done|congruence].
      + by rewrite lookup_alter_eq.
    - exists (alter (Node.set_right (Some x)) p h3), m. split_and!; try done.
      + unfold set_maps, set_nodes. simpl. by rewrite insert_id.
      + rewrite Hroot. apply troot_plug_cons.
      + intros z Hz. simpl in Hz. rewrite lookup_alter_ne; [done|congruence].
      + by rewrite lookup_alter_eq. }
  destruct Hs4 as (h4 & m4 & -> & Hhdr & Hroot4 & Hh4 & Hhole).
  assert (Hh4y : h4 !! y = Some (Node.set_left (troot b) ny)).
  { rewrite Hh4.
    - subst h3. by rewrite lookup_alter_ne.
    - intros Heq. symmetry in Heq. by destruct (Hxp y Heq) as (_ & ? & _). }
  assert (Hh4x : h4 !! x = Some (Node.set_parent (cparent c) nx)).
  { rewrite Hh4.
    - subst h3. by rewrite lookup_alter_eq, Hh2x.
    - intros Heq. symmetry in Heq. by destruct (Hxp x Heq) as (? & _). }
  rewrite (bind_eq _ _ _ _ _ (wr_alter _ x (set_maps (<[map := m4]> (maps s)) (set_nodes h4 s))
             ltac:(cbn [nodes set_nodes set_maps]; rewrite Hh4x; eauto))).
  rewrite wr_alter.
  2:{ cbn [nodes set_nodes set_maps]. rewrite lookup_alter_ne by done. rewrite Hh4y. eauto. }
  eexists. split; [reflexivity|].
  cbn [nodes set_nodes set_maps].
  set (h' := alter (Node.set_parent (Some x)) y (alter (Node.set_right (Some y)) x h4)).
  (* what the final heap holds *)
  assert (Hy' : h' !! y = Some (Node.set_parent (Some x) (Node.set_left (troot b) ny))).
  { subst h'. rewrite lookup_alter_eq, lookup_alter_ne by done. by rewrite Hh4y. }
  assert (Hx' : h' !! x = Some (Node.set_right (Some y) (Node.set_parent (cparent c) nx))).
  { subst h'. rewrite lookup_alter_ne, lookup_alter_eq by done. by rewrite Hh4x. }
  assert (Hother : ∀ z, z ≠ x → z ≠ y → Some z ≠ cparent c → Some z ≠ troot b →
                        h' !! z = nodes s !! z).
  { intros z ? ? ? ?. subst h'. rewrite !lookup_alter_ne by done.
    rewrite Hh4 by done. subst h3 h2 h1. rewrite lookup_alter_ne by done.
    destruct (troot b) as [rb|]; rewrite ?lookup_alter_ne; congruence. }
  assert (Hrb' : ∀ rb, troot b = Some rb →
                       h' !! rb = Node.set_parent (Some y) <$> nodes s !! rb).
  { intros rb Htb. destruct (Hrbx rb Htb) as (? & ? & Hrbc).
    subst h'. rewrite !lookup_alter_ne by done.
    rewrite Hh4.
    - subst h3 h2 h1. rewrite lookup_alter_ne by done. rewrite Htb.
      rewrite lookup_alter_eq, lookup_alter_ne; done.
    - intros Heq. symmetry in Heq. apply cparent_in in Heq. done. }
  assert (Hp' : match c with
                | [] => True
                | InL p _ :: _ => h' !! p = Node.set_left (Some x) <$> nodes s !! p
                | InR _ p :: _ => h' !! p = Node.set_right (Some x) <$> nodes s !! p
                end).
  { destruct c as [|[p r|l p] c]; [done| |];
      destruct (Hxp p eq_refl) as (? & ? & ? & Hpb & ?);
      subst h'; rewrite !lookup_alter_ne by done; rewrite Hhole;
      subst h3 h2 h1; rewrite lookup_alter_ne by done;
      (destruct (troot b) as [rb|] eqn:Htb;
       [assert (rb ≠ p) by (intros ->; apply Hpb; by apply troot_inorder);
        rewrite lookup_alter_ne by done|]);
      by rewrite lookup_alter_ne by done. }
  split_and!.
  - exists m4. split_and!.
    + cbn [maps set_maps set_nodes]. by rewrite lookup_insert_eq.
    + done.
    + apply rep_plug. split.
      * exists (Node.set_right (Some y) (Node.set_parent (cparent c) nx)).
        split_and!; try done.
        -- eapply rep_ext; [|exact Hra]. intros z Hz. apply Hother.
           ++ intros ->. set_solver.
           ++ intros ->. set_solver.
           ++ intros Heq. symmetry in Heq. destruct (Hxp z Heq) as (_ & _ & ? & _). done.
           ++ intros Heq. symmetry in Heq. apply troot_inorder in Heq. set_solver.
        -- exists (Node.set_parent (Some x) (Node.set_left (troot b) ny)).
           split_and!; try done.
           ++ eapply rep_reparent; [exact Hrb|done| |done].
              intros z Hz Hzr. apply Hother; try done.
              ** intros ->. set_solver.
              ** intros ->. set_solver.
              ** intros Heq. symmetry in Heq. destruct (Hxp z Heq) as (_ & _ & _ & ? & _). done.
           ++ eapply rep_ext; [|exact Hrd]. intros z Hz. apply Hother.
              ** intros ->. set_solver.
              ** intros ->. set_solver.
              ** intros Heq. symmetry in Heq. destruct (Hxp z Heq) as (_ & _ & _ & _ & ?). done.
              ** intros Heq. symmetry in Heq. apply troot_inorder in Heq. set_solver.
      * eapply crep_rehole; [exact Hc|done| |done].
        intros z Hz Hzp. apply Hother; try done.
        -- intros ->. set_solver.
        -- intros ->. set_solver.
        -- intros Heq. symmetry in Heq. destruct (Hrbx z Heq) as (_ & _ & ?). done.
    + by rewrite <- inorder_rotate.
  - split; try done.
    + intros z. cbn [nodes set_nodes set_maps]. fold h'.
      destruct (decide (z = x)) as [->|Hzx]; [by rewrite Hx', Hnx|].
      destruct (decide (z = y)) as [->|Hzy]; [by rewrite Hy', Hny|].
      destruct (decide (Some z = troot b)) as [Hzb|Hzb].
      { rewrite (Hrb' z) by done. by destruct (nodes s !! z). }
      destruct (decide (Some z = cparent c)) as [Hzp|Hzp].
      { destruct c as [|[p r|l p] c]; [done| |]; simpl in Hzp; injection Hzp as ->;
          rewrite Hp'; by destruct (nodes s !! p). }
      by rewrite Hother.
    + cbn [maps set_maps set_nodes]. rewrite lookup_insert_eq, Hm. simpl. by rewrite Hhdr.
  - intros [z|]; [|done]. unfold color_of. cbn [nodes set_nodes set_maps]. fold h'.
    destruct (decide (z = x)) as [->|Hzx]; [by rewrite Hx', Hnx|].
    destruct (decide (z = y)) as [->|Hzy]; [by rewrite Hy', Hny|].
    destruct (decide (Some z = troot b)) as [Hzb|Hzb].
    { rewrite (Hrb' z) by done. by destruct (nodes s !! z). }
    destruct (decide (Some z = cparent c)) as [Hzp|Hzp].
    { destruct c as [|[p r|l p] c]; [done| |]; simpl in Hzp; injection Hzp as ->;
        rewrite Hp'; by destruct (nodes s !! p). }
    by rewrite Hother.
Qed.

(** * [insert_fixup] *)

Lemma rd_parent map s c l x r :
  tree_at map s (plug c (Br l x r)) → rd Node.parent (Some x) s = Some (cparent c, s).
Proof. intros Ht. destruct (tree_at_node _ _ _ _ _ _ Ht) as (n & Hn & <- & _). by apply rd_eq. Qed.

Lemma rd_left map s c l x r :
  tree_at map s (plug c (Br l x r)) → rd Node.left (Some x) s = Some (troot l, s).
Proof. intros Ht. destruct (tree_at_node _ _ _ _ _ _ Ht) as (n & Hn & _ & <- & _). by apply rd_eq. Qed.

Lemma rd_right map s c l x r :
  tree_at map s (plug c (Br l x r)) → rd Node.right (Some x) s = Some (troot r, s).
Proof. intros Ht. destruct (tree_at_node _ _ _ _ _ _ Ht) as (n & Hn & _ & _ & <-). by apply rd_eq. Qed.

Lemma get_color_at map s t p :
  tree_at map s t → (∀ a, p = Some a → a ∈ inorder t) →
  get_color p s = Some (color_of (nodes s) p, s).
Proof.
  intros Ht Hp. apply get_color_eq. intros a ->. eapply tree_at_lookup; [done|]. by apply Hp.
Qed.

Lemma in_plug_focus c l x r : x ∈ inorder (plug c (Br l x r)).
Proof. rewrite inorder_plug. simpl. set_solver. Qed.

Lemma in_plug_sub c t a : a ∈ inorder t → a ∈ inorder (plug c t).
Proof. rewrite inorder_plug. set_solver. Qed.

Lemma leaf_in_plug n c t : leaf_in n t → leaf_in n (plug c t).
Proof. intros [c' ->]. exists (c' ++ c). by rewrite plug_app. Qed.

Lemma leaf_in_here n : leaf_in n (Br Leaf n Leaf).
Proof. by exists []. Qed.

Lemma leaf_in_l n l a r : leaf_in n l → leaf_in n (Br l a r).
Proof. intros H. by apply (leaf_in_plug n [InL a r]). Qed.

Lemma leaf_in_r n l a r : leaf_in n r → leaf_in n (Br l a r).
Proof. intros H. by apply (leaf_in_plug n [InR l a]). Qed.

(** The three recolourings of the red-uncle case. *)
Lemma recolor_spec {A} map s t p y g (k : M A) :
  tree_at map s t → p ∈ inorder t → y ∈ inorder t → g ∈ inorder t →
  p ≠ g → y ≠ g →
  ∃ s', (do_ set_color (Some p) RB_BLACK;
         do_ set_color (Some y) RB_BLACK;
         do_ set_color (Some g) RB_RED;
         k) s = k s'
        ∧ tree_at map s' t
        ∧ surgery map s s'
        ∧ color_of (nodes s') (Some g) = RB_RED
        ∧ ∀ q, q ≠ Some p → q ≠ Some y → q ≠ Some g →
               color_of (nodes s') q = color_of (nodes s) q.
Proof.
  intros Ht Hp Hy Hg Hpg Hyg.
  destruct (set_color_spec map s t p RB_BLACK Ht Hp) as (s1 & E1 & Ht1 & Hs1 & Hc1 & Ho1).
  destruct (set_color_spec map s1 t y RB_BLACK Ht1 Hy) as (s2 & E2 & Ht2 & Hs2 & Hc2 & Ho2).
  destruct (set_color_spec map s2 t g RB_RED Ht2 Hg) as (s3 & E3 & Ht3 & Hs3 & Hc3 & Ho3).
  exists s3. rewrite (bind_eq _ _ _ _ _ E1), (bind_eq _ _ _ _ _ E2), (bind_eq _ _ _ _ _ E3).
  split_and!; try done.
  - eauto using surgery_trans.
  - intros q ? ? ?. rewrite Ho3, Ho2, Ho1 by done. done.
Qed.

(** The tail of the rotation case on the left: recolour the parent and the
    grandparent, rotate the grandparent to the right. *)
Lemma outer_left_steps {A} map s c l z r p pr g u (k : M A) :
  tree_at map s (plug c (Br (Br (Br l z r) p pr) g u)) →
  ∃ s', (do zp <- rd Node.parent (Some z);
         do_ set_color zp RB_BLACK;
         do zpp <- rd Node.parent zp;
         do_ set_color zpp RB_RED;
         do_ right_rotate map zpp;
         k) s = k s'
        ∧ tree_at map s' (plug c (Br (Br l z r) p (Br pr g u)))
        ∧ surgery map s s'
        ∧ color_of (nodes s') (Some p) = RB_BLACK
        ∧ color_of (nodes s') (Some g) = RB_RED
        ∧ ∀ q, q ≠ Some p → q ≠ Some g → color_of (nodes s') q = color_of (nodes s) q.
Proof.
  intros Ht.
  assert (Hpg : p ≠ g).
  { destruct Ht as (_ & _ & _ & _ & Hnd). apply NoDup_plug in Hnd as (Hnd & _).
    simpl in Hnd. rewrite <- app_assoc in Hnd. simpl in Hnd.
    apply NoDup_app in Hnd as (_ & _ & Hnd). apply NoDup_cons in Hnd as (Hnd & _).
    set_solver. }
  rewrite (bind_eq _ _ _ _ _ (rd_parent map s (InL p pr :: InL g u :: c) l z r Ht)).
  cbn [cparent].
  destruct (set_color_spec map s _ p RB_BLACK Ht) as (s1 & E1 & Ht1 & Hs1 & Hc1 & Ho1).
  { apply (in_plug_focus (InL g u :: c)). }
  rewrite (bind_eq _ _ _ _ _ E1).
  rewrite (bind_eq _ _ _ _ _ (rd_parent map s1 (InL g u :: c) (Br l z r) p pr Ht1)).
  cbn [cparent].
  destruct (set_color_spec map s1 _ g RB_RED Ht1) as (s2 & E2 & Ht2 & Hs2 & Hc2 & Ho2).
  { apply in_plug_focus. }
  rewrite (bind_eq _ _ _ _ _ E2).
  destruct (right_rotate_spec map s2 c (Br l z r) p pr g u Ht2) as (s3 & E3 & Ht3 & Hs3 & Hc3).
  rewrite (bind_eq _ _ _ _ _ E3).
  exists s3. split_and!; try done.
  - eauto using surgery_trans.
  - rewrite Hc3, Ho2, Hc1; [done|congruence].
  - by rewrite Hc3.
  - intros q ? ?. by rewrite Hc3, Ho2, Ho1.
Qed.

(** The mirror image on the right. *)
Lemma outer_right_steps {A} map s c l z r p pl g u (k : M A) :
  tree_at map s (plug c (Br u g (Br pl p (Br l z r)))) →
  ∃ s', (do zp <- rd Node.parent (Some z);
         do_ set_color zp RB_BLACK;
         do zpp <- rd Node.parent zp;
         do_ set_color zpp RB_RED;
         do_ left_rotate map zpp;
         k) s = k s'
        ∧ tree_at map s' (plug c (Br (Br u g pl) p (Br l z r)))
        ∧ surgery map s s'
        ∧ color_of (nodes s') (Some p) = RB_BLACK
        ∧ color_of (nodes s') (Some g) = RB_RED
        ∧ ∀ q, q ≠ Some p → q ≠ Some g → color_of (nodes s') q = color_of (nodes s) q.
Proof.
  intros Ht.
  assert (Hpg : p ≠ g).
  { destruct Ht as (_ & _ & _ & _ & Hnd). apply NoDup_plug in Hnd as (Hnd & _).
    simpl in Hnd. apply NoDup_app in Hnd as (_ & _ & Hnd).
    apply NoDup_cons in Hnd as (Hnd & _). set_solver. }
  rewrite (bind_eq _ _ _ _ _ (rd_parent map s (InR pl p :: InR u g :: c) l z r Ht)).
  cbn [cparent].
  destruct (set_color_spec map s _ p RB_BLACK Ht) as (s1 & E1 & Ht1 & Hs1 & Hc1 & Ho1).
  { apply (in_plug_focus (InR u g :: c)). }
  rewrite (bind_eq _ _ _ _ _ E1).
  rewrite (bind_eq _ _ _ _ _ (rd_parent map s1 (InR u g :: c) pl p (Br l z r) Ht1)).
  cbn [cparent].
  destruct (set_color_spec map s1 _ g RB_RED Ht1) as (s2 & E2 & Ht2 & Hs2 & Hc2 & Ho2).
  { apply in_plug_focus. }
  rewrite (bind_eq _ _ _ _ _ E2).
  destruct (left_rotate_spec map s2 c u g pl p (Br l z r) Ht2) as (s3 & E3 & Ht3 & Hs3 & Hc3).
  rewrite (bind_eq _ _ _ _ _ E3).
  exists s3. split_and!; try done.
  - eauto using surgery_trans.
  - rewrite Hc3, Ho2, Hc1; [done|congruence].
  - by rewrite Hc3.
  - intros q ? ?. by rewrite Hc3, Ho2, Ho1.
Qed.

(** The loop stops at a node whose parent is black (or missing). *)
Lemma insert_fixup_loop_exit map s c l z r fuel :
  tree_at map s (plug c (Br l z r)) →
  color_of (nodes s) (cparent c) = RB_BLACK →
  insert_fixup_loop (S fuel) map (Some z) s = Some (tt, s).
Proof.
  intros Ht Hblack. cbn [insert_fixup_loop].
  rewrite (bind_eq _ _ _ _ _ (rd_parent map s c l z r Ht)).
  assert (Hin : ∀ a, cparent c = Some a → a ∈ inorder (plug c (Br l z r))).
  { intros a Ha. apply cparent_in in Ha. rewrite inorder_plug. set_solver. }
  rewrite (bind_eq _ _ _ _ _ (get_color_at map s _ (cparent c) Ht Hin)).
  by rewrite Hblack.
Qed.

Lemma troot_plug_in c t :
  c ≠ [] → ∃ a, troot (plug c t) = Some a ∧ a ∈ cbefore c ++ cafter c.
Proof.
  revert t. induction c as [|f c IH]; intros t Hc; [done|].
  destruct c as [|g c].
  - destruct f; simpl; eexists; (split; [done|set_solver]).
  - destruct f as [a r|l a].
    + destruct (IH (Br t a r)) as (b & Hb & Hin); [done|]. exists b. split; [done|].
      revert Hin. destruct g; simpl; set_solver.
    + destruct (IH (Br l a t)) as (b & Hb & Hin); [done|]. exists b. split; [done|].
      revert Hin. destruct g; simpl; set_solver.
Qed.

Lemma troot_plug_ne c t a :
  c ≠ [] → NoDup (inorder (plug c t)) → a ∈ inorder t → troot (plug c t) ≠ Some a.
Proof.
  intros Hc Hnd Ha Heq. destruct (troot_plug_in c t Hc) as (b & Hb & Hin).
  rewrite Hb in Heq. injection Heq as ->.
  apply NoDup_plug in Hnd as (_ & Hdis & _). by apply (Hdis a).
Qed.

Lemma leaf_in_inorder n t : leaf_in n t → n ∈ inorder t.
Proof. intros [c ->]. apply in_plug_focus. Qed.

Lemma NoDup_inorder_Br l a r :
  NoDup (inorder (Br l a r)) ↔
  NoDup (inorder l) ∧ NoDup (inorder r) ∧ a ∉ inorder l ∧ a ∉ inorder r
  ∧ (∀ x, x ∈ inorder l → x ∉ inorder r).
Proof.
  simpl. rewrite NoDup_app, NoDup_cons. split.
  - intros (? & Hd & ? & ?). split_and!; try done.
    + intros Ha. apply (Hd a Ha). set_solver.
    + intros x Hx Hr. apply (Hd x Hx). set_solver.
  - intros (? & ? & ? & ? & Hd). split_and!; try done.
    intros x Hx. specialize (Hd x Hx). set_solver.
Qed.


(** The loop of [insert_fixup], started at a node [z] whose subtree holds
    the new node: it ends, the tree it leaves has the same nodes in the
    same order, and the new node sits as [inserted_shape] says. *)
Lemma insert_fixup_loop_spec fuel : ∀ map s c l z r n,
  tree_at map s (plug c (Br l z r)) →
  (length c < fuel)%nat →
  (c ≠ [] → color_of (nodes s) (troot (plug c (Br l z r))) = RB_BLACK) →
  inserted_under n l z r →
  ∃ s' t', insert_fixup_loop fuel map (Some z) s = Some (tt, s')
           ∧ tree_at map s' t'
           ∧ inorder t' = inorder (plug c (Br l z r))
           ∧ surgery map s s'
           ∧ inserted_shape n (nodes s') t'.
Proof.
  induction fuel as [|fuel IH]; intros map s c l z r n Ht Hfuel Hroot Hn; [simpl in Hfuel; lia|].
  assert (HnT : leaf_in n (Br l z r)).
  { destruct Hn as [(-> & -> & ->)|[Hn|Hn]];
      [apply leaf_in_here|by apply leaf_in_l|by apply leaf_in_r]. }
  destruct (color_of (nodes s) (cparent c)) eqn:Hcp.
  2: { exists s, (plug c (Br l z r)).
       split_and!; [by eapply insert_fixup_loop_exit|done|done|apply surgery_refl|].
       left. by apply leaf_in_plug. }
  destruct c as [|f1 [|f2 c2]]; [done| |].
  { exfalso. assert (E : troot (plug [f1] (Br l z r)) = cparent [f1]) by (by destruct f1).
    rewrite <- E, Hroot in Hcp; done. }
  assert (Hfuel' : (length c2 < fuel)%nat) by (simpl in Hfuel; lia).
  assert (Hin : ∀ a, cparent (f1 :: f2 :: c2) = Some a →
                     a ∈ inorder (plug (f1 :: f2 :: c2) (Br l z r))).
  { intros a Ha. apply cparent_in in Ha. rewrite inorder_plug. set_solver. }
  cbn [insert_fixup_loop].
  rewrite (bind_eq _ _ _ _ _ (rd_parent _ _ _ _ _ _ Ht)).
  rewrite (bind_eq _ _ _ _ _ (get_color_at _ _ _ _ Ht Hin)).
  rewrite Hcp. unfold color_eqb at 1. rewrite bool_decide_eq_true_2 by done. cbn [negb].
  clear Hin.
  assert (∃ p Pl Pr, plug [f1] (Br l z r) = Br Pl p Pr
                     ∧ cparent (f1 :: f2 :: c2) = Some p) as (p & Pl & Pr & HP & Hp).
  { destruct f1; simpl; eauto. }
  rewrite Hp in Hcp. rewrite Hp.
  assert (HnP : leaf_in n (Br Pl p Pr)).
  { rewrite <- HP. by apply leaf_in_plug. }
  assert (Hplug : plug (f1 :: f2 :: c2) (Br l z r) = plug (f2 :: c2) (Br Pl p Pr)).
  { rewrite <- HP. by destruct f1. }
  rewrite Hplug. rewrite Hplug in Hroot.
  assert (HtP : tree_at map s (plug (f2 :: c2) (Br Pl p Pr))) by (by rewrite <- Hplug).
  rewrite (bind_eq _ _ _ _ _ (rd_parent _ _ _ _ _ _ HtP)).
  pose proof HtP as (_ & _ & _ & _ & Hnd).
  destruct f2 as [g u|u g]; cbn [cparent].
  - (* the parent is a left child *)
    apply (NoDup_plug c2) in Hnd as (Hnd & _).
    apply NoDup_inorder_Br in Hnd as (HndP & Hndu & HgP & Hgu & HPu).
    rewrite (bind_eq _ _ _ _ _ (rd_left map s c2 _ g u HtP)). cbn [troot].
    rewrite ptr_eqb_refl.
    rewrite (bind_eq _ _ _ _ _ (rd_right map s c2 _ g u HtP)).
    assert (Hinu : ∀ a, troot u = Some a → a ∈ inorder (plug (InL g u :: c2) (Br Pl p Pr))).
    { intros a Ha. apply troot_inorder in Ha. rewrite inorder_plug. simpl. set_solver. }
    rewrite (bind_eq _ _ _ _ _ (get_color_at _ _ _ _ HtP Hinu)).
    unfold color_eqb at 1.
    destruct (color_of (nodes s) (troot u)) eqn:Hcu.
    + (* red uncle *)
      rewrite bool_decide_eq_true_2 by done.
      destruct u as [|ul y ur]; [done|]. cbn [troot].
      destruct (recolor_spec map s _ p y g (insert_fixup_loop fuel map (Some g)) HtP) as (s1 & E1 & Ht1 & Hs1 & Hg1 & Ho1).
      { apply in_plug_focus. }
      { apply (in_plug_sub c2 (Br (Br Pl p Pr) g (Br ul y ur))). simpl. set_solver. }
      { apply (in_plug_focus c2). }
      { intros ->. apply HgP. simpl. set_solver. }
      { intros ->. apply Hgu. simpl. set_solver. }
      rewrite E1.
      destruct (IH map s1 c2 (Br Pl p Pr) g (Br ul y ur) n Ht1 Hfuel')
        as (s2 & t2 & E2 & Ht2 & Hin2 & Hs2 & Hsh2).
      { intros Hc2. rewrite Ho1.
        - apply Hroot. done.
        - apply troot_plug_ne; [done|by destruct Ht1 as (_ & _ & _ & _ & ?)|simpl; set_solver].
        - apply troot_plug_ne; [done|by destruct Ht1 as (_ & _ & _ & _ & ?)|simpl; set_solver].
        - apply troot_plug_ne; [done|by destruct Ht1 as (_ & _ & _ & _ & ?)|simpl; set_solver]. }
      { right. left. done. }
      exists s2, t2. split_and!; try done. eauto using surgery_trans.
    + (* black uncle: rotations *)
      rewrite bool_decide_eq_false_2 by done.
      destruct fuel as [|fuel']; [lia|].
      destruct f1 as [p' pr|pl p']; simpl in HP; injection HP as <- -> <-.
      * (* outer grandchild: one rotation *)
        apply NoDup_inorder_Br in HndP as (_ & _ & _ & _ & Hzpr).
        rewrite (bind_eq _ _ _ _ _ (rd_right map s (InL g u :: c2) _ p pr HtP)).
        rewrite ptr_eqb_ne.
        2:{ intros Heq. symmetry in Heq. apply troot_inorder in Heq.
            apply (Hzpr z); [simpl; set_solver|done]. }
        mstep_refl.
        destruct (outer_left_steps map s c2 l z r p pr g u
                    (insert_fixup_loop (S fuel') map (Some z)) HtP)
          as (s1 & E1 & Ht1 & Hs1 & Hp1 & Hg1 & Ho1).
        rewrite E1.
        exists s1, (plug c2 (Br (Br l z r) p (Br pr g u))). split_and!.
        -- by apply (insert_fixup_loop_exit map s1 (InL p (Br pr g u) :: c2) l z r).
        -- done.
        -- symmetry. apply (inorder_rotate c2 (Br l z r) p pr g u).
        -- done.
        -- left. by apply leaf_in_plug, leaf_in_l.
      * (* inner grandchild: two rotations *)
        rewrite (bind_eq _ _ _ _ _ (rd_right map s (InL g u :: c2) pl p _ HtP)).
        cbn [troot]. rewrite ptr_eqb_refl.
        destruct (left_rotate_spec map s (InL g u :: c2) pl p l z r HtP)
          as (s1 & E1 & Ht1 & Hs1 & Hc1).
        rewrite (bind_eq _ _ _ _ _ (bind_eq _ _ _ _ _ E1)).
        destruct (outer_left_steps map s1 c2 pl p l z r g u
                    (insert_fixup_loop (S fuel') map (Some p)) Ht1)
          as (s2 & E2 & Ht2 & Hs2 & Hp2 & Hg2 & Ho2).
        rewrite E2.
        exists s2, (plug c2 (Br (Br pl p l) z (Br r g u))). split_and!.
        -- by apply (insert_fixup_loop_exit map s2 (InL z (Br r g u) :: c2) pl p l).
        -- done.
        -- rewrite <- (inorder_rotate c2 (Br pl p l) z r g u).
           apply (inorder_rotate (InL g u :: c2) pl p l z r).
        -- eauto using surgery_trans.
        -- destruct Hn as [(-> & -> & ->)|[Hn|Hn]].
           ++ right. exists c2, (Br pl p Leaf), g, u. done.
           ++ left. by apply leaf_in_plug, leaf_in_l, leaf_in_r.
           ++ left. by apply leaf_in_plug, leaf_in_r, leaf_in_l.
  - (* the parent is a right child *)
    apply (NoDup_plug c2) in Hnd as (Hnd & _).
    apply NoDup_inorder_Br in Hnd as (Hndu & HndP & Hgu & HgP & HuP).
    rewrite (bind_eq _ _ _ _ _ (rd_left map s c2 u g _ HtP)).
    rewrite ptr_eqb_ne.
    2:{ intros Heq. symmetry in Heq. apply troot_inorder in Heq.
        apply (HuP p); [done|simpl; set_solver]. }
    rewrite (bind_eq _ _ _ _ _ (rd_left map s c2 u g _ HtP)).
    assert (Hinu : ∀ a, troot u = Some a → a ∈ inorder (plug (InR u g :: c2) (Br Pl p Pr))).
    { intros a Ha. apply troot_inorder in Ha. rewrite inorder_plug. simpl. set_solver. }
    rewrite (bind_eq _ _ _ _ _ (get_color_at _ _ _ _ HtP Hinu)).
    unfold color_eqb at 1.
    destruct (color_of (nodes s) (troot u)) eqn:Hcu.
    + (* red uncle *)
      rewrite bool_decide_eq_true_2 by done.
      destruct u as [|ul y ur]; [done|]. cbn [troot].
      destruct (recolor_spec map s _ p y g (insert_fixup_loop fuel map (Some g)) HtP)
        as (s1 & E1 & Ht1 & Hs1 & Hg1 & Ho1).
      { apply in_plug_focus. }
      { apply (in_plug_sub c2 (Br (Br ul y ur) g (Br Pl p Pr))). simpl. set_solver. }
      { apply (in_plug_focus c2). }
      { intros ->. apply HgP. simpl. set_solver. }
      { intros ->. apply Hgu. simpl. set_solver. }
      rewrite E1.
      destruct (IH map s1 c2 (Br ul y ur) g (Br Pl p Pr) n Ht1 Hfuel')
        as (s2 & t2 & E2 & Ht2 & Hin2 & Hs2 & Hsh2).
      { intros Hc2. rewrite Ho1.
        - apply Hroot. done.
        - apply troot_plug_ne; [done|by destruct Ht1 as (_ & _ & _ & _ & ?)|simpl; set_solver].
        - apply troot_plug_ne; [done|by destruct Ht1 as (_ & _ & _ & _ & ?)|simpl; set_solver].
        - apply troot_plug_ne; [done|by destruct Ht1 as (_ & _ & _ & _ & ?)|simpl; set_solver]. }
      { right. right. done. }
      exists s2, t2. split_and!; try done. eauto using surgery_trans.
    + (* black uncle: rotations *)
      rewrite bool_decide_eq_false_2 by done.
      destruct fuel as [|fuel']; [lia|].
      destruct f1 as [p' pr|pl p']; simpl in HP; injection HP as <- -> <-.
      * (* inner grandchild: two rotations *)
        rewrite (bind_eq _ _ _ _ _ (rd_left map s (InR u g :: c2) _ p pr HtP)).
        cbn [troot]. rewrite ptr_eqb_refl.
        destruct (right_rotate_spec map s (InR u g :: c2) l z r p pr HtP)
          as (s1 & E1 & Ht1 & Hs1 & Hc1).
        rewrite (bind_eq _ _ _ _ _ (bind_eq _ _ _ _ _ E1)).
        destruct (outer_right_steps map s1 c2 r p pr z l g u
                    (insert_fixup_loop (S fuel') map (Some p)) Ht1)
          as (s2 & E2 & Ht2 & Hs2 & Hp2 & Hg2 & Ho2).
        rewrite E2.
        apply NoDup_inorder_Br in HndP as (_ & _ & Hpz & _ & _).
        exists s2, (plug c2 (Br (Br u g l) z (Br r p pr))). split_and!.
        -- by apply (insert_fixup_loop_exit map s2 (InR (Br u g l) z :: c2) r p pr).
        -- done.
        -- rewrite (inorder_rotate c2 u g l z (Br r p pr)).
           symmetry. apply (inorder_rotate (InR u g :: c2) l z r p pr).
        -- eauto using surgery_trans.
        -- destruct Hn as [(-> & -> & ->)|[Hn|Hn]].
           ++ right. exists c2, (Br u g Leaf), p, pr. split_and!; [done|done|].
              rewrite Ho2, Hc1; [done| |].
              ** intros [= ->]. apply Hpz. simpl. set_solver.
              ** intros [= ->]. apply HgP. simpl. set_solver.
           ++ left. by apply leaf_in_plug, leaf_in_l, leaf_in_r.
           ++ left. by apply leaf_in_plug, leaf_in_r, leaf_in_l.
      * (* outer grandchild: one rotation *)
        apply NoDup_inorder_Br in HndP as (_ & _ & _ & _ & Hplz).
        rewrite (bind_eq _ _ _ _ _ (rd_left map s (InR u g :: c2) pl p _ HtP)).
        rewrite ptr_eqb_ne.
        2:{ intros Heq. symmetry in Heq. apply troot_inorder in Heq.
            apply (Hplz z); [done|simpl; set_solver]. }
        mstep_refl.
        destruct (outer_right_steps map s c2 l z r p pl g u
                    (insert_fixup_loop (S fuel') map (Some z)) HtP)
          as (s1 & E1 & Ht1 & Hs1 & Hp1 & Hg1 & Ho1).
        rewrite E1.
        exists s1, (plug c2 (Br (Br u g pl) p (Br l z r))). split_and!.
        -- by apply (insert_fixup_loop_exit map s1 (InR (Br u g pl) p :: c2) l z r).
        -- done.
        -- apply (inorder_rotate c2 u g pl p (Br l z r)).
        -- done.
        -- left. by apply leaf_in_plug, leaf_in_r.
Qed.

Lemma inorder_nil_leaf t : inorder t = [] → t = Leaf.
Proof. destruct t as [|l a r]; [done|]. simpl. by destruct (inorder l). Qed.

(** [insert_fixup] as a whole: the loop, then the root is painted black. *)
Lemma insert_fixup_spec map s c l z r n :
  tree_at map s (plug c (Br l z r)) →
  (c ≠ [] → color_of (nodes s) (troot (plug c (Br l z r))) = RB_BLACK) →
  inserted_under n l z r →
  ∃ s' t', insert_fixup map (Some z) s = Some (tt, s')
           ∧ tree_at map s' t'
           ∧ inorder t' = inorder (plug c (Br l z r))
           ∧ surgery map s s'
           ∧ inserted_shape n (nodes s') t'
           ∧ color_of (nodes s') (troot t') = RB_BLACK.
Proof.
  intros Ht Hroot Hn. unfold insert_fixup. rewrite get_fuel_eq.
  pose proof Ht as (m0 & _ & _ & Hrep0 & Hnd0).
  destruct (fuel_for_subtree s c (Br l z r) Hrep0 Hnd0) as [_ Hfuel].
  destruct (insert_fixup_loop_spec _ map s c l z r n Ht Hfuel Hroot Hn)
    as (s1 & t1 & E1 & Ht1 & Hin1 & Hs1 & Hsh1).
  rewrite (bind_eq _ _ _ _ _ E1).
  pose proof Ht1 as (m1 & Hm1 & Hr1 & Hrep1 & Hnd1).
  rewrite (bind_eq _ _ _ _ _ (rdm_eq _ _ _ _ Hm1)). rewrite Hr1.
  destruct t1 as [|tl x tr].
  { exfalso. rewrite inorder_plug in Hin1. simpl in Hin1.
    symmetry in Hin1. apply app_eq_nil in Hin1 as [_ Hin1]. apply app_eq_nil in Hin1 as [Hin1 _].
    apply app_eq_nil in Hin1 as [_ Hin1]. done. }
  cbn [troot].
  destruct (set_color_spec map s1 _ x RB_BLACK Ht1) as (s2 & E2 & Ht2 & Hs2 & Hc2 & Ho2).
  { simpl. set_solver. }
  exists s2, (Br tl x tr). split_and!; try done.
  - eauto using surgery_trans.
  - destruct Hsh1 as [Hl|(c' & l' & y & r' & Heq & Hl' & Hy)]; [by left|right].
    exists c', l', y, r'. split_and!; [done|done|].
    rewrite Ho2; [done|]. intros [= ->]. rewrite Heq in Hnd1.
    destruct c' as [|f c'].
    + simpl in Heq. injection Heq as -> -> ->.
      apply NoDup_inorder_Br in Hnd1 as (_ & _ & _ & Hx & _). apply Hx. simpl. set_solver.
    + assert (Hne : troot (plug (f :: c') (Br l' n (Br Leaf x r'))) ≠ Some x).
      { apply troot_plug_ne; [done|done|simpl; set_solver]. }
      by rewrite <- Heq in Hne.
Qed.

(** * [ordered_map_insert] of a key that is not in the map *)

Lemma materialize_spec size copy o s :
  readable size o →
  ∃ r s', materialize size copy (Some o) s = Some (r, s')
          ∧ nodes s' = nodes s ∧ maps s' = maps s ∧ iters s' = iters s
          ∧ trace s' = trace s
          ∧ match r with
            | Some g => stored_bytes size copy (obj_bytes o) = Some (obj_bytes g)
            | None => checked size copy = true
            end.
Proof.
  intros Hrd. unfold materialize, stored_bytes, checked, readable in *.
  destruct (0 <? size)%N eqn:Hsz.
  - apply N.ltb_lt in Hsz. specialize (Hrd Hsz).
    unfold bind, malloc_bytes. destruct (avail s) as [|k].
    + by exists NULL, s.
    + unfold memcpy_read. rewrite !decide_True by done. cbn.
      eexists (Some _), _. split_and!; done.
  - destruct copy as [f|]; simpl.
    + destruct (f (obj_bytes o)) as [bs|] eqn:Hf.
      * eexists (Some _), _. split_and!; done.
      * exists NULL, s. split_and!; done.
    + exists (Some o), s. split_and!; done.
Qed.

(** [create_node] returns; when the result is not [NIL] it is a new
    address holding a red node without links, whose key and value are the
    stored forms of the arguments. *)
Lemma create_node_spec ko vo cfg s :
  readable (Config.key_size cfg) ko → readable (Config.value_size cfg) vo →
  ∃ r s', create_node (Some ko) (Some vo) cfg s = Some (r, s')
          ∧ (∀ a, r = Some a →
               ∃ gk gv,
                 nodes s !! a = None
                 ∧ nodes s' = <[a := Node.Make (Some gk) (Some gv) NIL NIL NIL RB_RED]> (nodes s)
                 ∧ maps s' = maps s ∧ iters s' = iters s ∧ trace s' = trace s
                 ∧ (0 < avail s)%nat
                 ∧ stored_bytes (Config.key_size cfg) (Config.key_copy cfg) (obj_bytes ko)
                   = Some (obj_bytes gk)
                 ∧ stored_bytes (Config.value_size cfg) (Config.value_copy cfg) (obj_bytes vo)
                   = Some (obj_bytes gv)).
Proof.
  intros Hk Hv. unfold create_node.
  unfold bind at 1. unfold malloc_node.
  destruct (avail s) as [|k] eqn:Hav; [by exists NIL, s|].
  set (a := fresh (dom (nodes s))).
  assert (Ha : nodes s !! a = None) by apply not_elem_of_dom, is_fresh.
  cbn [is_nil].
  set (s0 := set_avail k (set_nodes (<[a := Node.blank]> (nodes s)) s)).
  destruct (materialize_spec (Config.key_size cfg) (Config.key_copy cfg) ko s0 Hk)
    as (rk & s1 & E1 & Hn1 & Hm1 & Hi1 & Ht1 & Hrk).
  rewrite (bind_eq _ _ _ _ _ E1).
  assert (Ha1 : nodes s1 !! a = Some Node.blank) by (rewrite Hn1; apply lookup_insert_eq).
  rewrite (bind_eq _ _ _ _ _ (wr_eq _ _ _ _ Ha1)).
  destruct rk as [gk|].
  2:{ rewrite Hrk. cbn [andb is_null].
      unfold bind, free_node. cbn [nodes set_nodes]. rewrite lookup_insert_eq.
      eexists NIL, _. split; [done|]. by intros ? [=]. }
  rewrite andb_false_r.
  set (s2 := set_nodes _ s1).
  destruct (materialize_spec (Config.value_size cfg) (Config.value_copy cfg) vo s2 Hv)
    as (rv & s3 & E3 & Hn3 & Hm3 & Hi3 & Ht3 & Hrv).
  rewrite (bind_eq _ _ _ _ _ E3).
  assert (Ha3 : nodes s3 !! a = Some (Node.set_key (Some gk) Node.blank)).
  { rewrite Hn3. apply lookup_insert_eq. }
  rewrite (bind_eq _ _ _ _ _ (wr_eq _ _ _ _ Ha3)).
  destruct rv as [gv|].
  2:{ rewrite Hrv. cbn [andb is_null].
      erewrite bind_eq; [|apply rd_eq; cbn [nodes set_nodes]; apply lookup_insert_eq].
      cbn [Node.key Node.set_value Node.set_key].
      assert (∃ s4, (if (0 <? Config.key_size cfg)%N then free_bytes (Some gk)
                     else when (Config.key_destructor cfg) (log (EvKeyDestructor (Some gk))))
                      (set_nodes (<[a:=Node.set_value NULL (Node.set_key (Some gk) Node.blank)]>
                                    (nodes s3)) s3)
                    = Some (tt, s4) ∧ is_Some (nodes s4 !! a)) as (s4 & E4 & [n4 Hn4]).
      { destruct (0 <? Config.key_size cfg)%N.
        - eexists. split; [reflexivity|]. cbn. rewrite lookup_insert_eq. eauto.
        - destruct (Config.key_destructor cfg).
          + eexists. split; [reflexivity|]. cbn. rewrite lookup_insert_eq. eauto.
          + eexists. split; [reflexivity|]. cbn. rewrite lookup_insert_eq. eauto. }
      rewrite (bind_eq _ _ _ _ _ E4).
      unfold bind, free_node. rewrite Hn4.
      eexists NIL, _. split; [done|]. by intros ? [=]. }
  rewrite andb_false_r.
  do 4 (erewrite bind_eq; [|apply wr_eq; cbn [nodes set_nodes]; apply lookup_insert_eq]).
  eexists (Some a), _. split; [done|].
  intros ? [= <-]. exists gk, gv. split_and!; try done.
  - cbn [nodes set_nodes]. rewrite !insert_insert_eq. rewrite Hn3. cbn [s2 nodes set_nodes].
    rewrite insert_insert_eq, Hn1. cbn [s0 nodes set_nodes set_avail].
    by rewrite insert_insert_eq.
  - cbn [maps set_nodes]. rewrite Hm3. cbn [s2 maps set_nodes]. by rewrite Hm1.
  - cbn [iters set_nodes]. rewrite Hi3. cbn [s2 iters set_nodes]. by rewrite Hi1.
  - cbn [trace set_nodes]. rewrite Ht3. cbn [s2 trace set_nodes]. by rewrite Ht1.
  - lia.
Qed.

Lemma cbefore_app c1 c2 : cbefore (c1 ++ c2) = cbefore c2 ++ cbefore c1.
Proof.
  induction c1 as [|[a r|l a] c1 IH]; simpl.
  - by rewrite app_nil_r.
  - done.
  - by rewrite IH, <- app_assoc.
Qed.

Lemma cafter_app c1 c2 : cafter (c1 ++ c2) = cafter c1 ++ cafter c2.
Proof.
  induction c1 as [|[a r|l a] c1 IH]; simpl; [done| |done].
  by rewrite IH, <- app_assoc.
Qed.

Lemma cparent_app c f : cparent (c ++ [f]) = if c is [] then cparent [f] else cparent c.
Proof. by destruct c as [|[]]. Qed.

(** The descent to the place of the new node: it ends at a leaf position
    of the tree, with the smaller keys before it and the larger ones
    after it. *)
Lemma insert_descend_spec cmp cfg s n nn gk t :
  comparator_laws cmp →
  nodes s !! n = Some nn → Node.key nn = Some gk →
  ∀ par y fuel,
  rep (nodes s) t par → payloads cfg (nodes s) t → ordered cmp (nodes s) (inorder t) →
  (∀ a, a ∈ inorder t → cmp (obj_bytes gk) (key_bytes (nodes s) a) ≠ 0) →
  (height t < fuel)%nat →
  ∃ c, insert_descend fuel (Some cmp) (Some n) y (troot t) s
       = Some (if c is [] then y else cparent c, s)
       ∧ plug c Leaf = t
       ∧ (∀ a, a ∈ cbefore c → cmp (key_bytes (nodes s) a) (obj_bytes gk) < 0)
       ∧ (∀ a, a ∈ cafter c → cmp (obj_bytes gk) (key_bytes (nodes s) a) < 0).
Proof.
  intros Hcmp Hn Hgk.
  induction t as [|l IHl a r IHr]; intros par y fuel Hrep Hpay Hord Hne Hfuel;
    (destruct fuel as [|fuel]; [lia|]); simpl in Hfuel; cbn [insert_descend troot is_nil].
  - exists []. split_and!; [done|done| |]; intros a Ha; simpl in Ha; set_solver.
  - destruct Hrep as (na & Hna & _ & Hl & Hr & Hrl & Hrr).
    destruct (Hpay a) as (n' & ka & va & Hn' & Hka & _); [simpl; set_solver|].
    rewrite Hna in Hn'. injection Hn' as <-.
    rewrite (bind_eq _ _ _ _ _ (rd_eq Node.key _ _ _ Hn)), Hgk.
    rewrite (bind_eq _ _ _ _ _ (rd_eq Node.key _ _ _ Hna)), Hka.
    cbn [call_compare]. unfold ret at 1, bind at 1.
    pose proof (key_bytes_eq _ _ _ _ Hna Hka) as Hkb. rewrite <- Hkb.
    simpl in Hord. apply StronglySorted_app in Hord as (Hlt & Hordl & Hord).
    apply StronglySorted_cons in Hord as (Hgt & Hordr).
    rewrite Forall_forall in Hgt.
    set (kb := obj_bytes gk) in *.
    assert (Hpl : payloads cfg (nodes s) l).
    { apply (payloads_sub cfg (nodes s) (Br l a r)); [|exact Hpay]. simpl. set_solver. }
    assert (Hpr : payloads cfg (nodes s) r).
    { apply (payloads_sub cfg (nodes s) (Br l a r)); [|exact Hpay]. simpl. set_solver. }
    destruct (Z.ltb_spec (cmp kb (key_bytes (nodes s) a)) 0) as [Hlt0|Hge0].
    + rewrite (bind_eq _ _ _ _ _ (rd_eq Node.left _ _ _ Hna)), Hl.
      destruct (IHl (Some a) (Some a) fuel Hrl Hpl Hordl) as (c & E & Hplug & Hb & Ha);
        [intros b Hb; apply Hne; simpl; set_solver|lia|].
      exists (c ++ [InL a r]). split_and!.
      * rewrite E. f_equal. f_equal. rewrite cparent_app. by destruct c.
      * by rewrite plug_app, Hplug.
      * intros b. rewrite cbefore_app. simpl. apply Hb.
      * intros b. rewrite cafter_app. simpl. rewrite app_nil_r.
        rewrite elem_of_app, elem_of_cons. intros [Hin|[->|Hin]]; [by apply Ha|done|].
        eapply (cmp_lt_le_trans cmp Hcmp); [exact Hlt0|]. specialize (Hgt b Hin). simpl in Hgt. lia.
    + assert (Hgt0 : cmp (key_bytes (nodes s) a) kb < 0).
      { apply (cmp_gt_lt cmp Hcmp). specialize (Hne a). 
        assert (cmp kb (key_bytes (nodes s) a) ≠ 0) by (apply Hne; simpl; set_solver). lia. }
      rewrite (bind_eq _ _ _ _ _ (rd_eq Node.right _ _ _ Hna)), Hr.
      destruct (IHr (Some a) (Some a) fuel Hrr Hpr Hordr) as (c & E & Hplug & Hb & Ha);
        [intros b Hb; apply Hne; simpl; set_solver|lia|].
      exists (c ++ [InR l a]). split_and!.
      * rewrite E. f_equal. f_equal. rewrite cparent_app. by destruct c.
      * by rewrite plug_app, Hplug.
      * intros b. rewrite cbefore_app. simpl.
        rewrite !elem_of_app, list_elem_of_singleton. intros [[Hin| ->]|Hin]; [|done|by apply Hb].
        eapply (cmp_lt_le_trans cmp Hcmp); [apply (Hlt b a Hin); set_solver|lia].
      * intros b. rewrite cafter_app. simpl. rewrite app_nil_r. apply Ha.
Qed.

(** [tree_height] returns on every tree. *)
Lemma tree_height_rec_total s t par fuel :
  rep (nodes s) t par → (height t < fuel)%nat →
  ∃ v, tree_height_rec fuel (troot t) s = Some (v, s).
Proof.
  revert par fuel. induction t as [|l IHl a r IHr]; intros par fuel Hrep Hfuel;
    (destruct fuel as [|fuel]; [lia|]); simpl in Hfuel; cbn [tree_height_rec troot is_nil].
  - by eexists.
  - destruct Hrep as (n & Hn & _ & Hl & Hr & Hrl & Hrr).
    destruct (IHl (Some a) fuel Hrl ltac:(lia)) as [vl El].
    destruct (IHr (Some a) fuel Hrr ltac:(lia)) as [vr Er].
    rewrite (bind_eq _ _ _ _ _ (rd_eq Node.left _ _ _ Hn)), Hl.
    rewrite (bind_eq _ _ _ _ _ El).
    rewrite (bind_eq _ _ _ _ _ (rd_eq Node.right _ _ _ Hn)), Hr.
    rewrite (bind_eq _ _ _ _ _ Er).
    by eexists.
Qed.

Lemma tree_height_total s t :
  rep (nodes s) t NIL → NoDup (inorder t) →
  ∃ v, tree_height (troot t) s = Some (v, s).
Proof.
  intros Hrep Hnd. unfold tree_height. rewrite get_fuel_eq.
  eapply tree_height_rec_total; [done|]. by eapply rep_height_lt_fuel.
Qed.

(** The statistics block of an insertion changes the statistics alone. *)
Lemma record_insert_spec map m s t b :
  maps s !! map = Some m → Map.root m = troot t →
  rep (nodes s) t NIL → NoDup (inorder t) →
  ∃ s', record_insert map b s = Some (tt, s') ∧ same_contents map s s'.
Proof.
  intros Hm Hroot Hrep Hnd. unfold record_insert.
  rewrite (bind_eq _ _ _ _ _ (rdm_eq Map.stats_enabled _ _ _ Hm)).
  destruct (Map.stats_enabled m); cbn [when].
  2:{ eexists. split; [done|]. by eapply same_contents_refl. }
  do 4 mstep.
  match goal with |- context [when b ?k ?s0] => set (s1 := s0) end.
  assert (Hs1 : same_contents map s s1).
  { eapply same_contents_trans; [by apply (same_contents_stats map m)|].
    apply (same_contents_stats map). solve_lookup. }
  destruct b; cbn [when].
  2:{ by exists s1. }
  pose proof Hs1 as (Hn1 & _ & _ & _ & _ & m0 & m1 & Hm0 & Hm1 & Hr1 & _).
  rewrite Hm in Hm0. injection Hm0 as <-.
  rewrite (bind_eq _ _ _ _ _ (rdm_eq Map.root _ _ _ Hm1)), Hr1, Hroot.
  destruct (tree_height_total s1 t) as [v Ev]; [by rewrite Hn1|done|].
  rewrite (bind_eq _ _ _ _ _ Ev).
  rewrite (bind_eq _ _ _ _ _ (rdm_eq Map.stats _ _ _ Hm1)).
  rewrite (bind_eq _ _ _ _ _ (wrm_eq _ _ _ _ Hm1)).
  mstep. cbn [Map.stats Map.set_stats].
  match goal with |- context [when ?c ?k ?s0] => set (s2 := s0); destruct c end; cbn [when].
  - subst s2. erewrite wrm_eq by solve_lookup. eexists. split; [done|].
    eapply same_contents_trans; [exact Hs1|].
    eapply same_contents_trans; [by apply (same_contents_stats map m1)|].
    apply (same_contents_stats map). solve_lookup.
  - exists s2. split; [done|].
    eapply same_contents_trans; [exact Hs1|].
    by apply (same_contents_stats map m1).
Qed.

Lemma record_remove_spec map m s t :
  maps s !! map = Some m → Map.root m = troot t →
  rep (nodes s) t NIL → NoDup (inorder t) →
  ∃ s', record_remove map s = Some (tt, s') ∧ same_contents map s s'.
Proof.
  intros Hm Hroot Hrep Hnd. unfold record_remove.
  rewrite (bind_eq _ _ _ _ _ (rdm_eq Map.stats_enabled _ _ _ Hm)).
  destruct (Map.stats_enabled m); cbn [when].
  2:{ eexists. split; [done|]. by eapply same_contents_refl. }
  do 4 mstep.
  match goal with |- context [bind (rdm Map.root map) ?k ?s0] => set (s1 := s0) end.
  assert (Hs1 : same_contents map s s1).
  { eapply same_contents_trans; [by apply (same_contents_stats map m)|].
    apply (same_contents_stats map). solve_lookup. }
  pose proof Hs1 as (Hn1 & _ & _ & _ & _ & m0 & m1 & Hm0 & Hm1 & Hr1 & _).
  rewrite Hm in Hm0. injection Hm0 as <-.
  rewrite (bind_eq _ _ _ _ _ (rdm_eq Map.root _ _ _ Hm1)), Hr1, Hroot.
  destruct (tree_height_total s1 t) as [v Ev]; [by rewrite Hn1|done|].
  rewrite (bind_eq _ _ _ _ _ Ev).
  rewrite (bind_eq _ _ _ _ _ (rdm_eq Map.stats _ _ _ Hm1)).
  rewrite (wrm_eq _ _ _ _ Hm1).
  eexists. split; [done|].
  eapply same_contents_trans; [exact Hs1|].
  by apply (same_contents_stats map m1).
Qed.

(** Hanging the new node below the node at which the descent ended. *)
Lemma link_spec {A} map m s cfg cmp c n nn gk (k : M A) :
  comparator_laws cmp →
  maps s !! map = Some m → Map.root m = troot (plug c Leaf) →
  rep (nodes s) (plug c Leaf) NIL → NoDup (inorder (plug c Leaf)) →
  payloads cfg (nodes s) (plug c Leaf) →
  nodes s !! n = Some nn → n ∉ inorder (plug c Leaf) →
  Node.key nn = Some gk → Node.left nn = NIL → Node.right nn = NIL →
  (∀ a, a ∈ cbefore c → cmp (key_bytes (nodes s) a) (obj_bytes gk) < 0) →
  (∀ a, a ∈ cafter c → cmp (obj_bytes gk) (key_bytes (nodes s) a) < 0) →
  ∃ s', (do_ wr (Node.set_parent (cparent c)) (Some n);
         do_ (if is_nil (cparent c) then wrm (Map.set_root (Some n)) map
              else
                do nk <- rd Node.key (Some n);
                do yk <- rd Node.key (cparent c);
                do r <- call_compare (Some cmp) nk yk;
                if r <? 0 then wr (Node.set_left (Some n)) (cparent c)
                else wr (Node.set_right (Some n)) (cparent c));
         k) s = k s'
        ∧ tree_at map s' (plug c (Br Leaf n Leaf))
        ∧ surgery map s s'
        ∧ ∀ p, color_of (nodes s') p = color_of (nodes s) p.
Proof.
  intros Hlaws Hm Hroot Hrep Hnd Hpay Hn Hfresh Hkey Hleft Hright Hbefore Hafter.
  rewrite (bind_eq _ _ _ _ _ (wr_eq _ _ _ _ Hn)).
  set (nn' := Node.set_parent (cparent c) nn).
  apply rep_plug in Hrep as [_ Hcrep].
  rewrite inorder_plug in Hnd, Hfresh. simpl in Hnd, Hfresh.
  assert (Hnd' : NoDup (inorder (plug c (Br Leaf n Leaf)))).
  { rewrite inorder_plug. simpl. apply NoDup_app in Hnd as (H1 & H2 & H3).
    apply NoDup_app. split_and!; [done| |].
    - intros a Ha. specialize (H2 a Ha). set_solver.
    - apply NoDup_cons. split; [set_solver|done]. }
  assert (Hrepn : ∀ h, h !! n = Some nn' → rep h (Br Leaf n Leaf) (cparent c)).
  { intros h Hh. exists nn'. by split_and!. }
  destruct c as [|[y r|l y] c0]; cbn [cparent is_nil].
  - erewrite bind_eq; [|apply wrm_eq; exact Hm]. cbv beta.
    eexists. split; [done|]. split_and!.
    + exists (Map.set_root (Some n) m). split_and!; [by simpl; rewrite lookup_insert_eq|done| |done].
      apply Hrepn. simpl. apply lookup_insert_eq.
    + split; try done.
      * intros a. simpl. destruct (decide (a = n)) as [->|Hne].
        -- by rewrite lookup_insert_eq, Hn.
        -- by rewrite lookup_insert_ne.
      * simpl. by rewrite lookup_insert_eq, Hm.
    + intros p. simpl. by apply (color_of_insert _ _ nn).
  - pose proof Hcrep as (ny & Hy & Hyp & Hyl & Hyr & Hrr & Hc0).
    assert (Hyn : y ≠ n) by (intros ->; apply Hfresh; simpl; set_solver).
    destruct (Hpay y) as (ny' & ky & vy & Hy' & Hky & _); [rewrite inorder_plug; simpl; set_solver|].
    rewrite Hy in Hy'. injection Hy' as <-.
    assert (Hlt : cmp (obj_bytes gk) (obj_bytes ky) < 0).
    { rewrite <- (key_bytes_eq _ _ _ _ Hy Hky). apply Hafter. simpl. set_solver. }
    apply Z.ltb_lt in Hlt.
    match goal with |- context [bind ?b _ ?s2] =>
      assert (E : b s2 = Some (tt, set_nodes (<[y := Node.set_left (Some n) ny]>
                                                (<[n := nn']> (nodes s))) s))
    end.
    { erewrite bind_eq; [|apply rd_eq; simpl; apply lookup_insert_eq]. cbv beta.
      erewrite bind_eq; [|apply rd_eq; simpl; rewrite lookup_insert_ne by done; exact Hy].
      cbv beta. cbn [Node.key nn' Node.set_parent]. rewrite Hkey, Hky. cbn [call_compare].
      unfold ret at 1, bind at 1. rewrite Hlt.
      erewrite wr_eq; [done|]. simpl. rewrite lookup_insert_ne by done. exact Hy. }
    rewrite (bind_eq _ _ _ _ _ E).
    eexists. split; [done|]. split_and!.
    + exists m. split_and!; [done|by rewrite Hroot; apply troot_plug_cons| |done].
      apply rep_plug. split.
      * apply Hrepn. simpl. rewrite lookup_insert_ne by done. apply lookup_insert_eq.
      * apply (crep_rehole (nodes s) _ _ NIL); [done|done| |].
        -- intros a Ha Hne. simpl. rewrite !lookup_insert_ne; [done| |].
           ++ intros ->. by apply Hfresh.
           ++ simpl in Hne. congruence.
        -- simpl. by rewrite lookup_insert_eq, Hy.
    + split; try done. intros a. simpl.
      destruct (decide (a = y)) as [->|Hne1]; [by rewrite lookup_insert_eq, Hy|].
      rewrite lookup_insert_ne by done.
      destruct (decide (a = n)) as [->|Hne2]; [by rewrite lookup_insert_eq, Hn|].
      by rewrite lookup_insert_ne.
    + intros p. simpl. rewrite (color_of_insert _ _ ny); [|by rewrite lookup_insert_ne|done].
      by apply (color_of_insert _ _ nn).
  - pose proof Hcrep as (ny & Hy & Hyp & Hyl & Hyr & Hrl & Hc0).
    assert (Hyn : y ≠ n) by (intros ->; apply Hfresh; simpl; set_solver).
    destruct (Hpay y) as (ny' & ky & vy & Hy' & Hky & _); [rewrite inorder_plug; simpl; set_solver|].
    rewrite Hy in Hy'. injection Hy' as <-.
    assert (Hlt : cmp (obj_bytes ky) (obj_bytes gk) < 0).
    { rewrite <- (key_bytes_eq _ _ _ _ Hy Hky). apply Hbefore. simpl. set_solver. }
    apply (cmp_antisym cmp Hlaws) in Hlt.
    assert (Hge : (cmp (obj_bytes gk) (obj_bytes ky) <? 0) = false) by (apply Z.ltb_ge; lia).
    match goal with |- context [bind ?b _ ?s2] =>
      assert (E : b s2 = Some (tt, set_nodes (<[y := Node.set_right (Some n) ny]>
                                                (<[n := nn']> (nodes s))) s))
    end.
    { erewrite bind_eq; [|apply rd_eq; simpl; apply lookup_insert_eq]. cbv beta.
      erewrite bind_eq; [|apply rd_eq; simpl; rewrite lookup_insert_ne by done; exact Hy].
      cbv beta. cbn [Node.key nn' Node.set_parent]. rewrite Hkey, Hky. cbn [call_compare].
      unfold ret at 1, bind at 1. rewrite Hge.
      erewrite wr_eq; [done|]. simpl. rewrite lookup_insert_ne by done. exact Hy. }
    rewrite (bind_eq _ _ _ _ _ E).
    eexists. split; [done|]. split_and!.
    + exists m. split_and!; [done|by rewrite Hroot; apply troot_plug_cons| |done].
      apply rep_plug. split.
      * apply Hrepn. simpl. rewrite lookup_insert_ne by done. apply lookup_insert_eq.
      * apply (crep_rehole (nodes s) _ _ NIL); [done|done| |].
        -- intros a Ha Hne. simpl. rewrite !lookup_insert_ne; [done| |].
           ++ intros ->. by apply Hfresh.
           ++ simpl in Hne. congruence.
        -- simpl. by rewrite lookup_insert_eq, Hy.
    + split; try done. intros a. simpl.
      destruct (decide (a = y)) as [->|Hne1]; [by rewrite lookup_insert_eq, Hy|].
      rewrite lookup_insert_ne by done.
      destruct (decide (a = n)) as [->|Hne2]; [by rewrite lookup_insert_eq, Hn|].
      by rewrite lookup_insert_ne.
    + intros p. simpl. rewrite (color_of_insert _ _ ny); [|by rewrite lookup_insert_ne|done].
      by apply (color_of_insert _ _ nn).
Qed.

(** Keys that the comparator finds equal compare alike with any other. *)
Lemma cmp_equiv_ne cmp a b c :
  comparator_laws cmp → cmp a b = 0 → cmp a c ≠ 0 → cmp b c ≠ 0.
Proof.
  intros Hlaws Hab Hac Hbc.
  pose proof (cmp_eq_sym cmp Hlaws _ _ Hab) as Hba.
  pose proof (cmp_eq_sym cmp Hlaws _ _ Hbc) as Hcb.
  destruct (Z.lt_trichotomy (cmp a c) 0) as [Hlt|[Heq|Hgt]]; [|done|].
  - pose proof (cmp_lt_le_trans cmp Hlaws a c b Hlt ltac:(lia)). lia.
  - apply (cmp_gt_lt cmp Hlaws) in Hgt.
    pose proof (cmp_lt_le_trans cmp Hlaws c a b Hgt ltac:(lia)). lia.
Qed.

Lemma key_bytes_payload h h' a :
  payload <$> h' !! a = payload <$> h !! a → key_bytes h' a = key_bytes h a.
Proof.
  unfold key_bytes. destruct (h' !! a) as [n'|], (h !! a) as [n|]; simpl; try done.
  by intros [= -> _].
Qed.

Lemma ordered_ext_in cmp h h' l :
  (∀ a, a ∈ l → key_bytes h' a = key_bytes h a) → ordered cmp h l → ordered cmp h' l.
Proof.
  unfold ordered. intros Hext Hord. induction Hord as [|a l Hs IH Hall]; constructor.
  - apply IH. intros b Hb. apply Hext. set_solver.
  - rewrite Forall_forall in Hall |- *. intros b Hb. simpl.
    rewrite !Hext by set_solver. by apply Hall.
Qed.

Lemma StronglySorted_insert {A} (R : relation A) l1 x l2 :
  StronglySorted R (l1 ++ l2) →
  (∀ a, a ∈ l1 → R a x) → (∀ a, a ∈ l2 → R x a) →
  StronglySorted R (l1 ++ x :: l2).
Proof.
  intros Hs H1 H2. apply StronglySorted_app in Hs as (H12 & Hs1 & Hs2).
  apply StronglySorted_app. split_and!; [|done|].
  - intros a b Ha Hb. apply elem_of_cons in Hb as [->|Hb]; [by apply H1|by apply H12].
  - constructor; [done|]. by apply Forall_forall.
Qed.

(** [ordered_map_insert] of a key that no node holds: the call returns;
    when it returns success a new node [n] holding the stored forms of the
    key and the value has been put at a leaf position of the old tree, the
    tree was rebalanced without a change to the order of its nodes, and
    the size went up by one. *)
Lemma insert_new_spec s map t m cmp ko vo :
  well_formed s map t → maps s !! map = Some m →
  Config.key_compare (Map.config m) = Some cmp →
  find_key cmp (nodes s) (obj_bytes ko) (inorder t) = NIL →
  readable (Config.key_size (Map.config m)) ko →
  readable (Config.value_size (Map.config m)) vo →
  (∀ kb, stored_bytes (Config.key_size (Map.config m)) (Config.key_copy (Map.config m))
           (obj_bytes ko) = Some kb → cmp (obj_bytes ko) kb = 0) →
  ∃ e s', ordered_map_insert (Some map) (Some ko) (Some vo) s = Some (e, s')
    ∧ (e = ORDERED_MAP_SUCCESS →
       ∃ n gk gv c t' m',
         nodes s !! n = None
         ∧ t = plug c Leaf
         ∧ inorder t' = inorder (plug c (Br Leaf n Leaf))
         ∧ well_formed s' map t'
         ∧ inserted_shape n (nodes s') t'
         ∧ payload <$> nodes s' !! n = Some (Some gk, Some gv)
         ∧ stored_bytes (Config.key_size (Map.config m)) (Config.key_copy (Map.config m))
             (obj_bytes ko) = Some (obj_bytes gk)
         ∧ stored_bytes (Config.value_size (Map.config m)) (Config.value_copy (Map.config m))
             (obj_bytes vo) = Some (obj_bytes gv)
         ∧ (∀ a, a ≠ n → payload <$> nodes s' !! a = payload <$> nodes s !! a)
         ∧ maps s' !! map = Some m'
         ∧ Map.config m' = Map.config m
         ∧ Map.size m' = size_incr (Map.size m)
         ∧ iters s' = iters s
         ∧ (0 < avail s)%nat).
Proof.
  intros Hwf Hm Hcmp Hfind Hrk Hrv Hfaith.
  destruct (well_formed_inv _ _ _ _ _ Hwf Hm Hcmp)
    as (Hroot & Hlaws & Hsz & Hrep & Hnd & Hpay & Hord & Hblack).
  unfold ordered_map_insert. cbn [is_null orb].
  do 2 mstep.
  rewrite (bind_eq _ _ _ _ _ (tree_search_spec s map t m cmp ko Hwf Hm Hcmp)).
  rewrite Hfind. cbn [is_nil negb].
  destruct (create_node_spec ko vo (Map.config m) s Hrk Hrv) as (r & s1 & E1 & Hr).
  rewrite (bind_eq _ _ _ _ _ E1).
  destruct r as [n|]; cbn [is_nil].
  2:{ eexists _, _. split; [done|]. intros [=]. }
  destruct (Hr n eq_refl) as (gk & gv & Hfresh & Hn1 & Hm1 & Hi1 & Ht1 & Hav & Hsk & Hsv).
  clear Hr.
  set (N0 := Node.Make (Some gk) (Some gv) NIL NIL NIL RB_RED) in *.
  assert (HmS1 : maps s1 !! map = Some m) by (by rewrite Hm1).
  rewrite (bind_eq _ _ _ _ _ (rdm_eq Map.root _ _ _ HmS1)).
  rewrite get_fuel_eq.
  assert (Hnt : n ∉ inorder t).
  { intros Hin. destruct (rep_lookup _ _ _ _ Hrep Hin) as [x Hx]. congruence. }
  assert (Hsame : ∀ a, a ≠ n → nodes s1 !! a = nodes s !! a).
  { intros a Ha. rewrite Hn1. by apply lookup_insert_ne. }
  assert (Hint : ∀ a, a ∈ inorder t → a ≠ n) by (intros a Ha ->; done).
  assert (Hkb1 : ∀ a, a ∈ inorder t → key_bytes (nodes s1) a = key_bytes (nodes s) a).
  { intros a Ha. unfold key_bytes. by rewrite Hsame by auto. }
  assert (Hrep1 : rep (nodes s1) t NIL) by (apply (rep_ext (nodes s)); auto).
  assert (Hpay1 : payloads (Map.config m) (nodes s1) t).
  { intros a Ha. rewrite Hsame by auto. by apply Hpay. }
  assert (Hord1 : ordered cmp (nodes s1) (inorder t)) by (by apply (ordered_ext_in cmp (nodes s))).
  assert (Hn1' : nodes s1 !! n = Some N0) by (rewrite Hn1; apply lookup_insert_eq).
  assert (Hne1 : ∀ a, a ∈ inorder t → cmp (obj_bytes gk) (key_bytes (nodes s1) a) ≠ 0).
  { intros a Ha. rewrite Hkb1 by done.
    apply (cmp_equiv_ne cmp (obj_bytes ko)); [done|by apply Hfaith|].
    by apply (find_key_None cmp Hlaws (nodes s) _ (inorder t)). }
  destruct (insert_descend_spec cmp (Map.config m) s1 n N0 gk t Hlaws Hn1' eq_refl
              NIL NIL (S (size (nodes s1))) Hrep1 Hpay1 Hord1 Hne1)
    as (c & E2 & Hplug & Hbefore & Hafter).
  { by apply rep_height_lt_fuel with NIL. }
  rewrite Hroot, Hcmp. rewrite (bind_eq _ _ _ _ _ E2).
  assert (Hy : (if c is [] then NIL else cparent c) = cparent c) by (by destruct c).
  rewrite Hy. clear Hy E2.
  subst t.
  destruct (link_spec map m s1 (Map.config m) cmp c n N0 gk
              (do_ insert_fixup map (Some n);
               do sz <- rdm Map.size map;
               do_ wrm (Map.set_size (size_incr sz)) map;
               do_ record_insert map true;
               ret ORDERED_MAP_SUCCESS)
              Hlaws HmS1 Hroot Hrep1 Hnd Hpay1 Hn1' Hnt eq_refl eq_refl eq_refl Hbefore Hafter)
    as (s3 & E3 & Ht3 & Hs3 & Hc3).
  rewrite E3. clear E3.
  destruct (insert_fixup_spec map s3 c Leaf n Leaf n Ht3) as (s4 & t4 & E4 & Ht4 & Hin4 & Hs4 & Hsh4 & Hb4).
  { intros Hc. rewrite Hc3. destruct c as [|f c]; [done|].
    rewrite (troot_plug_cons f c _ Leaf). rewrite Hn1, color_of_insert_ne; [done|].
    intros Heq. apply troot_inorder in Heq. done. }
  { by left. }
  rewrite (bind_eq _ _ _ _ _ E4).
  pose proof Ht4 as (m4 & Hm4 & Hr4 & Hrep4 & Hnd4).
  assert (Hh4 : header m4 = header m).
  { pose proof (surgery_header _ _ _ Hs4) as H4. pose proof (surgery_header _ _ _ Hs3) as H3.
    rewrite H3, HmS1, Hm4 in H4. simpl in H4. congruence. }
  injection Hh4 as Hcfg4 Hsz4 Hst4 Hen4.
  rewrite (bind_eq _ _ _ _ _ (rdm_eq Map.size _ _ _ Hm4)).
  rewrite (bind_eq _ _ _ _ _ (wrm_eq _ _ _ _ Hm4)).
  set (m5 := Map.set_size (size_incr (Map.size m4)) m4).
  set (s5 := set_maps (<[map := m5]> (maps s4)) s4).
  assert (Hm5 : maps s5 !! map = Some m5) by (simpl; apply lookup_insert_eq).
  destruct (record_insert_spec map m5 s5 t4 true Hm5 Hr4 Hrep4 Hnd4) as (s6 & E6 & Hs6).
  rewrite (bind_eq _ _ _ _ _ E6).
  eexists _, s6. split; [done|]. intros _.
  assert (Hpl : ∀ a, payload <$> nodes s4 !! a = payload <$> nodes s1 !! a).
  { intros a. rewrite (surgery_payload _ _ _ Hs4). apply (surgery_payload _ _ _ Hs3). }
  assert (Hin4' : inorder t4 = cbefore c ++ n :: cafter c).
  { rewrite Hin4, inorder_plug. done. }
  assert (Hwf5 : well_formed s5 map t4).
  { exists m5, cmp. split_and!; try done.
    - simpl. by rewrite Hcfg4.
    - simpl. apply N.mod_lt. done.
    - intros a Ha. rewrite Hin4' in Ha.
      assert (∃ nd ko' vo', nodes s1 !! a = Some nd ∧ Node.key nd = Some ko'
                ∧ Node.value nd = Some vo'
                ∧ ((0 < Config.value_size (Map.config m))%N →
                   length (obj_bytes vo') = N.to_nat (Config.value_size (Map.config m))))
        as (nd & ko' & vo' & Hnd1 & Hk' & Hv' & Hlen).
      { destruct (decide (a = n)) as [->|Hne].
        - exists N0, gk, gv. split_and!; try done. intros Hpos.
          unfold stored_bytes in Hsv. apply N.ltb_lt in Hpos. rewrite Hpos in Hsv.
          destruct (decide _) as [Hle|]; [|done]. injection Hsv as <-.
          rewrite length_take. lia.
        - rewrite Hsame by done. apply Hpay. rewrite inorder_plug. simpl. set_solver. }
      specialize (Hpl a). rewrite Hnd1 in Hpl. simpl in Hpl.
      destruct (nodes s4 !! a) as [nd4|] eqn:Hnd4'; [|done]. injection Hpl as Hk4 Hv4.
      exists nd4, ko', vo'. simpl. rewrite Hcfg4. split_and!; [done|congruence|congruence|exact Hlen].
    - simpl. rewrite Hin4'.
      apply (ordered_ext_in cmp (nodes s1)); [intros a _; by apply key_bytes_payload|].
      apply StronglySorted_insert.
      + rewrite inorder_plug in Hord1. done.
      + intros a Ha. rewrite (key_bytes_eq _ _ _ _ Hn1' eq_refl). by apply Hbefore.
      + intros a Ha. rewrite (key_bytes_eq _ _ _ _ Hn1' eq_refl). by apply Hafter. }
  pose proof (well_formed_same_contents _ _ _ _ Hwf5 Hs6) as Hwf6.
  destruct Hs6 as (Hn6 & _ & Hi6 & _ & _ & m5' & m6 & Hm5' & Hm6 & Hr6 & Hsz6 & Hcfg6).
  rewrite Hm5 in Hm5'. injection Hm5' as <-.
  exists n, gk, gv, c, t4, m6. split_and!; try done.
  - by rewrite Hn6.
  - rewrite Hn6. simpl. by rewrite Hpl, Hn1'.
  - intros a Ha. rewrite Hn6. simpl. by rewrite Hpl, Hsame.
  - by rewrite Hcfg6.
  - rewrite Hsz6. simpl. by rewrite Hsz4.
  - rewrite Hi6. simpl. rewrite (surgery_iters _ _ _ Hs4), (surgery_iters _ _ _ Hs3). done.
Qed.

(** [ordered_map_insert] returns on every well-formed map, and after a
    success some node of the map holds a key equal to the one given. *)
Lemma insert_total s map t m cmp ko vo :
  well_formed s map t → maps s !! map = Some m →
  Config.key_compare (Map.config m) = Some cmp →
  readable (Config.key_size (Map.config m)) ko →
  readable (Config.value_size (Map.config m)) vo →
  (∀ kb, stored_bytes (Config.key_size (Map.config m)) (Config.key_copy (Map.config m))
           (obj_bytes ko) = Some kb → cmp (obj_bytes ko) kb = 0) →
  ∃ e s1, ordered_map_insert (Some map) (Some ko) (Some vo) s = Some (e, s1)
    ∧ (e = ORDERED_MAP_SUCCESS →
       ∃ t1 a1 m1,
         well_formed s1 map t1
         ∧ maps s1 !! map = Some m1
         ∧ Map.config m1 = Map.config m
         ∧ find_key cmp (nodes s1) (obj_bytes ko) (inorder t1) = Some a1).
Proof.
  intros Hwf Hm Hcmp Hrk Hrv Hfaith.
  destruct (well_formed_inv _ _ _ _ _ Hwf Hm Hcmp)
    as (Hroot & Hlaws & Hsz & Hrep & Hnd & Hpay & Hord & Hblack).
  destruct (find_key cmp (nodes s) (obj_bytes ko) (inorder t)) as [a|] eqn:Hfind.
  - (* the key is there *)
    pose proof (find_key_Some cmp Hlaws _ _ _ _ Hfind) as [Ha _].
    destruct (rep_lookup _ _ _ _ Hrep Ha) as [n Hn].
    destruct (stored_bytes (Config.value_size (Map.config m)) (Config.value_copy (Map.config m))
                (obj_bytes vo)) as [bs|] eqn:Hstored.
    + destruct (insert_existing_spec s map t m cmp ko vo a n bs Hwf Hm Hcmp Hfind Hn Hstored)
        as (s1 & g & E & _ & _ & Hn1 & _ & _ & (m1 & Hm1 & _ & _ & Hc1) & Hwf1).
      exists ORDERED_MAP_SUCCESS, s1. split; [done|]. intros _.
      exists t, a, m1. split_and!; [done..|].
      rewrite Hn1. rewrite (find_key_ext cmp (nodes s)); [done|].
      intros b. by eapply key_bytes_insert.
    + destruct (insert_existing_oom s map t m cmp ko vo a Hwf Hm Hcmp Hfind Hstored)
        as [Hpos|(s1 & E & _)].
      * exfalso. unfold stored_bytes in Hstored. specialize (Hrv Hpos).
        apply N.ltb_lt in Hpos. rewrite Hpos in Hstored. by rewrite decide_True in Hstored.
      * exists ORDERED_MAP_ERROR_OUT_OF_MEMORY, s1. split; [done|]. intros [=].
  - (* the key is new *)
    destruct (insert_new_spec s map t m cmp ko vo Hwf Hm Hcmp Hfind Hrk Hrv Hfaith)
      as (e & s1 & E & Hok).
    exists e, s1. split; [done|]. intros He.
    destruct (Hok He) as (n & gk & gv & c & t1 & m1 & _ & _ & Hin1 & Hwf1 & _ & Hpn & Hsk & _
                          & _ & Hm1 & Hc1 & _).
    exists t1, n, m1. split_and!; [done..|].
    assert (Hcmp1 : Config.key_compare (Map.config m1) = Some cmp) by (by rewrite Hc1).
    destruct (well_formed_inv _ _ _ _ _ Hwf1 Hm1 Hcmp1)
      as (_ & _ & _ & _ & _ & _ & Hord1 & _).
    apply (find_key_unique cmp Hlaws); [done| |].
    + rewrite Hin1, inorder_plug. simpl. set_solver.
    + destruct (nodes s1 !! n) as [nd|] eqn:Hnd1; [|done]. injection Hpn as Hk _.
      rewrite (key_bytes_eq _ _ _ _ Hnd1 Hk). by apply Hfaith.
Qed.

(** * [ordered_map_remove] of the key just inserted *)

(** [transplant(map, u, v)] puts [v] where [u] hangs and, when [v] is a
    node, gives it the parent of [u]. *)
Lemma transplant_spec map m s c u nu v :
  maps s !! map = Some m →
  crep (nodes s) c (Some u) → NoDup (cbefore c ++ cafter c) → u ∉ cbefore c ++ cafter c →
  nodes s !! u = Some nu → Node.parent nu = cparent c →
  (∀ a, v = Some a → a ≠ u ∧ a ∉ cbefore c ++ cafter c ∧ is_Some (nodes s !! a)) →
  ∃ s' m',
    transplant map (Some u) v s = Some (tt, s')
    ∧ maps s' !! map = Some m' ∧ header m' = header m
    ∧ Map.root m' = match c with [] => v | _ => Map.root m end
    ∧ crep (nodes s') c v
    ∧ (∀ a, Some a ≠ cparent c → Some a ≠ v → nodes s' !! a = nodes s !! a)
    ∧ (∀ a, v = Some a → nodes s' !! a = Node.set_parent (cparent c) <$> nodes s !! a)
    ∧ (∀ a, payload <$> nodes s' !! a = payload <$> nodes s !! a)
    ∧ (∀ a, Node.color <$> nodes s' !! a = Node.color <$> nodes s !! a)
    ∧ iters s' = iters s ∧ avail s' = avail s ∧ brk s' = brk s ∧ trace s' = trace s.
Proof.
  intros Hm Hc Hndc Hu Hnu Hpu Hv.
  unfold transplant.
  rewrite (bind_eq _ _ _ _ _ (rd_eq Node.parent _ _ _ Hnu)), Hpu.
  rewrite (bind_eq _ _ _ _ _ (replace_child_spec map m s c u v Hm Hc Hu)).
  set (s1 := match c with [] => _ | InL _ _ :: _ => _ | InR _ _ :: _ => _ end).
  assert (Hs1 : ∃ h1 m1, s1 = set_maps (<[map := m1]> (maps s)) (set_nodes h1 s)
                  ∧ header m1 = header m
                  ∧ Map.root m1 = match c with [] => v | _ => Map.root m end
                  ∧ (∀ z, Some z ≠ cparent c → h1 !! z = nodes s !! z)
                  ∧ match c with
                    | [] => True
                    | InL p _ :: _ => h1 !! p = Node.set_left v <$> nodes s !! p
                    | InR _ p :: _ => h1 !! p = Node.set_right v <$> nodes s !! p
                    end).
  { subst s1. destruct c as [|[p r|l p] c].
    - exists (nodes s), (Map.set_root v m). by split_and!.
    - exists (alter (Node.set_left v) p (nodes s)), m. split_and!; try done.
      + unfold set_maps, set_nodes. simpl. by rewrite insert_id.
      + intros z Hz. simpl in Hz. rewrite lookup_alter_ne; [done|congruence].
      + by rewrite lookup_alter_eq.
    - exists (alter (Node.set_right v) p (nodes s)), m. split_and!; try done.
      + unfold set_maps, set_nodes. simpl. by rewrite insert_id.
      + intros z Hz. simpl in Hz. rewrite lookup_alter_ne; [done|congruence].
      + by rewrite lookup_alter_eq. }
  destruct Hs1 as (h1 & m1 & -> & Hhdr & Hroot1 & Hh1 & Hhole).
  assert (Hup : Some u ≠ cparent c).
  { intros Heq. symmetry in Heq. apply cparent_in in Heq. done. }
  assert (Hpay1 : ∀ a, payload <$> h1 !! a = payload <$> nodes s !! a).
  { intros a. destruct (decide (Some a = cparent c)) as [Heq|Hne]; [|by rewrite Hh1].
    destruct c as [|[p r|l p] c]; [done| |]; simpl in Heq; injection Heq as ->;
      rewrite Hhole; by destruct (nodes s !! p). }
  assert (Hcol1 : ∀ a, Node.color <$> h1 !! a = Node.color <$> nodes s !! a).
  { intros a. destruct (decide (Some a = cparent c)) as [Heq|Hne]; [|by rewrite Hh1].
    destruct c as [|[p r|l p] c]; [done| |]; simpl in Heq; injection Heq as ->;
      rewrite Hhole; by destruct (nodes s !! p). }
  destruct v as [a|]; cbn [is_nil negb when].
  - destruct (Hv a eq_refl) as (Hau & Hac & [na Hna]).
    assert (Hap : Some a ≠ cparent c).
    { intros Heq. symmetry in Heq. apply cparent_in in Heq. done. }
    erewrite bind_eq; [|apply rd_eq; cbn [nodes set_nodes set_maps]; rewrite Hh1 by done; exact Hnu].
    cbv beta. rewrite Hpu.
    rewrite wr_alter; [|cbn [nodes set_nodes set_maps]; rewrite Hh1 by done; eauto].
    cbn [nodes set_nodes set_maps].
    eexists _, m1. split; [done|]. cbn [nodes maps iters avail brk trace set_nodes set_maps].
    split_and!; try done.
    + by rewrite lookup_insert_eq.
    + apply (crep_rehole (nodes s) _ c (Some u)); [done|done| |].
      * intros z Hz Hzp. rewrite lookup_alter_ne by (intros ->; done). by apply Hh1.
      * destruct c as [|[p r|l p] c]; [done| |]; simpl in Hap;
          (rewrite lookup_alter_ne by congruence); done.
    + intros z Hzp Hza. rewrite lookup_alter_ne by congruence. by apply Hh1.
    + intros ? [= <-]. rewrite lookup_alter_eq. by rewrite Hh1.
    + intros z. destruct (decide (z = a)) as [->|Hne].
      * rewrite lookup_alter_eq, <- Hpay1. by destruct (h1 !! a).
      * by rewrite lookup_alter_ne.
    + intros z. destruct (decide (z = a)) as [->|Hne].
      * rewrite lookup_alter_eq, <- Hcol1. by destruct (h1 !! a).
      * by rewrite lookup_alter_ne.
  - eexists _, m1. split; [done|]. cbn [nodes maps iters avail brk trace set_nodes set_maps].
    split_and!; try done.
    + by rewrite lookup_insert_eq.
    + apply (crep_rehole (nodes s) _ c (Some u)); [done|done| |done].
      intros z Hz Hzp. by apply Hh1.
    + intros z Hzp _. by apply Hh1.
Qed.

(** [delete_fixup] at [NIL] does nothing. *)
Lemma delete_fixup_nil map m s :
  maps s !! map = Some m → delete_fixup map NIL s = Some (tt, s).
Proof.
  intros Hm. unfold delete_fixup. rewrite get_fuel_eq. cbv beta. cbn [delete_fixup_loop].
  unfold bind at 1. unfold bind at 1. rewrite (rdm_eq Map.root _ _ _ Hm).
  by destruct (ptr_eqb NIL (Map.root m)).
Qed.

(** [destroy_node] releases the payloads as the configuration says and
    frees the node. *)
Lemma destroy_node_spec z nz cfg s :
  nodes s !! z = Some nz →
  ∃ s', destroy_node (Some z) cfg s = Some (tt, s')
        ∧ nodes s' = delete z (nodes s)
        ∧ maps s' = maps s ∧ iters s' = iters s
        ∧ (0 < avail s')%nat.
Proof.
  intros Hz. unfold destroy_node. cbn [is_nil].
  rewrite (bind_eq _ _ _ _ _ (rd_eq Node.key _ _ _ Hz)).
  assert (Hrel : ∀ (size : N) (d : bool) (p : void_ptr) (ev : void_ptr → event) s0,
             ∃ s1, (if (0 <? size)%N then free_bytes p else when d (log (ev p))) s0 = Some (tt, s1)
                   ∧ nodes s1 = nodes s0 ∧ maps s1 = maps s0 ∧ iters s1 = iters s0).
  { intros size d p ev s0. destruct (0 <? size)%N.
    - destruct p; by eexists.
    - destruct d; by eexists. }
  destruct (Hrel (Config.key_size cfg) (Config.key_destructor cfg) (Node.key nz)
              EvKeyDestructor s) as (s1 & E1 & Hn1 & Hm1 & Hi1).
  rewrite (bind_eq _ _ _ _ _ E1).
  assert (Hz1 : nodes s1 !! z = Some nz) by (by rewrite Hn1).
  rewrite (bind_eq _ _ _ _ _ (rd_eq Node.value _ _ _ Hz1)).
  destruct (Hrel (Config.value_size cfg) (Config.value_destructor cfg) (Node.value nz)
              EvValueDestructor s1) as (s2 & E2 & Hn2 & Hm2 & Hi2).
  rewrite (bind_eq _ _ _ _ _ E2).
  unfold free_node. rewrite Hn2, Hz1.
  eexists. split; [done|]. simpl. split_and!; [congruence..|lia].
Qed.

(** A write of the value that a field already has. *)
Lemma wr_same upd a n s :
  nodes s !! a = Some n → upd n = n → wr upd (Some a) s = Some (tt, s).
Proof.
  intros Hn Hupd. rewrite (wr_eq _ _ _ _ Hn), Hupd, insert_id by done.
  by destruct s.
Qed.

(** The end of [ordered_map_remove], once the node is out of the tree. *)
Lemma remove_tail_spec map s m n nn t cfg :
  maps s !! map = Some m → Map.root m = troot t → nodes s !! n = Some nn →
  rep (delete n (nodes s)) t NIL → NoDup (inorder t) →
  ∃ s' m',
    (do_ destroy_node (Some n) cfg;
     do sz <- rdm Map.size map;
     do_ wrm (Map.set_size (size_decr sz)) map;
     do_ record_remove map;
     ret ORDERED_MAP_SUCCESS) s = Some (ORDERED_MAP_SUCCESS, s')
    ∧ nodes s' = delete n (nodes s)
    ∧ maps s' !! map = Some m'
    ∧ Map.root m' = Map.root m
    ∧ Map.config m' = Map.config m
    ∧ Map.size m' = size_decr (Map.size m)
    ∧ iters s' = iters s
    ∧ (0 < avail s')%nat.
Proof.
  intros Hm Hroot Hn Hrep Hnd.
  destruct (destroy_node_spec n nn cfg s Hn) as (s1 & E1 & Hn1 & Hm1 & Hi1 & Hav1).
  rewrite (bind_eq _ _ _ _ _ E1).
  assert (HmS1 : maps s1 !! map = Some m) by (by rewrite Hm1).
  rewrite (bind_eq _ _ _ _ _ (rdm_eq Map.size _ _ _ HmS1)).
  rewrite (bind_eq _ _ _ _ _ (wrm_eq _ _ _ _ HmS1)).
  set (m2 := Map.set_size (size_decr (Map.size m)) m).
  set (s2 := set_maps (<[map := m2]> (maps s1)) s1).
  assert (Hm2 : maps s2 !! map = Some m2) by (simpl; apply lookup_insert_eq).
  destruct (record_remove_spec map m2 s2 t Hm2 Hroot) as (s3 & E3 & Hs3);
    [simpl; by rewrite Hn1|done|].
  rewrite (bind_eq _ _ _ _ _ E3).
  destruct Hs3 as (Hn3 & _ & Hi3 & Hav3 & _ & m2' & m3 & Hm2' & Hm3 & Hr3 & Hsz3 & Hc3).
  rewrite Hm2 in Hm2'. injection Hm2' as <-.
  exists s3, m3. split_and!; try done.
  - by rewrite Hn3.
  - by rewrite Hi3.
  - by rewrite Hav3.
Qed.

Lemma StronglySorted_delete {A} (R : relation A) l1 x l2 :
  StronglySorted R (l1 ++ x :: l2) → StronglySorted R (l1 ++ l2).
Proof.
  intros Hs. apply StronglySorted_app in Hs as (H12 & Hs1 & Hs2).
  apply StronglySorted_cons in Hs2 as [_ Hs2].
  apply StronglySorted_app. split_and!; [|done..].
  intros a b Ha Hb. apply H12; set_solver.
Qed.

(** The tree invariant once a node was taken out and the others kept
    their payloads. *)
Lemma well_formed_removed s map m cmp t1 s' m' t2 n l1 l2 :
  well_formed s map t1 → maps s !! map = Some m →
  Config.key_compare (Map.config m) = Some cmp →
  inorder t1 = l1 ++ n :: l2 → inorder t2 = l1 ++ l2 →
  maps s' !! map = Some m' → Map.root m' = troot t2 → Map.config m' = Map.config m →
  (Map.size m' < SIZE_MOD)%N →
  rep (nodes s') t2 NIL →
  (∀ a, a ≠ n → payload <$> nodes s' !! a = payload <$> nodes s !! a) →
  color_of (nodes s') (troot t2) = RB_BLACK →
  well_formed s' map t2.
Proof.
  intros Hwf Hm Hcmp Hin1 Hin2 Hm' Hroot' Hcfg' Hsz' Hrep' Hpl Hblack'.
  destruct (well_formed_inv _ _ _ _ _ Hwf Hm Hcmp)
    as (Hroot & Hlaws & Hsz & Hrep & Hnd & Hpay & Hord & Hblack).
  rewrite Hin1 in Hnd, Hord.
  assert (Hnn : ∀ a, a ∈ l1 ++ l2 → a ≠ n).
  { intros a Ha ->. apply NoDup_app in Hnd as (_ & Hd & Hnd).
    apply NoDup_cons in Hnd as [Hn2 _]. apply elem_of_app in Ha as [Ha|Ha]; [|done].
    apply (Hd n Ha). set_solver. }
  exists m', cmp. split_and!; try done.
  - by rewrite Hcfg'.
  - rewrite Hin2. apply NoDup_app in Hnd as (H1 & Hd & Hnd).
    apply NoDup_cons in Hnd as [_ H2]. apply NoDup_app. split_and!; [done| |done].
    intros a Ha Hb. apply (Hd a Ha). set_solver.
  - intros a Ha. rewrite Hin2 in Ha.
    destruct (Hpay a) as (nd & ko' & vo' & Hnd1 & Hk' & Hv' & Hlen).
    { rewrite Hin1. set_solver. }
    specialize (Hpl a (Hnn a Ha)). rewrite Hnd1 in Hpl. simpl in Hpl.
    destruct (nodes s' !! a) as [nd'|]; [|done]. injection Hpl as Hk Hv.
    exists nd', ko', vo'. rewrite Hcfg'. split_and!; [done|congruence|congruence|exact Hlen].
  - rewrite Hin2. apply (ordered_ext_in cmp (nodes s)).
    + intros a Ha. apply key_bytes_payload. by apply Hpl, Hnn.
    + by apply StronglySorted_delete in Hord.
Qed.

Lemma color_of_lookup h h' p :
  (∀ a, p = Some a → Node.color <$> h' !! a = Node.color <$> h !! a) →
  color_of h' p = color_of h p.
Proof.
  destruct p as [a|]; [|done]. intros H. specialize (H a eq_refl). simpl.
  destruct (h' !! a), (h !! a); simpl in H; congruence.
Qed.

(** Removing a node that has no children. *)
Lemma remove_leaf_spec s map m cmp c n ko :
  well_formed s map (plug c (Br Leaf n Leaf)) → maps s !! map = Some m →
  Config.key_compare (Map.config m) = Some cmp →
  find_key cmp (nodes s) (obj_bytes ko) (inorder (plug c (Br Leaf n Leaf))) = Some n →
  ∃ s' m',
    ordered_map_remove (Some map) (Some ko) s = Some (ORDERED_MAP_SUCCESS, s')
    ∧ well_formed s' map (plug c Leaf)
    ∧ maps s' !! map = Some m'
    ∧ Map.config m' = Map.config m
    ∧ Map.size m' = size_decr (Map.size m)
    ∧ (∀ a, a ≠ n → payload <$> nodes s' !! a = payload <$> nodes s !! a)
    ∧ iters s' = iters s
    ∧ (0 < avail s')%nat.
Proof.
  intros Hwf Hm Hcmp Hfind.
  destruct (well_formed_inv _ _ _ _ _ Hwf Hm Hcmp)
    as (Hroot & Hlaws & Hsz & Hrep & Hnd & Hpay & Hord & Hblack).
  pose proof Hrep as Hrep0. apply rep_plug in Hrep0 as [Hsub Hc].
  destruct Hsub as (nn & Hn & Hpn & Hln & Hrn & _ & _). cbn [troot] in Hln, Hrn, Hc.
  pose proof Hnd as Hnd0. apply NoDup_plug in Hnd0 as (_ & Hdis & Hndc).
  assert (Hnc : n ∉ cbefore c ++ cafter c) by (apply Hdis; simpl; set_solver).
  unfold ordered_map_remove. cbn [is_null].
  do 2 mstep.
  rewrite (bind_eq _ _ _ _ _ (tree_search_spec s map _ m cmp ko Hwf Hm Hcmp)).
  rewrite Hfind. cbn [is_nil].
  rewrite (bind_eq _ _ _ _ _ (rd_eq Node.color _ _ _ Hn)).
  rewrite (bind_eq _ _ _ _ _ (rd_eq Node.left _ _ _ Hn)).
  rewrite (bind_eq _ _ _ _ _ (rd_eq Node.right _ _ _ Hn)).
  rewrite Hln, Hrn. cbn [is_nil].
  destruct (transplant_spec map m s c n nn NIL Hm Hc Hndc Hnc Hn Hpn)
    as (s1 & m1 & E1 & Hm1 & Hh1 & Hr1 & Hc1 & Hsame1 & _ & Hpay1 & Hcol1 & Hi1 & Hav1 & _);
    [by intros ? [=]|].
  rewrite (bind_eq _ _ _ _ _ (bind_eq _ _ _ _ _ E1)).
  cbv beta iota.
  assert (E2 : when (color_eqb (Node.color nn) RB_BLACK) (delete_fixup map NIL) s1
               = Some (tt, s1)).
  { destruct (color_eqb _ _); [by apply (delete_fixup_nil map m1)|done]. }
  rewrite (bind_eq _ _ _ _ _ E2).
  assert (Hn1 : nodes s1 !! n = Some nn).
  { rewrite Hsame1; [done| |done]. intros Heq. symmetry in Heq. by apply cparent_in in Heq. }
  injection Hh1 as Hcfg1 Hsz1 _ _.
  assert (Hroot1 : Map.root m1 = troot (plug c Leaf)).
  { rewrite Hr1. destruct c as [|f c]; [done|]. rewrite Hroot. apply troot_plug_cons. }
  assert (Hrep2 : rep (delete n (nodes s1)) (plug c Leaf) NIL).
  { apply rep_plug. split; [done|]. eapply crep_ext; [|exact Hc1].
    intros a Ha. apply lookup_delete_ne. by intros ->. }
  assert (Hnd2 : NoDup (inorder (plug c Leaf))).
  { rewrite inorder_plug. done. }
  destruct (remove_tail_spec map s1 m1 n nn (plug c Leaf) (Map.config m) Hm1 Hroot1 Hn1 Hrep2 Hnd2)
    as (s' & m' & E & Hn' & Hm' & Hr' & Hc' & Hsz' & Hi' & Hav').
  rewrite E. exists s', m'.
  assert (Hpl : ∀ a, a ≠ n → payload <$> nodes s' !! a = payload <$> nodes s !! a).
  { intros a Ha. by rewrite Hn', lookup_delete_ne, Hpay1. }
  split_and!; try done.
  - apply (well_formed_removed s map m cmp (plug c (Br Leaf n Leaf)) s' m' (plug c Leaf) n
             (cbefore c) (cafter c)); try done.
    + by rewrite inorder_plug.
    + by rewrite inorder_plug.
    + by rewrite Hr'.
    + by rewrite Hc'.
    + rewrite Hsz'. apply N.mod_lt. done.
    + by rewrite Hn'.
    + destruct c as [|f c]; [done|].
      rewrite (troot_plug_cons f c Leaf (Br Leaf n Leaf)), <- Hblack.
      apply color_of_lookup. intros a Ha. rewrite Hn', lookup_delete_ne, Hcol1; [done|].
      intros Heq. subst a.
      apply (troot_plug_ne (f :: c) (Br Leaf n Leaf) n); [done|done|simpl; set_solver|done].
  - by rewrite Hc'.
  - by rewrite Hsz', Hsz1.
  - by rewrite Hi'.
Qed.

(** The branch of [ordered_map_remove] for a node with two children, when
    the right child [y] has no left child and so is the successor: [y]
    takes the place, the left subtree and the colour of the node. *)
Lemma splice_successor_spec map m s c l n y r :
  tree_at map s (plug c (Br l n (Br Leaf y r))) → maps s !! map = Some m → l ≠ Leaf →
  ∃ s' m',
    (do y0 <- tree_minimum (Some y);
     do y_original_color <- rd Node.color y0;
     do x <- rd Node.right y0;
     do yp <- rd Node.parent y0;
     do_ (if ptr_eqb yp (Some n) then
            when (negb (is_nil x)) (wr (Node.set_parent y0) x)
          else
            do yr <- rd Node.right y0;
            do_ transplant map y0 yr;
            do zr <- rd Node.right (Some n);
            do_ wr (Node.set_right zr) y0;
            do yr <- rd Node.right y0;
            when (negb (is_nil yr)) (wr (Node.set_parent y0) yr));
     do_ transplant map (Some n) y0;
     do zl <- rd Node.left (Some n);
     do_ wr (Node.set_left zl) y0;
     do yl <- rd Node.left y0;
     do_ wr (Node.set_parent y0) yl;
     do zc <- rd Node.color (Some n);
     do_ wr (Node.set_color zc) y0;
     ret (x, y_original_color)) s
    = Some ((troot r, color_of (nodes s) (Some y)), s')
    ∧ maps s' !! map = Some m' ∧ header m' = header m
    ∧ Map.root m' = troot (plug c (Br l y r))
    ∧ rep (delete n (nodes s')) (plug c (Br l y r)) NIL
    ∧ nodes s' !! n = nodes s !! n
    ∧ (∀ a, payload <$> nodes s' !! a = payload <$> nodes s !! a)
    ∧ (∀ a, a ≠ y → Node.color <$> nodes s' !! a = Node.color <$> nodes s !! a)
    ∧ color_of (nodes s') (Some y) = color_of (nodes s) (Some n)
    ∧ iters s' = iters s.
Proof.
  intros (m0 & Hm0 & Hroot & Hrep & Hnd) Hm Hl.
  rewrite Hm in Hm0. injection Hm0 as <-.
  pose proof Hrep as Hrep0. apply rep_plug in Hrep0 as [Hsub Hc].
  destruct Hsub as (nn & Hn & Hpn & Hln & Hrn & Hrl & Hry).
  pose proof Hry as (ny & Hy & Hpy & Hly & Hry' & _ & Hrr).
  cbn [troot] in Hrn, Hly, Hc.
  destruct l as [|ll lx lr]; [done|]. cbn [troot] in Hln.
  pose proof Hrl as (nlx & Hlx & Hplx & _).
  pose proof Hnd as Hnd0. apply NoDup_plug in Hnd0 as (Hnds & Hdis & Hndc).
  apply NoDup_inorder_Br in Hnds as (Hndl & Hndyr & Hnl & Hnyr & Hlyr).
  pose proof Hndyr as Hndyr0.
  apply NoDup_inorder_Br in Hndyr0 as (_ & Hndr & _ & Hyr & _).
  assert (Hny : n ≠ y) by (intros ->; apply Hnyr; simpl; set_solver).
  assert (Hlxn : lx ≠ n) by (intros ->; apply Hnl; simpl; set_solver).
  assert (Hlxy : lx ≠ y) by (intros ->; apply (Hlyr y); simpl; set_solver).
  assert (Hnc : n ∉ cbefore c ++ cafter c) by (apply Hdis; simpl; set_solver).
  assert (Hyc : y ∉ cbefore c ++ cafter c) by (apply Hdis; simpl; set_solver).
  assert (Hlxc : lx ∉ cbefore c ++ cafter c) by (apply Hdis; simpl; set_solver).
  assert (Hcp : ∀ a, a ∈ inorder (Br (Br ll lx lr) n (Br Leaf y r)) → Some a ≠ cparent c).
  { intros a Ha Heq. symmetry in Heq. apply cparent_in in Heq. by apply (Hdis a). }
  (* the successor is the right child *)
  assert (Emin : tree_minimum (Some y) s = Some (Some y, s)).
  { unfold tree_minimum. cbn [is_nil]. rewrite get_fuel_eq.
    destruct (fuel_for_subtree s (InR (Br ll lx lr) n :: c) (Br Leaf y r) Hrep Hnd) as [Hh _].
    apply (tree_minimum_loop_spec s (Br Leaf y r) (Some n) _ Hry ltac:(done) Hh). }
  rewrite (bind_eq _ _ _ _ _ Emin).
  rewrite (bind_eq _ _ _ _ _ (rd_eq Node.color _ _ _ Hy)).
  rewrite (bind_eq _ _ _ _ _ (rd_eq Node.right _ _ _ Hy)), Hry'.
  rewrite (bind_eq _ _ _ _ _ (rd_eq Node.parent _ _ _ Hy)), Hpy.
  rewrite ptr_eqb_refl.
  assert (E0 : when (negb (is_nil (troot r))) (wr (Node.set_parent (Some y)) (troot r)) s
               = Some (tt, s)).
  { destruct r as [|rl rx rr]; [done|]. cbn [troot is_nil negb when].
    destruct Hrr as (nrx & Hrx & Hprx & _). apply (wr_same _ _ nrx); [done|].
    destruct nrx. simpl in *. by subst. }
  rewrite (bind_eq _ _ _ _ _ E0).
  destruct (transplant_spec map m s c n nn (Some y) Hm Hc Hndc Hnc Hn Hpn)
    as (s1 & m1 & E1 & Hm1 & Hh1 & Hr1 & Hc1 & Hsame1 & Hv1 & Hpay1 & Hcol1 & Hi1 & _).
  { intros ? [= <-]. split_and!; [done|done|eauto]. }
  rewrite (bind_eq _ _ _ _ _ E1).
  specialize (Hv1 y eq_refl). rewrite Hy in Hv1. simpl in Hv1.
  assert (Hn1 : nodes s1 !! n = Some nn).
  { rewrite Hsame1; [done| |congruence]. apply Hcp. simpl. set_solver. }
  assert (Hlx1 : nodes s1 !! lx = Some nlx).
  { rewrite Hsame1; [done| |congruence]. apply Hcp. simpl. set_solver. }
  rd_alter. rewrite Hln.
  wr_alter_step.
  rd_alter.
  wr_alter_step.
  rd_alter.
  wr_alter_step.
  cbn [nodes set_nodes].
  set (h' := alter (Node.set_color (Node.color nn)) y
               (alter (Node.set_parent (Some y)) lx
                  (alter (Node.set_left (Some lx)) y (nodes s1)))).
  assert (Hcy : color_of (nodes s) (Some y) = Node.color ny) by (simpl; by rewrite Hy).
  rewrite Hcy.
  eexists _, m1. split; [done|].
  cbn [nodes maps iters set_nodes].
  assert (Hh'y : h' !! y = Some (Node.set_color (Node.color nn)
                    (Node.set_left (Some lx) (Node.set_parent (cparent c) ny)))).
  { subst h'. by lookup_alters. }
  assert (Hh'lx : h' !! lx = Some (Node.set_parent (Some y) nlx)).
  { subst h'. by lookup_alters. }
  assert (Hh' : ∀ a, a ≠ y → a ≠ lx → Some a ≠ cparent c → h' !! a = nodes s !! a).
  { intros a ? ? ?. subst h'. rewrite !lookup_alter_ne by done. apply Hsame1; congruence. }
  split_and!.
  - done.
  - done.
  - rewrite Hr1. destruct c as [|f c]; [done|]. rewrite Hroot. apply troot_plug_cons.
  - apply rep_plug. split.
    + exists (Node.set_color (Node.color nn)
               (Node.set_left (Some lx) (Node.set_parent (cparent c) ny))).
      split_and!; try done.
      * by rewrite lookup_delete_ne.
      * apply (rep_reparent (nodes s) _ _ (Some n)); [done|done| |].
        -- intros a Ha Hne. cbn [troot] in Hne.
           rewrite lookup_delete_ne by (intros ->; done).
           apply Hh'; [intros ->; by apply (Hlyr y Ha); simpl; set_solver|congruence|].
           apply Hcp. simpl. set_solver.
        -- intros a [= <-]. rewrite lookup_delete_ne by done. by rewrite Hh'lx, Hlx.
      * apply (rep_ext (nodes s)); [|done]. intros a Ha.
        rewrite lookup_delete_ne by (intros ->; apply Hnyr; simpl; set_solver).
        apply Hh'; [intros ->; done|intros ->; apply (Hlyr lx); simpl; set_solver|].
        apply Hcp. simpl. set_solver.
    + cbn [troot]. eapply crep_ext; [|exact Hc1]. intros a Ha.
      rewrite lookup_delete_ne by (intros ->; done).
      subst h'. rewrite !lookup_alter_ne; [done|intros ->; done..].
  - rewrite Hh'; [done..|]. apply Hcp. simpl. set_solver.
  - intros a. subst h'.
    destruct (decide (a = y)) as [->|Hay].
    + rewrite lookup_alter_eq, lookup_alter_ne, lookup_alter_eq by done.
      rewrite <- Hpay1. by destruct (nodes s1 !! y).
    + rewrite lookup_alter_ne by done.
      destruct (decide (a = lx)) as [->|Halx].
      * rewrite lookup_alter_eq, lookup_alter_ne by done.
        rewrite <- Hpay1. by destruct (nodes s1 !! lx).
      * by rewrite !lookup_alter_ne.
  - intros a Hay. subst h'. rewrite lookup_alter_ne by done.
    destruct (decide (a = lx)) as [->|Halx].
    + rewrite lookup_alter_eq, lookup_alter_ne by done.
      rewrite <- Hcol1. by destruct (nodes s1 !! lx).
    + by rewrite !lookup_alter_ne.
  - simpl. by rewrite Hh'y, Hn.
  - done.
Qed.

Lemma well_formed_tree_at s map t : well_formed s map t → tree_at map s t.
Proof.
  intros (m & cmp & Hm & Hroot & _ & _ & _ & Hrep & Hnd & _). by exists m.
Qed.

(** Removing a node with two children whose right child is red and has no
    left child. *)
Lemma remove_inner_spec s map m cmp c l n y r ko :
  well_formed s map (plug c (Br l n (Br Leaf y r))) → maps s !! map = Some m →
  Config.key_compare (Map.config m) = Some cmp →
  find_key cmp (nodes s) (obj_bytes ko) (inorder (plug c (Br l n (Br Leaf y r)))) = Some n →
  l ≠ Leaf → color_of (nodes s) (Some y) = RB_RED →
  ∃ s' m',
    ordered_map_remove (Some map) (Some ko) s = Some (ORDERED_MAP_SUCCESS, s')
    ∧ well_formed s' map (plug c (Br l y r))
    ∧ maps s' !! map = Some m'
    ∧ Map.config m' = Map.config m
    ∧ Map.size m' = size_decr (Map.size m)
    ∧ (∀ a, a ≠ n → payload <$> nodes s' !! a = payload <$> nodes s !! a)
    ∧ iters s' = iters s
    ∧ (0 < avail s')%nat.
Proof.
  intros Hwf Hm Hcmp Hfind Hl Hyred.
  destruct (well_formed_inv _ _ _ _ _ Hwf Hm Hcmp)
    as (Hroot & Hlaws & Hsz & Hrep & Hnd & Hpay & Hord & Hblack).
  pose proof Hrep as Hrep0. apply rep_plug in Hrep0 as [Hsub Hc].
  destruct Hsub as (nn & Hn & Hpn & Hln & Hrn & Hrl & Hry). cbn [troot] in Hrn.
  pose proof Hnd as Hnd0. apply NoDup_plug in Hnd0 as (Hnds & Hdis & Hndc).
  apply NoDup_inorder_Br in Hnds as (Hndl & Hndyr & Hnl & Hnyr & Hlyr).
  apply NoDup_inorder_Br in Hndyr as (_ & Hndr & _ & Hyr & _).
  assert (Hny : n ≠ y) by (intros ->; apply Hnyr; simpl; set_solver).
  unfold ordered_map_remove. cbn [is_null].
  do 2 mstep.
  rewrite (bind_eq _ _ _ _ _ (tree_search_spec s map _ m cmp ko Hwf Hm Hcmp)).
  rewrite Hfind. cbn [is_nil].
  rewrite (bind_eq _ _ _ _ _ (rd_eq Node.color _ _ _ Hn)).
  rewrite (bind_eq _ _ _ _ _ (rd_eq Node.left _ _ _ Hn)).
  rewrite (bind_eq _ _ _ _ _ (rd_eq Node.right _ _ _ Hn)).
  rewrite Hln, Hrn. rewrite is_nil_troot by done. cbn [is_nil].
  destruct (splice_successor_spec map m s c l n y r (well_formed_tree_at _ _ _ Hwf) Hm Hl)
    as (s1 & m1 & E1 & Hm1 & Hh1 & Hr1 & Hrep1 & Hn1 & Hpay1 & Hcol1 & Hcy1 & Hi1).
  rewrite (bind_eq _ _ _ _ _ E1). cbv beta iota.
  rewrite Hyred. cbn [color_eqb when].
  unfold color_eqb. rewrite bool_decide_eq_false_2 by done. cbn [when].
  erewrite bind_eq; [|reflexivity]. cbv beta.
  rewrite Hn in Hn1.
  injection Hh1 as Hcfg1 Hsz1 _ _.
  assert (Hnd2 : NoDup (inorder (plug c (Br l y r)))).
  { apply NoDup_plug. split_and!; [|intros a Ha; apply Hdis; simpl in *; set_solver|done].
    apply NoDup_inorder_Br. split_and!; try done.
    - intros Hin. apply (Hlyr y Hin). simpl. set_solver.
    - intros a Ha Har. apply (Hlyr a Ha). simpl. set_solver. }
  destruct (remove_tail_spec map s1 m1 n nn (plug c (Br l y r)) (Map.config m)
              Hm1 Hr1 Hn1 Hrep1 Hnd2)
    as (s' & m' & E & Hn' & Hm' & Hr' & Hc' & Hsz' & Hi' & Hav').
  rewrite E. exists s', m'.
  assert (Hpl : ∀ a, a ≠ n → payload <$> nodes s' !! a = payload <$> nodes s !! a).
  { intros a Ha. by rewrite Hn', lookup_delete_ne, Hpay1. }
  split_and!; try done.
  - apply (well_formed_removed s map m cmp (plug c (Br l n (Br Leaf y r))) s' m'
             (plug c (Br l y r)) n (cbefore c ++ inorder l) (y :: inorder r ++ cafter c));
      try done.
    + rewrite inorder_plug. simpl. by rewrite <- !app_assoc.
    + rewrite inorder_plug. simpl. by rewrite <- !app_assoc.
    + by rewrite Hr'.
    + by rewrite Hc'.
    + rewrite Hsz'. apply N.mod_lt. done.
    + by rewrite Hn'.
    + rewrite Hn'. destruct c as [|f c].
      * cbn [plug troot] in *. simpl. rewrite lookup_delete_ne by done.
        simpl in Hcy1. rewrite Hcy1. exact Hblack.
      * rewrite (troot_plug_cons f c (Br l y r) (Br l n (Br Leaf y r))), <- Hblack.
        apply color_of_lookup. intros a Ha.
        assert (Han : a ≠ n).
        { intros ->. apply (troot_plug_ne (f :: c) (Br l n (Br Leaf y r)) n);
            [done|done|simpl; set_solver|done]. }
        assert (Hay : a ≠ y).
        { intros ->. apply (troot_plug_ne (f :: c) (Br l n (Br Leaf y r)) y);
            [done|done|simpl; set_solver|done]. }
        by rewrite lookup_delete_ne, Hcol1.
  - by rewrite Hc'.
  - by rewrite Hsz', Hsz1.
  - by rewrite Hi'.
Qed.

Lemma size_decr_incr n : (n < SIZE_MOD)%N → size_decr (size_incr n) = n.
Proof.
  intros Hn. unfold size_decr, size_incr.
  destruct (decide (n + 1 < SIZE_MOD)%N) as [Hlt|Hge].
  - rewrite (N.mod_small (n + 1)) by done.
    replace (n + 1 + SIZE_MOD - 1)%N with (n + 1 * SIZE_MOD)%N by lia.
    rewrite N.Div0.mod_add. by apply N.mod_small.
  - assert (Heq : (n + 1 = SIZE_MOD)%N) by lia. rewrite Heq, N.Div0.mod_same.
    rewrite N.mod_small; lia.
Qed.

Lemma NoDup_split_eq {A} (l1 l2 l1' l2' : list A) x :
  NoDup (l1 ++ x :: l2) → l1 ++ x :: l2 = l1' ++ x :: l2' → l1 = l1' ∧ l2 = l2'.
Proof.
  revert l1'. induction l1 as [|a l1 IH]; intros l1' Hnd Heq.
  - destruct l1' as [|a' l1']; simpl in *.
    + by injection Heq.
    + injection Heq as -> ->. apply NoDup_cons in Hnd as [Hx _]. set_solver.
  - destruct l1' as [|a' l1']; simpl in *.
    + injection Heq as -> Heq. apply NoDup_cons in Hnd as [Hx _]. set_solver.
    + injection Heq as -> Heq. apply NoDup_cons in Hnd as [_ Hnd].
      destruct (IH l1' Hnd Heq) as [-> ->]. done.
Qed.

Lemma find_key_ext_in cmp h h' kb l :
  (∀ a, a ∈ l → key_bytes h' a = key_bytes h a) → find_key cmp h' kb l = find_key cmp h kb l.
Proof.
  intros Hext. unfold find_key. f_equal.
  induction l as [|a l IH]; [done|].
  rewrite !filter_cons, Hext, IH by set_solver. done.
Qed.

Lemma binding_payload h h' a :
  payload <$> h' !! a = payload <$> h !! a → binding h' a = binding h a.
Proof.
  unfold binding, payload. destruct (h' !! a), (h !! a); simpl; try done. by intros [= -> ->].
Qed.

(** Removing the node that an insertion has just added, wherever
    [insert_fixup] has left it. *)
Lemma remove_inserted_spec s map m cmp t n ko :
  well_formed s map t → maps s !! map = Some m →
  Config.key_compare (Map.config m) = Some cmp →
  find_key cmp (nodes s) (obj_bytes ko) (inorder t) = Some n →
  inserted_shape n (nodes s) t →
  ∃ s' m' t' l1 l2,
    ordered_map_remove (Some map) (Some ko) s = Some (ORDERED_MAP_SUCCESS, s')
    ∧ well_formed s' map t'
    ∧ inorder t = l1 ++ n :: l2
    ∧ inorder t' = l1 ++ l2
    ∧ maps s' !! map = Some m'
    ∧ Map.config m' = Map.config m
    ∧ Map.size m' = size_decr (Map.size m)
    ∧ (∀ a, a ≠ n → payload <$> nodes s' !! a = payload <$> nodes s !! a)
    ∧ iters s' = iters s
    ∧ (0 < avail s')%nat.
Proof.
  intros Hwf Hm Hcmp Hfind [[c ->]|(c & l & y & r & -> & Hl & Hy)].
  - destruct (remove_leaf_spec s map m cmp c n ko Hwf Hm Hcmp Hfind)
      as (s' & m' & E & Hwf' & Hm' & Hc' & Hsz' & Hpl & Hi' & Hav').
    exists s', m', (plug c Leaf), (cbefore c), (cafter c).
    split_and!; try done; by rewrite inorder_plug.
  - destruct (remove_inner_spec s map m cmp c l n y r ko Hwf Hm Hcmp Hfind Hl Hy)
      as (s' & m' & E & Hwf' & Hm' & Hc' & Hsz' & Hpl & Hi' & Hav').
    exists s', m', (plug c (Br l y r)), (cbefore c ++ inorder l), (y :: inorder r ++ cafter c).
    split_and!; try done; rewrite inorder_plug; simpl; by rewrite <- !app_assoc.
Qed.

(** * Soundness of the checks *)

Lemma shape_of_sound fuel h p par t :
  shape_of fuel h p par = Some t → troot t = p ∧ rep h t par.
Proof.
  revert p par t. induction fuel as [|fuel IH]; intros p par t; simpl; [done|].
  destruct p as [a|]; [|by intros [= <-]].
  destruct (h !! a) as [n|] eqn:Hn; [|done].
  destruct (decide (Node.parent n = par)) as [Hp|]; [|done].
  destruct (shape_of fuel h (Node.left n) (Some a)) as [l|] eqn:Hl; [|done].
  destruct (shape_of fuel h (Node.right n) (Some a)) as [r|] eqn:Hr; [|done].
  intros [= <-]. apply IH in Hl as [Hl1 Hl2]. apply IH in Hr as [Hr1 Hr2].
  split; [done|]. by exists n.
Qed.

Lemma check_payloads_sound cfg h t :
  check_payloads cfg h (inorder t) = true → payloads cfg h t.
Proof.
  unfold check_payloads. rewrite forallb_forall. intros H a Ha.
  specialize (H a). rewrite <- list_elem_of_In in H. specialize (H Ha).
  destruct (h !! a) as [n|]; [|done].
  destruct (Node.key n) as [ko|] eqn:Hk; [|done].
  destruct (Node.value n) as [vo|] eqn:Hv; [|done].
  exists n, ko, vo. split_and!; try done.
  intros Hsz. apply N.ltb_lt in Hsz. rewrite Hsz in H.
  by apply bool_decide_eq_true in H.
Qed.

Lemma check_ascending_sound cmp h l :
  check_ascending cmp (key_bytes h <$> l) = true → ordered cmp h l.
Proof.
  unfold ordered. induction l as [|a l IH]; simpl; [constructor|].
  intros [Hall Hrest]%andb_true_iff. constructor; [by apply IH|].
  rewrite forallb_forall in Hall. apply Forall_forall. intros b Hb.
  apply Z.ltb_lt, Hall. rewrite <- list_elem_of_In. by apply list_elem_of_fmap_2.
Qed.

Lemma check_well_formed_sound s map t :
  check_well_formed s map = Some t →
  (∀ m cmp, maps s !! map = Some m → Config.key_compare (Map.config m) = Some cmp →
            comparator_laws cmp) →
  well_formed s map t.
Proof.
  unfold check_well_formed. intros Hcheck Hlaws.
  destruct (maps s !! map) as [m|] eqn:Hm; [|done].
  destruct (Config.key_compare (Map.config m)) as [cmp|] eqn:Hcmp; [|done].
  destruct (shape_of _ _ _ _) as [t'|] eqn:Hshape; [|done].
  destruct (_ && _) eqn:Hall; [|done]. injection Hcheck as ->.
  repeat (apply andb_true_iff in Hall as [Hall ?]).
  apply shape_of_sound in Hshape as [Hroot Hrep].
  exists m, cmp. split_and!; try done.
  - by eapply Hlaws.
  - by apply N.ltb_lt.
  - by apply bool_decide_eq_true in Hall.
  - by apply check_payloads_sound.
  - by apply check_ascending_sound.
  - rewrite Hroot. unfold color_eqb in *. by apply bool_decide_eq_true in H0.
Qed.

(** [int_compare] obeys the laws. *)
Lemma int_compare_laws : comparator_laws int_compare.
Proof.
  split; unfold int_compare; intros;
    repeat match goal with
           | |- context [(?x <? ?y)] => destruct (Z.ltb_spec x y)
           | H : context [(?x <? ?y)] |- _ => destruct (Z.ltb_spec x y)
           end; lia.
Qed.


(** A computed check together with the laws of the configured comparator
    gives well-formedness. *)
Lemma well_formed_by_check s map t cfg cmp :
  check_well_formed s map = Some t →
  Map.config <$> maps s !! map = Some cfg →
  Config.key_compare cfg = Some cmp →
  comparator_laws cmp →
  well_formed s map t.
Proof.
  intros Hcheck Hcfg Hcmp Hlaws. apply check_well_formed_sound; [done|].
  intros m cmp' Hm Hcmp'. rewrite Hm in Hcfg. injection Hcfg as <-.
  rewrite Hcmp in Hcmp'. by injection Hcmp' as <-.
Qed.

Lemma demo_well_formed : well_formed demo_state 1 demo_tree.
Proof.
  apply (well_formed_by_check _ _ _ int_config int_compare).
  - vm_compute. reflexivity.
  - reflexivity.
  - reflexivity.
  - apply int_compare_laws.
Qed.

Lemma plain_well_formed : well_formed plain_state 1 plain_tree.
Proof.
  apply (well_formed_by_check _ _ _ plain_config int_compare).
  - vm_compute. reflexivity.
  - reflexivity.
  - reflexivity.
  - apply int_compare_laws.
Qed.

(** * The claims settled by running the code *)

(** C1 (the code departs from it).  After the successful operations
    insert 1, 2, 3, 4 and remove 1 on a new map the red-black invariants
    held before the removal and the root is still black and no red node has
    a red child, but the black heights no longer agree: the removal
    spliced out a black leaf, handed [NIL] to [delete_fixup], and the loop
    of [delete_fixup] does not run for [NIL]. *)
Theorem remove_black_leaf_breaks_black_height :
  run remove_black_leaf boot
  = Some ([ORDERED_MAP_SUCCESS; ORDERED_MAP_SUCCESS; ORDERED_MAP_SUCCESS; ORDERED_MAP_SUCCESS],
          true, ORDERED_MAP_SUCCESS, true, true, false, true).
Proof. vm_compute. reflexivity. Qed.

(** C2 (the code departs from it).  In copy/destroy mode, an insert on an
    existing key whose value copy fails returns out-of-memory, and the
    node still holds the old value, but the value destructor has already
    been called on that old value. *)
Theorem failed_overwrite_releases_old_value :
  let old := Some (Obj 1001 (bytes_of_int 70)) in
  run (overwrite failing_copy_config (Some (Obj 3 [1; 2; 3; 4; 5; 6; 7; 8]))) boot
  = Some (ORDERED_MAP_SUCCESS, old, [],
          ORDERED_MAP_ERROR_OUT_OF_MEMORY, old, [EvValueDestructor old], 1%N).
Proof. vm_compute. reflexivity. Qed.

(** C3 (the code departs from it).  In copy/destroy mode, a successful
    insert on an existing key calls the value destructor on the previously
    stored value twice; the stored value is replaced and the size stays
    1. *)
Theorem overwrite_destroys_old_value_twice :
  let old := Some (Obj 1001 (bytes_of_int 70)) in
  ∃ t, run (overwrite copy_config (int_at 2 71)) boot
       = Some (ORDERED_MAP_SUCCESS, old, [],
               ORDERED_MAP_SUCCESS, Some (Obj 1002 (bytes_of_int 71)), t, 1%N)
       ∧ value_destructions old t = 2%nat.
Proof.
  eexists. split.
  - vm_compute. reflexivity.
  - vm_compute. reflexivity.
Qed.



(** C9 (the code departs from it).  [ordered_map_validate] answers true
    for every map handle that is not [NULL], whatever the memory holds; in
    particular it answers true on the state reached by insert 1, 2, 3, 4
    and remove 1, whose black heights disagree (the last two components
    of [remove_black_leaf_breaks_black_height]). *)
Theorem validate_is_constant (m : positive) (s : state) :
  ordered_map_validate (Some m) s = Some (true, s).
Proof. reflexivity. Qed.

(** C10.  The read-only queries are total on a [NULL] map handle: size is
    0, empty is true, get is [NULL] and contains is false, for every key
    and from every memory, which they leave as it is. *)
Theorem queries_on_null_handle (k : void_ptr) (s : state) :
  ordered_map_size None s = Some (0%N, s)
  ∧ ordered_map_empty None s = Some (true, s)
  ∧ ordered_map_get None k s = Some (NULL, s)
  ∧ ordered_map_contains None k s = Some (false, s).
Proof. repeat split. Qed.

(** * The claims about every well-formed map *)

(** C6.  On every well-formed map where an iterator can be allocated, a
    backward cursor advanced until past-the-end yields the reverse of what
    a forward cursor yields; the forward cursor yields the bindings of the
    nodes in in-order, and their keys ascend strictly under the map's
    comparator.  Both traversals leave the memory as they found it. *)
Theorem cursor_duality (s : state) (map : positive) (t : tree) :
  well_formed s map t → (0 < avail s)%nat →
  ∃ fwd,
    traverse (Some map) ORDERED_MAP_ITER_FORWARD s = Some (Some fwd, s)
    ∧ traverse (Some map) ORDERED_MAP_ITER_BACKWARD s = Some (Some (reverse fwd), s)
    ∧ fwd = binding (nodes s) <$> inorder t
    ∧ ∃ m cmp, maps s !! map = Some m
               ∧ Config.key_compare (Map.config m) = Some cmp
               ∧ StronglySorted (λ p q, cmp (ptr_bytes p.1) (ptr_bytes q.1) < 0) fwd.
Proof.
  intros Hwf Hav.
  pose proof Hwf as (m & cmp & Hm & Hroot & Hcmp & Hlaws & Hsz & Hrep & Hnd & Hpay & Hord & Hblack).
  destruct (avail s) as [|n] eqn:Havail; [lia|].
  exists (binding (nodes s) <$> inorder t). split_and!.
  - apply (traverse_spec s map m t ORDERED_MAP_ITER_FORWARD n); done.
  - rewrite <- fmap_reverse.
    apply (traverse_spec s map m t ORDERED_MAP_ITER_BACKWARD n); done.
  - done.
  - exists m, cmp. split_and!; [done..|].
    eapply StronglySorted_fmap; [|exact Hord].
    intros a b Hab. unfold binding, key_bytes, ptr_bytes in *.
    destruct (nodes s !! a) as [na|], (nodes s !! b) as [nb|]; simpl; done.
Qed.

Lemma cursor_duality_witness :
  ∃ fwd,
    traverse (Some 1%positive) ORDERED_MAP_ITER_FORWARD demo_state = Some (Some fwd, demo_state)
    ∧ traverse (Some 1%positive) ORDERED_MAP_ITER_BACKWARD demo_state
      = Some (Some (reverse fwd), demo_state)
    ∧ fwd = binding (nodes demo_state) <$> inorder demo_tree
    ∧ ∃ m cmp, maps demo_state !! 1%positive = Some m
               ∧ Config.key_compare (Map.config m) = Some cmp
               ∧ StronglySorted (λ p q, cmp (ptr_bytes p.1) (ptr_bytes q.1) < 0) fwd.
Proof.
  apply (cursor_duality demo_state 1 demo_tree).
  - exact demo_well_formed.
  - vm_compute. lia.
Defined.

Lemma run_size s map m :
  maps s !! map = Some m → run (ordered_map_size (Some map)) s = Some (Map.size m).
Proof. intros Hm. unfold run, ordered_map_size, rdm. by rewrite Hm. Qed.

Lemma run_size_same map s s' :
  same_contents map s s' →
  run (ordered_map_size (Some map)) s' = run (ordered_map_size (Some map)) s.
Proof.
  intros (_ & _ & _ & _ & _ & m & m' & Hm & Hm' & _ & Hsz & _).
  rewrite (run_size _ _ _ Hm), (run_size _ _ _ Hm'). by rewrite Hsz.
Qed.

Lemma run_contains_same map s s' t key :
  well_formed s map t → same_contents map s s' →
  run (ordered_map_contains (Some map) key) s' = run (ordered_map_contains (Some map) key) s.
Proof.
  intros Hwf Hsame. destruct key as [ko|]; [|done].
  pose proof (well_formed_same_contents _ _ _ _ Hwf Hsame) as Hwf'.
  pose proof Hsame as (Hn & _ & _ & _ & _ & m & m' & Hm & Hm' & _ & _ & Hc).
  pose proof Hwf as (m0 & cmp & Hm0 & _ & Hcmp & _). rewrite Hm in Hm0. injection Hm0 as <-.
  destruct (contains_spec s map t m cmp ko Hwf Hm Hcmp) as (s1 & H1 & _).
  assert (Hcmp' : Config.key_compare (Map.config m') = Some cmp) by by rewrite Hc.
  destruct (contains_spec s' map t m' cmp ko Hwf' Hm' Hcmp') as (s1' & H1' & _).
  unfold run. by rewrite H1, H1', Hn.
Qed.

(** C8.  On every well-formed map, [ordered_map_get_or_default] returns
    the value pointer stored with the key when some node holds an equal
    key, and the caller's default pointer itself when none does (or the
    key is [NULL]); nothing is inserted: nodes, root, size and
    configuration are as before, and so are the answers of size and of
    contains for that key. *)
Theorem get_or_default_spec (s : state) (map : positive) (t : tree) (m : Map.t)
    (cmp : list Z → list Z → Z) (key default_value : void_ptr) :
  well_formed s map t → maps s !! map = Some m →
  Config.key_compare (Map.config m) = Some cmp →
  ∃ r s',
    ordered_map_get_or_default (Some map) key default_value s = Some (r, s')
    ∧ (∀ ko a, key = Some ko → a ∈ inorder t →
               cmp (obj_bytes ko) (key_bytes (nodes s) a) = 0 →
               r = (binding (nodes s) a).2 ∧ r ≠ NULL)
    ∧ ((∀ ko a, key = Some ko → a ∈ inorder t →
                cmp (obj_bytes ko) (key_bytes (nodes s) a) ≠ 0) →
       r = default_value)
    ∧ same_contents map s s'
    ∧ run (ordered_map_size (Some map)) s' = run (ordered_map_size (Some map)) s
    ∧ run (ordered_map_contains (Some map) key) s'
      = run (ordered_map_contains (Some map) key) s.
Proof.
  intros Hwf Hm Hcmp.
  pose proof (well_formed_inv _ _ _ _ _ Hwf Hm Hcmp)
    as (Hroot & Hlaws & Hsz & Hrep & Hnd & Hpay & Hord & Hblack).
  unfold ordered_map_get_or_default.
  destruct key as [ko|].
  - destruct (get_spec s map t m cmp ko Hwf Hm Hcmp) as (s' & Hget & Hsame).
    rewrite (bind_eq _ _ _ _ _ Hget).
    destruct (find_key cmp (nodes s) (obj_bytes ko) (inorder t)) as [a0|] eqn:Hfind.
    + pose proof (find_key_Some cmp Hlaws _ _ _ _ Hfind) as [Ha0 Hmatch0].
      destruct (Hpay a0 Ha0) as (n0 & k0 & v0 & Hn0 & Hk0 & Hv0 & _).
      assert (Hval : (binding (nodes s) a0).2 = Some v0) by (unfold binding; by rewrite Hn0).
      rewrite Hval. cbn [is_null negb].
      exists (Some v0), s'. split_and!; try done.
      * intros ko' a [= <-] Ha Hmatch.
        pose proof (find_key_unique cmp Hlaws _ _ _ _ Hord Ha Hmatch) as Hfind'.
        rewrite Hfind in Hfind'. injection Hfind' as ->. by rewrite Hval.
      * intros Habsent. by destruct (Habsent ko a0 eq_refl Ha0).
      * by apply run_size_same.
      * by eapply run_contains_same.
    + cbn [is_null negb].
      exists default_value, s'. split_and!; try done.
      * intros ko' a [= <-] Ha Hmatch.
        by destruct (find_key_None cmp Hlaws _ _ _ _ Hfind Ha).
      * by apply run_size_same.
      * by eapply run_contains_same.
  - exists default_value, s. split_and!; try done.
    by eapply same_contents_refl.
Qed.

Lemma get_or_default_spec_witness :
  ∃ r s',
    ordered_map_get_or_default (Some 1%positive) (int_at 1 99) (int_at 3 999) demo_state
    = Some (r, s')
    ∧ (∀ ko a, int_at 1 99 = Some ko → a ∈ inorder demo_tree →
               int_compare (obj_bytes ko) (key_bytes (nodes demo_state) a) = 0 →
               r = (binding (nodes demo_state) a).2 ∧ r ≠ NULL)
    ∧ ((∀ ko a, int_at 1 99 = Some ko → a ∈ inorder demo_tree →
                int_compare (obj_bytes ko) (key_bytes (nodes demo_state) a) ≠ 0) →
       r = int_at 3 999)
    ∧ same_contents 1 demo_state s'
    ∧ run (ordered_map_size (Some 1%positive)) s' = run (ordered_map_size (Some 1%positive)) demo_state
    ∧ run (ordered_map_contains (Some 1%positive) (int_at 1 99)) s'
      = run (ordered_map_contains (Some 1%positive) (int_at 1 99)) demo_state.
Proof.
  destruct (maps demo_state !! 1%positive) as [m|] eqn:Hm.
  - apply (get_or_default_spec demo_state 1 demo_tree m int_compare).
    + exact demo_well_formed.
    + exact Hm.
    + assert (Hcfg : Map.config <$> maps demo_state !! 1%positive = Some int_config)
        by reflexivity.
      rewrite Hm in Hcfg. by injection Hcfg as ->.
  - exfalso. assert (Hcfg : Map.config <$> maps demo_state !! 1%positive = Some int_config)
      by reflexivity.
    by rewrite Hm in Hcfg.
Defined.

(** C7.  On every well-formed map, for a key that [contains] does not
    find, a key and a value that can be read, and a key whose stored form
    the comparator finds equal to it: insert of the key returns, and when
    it returns success, remove of the same key returns success too, after
    which the size is what it was before the insert, [contains] answers
    for every key what it answered before, and a forward traversal yields
    the same sequence of key and value pointers as before. *)
Theorem insert_remove_inverse (s : state) (map : positive) (t : tree) (m : Map.t)
    (cmp : list Z → list Z → Z) (ko vo : object) :
  well_formed s map t → maps s !! map = Some m →
  Config.key_compare (Map.config m) = Some cmp →
  run (ordered_map_contains (Some map) (Some ko)) s = Some false →
  readable (Config.key_size (Map.config m)) ko →
  readable (Config.value_size (Map.config m)) vo →
  (∀ kb, stored_bytes (Config.key_size (Map.config m)) (Config.key_copy (Map.config m))
           (obj_bytes ko) = Some kb → cmp (obj_bytes ko) kb = 0) →
  ∃ e1 s1,
    ordered_map_insert (Some map) (Some ko) (Some vo) s = Some (e1, s1)
    ∧ (e1 = ORDERED_MAP_SUCCESS →
       ∃ s2 fwd,
         ordered_map_remove (Some map) (Some ko) s1 = Some (ORDERED_MAP_SUCCESS, s2)
         ∧ run (ordered_map_size (Some map)) s2 = run (ordered_map_size (Some map)) s
         ∧ (∀ key, run (ordered_map_contains (Some map) key) s2
                   = run (ordered_map_contains (Some map) key) s)
         ∧ run (traverse (Some map) ORDERED_MAP_ITER_FORWARD) s = Some (Some fwd)
         ∧ run (traverse (Some map) ORDERED_MAP_ITER_FORWARD) s2 = Some (Some fwd)).
Proof.
  intros Hwf Hm Hcmp Habsent Hrk Hrv Hfaith.
  destruct (well_formed_inv _ _ _ _ _ Hwf Hm Hcmp)
    as (Hroot & Hlaws & Hsz & Hrep & Hnd & Hpay & Hord & Hblack).
  assert (Hfind : find_key cmp (nodes s) (obj_bytes ko) (inorder t) = NIL).
  { destruct (contains_spec s map t m cmp ko Hwf Hm Hcmp) as (s0 & E0 & _).
    unfold run in Habsent. rewrite E0 in Habsent. simpl in Habsent.
    by destruct (find_key _ _ _ _). }
  destruct (insert_new_spec s map t m cmp ko vo Hwf Hm Hcmp Hfind Hrk Hrv Hfaith)
    as (e1 & s1 & E1 & Hok).
  exists e1, s1. split; [done|]. intros He.
  destruct (Hok He) as (n & gk & gv & c & t1 & m1 & Hfresh & Ht & Hin1 & Hwf1 & Hsh1 & Hpn & Hsk
                        & _ & Hpl1 & Hm1 & Hc1 & Hsz1 & Hi1 & Hav).
  assert (Hcmp1 : Config.key_compare (Map.config m1) = Some cmp) by (by rewrite Hc1).
  destruct (well_formed_inv _ _ _ _ _ Hwf1 Hm1 Hcmp1)
    as (_ & _ & _ & _ & Hnd1 & _ & Hord1 & _).
  rewrite inorder_plug in Hin1. simpl in Hin1.
  assert (Hfind1 : find_key cmp (nodes s1) (obj_bytes ko) (inorder t1) = Some n).
  { apply (find_key_unique cmp Hlaws); [done|rewrite Hin1; set_solver|].
    destruct (nodes s1 !! n) as [nd|] eqn:Hn1; [|done]. injection Hpn as Hk _.
    rewrite (key_bytes_eq _ _ _ _ Hn1 Hk). by apply Hfaith. }
  destruct (remove_inserted_spec s1 map m1 cmp t1 n ko Hwf1 Hm1 Hcmp1 Hfind1 Hsh1)
    as (s2 & m2 & t2 & l1 & l2 & E2 & Hwf2 & Hsplit & Hin2 & Hm2 & Hc2 & Hsz2 & Hpl2 & Hi2 & Hav2).
  assert (Hin2' : inorder t2 = inorder t).
  { rewrite Hin1 in Hsplit. rewrite Hin1 in Hnd1.
    destruct (NoDup_split_eq _ _ _ _ _ Hnd1 Hsplit) as [<- <-].
    by rewrite Hin2, Ht, inorder_plug. }
  assert (Hold : ∀ a, a ∈ inorder t → a ≠ n).
  { intros a Ha ->. destruct (rep_lookup _ _ _ _ Hrep Ha) as [x Hx]. congruence. }
  assert (Hpl : ∀ a, a ∈ inorder t → payload <$> nodes s2 !! a = payload <$> nodes s !! a).
  { intros a Ha. rewrite Hpl2, Hpl1; auto. }
  assert (Hcmp2 : Config.key_compare (Map.config m2) = Some cmp) by (by rewrite Hc2).
  destruct (well_formed_inv _ _ _ _ _ Hwf2 Hm2 Hcmp2)
    as (Hroot2 & _ & _ & Hrep2 & Hnd2 & _ & _ & _).
  exists s2, (binding (nodes s) <$> inorder t). split_and!.
  - done.
  - rewrite (run_size _ _ _ Hm2), (run_size _ _ _ Hm), Hsz2, Hsz1.
    by rewrite size_decr_incr.
  - intros [ko'|]; [|done].
    destruct (contains_spec s map t m cmp ko' Hwf Hm Hcmp) as (s0 & E0 & _).
    destruct (contains_spec s2 map t2 m2 cmp ko' Hwf2 Hm2 Hcmp2) as (s0' & E0' & _).
    unfold run. rewrite E0, E0'. simpl. do 3 f_equal.
    rewrite Hin2'. apply find_key_ext_in. intros a Ha. by apply key_bytes_payload, Hpl.
  - destruct (avail s) as [|k] eqn:Hk; [lia|].
    unfold run.
    by rewrite (traverse_spec s map m t ORDERED_MAP_ITER_FORWARD k Hm Hroot Hrep Hnd Hk).
  - destruct (avail s2) as [|k] eqn:Hk; [lia|].
    unfold run.
    rewrite (traverse_spec s2 map m2 t2 ORDERED_MAP_ITER_FORWARD k Hm2 Hroot2 Hrep2 Hnd2 Hk).
    simpl. rewrite Hin2'. do 2 f_equal.
    apply list_fmap_ext. intros i a Ha. apply binding_payload, Hpl.
    by eapply list_elem_of_lookup_2.
Qed.

Lemma insert_remove_inverse_witness :
  ∃ e1 s1,
    ordered_map_insert (Some 1%positive) (int_at 1 99) (int_at 2 55) demo_state = Some (e1, s1)
    ∧ (e1 = ORDERED_MAP_SUCCESS →
       ∃ s2 fwd,
         ordered_map_remove (Some 1%positive) (int_at 1 99) s1 = Some (ORDERED_MAP_SUCCESS, s2)
         ∧ run (ordered_map_size (Some 1%positive)) s2
           = run (ordered_map_size (Some 1%positive)) demo_state
         ∧ (∀ key, run (ordered_map_contains (Some 1%positive) key) s2
                   = run (ordered_map_contains (Some 1%positive) key) demo_state)
         ∧ run (traverse (Some 1%positive) ORDERED_MAP_ITER_FORWARD) demo_state = Some (Some fwd)
         ∧ run (traverse (Some 1%positive) ORDERED_MAP_ITER_FORWARD) s2 = Some (Some fwd)).
Proof.
  assert (Hcfg : Map.config <$> maps demo_state !! 1%positive = Some int_config) by reflexivity.
  destruct (maps demo_state !! 1%positive) as [m|] eqn:Hm; [|done].
  injection Hcfg as Hcfg.
  apply (insert_remove_inverse demo_state 1 demo_tree m int_compare
           (Obj 1 (bytes_of_int 99)) (Obj 2 (bytes_of_int 55))).
  - exact demo_well_formed.
  - exact Hm.
  - by rewrite Hcfg.
  - vm_compute. reflexivity.
  - rewrite Hcfg. intros _. simpl. lia.
  - rewrite Hcfg. intros _. simpl. lia.
  - rewrite Hcfg. intros kb Hkb. vm_compute in Hkb. injection Hkb as <-. reflexivity.
Defined.

(** On the map of the examples the insertion of a new key does succeed, so
    the laws above speak about a real run. *)
Example insert_new_key_succeeds :
  run (ordered_map_insert (Some 1%positive) (int_at 1 99) (int_at 2 55)) demo_state
  = Some ORDERED_MAP_SUCCESS.
Proof. vm_compute. reflexivity. Qed.

(** * Further properties of the queries *)

Lemma tree_minimum_spec s t :
  rep (nodes s) t NIL → NoDup (inorder t) → t ≠ Leaf →
  tree_minimum (troot t) s = Some (head (inorder t), s).
Proof.
  intros Hrep Hnd Hne. unfold tree_minimum. rewrite get_fuel_eq.
  apply (tree_minimum_loop_spec s t NIL); [done|done|].
  pose proof (rep_height_lt_fuel _ _ _ Hrep Hnd). lia.
Qed.

Lemma tree_maximum_spec s t :
  rep (nodes s) t NIL → NoDup (inorder t) → t ≠ Leaf →
  tree_maximum (troot t) s = Some (last (inorder t), s).
Proof.
  intros Hrep Hnd Hne. unfold tree_maximum. rewrite get_fuel_eq.
  apply (tree_maximum_loop_spec s t NIL); [done|done|].
  pose proof (rep_height_lt_fuel _ _ _ Hrep Hnd). lia.
Qed.

Lemma list_head_fmap {A B} (f : A → B) (l : list A) : head (f <$> l) = f <$> head l.
Proof. by destruct l. Qed.

Lemma rd_binding_key s a :
  is_Some (nodes s !! a) → rd Node.key (Some a) s = Some ((binding (nodes s) a).1, s).
Proof. intros [n Hn]. unfold binding. rewrite Hn. simpl. by apply rd_eq. Qed.

Lemma rd_binding_value s a :
  is_Some (nodes s !! a) → rd Node.value (Some a) s = Some ((binding (nodes s) a).2, s).
Proof. intros [n Hn]. unfold binding. rewrite Hn. simpl. by apply rd_eq. Qed.

Lemma ordered_head_le cmp h l a b :
  comparator_laws cmp → ordered cmp h l → head l = Some a → b ∈ l →
  cmp (key_bytes h a) (key_bytes h b) ≤ 0.
Proof.
  intros Hlaws Hord Hhd Hb. destruct l as [|x l]; [done|]. injection Hhd as ->.
  apply StronglySorted_cons in Hord as [Hall _]. rewrite Forall_forall in Hall.
  apply elem_of_cons in Hb as [->|Hb].
  - rewrite (cmp_refl cmp Hlaws). lia.
  - specialize (Hall b Hb). simpl in Hall. lia.
Qed.

Lemma ordered_le_last cmp h l a b :
  comparator_laws cmp → ordered cmp h l → last l = Some a → b ∈ l →
  cmp (key_bytes h b) (key_bytes h a) ≤ 0.
Proof.
  intros Hlaws Hord Hlast Hb.
  destruct (decide (l = [])) as [->|Hne]; [done|].
  destruct (exists_last Hne) as (l' & x & ->).
  rewrite last_snoc in Hlast. injection Hlast as ->.
  apply StronglySorted_app in Hord as (Hlt & _ & _).
  apply elem_of_app in Hb as [Hb|Hb].
  - specialize (Hlt b a Hb ltac:(set_solver)). simpl in Hlt. lia.
  - apply list_elem_of_singleton in Hb as ->. rewrite (cmp_refl cmp Hlaws). lia.
Qed.

(** X1.  On every well-formed map [ordered_map_min_key] and
    [ordered_map_min_value] return the key and the value pointer of the
    first binding of the in-order sequence, [ordered_map_max_key] and
    [ordered_map_max_value] those of the last, and all four return [NULL]
    on an empty map; they leave the memory as it is.  Under the map's
    comparator the minimum key is not above, and the maximum key not
    below, any key of the map. *)
Theorem min_max_are_the_ends (s : state) (map : positive) (t : tree) (m : Map.t)
    (cmp : list Z → list Z → Z) :
  well_formed s map t → maps s !! map = Some m →
  Config.key_compare (Map.config m) = Some cmp →
  let seq := binding (nodes s) <$> inorder t in
  ordered_map_min_key (Some map) s = Some (default NULL (fst <$> head seq), s)
  ∧ ordered_map_min_value (Some map) s = Some (default NULL (snd <$> head seq), s)
  ∧ ordered_map_max_key (Some map) s = Some (default NULL (fst <$> last seq), s)
  ∧ ordered_map_max_value (Some map) s = Some (default NULL (snd <$> last seq), s)
  ∧ (∀ p q, head seq = Some p → q ∈ seq → cmp (ptr_bytes p.1) (ptr_bytes q.1) ≤ 0)
  ∧ (∀ p q, last seq = Some p → q ∈ seq → cmp (ptr_bytes q.1) (ptr_bytes p.1) ≤ 0).
Proof.
  intros Hwf Hm Hcmp seq.
  destruct (well_formed_inv _ _ _ _ _ Hwf Hm Hcmp)
    as (Hroot & Hlaws & Hsz & Hrep & Hnd & Hpay & Hord & Hblack).
  assert (Hkb : ∀ a, ptr_bytes (binding (nodes s) a).1 = key_bytes (nodes s) a).
  { intros a. unfold binding, key_bytes. by destruct (nodes s !! a). }
  unfold ordered_map_min_key, ordered_map_min_value, ordered_map_max_key, ordered_map_max_value.
  rewrite !(bind_eq _ _ _ _ _ (rdm_eq Map.root _ _ _ Hm)), Hroot.
  subst seq. rewrite list_head_fmap, fmap_last.
  split_and!.
  - destruct (decide (t = Leaf)) as [->|Hne]; [done|]. rewrite is_nil_troot by done.
    rewrite (bind_eq _ _ _ _ _ (tree_minimum_spec s t Hrep Hnd Hne)).
    destruct (head (inorder t)) as [a|] eqn:Hhd.
    + apply rd_binding_key. eapply rep_lookup; [done|]. by apply head_Some_elem_of.
    + apply head_None in Hhd. by apply inorder_nonempty in Hne.
  - destruct (decide (t = Leaf)) as [->|Hne]; [done|]. rewrite is_nil_troot by done.
    rewrite (bind_eq _ _ _ _ _ (tree_minimum_spec s t Hrep Hnd Hne)).
    destruct (head (inorder t)) as [a|] eqn:Hhd.
    + apply rd_binding_value. eapply rep_lookup; [done|]. by apply head_Some_elem_of.
    + apply head_None in Hhd. by apply inorder_nonempty in Hne.
  - destruct (decide (t = Leaf)) as [->|Hne]; [done|]. rewrite is_nil_troot by done.
    rewrite (bind_eq _ _ _ _ _ (tree_maximum_spec s t Hrep Hnd Hne)).
    destruct (last (inorder t)) as [a|] eqn:Hla.
    + apply rd_binding_key. eapply rep_lookup; [done|]. by apply last_Some_elem_of.
    + apply last_None in Hla. by apply inorder_nonempty in Hne.
  - destruct (decide (t = Leaf)) as [->|Hne]; [done|]. rewrite is_nil_troot by done.
    rewrite (bind_eq _ _ _ _ _ (tree_maximum_spec s t Hrep Hnd Hne)).
    destruct (last (inorder t)) as [a|] eqn:Hla.
    + apply rd_binding_value. eapply rep_lookup; [done|]. by apply last_Some_elem_of.
    + apply last_None in Hla. by apply inorder_nonempty in Hne.
  - intros p q Hp Hq. destruct (head (inorder t)) as [a|] eqn:Hhd; [|done].
    injection Hp as <-. apply list_elem_of_fmap in Hq as (b & -> & Hb).
    rewrite !Hkb. by eapply ordered_head_le.
  - intros p q Hp Hq. destruct (last (inorder t)) as [a|] eqn:Hla; [|done].
    injection Hp as <-. apply list_elem_of_fmap in Hq as (b & -> & Hb).
    rewrite !Hkb. by eapply ordered_le_last.
Qed.

Lemma demo_map : ∃ m, maps demo_state !! 1%positive = Some m ∧ Map.config m = int_config.
Proof.
  assert (Hcfg : Map.config <$> maps demo_state !! 1%positive = Some int_config) by reflexivity.
  destruct (maps demo_state !! 1%positive) as [m|]; [|done].
  injection Hcfg as Hcfg. by exists m.
Qed.

Lemma min_max_are_the_ends_witness :
  ordered_map_min_key (Some 1%positive) demo_state
  = Some (default NULL (fst <$> head (binding (nodes demo_state) <$> inorder demo_tree)),
          demo_state).
Proof.
  destruct demo_map as (m & Hm & Hcfg).
  assert (Hcmp : Config.key_compare (Map.config m) = Some int_compare) by (by rewrite Hcfg).
  exact (proj1 (min_max_are_the_ends demo_state 1 demo_tree m int_compare
                  demo_well_formed Hm Hcmp)).
Defined.

(** X2.  On every well-formed map [ordered_map_contains] answers true for
    a key exactly when [ordered_map_get] returns a pointer other than
    [NULL] for it: a [NULL] from get always means that the key is
    absent. *)
Theorem contains_iff_get_not_null (s : state) (map : positive) (t : tree) (m : Map.t)
    (cmp : list Z → list Z → Z) (ko : object) :
  well_formed s map t → maps s !! map = Some m →
  Config.key_compare (Map.config m) = Some cmp →
  ∃ r b, run (ordered_map_get (Some map) (Some ko)) s = Some r
         ∧ run (ordered_map_contains (Some map) (Some ko)) s = Some b
         ∧ b = negb (is_null r).
Proof.
  intros Hwf Hm Hcmp.
  destruct (well_formed_inv _ _ _ _ _ Hwf Hm Hcmp)
    as (Hroot & Hlaws & Hsz & Hrep & Hnd & Hpay & Hord & Hblack).
  destruct (get_spec s map t m cmp ko Hwf Hm Hcmp) as (s1 & E1 & _).
  destruct (contains_spec s map t m cmp ko Hwf Hm Hcmp) as (s2 & E2 & _).
  unfold run. rewrite E1, E2. eexists _, _. split_and!; [done..|].
  destruct (find_key cmp (nodes s) (obj_bytes ko) (inorder t)) as [a|] eqn:Hfind; [|done].
  apply (find_key_Some cmp Hlaws) in Hfind as [Ha _].
  destruct (Hpay a Ha) as (n & ka & va & Hn & _ & Hva & _).
  unfold binding. by rewrite Hn, Hva.
Qed.

Lemma contains_iff_get_not_null_witness :
  ∃ r b, run (ordered_map_get (Some 1%positive) (int_at 1 7)) demo_state = Some r
         ∧ run (ordered_map_contains (Some 1%positive) (int_at 1 7)) demo_state = Some b
         ∧ b = negb (is_null r).
Proof.
  destruct demo_map as (m & Hm & Hcfg).
  assert (Hcmp : Config.key_compare (Map.config m) = Some int_compare) by (by rewrite Hcfg).
  exact (contains_iff_get_not_null demo_state 1 demo_tree m int_compare
           (Obj 1 (bytes_of_int 7)) demo_well_formed Hm Hcmp).
Defined.

(** X3.  On every well-formed map [ordered_map_remove] of a key that
    [ordered_map_contains] does not find returns key-not-found and leaves
    the whole memory, statistics included, exactly as it was. *)
Theorem remove_absent_changes_nothing (s : state) (map : positive) (t : tree) (m : Map.t)
    (cmp : list Z → list Z → Z) (ko : object) :
  well_formed s map t → maps s !! map = Some m →
  Config.key_compare (Map.config m) = Some cmp →
  run (ordered_map_contains (Some map) (Some ko)) s = Some false →
  ordered_map_remove (Some map) (Some ko) s = Some (ORDERED_MAP_ERROR_KEY_NOT_FOUND, s).
Proof.
  intros Hwf Hm Hcmp Habsent.
  destruct (contains_spec s map t m cmp ko Hwf Hm Hcmp) as (s0 & E0 & _).
  unfold run in Habsent. rewrite E0 in Habsent. simpl in Habsent.
  unfold ordered_map_remove. cbn [is_null].
  rewrite (bind_eq _ _ _ _ _ (rdm_eq Map.config _ _ _ Hm)).
  rewrite (bind_eq _ _ _ _ _ (rdm_eq Map.root _ _ _ Hm)).
  rewrite (bind_eq _ _ _ _ _ (tree_search_spec s map t m cmp ko Hwf Hm Hcmp)).
  by destruct (find_key cmp (nodes s) (obj_bytes ko) (inorder t)).
Qed.

Lemma remove_absent_changes_nothing_witness :
  ordered_map_remove (Some 1%positive) (int_at 1 99) demo_state
  = Some (ORDERED_MAP_ERROR_KEY_NOT_FOUND, demo_state).
Proof.
  destruct demo_map as (m & Hm & Hcfg).
  assert (Hcmp : Config.key_compare (Map.config m) = Some int_compare) by (by rewrite Hcfg).
  apply (remove_absent_changes_nothing demo_state 1 demo_tree m int_compare
           (Obj 1 (bytes_of_int 99)) demo_well_formed Hm Hcmp).
  vm_compute. reflexivity.
Defined.

(** X4.  On every well-formed map [ordered_map_put_if_absent] with a key
    that is present returns success and overwrites nothing: nodes, root,
    size, configuration and the trace of releases are as before, so no
    destructor ran; with a key that is absent it is [ordered_map_insert]
    run on a memory with the same contents. *)
Theorem put_if_absent_keeps_present (s : state) (map : positive) (t : tree) (m : Map.t)
    (cmp : list Z → list Z → Z) (ko : object) (value : void_ptr) :
  well_formed s map t → maps s !! map = Some m →
  Config.key_compare (Map.config m) = Some cmp →
  ∃ s0, same_contents map s s0
        ∧ (run (ordered_map_contains (Some map) (Some ko)) s = Some true →
           ordered_map_put_if_absent (Some map) (Some ko) value s
           = Some (ORDERED_MAP_SUCCESS, s0))
        ∧ (run (ordered_map_contains (Some map) (Some ko)) s = Some false →
           ordered_map_put_if_absent (Some map) (Some ko) value s
           = ordered_map_insert (Some map) (Some ko) value s0).
Proof.
  intros Hwf Hm Hcmp.
  destruct (contains_spec s map t m cmp ko Hwf Hm Hcmp) as (s0 & E0 & Hsame).
  exists s0. split; [done|].
  unfold run, ordered_map_put_if_absent. rewrite E0, (bind_eq _ _ _ _ _ E0). simpl.
  split; by intros [= ->].
Qed.

Lemma put_if_absent_keeps_present_witness :
  ∃ s0, same_contents 1 demo_state s0
        ∧ (run (ordered_map_contains (Some 1%positive) (int_at 1 7)) demo_state = Some true →
           ordered_map_put_if_absent (Some 1%positive) (int_at 1 7) (int_at 2 77) demo_state
           = Some (ORDERED_MAP_SUCCESS, s0))
        ∧ (run (ordered_map_contains (Some 1%positive) (int_at 1 7)) demo_state = Some false →
           ordered_map_put_if_absent (Some 1%positive) (int_at 1 7) (int_at 2 77) demo_state
           = ordered_map_insert (Some 1%positive) (int_at 1 7) (int_at 2 77) s0).
Proof.
  destruct demo_map as (m & Hm & Hcfg).
  assert (Hcmp : Config.key_compare (Map.config m) = Some int_compare) by (by rewrite Hcfg).
  exact (put_if_absent_keeps_present demo_state 1 demo_tree m int_compare
           (Obj 1 (bytes_of_int 7)) (int_at 2 77) demo_well_formed Hm Hcmp).
Defined.

(** X5.  On every well-formed map [ordered_map_replace_if_present] with a
    key that is absent returns success and adds nothing: nodes, root, size
    and configuration are as before; with a key that is present it is
    [ordered_map_insert] run on a memory with the same contents. *)
Theorem replace_if_present_skips_absent (s : state) (map : positive) (t : tree) (m : Map.t)
    (cmp : list Z → list Z → Z) (ko : object) (value : void_ptr) :
  well_formed s map t → maps s !! map = Some m →
  Config.key_compare (Map.config m) = Some cmp →
  ∃ s0, same_contents map s s0
        ∧ (run (ordered_map_contains (Some map) (Some ko)) s = Some false →
           ordered_map_replace_if_present (Some map) (Some ko) value s
           = Some (ORDERED_MAP_SUCCESS, s0))
        ∧ (run (ordered_map_contains (Some map) (Some ko)) s = Some true →
           ordered_map_replace_if_present (Some map) (Some ko) value s
           = ordered_map_insert (Some map) (Some ko) value s0).
Proof.
  intros Hwf Hm Hcmp.
  destruct (contains_spec s map t m cmp ko Hwf Hm Hcmp) as (s0 & E0 & Hsame).
  exists s0. split; [done|].
  unfold run, ordered_map_replace_if_present. rewrite E0, (bind_eq _ _ _ _ _ E0). simpl.
  split; by intros [= ->].
Qed.

Lemma replace_if_present_skips_absent_witness :
  ∃ s0, same_contents 1 demo_state s0
        ∧ (run (ordered_map_contains (Some 1%positive) (int_at 1 99)) demo_state = Some false →
           ordered_map_replace_if_present (Some 1%positive) (int_at 1 99) (int_at 2 77) demo_state
           = Some (ORDERED_MAP_SUCCESS, s0))
        ∧ (run (ordered_map_contains (Some 1%positive) (int_at 1 99)) demo_state = Some true →
           ordered_map_replace_if_present (Some 1%positive) (int_at 1 99) (int_at 2 77) demo_state
           = ordered_map_insert (Some 1%positive) (int_at 1 99) (int_at 2 77) s0).
Proof.
  destruct demo_map as (m & Hm & Hcfg).
  assert (Hcmp : Config.key_compare (Map.config m) = Some int_compare) by (by rewrite Hcfg).
  exact (replace_if_present_skips_absent demo_state 1 demo_tree m int_compare
           (Obj 1 (bytes_of_int 99)) (int_at 2 77) demo_well_formed Hm Hcmp).
Defined.

(** * Creation, clearing and destruction *)

Lemma release_step size d (p : void_ptr) (ev : void_ptr → event) s :
  ∃ s', (if (0 <? size)%N then free_bytes p else when d (log (ev p))) s = Some (tt, s')
        ∧ nodes s' = nodes s ∧ maps s' = maps s ∧ iters s' = iters s ∧ brk s' = brk s
        ∧ trace s' = trace s ++ (if (0 <? size)%N then (if p is Some _ then [EvFree p] else [])
                                 else if d then [ev p] else [])
        ∧ avail s' = (avail s + (if (0 <? size)%N then (if p is Some _ then 1 else 0) else 0))%nat.
Proof.
  destruct (0 <? size)%N.
  - destruct p; eexists; (split; [reflexivity|]); simpl;
      rewrite ?app_nil_r; split_and!; try done; lia.
  - destruct d; eexists; (split; [reflexivity|]); simpl;
      rewrite ?app_nil_r; split_and!; try done; lia.
Qed.

Lemma count_free_key cfg p :
  length (filter is_free (key_release cfg p))
  = if (0 <? Config.key_size cfg)%N then (if p is Some _ then 1%nat else 0%nat) else 0%nat.
Proof.
  unfold key_release. destruct (0 <? _)%N; [by destruct p|]. by destruct (Config.key_destructor cfg).
Qed.

Lemma count_free_value cfg p :
  length (filter is_free (value_release cfg p))
  = if (0 <? Config.value_size cfg)%N then (if p is Some _ then 1%nat else 0%nat) else 0%nat.
Proof.
  unfold value_release. destruct (0 <? _)%N; [by destruct p|].
  by destruct (Config.value_destructor cfg).
Qed.

(** [destroy_node] with its effect on the trace and on the allocator. *)
Lemma destroy_node_releases z nz cfg s :
  nodes s !! z = Some nz →
  ∃ s', destroy_node (Some z) cfg s = Some (tt, s')
        ∧ nodes s' = delete z (nodes s)
        ∧ maps s' = maps s ∧ iters s' = iters s ∧ brk s' = brk s
        ∧ trace s' = trace s ++ node_release cfg (binding (nodes s) z)
        ∧ avail s' = (avail s + 1
                      + length (filter is_free (node_release cfg (binding (nodes s) z))))%nat.
Proof.
  intros Hz. unfold destroy_node. cbn [is_nil].
  rewrite (bind_eq _ _ _ _ _ (rd_eq Node.key _ _ _ Hz)).
  destruct (release_step (Config.key_size cfg) (Config.key_destructor cfg) (Node.key nz)
              EvKeyDestructor s) as (s1 & E1 & Hn1 & Hm1 & Hi1 & Hb1 & Ht1 & Ha1).
  rewrite (bind_eq _ _ _ _ _ E1).
  assert (Hz1 : nodes s1 !! z = Some nz) by (by rewrite Hn1).
  rewrite (bind_eq _ _ _ _ _ (rd_eq Node.value _ _ _ Hz1)).
  destruct (release_step (Config.value_size cfg) (Config.value_destructor cfg) (Node.value nz)
              EvValueDestructor s1) as (s2 & E2 & Hn2 & Hm2 & Hi2 & Hb2 & Ht2 & Ha2).
  rewrite (bind_eq _ _ _ _ _ E2).
  unfold free_node. rewrite Hn2, Hz1.
  eexists. split; [done|]. simpl.
  unfold node_release, binding. rewrite Hz. simpl.
  rewrite filter_app, length_app, count_free_key, count_free_value.
  split_and!; try congruence.
  - rewrite Ht2, Ht1, <- app_assoc. done.
  - lia.
Qed.

Lemma list_bind_ext_in {A B} (f g : A → list B) (l : list A) :
  (∀ a, a ∈ l → f a = g a) → l ≫= f = l ≫= g.
Proof.
  induction l as [|a l IH]; intros Hext; [done|].
  rewrite !bind_cons, Hext, IH; [done| |]; set_solver.
Qed.

(** [destroy_tree] frees every node of the tree and releases the key and
    the value of each exactly once. *)
Lemma destroy_tree_rec_spec cfg t :
  ∀ par fuel s,
  rep (nodes s) t par → NoDup (inorder t) → (height t < fuel)%nat →
  ∃ s' evs,
    destroy_tree_rec fuel (troot t) cfg s = Some (tt, s')
    ∧ (∀ b, nodes s' !! b = if decide (b ∈ inorder t) then None else nodes s !! b)
    ∧ maps s' = maps s ∧ iters s' = iters s ∧ brk s' = brk s
    ∧ trace s' = trace s ++ evs
    ∧ evs ≡ₚ inorder t ≫= (λ a, node_release cfg (binding (nodes s) a))
    ∧ avail s' = (avail s + length (inorder t) + length (filter is_free evs))%nat.
Proof.
  induction t as [|l IHl a r IHr]; intros par fuel s Hrep Hnd Hfuel;
    (destruct fuel as [|fuel]; [lia|]); simpl in Hfuel; cbn [destroy_tree_rec troot is_nil].
  - exists s, []. simpl. rewrite app_nil_r. split_and!; try done. lia.
  - destruct Hrep as (n & Hn & _ & Hl & Hr & Hrl & Hrr).
    apply NoDup_inorder_Br in Hnd as (Hndl & Hndr & Hal & Har & Hlr).
    rewrite (bind_eq _ _ _ _ _ (rd_eq Node.left _ _ _ Hn)), Hl.
    destruct (IHl (Some a) fuel s Hrl Hndl ltac:(lia))
      as (s1 & e1 & E1 & Hn1 & Hm1 & Hi1 & Hb1 & Ht1 & Hp1 & Ha1).
    rewrite (bind_eq _ _ _ _ _ E1).
    assert (Hna1 : nodes s1 !! a = Some n) by (by rewrite Hn1, decide_False).
    rewrite (bind_eq _ _ _ _ _ (rd_eq Node.right _ _ _ Hna1)), Hr.
    assert (Hrr1 : rep (nodes s1) r (Some a)).
    { apply (rep_ext (nodes s)); [|done]. intros b Hb. rewrite Hn1, decide_False; [done|].
      intros Hbl. by apply (Hlr b). }
    destruct (IHr (Some a) fuel s1 Hrr1 Hndr ltac:(lia))
      as (s2 & e2 & E2 & Hn2 & Hm2 & Hi2 & Hb2 & Ht2 & Hp2 & Ha2).
    rewrite (bind_eq _ _ _ _ _ E2).
    assert (Hna2 : nodes s2 !! a = Some n) by (by rewrite Hn2, decide_False).
    destruct (destroy_node_releases a n cfg s2 Hna2)
      as (s3 & E3 & Hn3 & Hm3 & Hi3 & Hb3 & Ht3 & Ha3).
    assert (Hba : binding (nodes s2) a = binding (nodes s) a).
    { unfold binding. by rewrite Hna2, Hn. }
    rewrite Hba in Ht3, Ha3.
    exists s3, (e1 ++ e2 ++ node_release cfg (binding (nodes s) a)).
    split_and!; try congruence.
    + intros b. rewrite Hn3. simpl.
      destruct (decide (b = a)) as [->|Hba'].
      * rewrite lookup_delete_eq, decide_True; [done|set_solver].
      * rewrite lookup_delete_ne, Hn2, Hn1 by done.
        repeat case_decide; try done; set_solver.
    + rewrite Ht3, Ht2, Ht1, <- !app_assoc. done.
    + simpl. rewrite bind_app, bind_cons. rewrite Hp1, Hp2.
      rewrite (list_bind_ext_in (λ b, node_release cfg (binding (nodes s1) b))
                 (λ b, node_release cfg (binding (nodes s) b)) (inorder r)).
      * apply Permutation_app_head, Permutation_app_comm.
      * intros b Hb. unfold binding. rewrite Hn1, decide_False; [done|].
        intros Hbl. by apply (Hlr b).
    + rewrite Ha3, Ha2, Ha1. simpl. rewrite !filter_app, !length_app. simpl. lia.
Qed.

Lemma destroy_tree_spec cfg t s :
  rep (nodes s) t NIL → NoDup (inorder t) →
  ∃ s' evs,
    destroy_tree (troot t) cfg s = Some (tt, s')
    ∧ (∀ b, nodes s' !! b = if decide (b ∈ inorder t) then None else nodes s !! b)
    ∧ maps s' = maps s ∧ iters s' = iters s ∧ brk s' = brk s
    ∧ trace s' = trace s ++ evs
    ∧ evs ≡ₚ inorder t ≫= (λ a, node_release cfg (binding (nodes s) a))
    ∧ avail s' = (avail s + length (inorder t) + length (filter is_free evs))%nat.
Proof.
  intros Hrep Hnd. unfold destroy_tree. rewrite get_fuel_eq.
  apply (destroy_tree_rec_spec cfg t NIL); [done|done|].
  by eapply rep_height_lt_fuel.
Qed.

Lemma well_formed_empty s map m cmp :
  maps s !! map = Some m → Map.root m = NIL →
  Config.key_compare (Map.config m) = Some cmp → comparator_laws cmp →
  (Map.size m < SIZE_MOD)%N →
  well_formed s map Leaf.
Proof.
  intros Hm Hroot Hcmp Hlaws Hsz. exists m, cmp. split_and!; try done.
  - apply NoDup_nil_2.
  - intros a Ha. simpl in Ha. set_solver.
  - constructor.
Qed.

Lemma contains_on_empty s map key :
  well_formed s map Leaf → run (ordered_map_contains (Some map) key) s = Some false.
Proof.
  intros Hwf. destruct key as [ko|]; [|done].
  pose proof Hwf as (m & cmp & Hm & _ & Hcmp & _).
  destruct (contains_spec s map Leaf m cmp ko Hwf Hm Hcmp) as (s' & E & _).
  unfold run. by rewrite E.
Qed.

(** X6.  On every well-formed map [ordered_map_clear] returns success
    and leaves an empty well-formed map of size 0 in which [contains]
    finds no key.  Every node of the tree is freed, and what is released
    is, up to order, the key and the value of each binding exactly once
    ([free] for inline storage, the destructor hook when there is one for
    pointers) and nothing else; every allocation of the tree is returned
    and the iterators are not touched. *)
Theorem clear_releases_every_binding (s : state) (map : positive) (t : tree) (m : Map.t) :
  well_formed s map t → maps s !! map = Some m →
  ∃ s' evs,
    ordered_map_clear (Some map) s = Some (ORDERED_MAP_SUCCESS, s')
    ∧ well_formed s' map Leaf
    ∧ run (ordered_map_size (Some map)) s' = Some 0%N
    ∧ (∀ key, run (ordered_map_contains (Some map) key) s' = Some false)
    ∧ (∀ b, nodes s' !! b = if decide (b ∈ inorder t) then None else nodes s !! b)
    ∧ trace s' = trace s ++ evs
    ∧ evs ≡ₚ inorder t ≫= (λ a, node_release (Map.config m) (binding (nodes s) a))
    ∧ avail s' = (avail s + length (inorder t) + length (filter is_free evs))%nat
    ∧ iters s' = iters s.
Proof.
  intros Hwf Hm.
  pose proof Hwf as (m0 & cmp & Hm0 & Hroot & Hcmp & Hlaws & Hsz & Hrep & Hnd & _).
  rewrite Hm in Hm0. injection Hm0 as <-.
  unfold ordered_map_clear.
  rewrite (bind_eq _ _ _ _ _ (rdm_eq Map.root _ _ _ Hm)).
  rewrite (bind_eq _ _ _ _ _ (rdm_eq Map.config _ _ _ Hm)).
  rewrite Hroot.
  destruct (destroy_tree_spec (Map.config m) t s Hrep Hnd)
    as (s1 & evs & E1 & Hn1 & Hm1 & Hi1 & Hb1 & Ht1 & Hp1 & Ha1).
  rewrite (bind_eq _ _ _ _ _ E1).
  assert (HmS1 : maps s1 !! map = Some m) by (by rewrite Hm1).
  rewrite (bind_eq _ _ _ _ _ (wrm_eq _ _ _ _ HmS1)).
  erewrite bind_eq; [|apply wrm_eq; simpl; apply lookup_insert_eq]. cbv beta.
  eexists _, evs. split; [done|].
  cbn [nodes maps iters trace avail set_maps].
  match goal with |- well_formed ?s2 _ _ ∧ _ => set (s' := s2) end.
  assert (Hm' : maps s' !! map = Some (Map.set_size 0 (Map.set_root NIL m))).
  { subst s'. simpl. by rewrite lookup_insert_eq. }
  assert (Hwf' : well_formed s' map Leaf).
  { by apply (well_formed_empty s' map _ cmp Hm'). }
  split_and!; try done.
  - by rewrite (run_size _ _ _ Hm').
  - intros key. by apply contains_on_empty.
Qed.

Lemma clear_releases_every_binding_witness :
  ∃ s' evs,
    ordered_map_clear (Some 1%positive) demo_state = Some (ORDERED_MAP_SUCCESS, s')
    ∧ well_formed s' 1 Leaf
    ∧ run (ordered_map_size (Some 1%positive)) s' = Some 0%N
    ∧ (∀ key, run (ordered_map_contains (Some 1%positive) key) s' = Some false)
    ∧ (∀ b, nodes s' !! b = if decide (b ∈ inorder demo_tree) then None
                            else nodes demo_state !! b)
    ∧ trace s' = trace demo_state ++ evs
    ∧ evs ≡ₚ inorder demo_tree ≫= (λ a, node_release int_config (binding (nodes demo_state) a))
    ∧ avail s' = (avail demo_state + length (inorder demo_tree)
                  + length (filter is_free evs))%nat
    ∧ iters s' = iters demo_state.
Proof.
  destruct demo_map as (m & Hm & Hcfg). rewrite <- Hcfg.
  exact (clear_releases_every_binding demo_state 1 demo_tree m demo_well_formed Hm).
Defined.

(** X7.  On every well-formed map [ordered_map_destroy] frees the header
    and every node, and releases, up to order, the key and the value of
    each binding exactly once and nothing else; other maps and the
    iterators are not touched. *)
Theorem destroy_releases_every_binding (s : state) (map : positive) (t : tree) (m : Map.t) :
  well_formed s map t → maps s !! map = Some m →
  ∃ s' evs,
    ordered_map_destroy (Some map) s = Some (tt, s')
    ∧ maps s' = delete map (maps s)
    ∧ (∀ b, nodes s' !! b = if decide (b ∈ inorder t) then None else nodes s !! b)
    ∧ trace s' = trace s ++ evs
    ∧ evs ≡ₚ inorder t ≫= (λ a, node_release (Map.config m) (binding (nodes s) a))
    ∧ avail s' = (avail s + 1 + length (inorder t) + length (filter is_free evs))%nat
    ∧ iters s' = iters s.
Proof.
  intros Hwf Hm.
  pose proof Hwf as (m0 & cmp & Hm0 & Hroot & Hcmp & Hlaws & Hsz & Hrep & Hnd & _).
  rewrite Hm in Hm0. injection Hm0 as <-.
  unfold ordered_map_destroy.
  rewrite (bind_eq _ _ _ _ _ (rdm_eq Map.root _ _ _ Hm)).
  rewrite (bind_eq _ _ _ _ _ (rdm_eq Map.config _ _ _ Hm)).
  rewrite Hroot.
  destruct (destroy_tree_spec (Map.config m) t s Hrep Hnd)
    as (s1 & evs & E1 & Hn1 & Hm1 & Hi1 & Hb1 & Ht1 & Hp1 & Ha1).
  rewrite (bind_eq _ _ _ _ _ E1).
  eexists _, evs. split; [done|]. simpl. split_and!; try done.
  - by rewrite Hm1.
  - rewrite Ha1. lia.
Qed.

Lemma destroy_releases_every_binding_witness :
  ∃ s' evs,
    ordered_map_destroy (Some 1%positive) demo_state = Some (tt, s')
    ∧ maps s' = delete 1%positive (maps demo_state)
    ∧ (∀ b, nodes s' !! b = if decide (b ∈ inorder demo_tree) then None
                            else nodes demo_state !! b)
    ∧ trace s' = trace demo_state ++ evs
    ∧ evs ≡ₚ inorder demo_tree ≫= (λ a, node_release int_config (binding (nodes demo_state) a))
    ∧ avail s' = (avail demo_state + 1 + length (inorder demo_tree)
                  + length (filter is_free evs))%nat
    ∧ iters s' = iters demo_state.
Proof.
  destruct demo_map as (m & Hm & Hcfg). rewrite <- Hcfg.
  exact (destroy_releases_every_binding demo_state 1 demo_tree m demo_well_formed Hm).
Defined.

(** X8.  [ordered_map_create] with a configuration whose comparator is
    lawful: when the allocator has room it returns a new handle, leaves
    every other map and every node as they were, and the new map is well
    formed and empty, of size 0, with [empty] true, [contains] false and
    [get] [NULL] for every key; when the allocator has no room it returns
    [NULL] and changes nothing. *)
Theorem create_gives_an_empty_map (cfg : Config.t) (cmp : list Z → list Z → Z) (s : state) :
  Config.key_compare cfg = Some cmp → comparator_laws cmp →
  ∃ r s',
    ordered_map_create (Some cfg) s = Some (r, s')
    ∧ match r with
      | None => avail s = 0%nat ∧ s' = s
      | Some map =>
          maps s !! map = None
          ∧ maps s' = <[map := Map.Make NIL cfg 0 Stats.zero true]> (maps s)
          ∧ nodes s' = nodes s ∧ iters s' = iters s ∧ trace s' = trace s
          ∧ S (avail s') = avail s
          ∧ well_formed s' map Leaf
          ∧ run (ordered_map_size (Some map)) s' = Some 0%N
          ∧ run (ordered_map_empty (Some map)) s' = Some true
          ∧ (∀ key, run (ordered_map_contains (Some map) key) s' = Some false)
          ∧ (∀ key, run (ordered_map_get (Some map) key) s' = Some NULL)
      end.
Proof.
  intros Hcmp Hlaws. unfold ordered_map_create. rewrite Hcmp. unfold malloc_map.
  destruct (avail s) as [|k] eqn:Hav.
  - by exists None, s.
  - set (map := fresh (dom (maps s))).
    eexists (Some map), _. split; [done|].
    match goal with |- _ ∧ _ ∧ _ ∧ _ ∧ _ ∧ _ ∧ well_formed ?s2 _ _ ∧ _ => set (s' := s2) end.
    assert (Hm' : maps s' !! map = Some (Map.Make NIL cfg 0 Stats.zero true)).
    { subst s'. simpl. by rewrite lookup_insert_eq. }
    assert (Hwf' : well_formed s' map Leaf).
    { by apply (well_formed_empty s' map _ cmp Hm'). }
    split_and!; try done.
    + apply not_elem_of_dom, is_fresh.
    + by rewrite (run_size _ _ _ Hm').
    + unfold run, ordered_map_empty. by rewrite (bind_eq _ _ _ _ _ (rdm_eq Map.size _ _ _ Hm')).
    + intros key. by apply contains_on_empty.
    + intros [ko|]; [|done].
      destruct (get_spec s' map Leaf _ cmp ko Hwf' Hm' Hcmp) as (s'' & E & _).
      unfold run. by rewrite E.
Qed.

Lemma create_gives_an_empty_map_witness :
  ∃ r s',
    ordered_map_create (Some int_config) boot = Some (r, s')
    ∧ match r with
      | None => avail boot = 0%nat ∧ s' = boot
      | Some map =>
          maps boot !! map = None
          ∧ maps s' = <[map := Map.Make NIL int_config 0 Stats.zero true]> (maps boot)
          ∧ nodes s' = nodes boot ∧ iters s' = iters boot ∧ trace s' = trace boot
          ∧ S (avail s') = avail boot
          ∧ well_formed s' map Leaf
          ∧ run (ordered_map_size (Some map)) s' = Some 0%N
          ∧ run (ordered_map_empty (Some map)) s' = Some true
          ∧ (∀ key, run (ordered_map_contains (Some map) key) s' = Some false)
          ∧ (∀ key, run (ordered_map_get (Some map) key) s' = Some NULL)
      end.
Proof.
  apply (create_gives_an_empty_map int_config int_compare boot).
  - reflexivity.
  - exact int_compare_laws.
Defined.

(** * The red-black invariants through an insertion *)

Lemma troot_color_ext h h' t :
  (∀ a, a ∈ inorder t → color_of h' (Some a) = color_of h (Some a)) →
  color_of h' (troot t) = color_of h (troot t).
Proof. destruct t as [|l a r]; [done|]. intros H. apply H. simpl. set_solver. Qed.

Lemma rb_ext h h' t n :
  (∀ a, a ∈ inorder t → color_of h' (Some a) = color_of h (Some a)) →
  rb h t n → rb h' t n.
Proof.
  revert n. induction t as [|l IHl a r IHr]; intros n Hc; [done|].
  cbn [rb]. rewrite (Hc a) by (simpl; set_solver).
  assert (Hl : ∀ b, b ∈ inorder l → color_of h' (Some b) = color_of h (Some b)).
  { intros b Hb. apply Hc. simpl. set_solver. }
  assert (Hr : ∀ b, b ∈ inorder r → color_of h' (Some b) = color_of h (Some b)).
  { intros b Hb. apply Hc. simpl. set_solver. }
  destruct (color_of h (Some a)).
  - intros (H1 & H2 & H3 & H4).
    rewrite (troot_color_ext h h' l Hl), (troot_color_ext h h' r Hr). auto.
  - intros (k & -> & H3 & H4). exists k. auto.
Qed.

Lemma step_nodes_in f c a :
  a = step_node f ∨ a ∈ inorder (step_sibling f) ∨ a ∈ cbefore c ++ cafter c →
  a ∈ cbefore (f :: c) ++ cafter (f :: c).
Proof. destruct f; simpl; set_solver. Qed.

Lemma crb_ext h h' c n :
  (∀ a, a ∈ cbefore c ++ cafter c → color_of h' (Some a) = color_of h (Some a)) →
  crb h c n → crb h' c n.
Proof.
  revert n. induction c as [|f c IH]; intros n Hc; [done|].
  cbn [crb].
  assert (Hf : color_of h' (Some (step_node f)) = color_of h (Some (step_node f))).
  { apply Hc, step_nodes_in. by left. }
  assert (Hs : ∀ b, b ∈ inorder (step_sibling f) →
                    color_of h' (Some b) = color_of h (Some b)).
  { intros b Hb. apply Hc, step_nodes_in. right. by left. }
  assert (Hc' : ∀ b, b ∈ cbefore c ++ cafter c → color_of h' (Some b) = color_of h (Some b)).
  { intros b Hb. apply Hc, step_nodes_in. right. by right. }
  assert (Hp : color_of h' (cparent c) = color_of h (cparent c)).
  { destruct (cparent c) as [p|] eqn:Hp; [|done]. by apply Hc', cparent_in. }
  rewrite Hf, Hp, (troot_color_ext h h' _ Hs).
  intros [H1 H2]. split; [by apply (rb_ext h)|].
  destruct (color_of h (Some (step_node f))).
  - destruct H2 as (? & ? & ?). auto.
  - auto.
Qed.

Lemma plug_step f c t :
  plug (f :: c) t
  = plug c (match f with InL a r => Br t a r | InR l a => Br l a t end).
Proof. by destruct f. Qed.

Lemma rb_step h f t n :
  rb h t n → rb h (step_sibling f) n →
  (color_of h (Some (step_node f)) = RB_RED →
   color_of h (troot t) = RB_BLACK ∧ color_of h (troot (step_sibling f)) = RB_BLACK) →
  rb h (match f with InL a r => Br t a r | InR l a => Br l a t end)
    (if color_of h (Some (step_node f)) is RB_RED then n else S n).
Proof.
  intros Ht Hs Hred. destruct f as [a r|l a]; cbn [rb step_node step_sibling] in *;
    destruct (color_of h (Some a)); try (destruct Hred as [? ?]; [done|]); eauto.
Qed.

(** A subtree and its surroundings make a red-black tree when they fit
    at the hole. *)
Lemma rb_plug h c : ∀ t n,
  rb h t n → crb h c n →
  (color_of h (cparent c) = RB_RED → color_of h (troot t) = RB_BLACK) →
  ∃ N, rb h (plug c t) N.
Proof.
  induction c as [|f c IH]; intros t n Ht Hc Hhole; [by exists n|].
  rewrite plug_step. cbn [crb] in Hc. destruct Hc as [Hs Hc].
  assert (Hp : cparent (f :: c) = Some (step_node f)) by (by destruct f).
  rewrite Hp in Hhole.
  eapply (IH _ (if color_of h (Some (step_node f)) is RB_RED then n else S n)).
  - apply rb_step; [done|done|]. intros Hred. rewrite Hred in Hc.
    destruct Hc as (? & ? & ?). auto.
  - destruct (color_of h (Some (step_node f))); [by destruct Hc as (? & ? & ?)|done].
  - intros Hred.
    assert (Hroot : troot (match f with InL a r => Br t a r | InR l a => Br l a t end)
                    = Some (step_node f)) by (by destruct f).
    rewrite Hroot.
    destruct (color_of h (Some (step_node f))); [|done].
    destruct Hc as (_ & Hb & _). congruence.
Qed.

Lemma rb_unplug h c : ∀ t N,
  rb h (plug c t) N →
  ∃ n, rb h t n ∧ crb h c n
       ∧ (color_of h (cparent c) = RB_RED → color_of h (troot t) = RB_BLACK).
Proof.
  induction c as [|f c IH]; intros t N H.
  { exists N. split_and!; [done|done|]. simpl. done. }
  rewrite plug_step in H. destruct (IH _ _ H) as (n' & Hrb & Hc & Hhole).
  assert (Hp : cparent (f :: c) = Some (step_node f)) by (by destruct f).
  assert (Hroot : troot (match f with InL a r => Br t a r | InR l a => Br l a t end)
                  = Some (step_node f)) by (by destruct f).
  rewrite Hroot in Hhole. rewrite Hp. cbn [crb].
  destruct f as [a r|l a]; cbn [rb step_node step_sibling] in *;
    destruct (color_of h (Some a)) eqn:Ha.
  - destruct Hrb as (H1 & H2 & H3 & H4). exists n'. split_and!; try done.
    destruct (color_of h (cparent c)); [by specialize (Hhole eq_refl)|done].
  - destruct Hrb as (k & -> & H3 & H4). exists k. split_and!; done.
  - destruct Hrb as (H1 & H2 & H3 & H4). exists n'. split_and!; try done.
    destruct (color_of h (cparent c)); [by specialize (Hhole eq_refl)|done].
  - destruct Hrb as (k & -> & H3 & H4). exists k. split_and!; done.
Qed.

(** A red-black tree is low: its height is at most twice its black
    height, plus one under a red root, and it has at least
    [2 ^ black height - 1] nodes. *)
Lemma rb_height h t n :
  rb h t n →
  (height t ≤ 2 * n + (if color_of h (troot t) is RB_RED then 1 else 0))%nat.
Proof.
  revert n. induction t as [|l IHl a r IHr]; intros n; cbn [rb height troot].
  { intros ->. simpl. lia. }
  destruct (color_of h (Some a)).
  - intros (Hl & Hr & H3 & H4). specialize (IHl _ H3). specialize (IHr _ H4).
    rewrite Hl in IHl. rewrite Hr in IHr. lia.
  - intros (k & -> & H3 & H4). specialize (IHl _ H3). specialize (IHr _ H4).
    destruct (color_of h (troot l)), (color_of h (troot r)); lia.
Qed.

Lemma rb_size h t n : rb h t n → (2 ^ n ≤ S (length (inorder t)))%nat.
Proof.
  revert n. induction t as [|l IHl a r IHr]; intros n; cbn [rb inorder].
  { intros ->. simpl. lia. }
  rewrite length_app. cbn [length].
  destruct (color_of h (Some a)).
  - intros (_ & _ & H3 & H4). specialize (IHl _ H3). lia.
  - intros (k & -> & H3 & H4). specialize (IHl _ H3). specialize (IHr _ H4).
    rewrite Nat.pow_succ_r'. lia.
Qed.

Lemma NoDup_two_level al a ar g bl b br :
  NoDup (inorder (Br (Br al a ar) g (Br bl b br))) →
  a ≠ g ∧ b ≠ g ∧ a ≠ b
  ∧ ∀ q, q ∈ inorder al ++ inorder ar ++ inorder bl ++ inorder br →
         q ≠ a ∧ q ≠ b ∧ q ≠ g.
Proof.
  intros H. apply NoDup_inorder_Br in H as (HA & HB & HgA & HgB & HAB).
  apply NoDup_inorder_Br in HA as (_ & _ & Hal & Har & _).
  apply NoDup_inorder_Br in HB as (_ & _ & Hbl & Hbr & _).
  simpl in HgA, HgB, HAB.
  assert (HaB : a ∉ inorder bl ++ b :: inorder br) by (apply HAB; set_solver).
  split_and!.
  - intros ->. apply HgA. set_solver.
  - intros ->. apply HgB. set_solver.
  - intros ->. apply HaB. set_solver.
  - intros q Hq. rewrite !elem_of_app in Hq. split_and!; intros ->.
    + destruct Hq as [?|[?|[?|?]]]; [done|done| |]; apply HaB; set_solver.
    + destruct Hq as [Hq|[Hq|[?|?]]]; [| |done|done];
        apply (HAB b); set_solver.
    + destruct Hq as [?|[?|[?|?]]]; [apply HgA|apply HgA|apply HgB|apply HgB]; set_solver.
Qed.

(** The recolouring step of [insert_fixup] (red uncle): both children of
    the grandparent turn black and the grandparent red. *)
Lemma rb_after_recolor h h' c2 al a ar g bl b br k :
  NoDup (inorder (plug c2 (Br (Br al a ar) g (Br bl b br)))) →
  rb h al k → rb h ar k → rb h bl k → rb h br k → crb h c2 (S k) →
  color_of h' (Some a) = RB_BLACK → color_of h' (Some b) = RB_BLACK →
  color_of h' (Some g) = RB_RED →
  (∀ q, q ≠ Some a → q ≠ Some b → q ≠ Some g → color_of h' q = color_of h q) →
  rb h' (Br (Br al a ar) g (Br bl b br)) (S k) ∧ crb h' c2 (S k).
Proof.
  intros Hnd Hal Har Hbl Hbr Hc Ha Hb Hg Ho.
  apply NoDup_plug in Hnd as (HndT & Hdis & _).
  pose proof (NoDup_two_level _ _ _ _ _ _ _ HndT) as (Hag & Hbg & Hab & Hsub).
  assert (Hsame : ∀ q, q ∈ inorder al ++ inorder ar ++ inorder bl ++ inorder br →
                       color_of h' (Some q) = color_of h (Some q)).
  { intros q Hq. destruct (Hsub q Hq) as (? & ? & ?). apply Ho; congruence. }
  split.
  - cbn [rb troot]. rewrite Hg, Ha, Hb. split_and!; [done|done| |].
    + exists k. split_and!; [done| |]; (eapply rb_ext; [|eassumption]);
        intros q Hq; apply Hsame; set_solver.
    + exists k. split_and!; [done| |]; (eapply rb_ext; [|eassumption]);
        intros q Hq; apply Hsame; set_solver.
  - apply (crb_ext h); [|done]. intros q Hq. apply Ho; intros [= ->];
      (eapply Hdis; [|exact Hq]); simpl; set_solver.
Qed.

(** The rotation step of [insert_fixup] (black uncle): a black node over
    two red children takes the grandparent's place. *)
Lemma rb_after_rotate h h' c2 xl x xr p yl y yr k :
  NoDup (inorder (plug c2 (Br (Br xl x xr) p (Br yl y yr)))) →
  rb h xl k → rb h xr k → rb h yl k → rb h yr k →
  color_of h (troot xl) = RB_BLACK → color_of h (troot xr) = RB_BLACK →
  color_of h (troot yl) = RB_BLACK → color_of h (troot yr) = RB_BLACK →
  crb h c2 (S k) →
  color_of h' (Some x) = RB_RED → color_of h' (Some y) = RB_RED →
  color_of h' (Some p) = RB_BLACK →
  (∀ q, q ≠ Some x → q ≠ Some y → q ≠ Some p → color_of h' q = color_of h q) →
  ∃ K, rb h' (plug c2 (Br (Br xl x xr) p (Br yl y yr))) K.
Proof.
  intros Hnd Hxl Hxr Hyl Hyr Cxl Cxr Cyl Cyr Hc Hx Hy Hp Ho.
  apply NoDup_plug in Hnd as (HndT & Hdis & _).
  pose proof (NoDup_two_level _ _ _ _ _ _ _ HndT) as (Hxp & Hyp & Hxy & Hsub).
  assert (Hsame : ∀ q, q ∈ inorder xl ++ inorder xr ++ inorder yl ++ inorder yr →
                       color_of h' (Some q) = color_of h (Some q)).
  { intros q Hq. destruct (Hsub q Hq) as (? & ? & ?). apply Ho; congruence. }
  assert (Hroot : ∀ t, (∀ q, q ∈ inorder t →
                             q ∈ inorder xl ++ inorder xr ++ inorder yl ++ inorder yr) →
                       color_of h' (troot t) = color_of h (troot t)).
  { intros t Ht. apply troot_color_ext. intros q Hq. by apply Hsame, Ht. }
  apply (rb_plug h' c2 _ (S k)).
  - cbn [rb troot]. rewrite Hp, Hx, Hy. exists k. split; [done|].
    rewrite (Hroot xl), (Hroot xr), (Hroot yl), (Hroot yr) by set_solver.
    split_and!; try done; (eapply rb_ext; [|eassumption]);
      intros q Hq; apply Hsame; set_solver.
  - apply (crb_ext h); [|done]. intros q Hq. apply Ho; intros [= ->];
      (eapply Hdis; [|exact Hq]); simpl; set_solver.
  - intros _. exact Hp.
Qed.

Lemma crb_red_parent h f1 c' t Pl p Pr k :
  plug [f1] t = Br Pl p Pr →
  rb h t k → crb h (f1 :: c') k → color_of h (Some p) = RB_RED →
  rb h Pl k ∧ rb h Pr k ∧ crb h c' k ∧ color_of h (cparent c') = RB_BLACK
  ∧ color_of h (troot (step_sibling f1)) = RB_BLACK.
Proof.
  intros HP Ht Hc Hp. cbn [crb] in Hc. destruct Hc as [Hs Hc].
  destruct f1 as [a r|l a]; simpl in HP; injection HP as <- <- <-;
    cbn [step_node step_sibling] in *; rewrite Hp in Hc; destruct Hc as (? & ? & ?); done.
Qed.

Lemma crb_black_parent h f c' k :
  crb h (f :: c') k → color_of h (Some (step_node f)) = RB_BLACK →
  rb h (step_sibling f) k ∧ crb h c' (S k).
Proof. cbn [crb]. intros [Hs Hc] Hp. by rewrite Hp in Hc. Qed.

Lemma rb_red_node h l z r k :
  rb h (Br l z r) k → color_of h (Some z) = RB_RED →
  color_of h (troot l) = RB_BLACK ∧ color_of h (troot r) = RB_BLACK ∧ rb h l k ∧ rb h r k.
Proof. cbn [rb]. intros H Hz. by rewrite Hz in H. Qed.

(** The three recolourings of the red-uncle case, with all the colours
    they leave. *)
Lemma recolor_full {A} map s t p y g (k : M A) :
  tree_at map s t → p ∈ inorder t → y ∈ inorder t → g ∈ inorder t →
  p ≠ g → y ≠ g →
  ∃ s', (do_ set_color (Some p) RB_BLACK;
         do_ set_color (Some y) RB_BLACK;
         do_ set_color (Some g) RB_RED;
         k) s = k s'
        ∧ tree_at map s' t
        ∧ surgery map s s'
        ∧ color_of (nodes s') (Some g) = RB_RED
        ∧ (∀ q, q ≠ Some p → q ≠ Some y → q ≠ Some g →
                color_of (nodes s') q = color_of (nodes s) q)
        ∧ color_of (nodes s') (Some p) = RB_BLACK
        ∧ color_of (nodes s') (Some y) = RB_BLACK.
Proof.
  intros Ht Hp Hy Hg Hpg Hyg.
  destruct (set_color_spec map s t p RB_BLACK Ht Hp) as (s1 & E1 & Ht1 & Hs1 & Hc1 & Ho1).
  destruct (set_color_spec map s1 t y RB_BLACK Ht1 Hy) as (s2 & E2 & Ht2 & Hs2 & Hc2 & Ho2).
  destruct (set_color_spec map s2 t g RB_RED Ht2 Hg) as (s3 & E3 & Ht3 & Hs3 & Hc3 & Ho3).
  exists s3. rewrite (bind_eq _ _ _ _ _ E1), (bind_eq _ _ _ _ _ E2), (bind_eq _ _ _ _ _ E3).
  split_and!; try done.
  - eauto using surgery_trans.
  - intros q ? ? ?. rewrite Ho3, Ho2, Ho1 by done. done.
  - rewrite Ho3 by congruence. destruct (decide (p = y)) as [->|Hne]; [done|].
    rewrite Ho2 by congruence. done.
  - rewrite Ho3 by congruence. done.
Qed.

Lemma rb_blacken h h' l x r K :
  NoDup (inorder (Br l x r)) → rb h (Br l x r) K →
  color_of h' (Some x) = RB_BLACK →
  (∀ q, q ≠ Some x → color_of h' q = color_of h q) →
  ∃ K', rb h' (Br l x r) K'.
Proof.
  intros Hnd Hrb Hx Ho.
  apply NoDup_inorder_Br in Hnd as (_ & _ & Hxl & Hxr & _).
  assert (Hl : ∀ q, q ∈ inorder l → color_of h' (Some q) = color_of h (Some q)) by (intros q Hq; apply Ho; intros [= ->]; done).
  assert (Hr : ∀ q, q ∈ inorder r → color_of h' (Some q) = color_of h (Some q)) by (intros q Hq; apply Ho; intros [= ->]; done).
  cbn [rb] in *. rewrite Hx.
  destruct (color_of h (Some x)).
  - destruct Hrb as (_ & _ & H3 & H4). exists (S K), K.
    split_and!; [done|by apply (rb_ext h)|by apply (rb_ext h)].
  - destruct Hrb as (k & -> & H3 & H4). exists (S k), k.
    split_and!; [done|by apply (rb_ext h)|by apply (rb_ext h)].
Qed.

(** [insert_fixup], with what it does to the colours: from a red node
    whose subtree and surroundings obey the invariants it makes a tree
    that obeys them. *)
Lemma insert_fixup_loop_full fuel : ∀ map s c l z r n,
  tree_at map s (plug c (Br l z r)) →
  (length c < fuel)%nat →
  (c ≠ [] → color_of (nodes s) (troot (plug c (Br l z r))) = RB_BLACK) →
  inserted_under n l z r →
  ∃ s' t', insert_fixup_loop fuel map (Some z) s = Some (tt, s')
           ∧ tree_at map s' t'
           ∧ inorder t' = inorder (plug c (Br l z r))
           ∧ surgery map s s'
           ∧ inserted_shape n (nodes s') t'
           ∧ (∀ k, color_of (nodes s) (Some z) = RB_RED → rb (nodes s) (Br l z r) k →
                   crb (nodes s) c k → ∃ K, rb (nodes s') t' K).
Proof.
  induction fuel as [|fuel IH]; intros map s c l z r n Ht Hfuel Hroot Hn; [simpl in Hfuel; lia|].
  assert (HnT : leaf_in n (Br l z r)).
  { destruct Hn as [(-> & -> & ->)|[Hn|Hn]];
      [apply leaf_in_here|by apply leaf_in_l|by apply leaf_in_r]. }
  destruct (color_of (nodes s) (cparent c)) eqn:Hcp.
  2: { exists s, (plug c (Br l z r)).
       split_and!; [by eapply insert_fixup_loop_exit|done|done|apply surgery_refl| |].
       - left. by apply leaf_in_plug.
       - intros k Hz Hrb Hcrb. apply (rb_plug (nodes s) c _ k); [done|done|].
         rewrite Hcp. done. }
  destruct c as [|f1 [|f2 c2]]; [done| |].
  { exfalso. assert (E : troot (plug [f1] (Br l z r)) = cparent [f1]) by (by destruct f1).
    rewrite <- E, Hroot in Hcp; done. }
  assert (Hfuel' : (length c2 < fuel)%nat) by (simpl in Hfuel; lia).
  assert (Hin : ∀ a, cparent (f1 :: f2 :: c2) = Some a →
                     a ∈ inorder (plug (f1 :: f2 :: c2) (Br l z r))).
  { intros a Ha. apply cparent_in in Ha. rewrite inorder_plug. set_solver. }
  cbn [insert_fixup_loop].
  rewrite (bind_eq _ _ _ _ _ (rd_parent _ _ _ _ _ _ Ht)).
  rewrite (bind_eq _ _ _ _ _ (get_color_at _ _ _ _ Ht Hin)).
  rewrite Hcp. unfold color_eqb at 1. rewrite bool_decide_eq_true_2 by done. cbn [negb].
  clear Hin.
  assert (∃ p Pl Pr, plug [f1] (Br l z r) = Br Pl p Pr
                     ∧ cparent (f1 :: f2 :: c2) = Some p) as (p & Pl & Pr & HP & Hp).
  { destruct f1; simpl; eauto. }
  rewrite Hp in Hcp. rewrite Hp.
  assert (HnP : leaf_in n (Br Pl p Pr)).
  { rewrite <- HP. by apply leaf_in_plug. }
  assert (Hplug : plug (f1 :: f2 :: c2) (Br l z r) = plug (f2 :: c2) (Br Pl p Pr)).
  { rewrite <- HP. by destruct f1. }
  rewrite Hplug. rewrite Hplug in Hroot.
  assert (HtP : tree_at map s (plug (f2 :: c2) (Br Pl p Pr))) by (by rewrite <- Hplug).
  rewrite (bind_eq _ _ _ _ _ (rd_parent _ _ _ _ _ _ HtP)).
  pose proof HtP as (_ & _ & _ & _ & Hnd).
  destruct f2 as [g u|u g]; cbn [cparent].
  - (* the parent is a left child *)
    apply (NoDup_plug c2) in Hnd as (Hnd & _).
    apply NoDup_inorder_Br in Hnd as (HndP & Hndu & HgP & Hgu & HPu).
    rewrite (bind_eq _ _ _ _ _ (rd_left map s c2 _ g u HtP)). cbn [troot].
    rewrite ptr_eqb_refl.
    rewrite (bind_eq _ _ _ _ _ (rd_right map s c2 _ g u HtP)).
    assert (Hinu : ∀ a, troot u = Some a → a ∈ inorder (plug (InL g u :: c2) (Br Pl p Pr))).
    { intros a Ha. apply troot_inorder in Ha. rewrite inorder_plug. simpl. set_solver. }
    rewrite (bind_eq _ _ _ _ _ (get_color_at _ _ _ _ HtP Hinu)).
    unfold color_eqb at 1.
    destruct (color_of (nodes s) (troot u)) eqn:Hcu.
    + (* red uncle *)
      rewrite bool_decide_eq_true_2 by done.
      destruct u as [|ul y ur]; [done|]. cbn [troot].
      destruct (recolor_full map s _ p y g (insert_fixup_loop fuel map (Some g)) HtP)
        as (s1 & E1 & Ht1 & Hs1 & Hg1 & Ho1 & Hp1 & Hy1).
      { apply in_plug_focus. }
      { apply (in_plug_sub c2 (Br (Br Pl p Pr) g (Br ul y ur))). simpl. set_solver. }
      { apply (in_plug_focus c2). }
      { intros ->. apply HgP. simpl. set_solver. }
      { intros ->. apply Hgu. simpl. set_solver. }
      rewrite E1.
      destruct (IH map s1 c2 (Br Pl p Pr) g (Br ul y ur) n Ht1 Hfuel')
        as (s2 & t2 & E2 & Ht2 & Hin2 & Hs2 & Hsh2 & Hrb2).
      { intros Hc2. rewrite Ho1.
        - apply Hroot. done.
        - apply troot_plug_ne; [done|by destruct Ht1 as (_ & _ & _ & _ & ?)|simpl; set_solver].
        - apply troot_plug_ne; [done|by destruct Ht1 as (_ & _ & _ & _ & ?)|simpl; set_solver].
        - apply troot_plug_ne; [done|by destruct Ht1 as (_ & _ & _ & _ & ?)|simpl; set_solver]. }
      { right. left. done. }
      exists s2, t2. split_and!; try done; [eauto using surgery_trans|].
      intros k Hz Hrb Hcrb.
      destruct (crb_red_parent (nodes s) f1 _ (Br l z r) Pl p Pr k HP Hrb Hcrb Hcp)
        as (HPl & HPr & Hcg & Hcgb & _).
      destruct (crb_black_parent _ _ _ _ Hcg Hcgb) as [Hu Hc2].
      destruct (rb_red_node (nodes s) ul y ur k Hu Hcu) as (_ & _ & Hul & Hur).
      assert (Hnd1 : NoDup (inorder (plug c2 (Br (Br Pl p Pr) g (Br ul y ur)))))
        by (by destruct Ht1 as (_ & _ & _ & _ & ?)).
      destruct (rb_after_recolor (nodes s) (nodes s1) c2 Pl p Pr g ul y ur k Hnd1 HPl HPr Hul Hur Hc2 Hp1 Hy1 Hg1)
        as [Hrb1 Hcrb1].
      { intros q ? ? ?. by apply Ho1. }
      by apply (Hrb2 (S k)).
    + (* black uncle: rotations *)
      rewrite bool_decide_eq_false_2 by done.
      destruct fuel as [|fuel']; [lia|].
      destruct f1 as [p' pr|pl p']; simpl in HP; injection HP as <- -> <-.
      * (* outer grandchild: one rotation *)
        apply NoDup_inorder_Br in HndP as (_ & _ & _ & _ & Hzpr).
        rewrite (bind_eq _ _ _ _ _ (rd_right map s (InL g u :: c2) _ p pr HtP)).
        rewrite ptr_eqb_ne.
        2:{ intros Heq. symmetry in Heq. apply troot_inorder in Heq.
            apply (Hzpr z); [simpl; set_solver|done]. }
        mstep_refl.
        destruct (outer_left_steps map s c2 l z r p pr g u
                    (insert_fixup_loop (S fuel') map (Some z)) HtP)
          as (s1 & E1 & Ht1 & Hs1 & Hp1 & Hg1 & Ho1).
        rewrite E1.
        exists s1, (plug c2 (Br (Br l z r) p (Br pr g u))). split_and!.
        -- by apply (insert_fixup_loop_exit map s1 (InL p (Br pr g u) :: c2) l z r).
        -- done.
        -- symmetry. apply (inorder_rotate c2 (Br l z r) p pr g u).
        -- done.
        -- left. by apply leaf_in_plug, leaf_in_l.
        -- intros k Hz Hrb Hcrb.
           destruct (rb_red_node _ _ _ _ _ Hrb Hz) as (Cl & Cr & Hl & Hr).
           destruct (crb_red_parent (nodes s) (InL p pr) (InL g u :: c2) (Br l z r) _ _ _ k eq_refl
                       Hrb Hcrb Hcp) as (HPl & HPr & Hcg & Hcgb & Csib).
           destruct (crb_black_parent _ _ _ _ Hcg Hcgb) as [Hu Hc2].
           assert (HndF : NoDup (inorder (plug c2 (Br (Br l z r) p (Br pr g u)))))
             by (by destruct Ht1 as (_ & _ & _ & _ & ?)).
           pose proof HndF as HndT. apply NoDup_plug in HndT as (HndT & _ & _).
           pose proof (NoDup_two_level _ _ _ _ _ _ _ HndT) as (Hd1 & Hd2 & Hd3 & _).
           apply (rb_after_rotate (nodes s) (nodes s1) c2 l z r p pr g u k HndF Hl Hr HPr Hu Cl Cr Csib Hcu Hc2).
           ++ rewrite Ho1 by congruence. done.
           ++ done.
           ++ done.
           ++ intros q ? ? ?. by apply Ho1.
      * (* inner grandchild: two rotations *)
        rewrite (bind_eq _ _ _ _ _ (rd_right map s (InL g u :: c2) pl p _ HtP)).
        cbn [troot]. rewrite ptr_eqb_refl.
        destruct (left_rotate_spec map s (InL g u :: c2) pl p l z r HtP)
          as (s1 & E1 & Ht1 & Hs1 & Hc1).
        rewrite (bind_eq _ _ _ _ _ (bind_eq _ _ _ _ _ E1)).
        destruct (outer_left_steps map s1 c2 pl p l z r g u
                    (insert_fixup_loop (S fuel') map (Some p)) Ht1)
          as (s2 & E2 & Ht2 & Hs2 & Hp2 & Hg2 & Ho2).
        rewrite E2.
        exists s2, (plug c2 (Br (Br pl p l) z (Br r g u))). split_and!.
        -- by apply (insert_fixup_loop_exit map s2 (InL z (Br r g u) :: c2) pl p l).
        -- done.
        -- rewrite <- (inorder_rotate c2 (Br pl p l) z r g u).
           apply (inorder_rotate (InL g u :: c2) pl p l z r).
        -- eauto using surgery_trans.
        -- destruct Hn as [(-> & -> & ->)|[Hn|Hn]].
           ++ right. exists c2, (Br pl p Leaf), g, u. done.
           ++ left. by apply leaf_in_plug, leaf_in_l, leaf_in_r.
           ++ left. by apply leaf_in_plug, leaf_in_r, leaf_in_l.
        -- intros k Hz Hrb Hcrb.
           destruct (rb_red_node _ _ _ _ _ Hrb Hz) as (Cl & Cr & Hl & Hr).
           destruct (crb_red_parent (nodes s) (InR pl p) (InL g u :: c2) (Br l z r) _ _ _ k eq_refl
                       Hrb Hcrb Hcp) as (HPl & HPr & Hcg & Hcgb & Csib).
           destruct (crb_black_parent _ _ _ _ Hcg Hcgb) as [Hu Hc2].
           assert (HndF : NoDup (inorder (plug c2 (Br (Br pl p l) z (Br r g u)))))
             by (by destruct Ht2 as (_ & _ & _ & _ & ?)).
           pose proof HndF as HndT. apply NoDup_plug in HndT as (HndT & _ & _).
           pose proof (NoDup_two_level _ _ _ _ _ _ _ HndT) as (Hd1 & Hd2 & Hd3 & _).
           apply (rb_after_rotate (nodes s) (nodes s2) c2 pl p l z r g u k HndF HPl Hl Hr Hu Csib Cl Cr Hcu Hc2).
           ++ rewrite Ho2, Hc1 by congruence. done.
           ++ done.
           ++ done.
           ++ intros q ? ? ?. rewrite Ho2 by done. apply Hc1.
  - (* the parent is a right child *)
    apply (NoDup_plug c2) in Hnd as (Hnd & _).
    apply NoDup_inorder_Br in Hnd as (Hndu & HndP & Hgu & HgP & HuP).
    rewrite (bind_eq _ _ _ _ _ (rd_left map s c2 u g _ HtP)).
    rewrite ptr_eqb_ne.
    2:{ intros Heq. symmetry in Heq. apply troot_inorder in Heq.
        apply (HuP p); [done|simpl; set_solver]. }
    rewrite (bind_eq _ _ _ _ _ (rd_left map s c2 u g _ HtP)).
    assert (Hinu : ∀ a, troot u = Some a → a ∈ inorder (plug (InR u g :: c2) (Br Pl p Pr))).
    { intros a Ha. apply troot_inorder in Ha. rewrite inorder_plug. simpl. set_solver. }
    rewrite (bind_eq _ _ _ _ _ (get_color_at _ _ _ _ HtP Hinu)).
    unfold color_eqb at 1.
    destruct (color_of (nodes s) (troot u)) eqn:Hcu.
    + (* red uncle *)
      rewrite bool_decide_eq_true_2 by done.
      destruct u as [|ul y ur]; [done|]. cbn [troot].
      destruct (recolor_full map s _ p y g (insert_fixup_loop fuel map (Some g)) HtP)
        as (s1 & E1 & Ht1 & Hs1 & Hg1 & Ho1 & Hp1 & Hy1).
      { apply in_plug_focus. }
      { apply (in_plug_sub c2 (Br (Br ul y ur) g (Br Pl p Pr))). simpl. set_solver. }
      { apply (in_plug_focus c2). }
      { intros ->. apply HgP. simpl. set_solver. }
      { intros ->. apply Hgu. simpl. set_solver. }
      rewrite E1.
      destruct (IH map s1 c2 (Br ul y ur) g (Br Pl p Pr) n Ht1 Hfuel')
        as (s2 & t2 & E2 & Ht2 & Hin2 & Hs2 & Hsh2 & Hrb2).
      { intros Hc2. rewrite Ho1.
        - apply Hroot. done.
        - apply troot_plug_ne; [done|by destruct Ht1 as (_ & _ & _ & _ & ?)|simpl; set_solver].
        - apply troot_plug_ne; [done|by destruct Ht1 as (_ & _ & _ & _ & ?)|simpl; set_solver].
        - apply troot_plug_ne; [done|by destruct Ht1 as (_ & _ & _ & _ & ?)|simpl; set_solver]. }
      { right. right. done. }
      exists s2, t2. split_and!; try done; [eauto using surgery_trans|].
      intros k Hz Hrb Hcrb.
      destruct (crb_red_parent (nodes s) f1 _ (Br l z r) Pl p Pr k HP Hrb Hcrb Hcp)
        as (HPl & HPr & Hcg & Hcgb & _).
      destruct (crb_black_parent _ _ _ _ Hcg Hcgb) as [Hu Hc2].
      destruct (rb_red_node (nodes s) ul y ur k Hu Hcu) as (_ & _ & Hul & Hur).
      assert (Hnd1 : NoDup (inorder (plug c2 (Br (Br ul y ur) g (Br Pl p Pr)))))
        by (by destruct Ht1 as (_ & _ & _ & _ & ?)).
      destruct (rb_after_recolor (nodes s) (nodes s1) c2 ul y ur g Pl p Pr k Hnd1 Hul Hur HPl HPr Hc2 Hy1 Hp1 Hg1)
        as [Hrb1 Hcrb1].
      { intros q ? ? ?. by apply Ho1. }
      by apply (Hrb2 (S k)).
    + (* black uncle: rotations *)
      rewrite bool_decide_eq_false_2 by done.
      destruct fuel as [|fuel']; [lia|].
      destruct f1 as [p' pr|pl p']; simpl in HP; injection HP as <- -> <-.
      * (* inner grandchild: two rotations *)
        rewrite (bind_eq _ _ _ _ _ (rd_left map s (InR u g :: c2) _ p pr HtP)).
        cbn [troot]. rewrite ptr_eqb_refl.
        destruct (right_rotate_spec map s (InR u g :: c2) l z r p pr HtP)
          as (s1 & E1 & Ht1 & Hs1 & Hc1).
        rewrite (bind_eq _ _ _ _ _ (bind_eq _ _ _ _ _ E1)).
        destruct (outer_right_steps map s1 c2 r p pr z l g u
                    (insert_fixup_loop (S fuel') map (Some p)) Ht1)
          as (s2 & E2 & Ht2 & Hs2 & Hp2 & Hg2 & Ho2).
        rewrite E2.
        apply NoDup_inorder_Br in HndP as (_ & _ & Hpz & _ & _).
        exists s2, (plug c2 (Br (Br u g l) z (Br r p pr))). split_and!.
        -- by apply (insert_fixup_loop_exit map s2 (InR (Br u g l) z :: c2) r p pr).
        -- done.
        -- rewrite (inorder_rotate c2 u g l z (Br r p pr)).
           symmetry. apply (inorder_rotate (InR u g :: c2) l z r p pr).
        -- eauto using surgery_trans.
        -- destruct Hn as [(-> & -> & ->)|[Hn|Hn]].
           ++ right. exists c2, (Br u g Leaf), p, pr. split_and!; [done|done|].
              rewrite Ho2, Hc1; [done| |].
              ** intros [= ->]. apply Hpz. simpl. set_solver.
              ** intros [= ->]. apply HgP. simpl. set_solver.
           ++ left. by apply leaf_in_plug, leaf_in_l, leaf_in_r.
           ++ left. by apply leaf_in_plug, leaf_in_r, leaf_in_l.
        -- intros k Hz Hrb Hcrb.
           destruct (rb_red_node _ _ _ _ _ Hrb Hz) as (Cl & Cr & Hl & Hr).
           destruct (crb_red_parent (nodes s) (InL p pr) (InR u g :: c2) (Br l z r) _ _ _ k eq_refl
                       Hrb Hcrb Hcp) as (HPl & HPr & Hcg & Hcgb & Csib).
           destruct (crb_black_parent _ _ _ _ Hcg Hcgb) as [Hu Hc2].
           assert (HndF : NoDup (inorder (plug c2 (Br (Br u g l) z (Br r p pr)))))
             by (by destruct Ht2 as (_ & _ & _ & _ & ?)).
           pose proof HndF as HndT. apply NoDup_plug in HndT as (HndT & _ & _).
           pose proof (NoDup_two_level _ _ _ _ _ _ _ HndT) as (Hd1 & Hd2 & Hd3 & _).
           apply (rb_after_rotate (nodes s) (nodes s2) c2 u g l z r p pr k HndF Hu Hl Hr HPr Hcu Cl Cr Csib Hc2).
           ++ done.
           ++ rewrite Ho2, Hc1 by congruence. done.
           ++ done.
           ++ intros q ? ? ?. rewrite Ho2 by done. apply Hc1.
      * (* outer grandchild: one rotation *)
        apply NoDup_inorder_Br in HndP as (_ & _ & _ & _ & Hplz).
        rewrite (bind_eq _ _ _ _ _ (rd_left map s (InR u g :: c2) pl p _ HtP)).
        rewrite ptr_eqb_ne.
        2:{ intros Heq. symmetry in Heq. apply troot_inorder in Heq.
            apply (Hplz z); [done|simpl; set_solver]. }
        mstep_refl.
        destruct (outer_right_steps map s c2 l z r p pl g u
                    (insert_fixup_loop (S fuel') map (Some z)) HtP)
          as (s1 & E1 & Ht1 & Hs1 & Hp1 & Hg1 & Ho1).
        rewrite E1.
        exists s1, (plug c2 (Br (Br u g pl) p (Br l z r))). split_and!.
        -- by apply (insert_fixup_loop_exit map s1 (InR (Br u g pl) p :: c2) l z r).
        -- done.
        -- apply (inorder_rotate c2 u g pl p (Br l z r)).
        -- done.
        -- left. by apply leaf_in_plug, leaf_in_r.
        -- intros k Hz Hrb Hcrb.
           destruct (rb_red_node _ _ _ _ _ Hrb Hz) as (Cl & Cr & Hl & Hr).
           destruct (crb_red_parent (nodes s) (InR pl p) (InR u g :: c2) (Br l z r) _ _ _ k eq_refl
                       Hrb Hcrb Hcp) as (HPl & HPr & Hcg & Hcgb & Csib).
           destruct (crb_black_parent _ _ _ _ Hcg Hcgb) as [Hu Hc2].
           assert (HndF : NoDup (inorder (plug c2 (Br (Br u g pl) p (Br l z r)))))
             by (by destruct Ht1 as (_ & _ & _ & _ & ?)).
           pose proof HndF as HndT. apply NoDup_plug in HndT as (HndT & _ & _).
           pose proof (NoDup_two_level _ _ _ _ _ _ _ HndT) as (Hd1 & Hd2 & Hd3 & _).
           apply (rb_after_rotate (nodes s) (nodes s1) c2 u g pl p l z r k HndF Hu HPl Hl Hr Hcu Csib Cl Cr Hc2).
           ++ done.
           ++ rewrite Ho1 by congruence. done.
           ++ done.
           ++ intros q ? ? ?. by apply Ho1.
Qed.

Lemma insert_fixup_full map s c l z r n :
  tree_at map s (plug c (Br l z r)) →
  (c ≠ [] → color_of (nodes s) (troot (plug c (Br l z r))) = RB_BLACK) →
  inserted_under n l z r →
  ∃ s' t', insert_fixup map (Some z) s = Some (tt, s')
           ∧ tree_at map s' t'
           ∧ inorder t' = inorder (plug c (Br l z r))
           ∧ surgery map s s'
           ∧ inserted_shape n (nodes s') t'
           ∧ color_of (nodes s') (troot t') = RB_BLACK
           ∧ (∀ k, color_of (nodes s) (Some z) = RB_RED → rb (nodes s) (Br l z r) k →
                   crb (nodes s) c k → ∃ K, rb (nodes s') t' K).
Proof.
  intros Ht Hroot Hn. unfold insert_fixup. rewrite get_fuel_eq.
  pose proof Ht as (m0 & _ & _ & Hrep0 & Hnd0).
  destruct (fuel_for_subtree s c (Br l z r) Hrep0 Hnd0) as [_ Hfuel].
  destruct (insert_fixup_loop_full _ map s c l z r n Ht Hfuel Hroot Hn)
    as (s1 & t1 & E1 & Ht1 & Hin1 & Hs1 & Hsh1 & Hrb1).
  rewrite (bind_eq _ _ _ _ _ E1).
  pose proof Ht1 as (m1 & Hm1 & Hr1 & Hrep1 & Hnd1).
  rewrite (bind_eq _ _ _ _ _ (rdm_eq _ _ _ _ Hm1)). rewrite Hr1.
  destruct t1 as [|tl x tr].
  { exfalso. rewrite inorder_plug in Hin1. simpl in Hin1.
    symmetry in Hin1. apply app_eq_nil in Hin1 as [_ Hin1]. apply app_eq_nil in Hin1 as [Hin1 _].
    apply app_eq_nil in Hin1 as [_ Hin1]. done. }
  cbn [troot].
  destruct (set_color_spec map s1 _ x RB_BLACK Ht1) as (s2 & E2 & Ht2 & Hs2 & Hc2 & Ho2).
  { simpl. set_solver. }
  exists s2, (Br tl x tr). split_and!; try done.
  3:{ intros k Hz Hrb Hcrb. destruct (Hrb1 k Hz Hrb Hcrb) as [K HK].
      by apply (rb_blacken (nodes s1) (nodes s2) tl x tr K). }
  - eauto using surgery_trans.
  - destruct Hsh1 as [Hl|(c' & l' & y & r' & Heq & Hl' & Hy)]; [by left|right].
    exists c', l', y, r'. split_and!; [done|done|].
    rewrite Ho2; [done|]. intros [= ->]. rewrite Heq in Hnd1.
    destruct c' as [|f c'].
    + simpl in Heq. injection Heq as -> -> ->.
      apply NoDup_inorder_Br in Hnd1 as (_ & _ & _ & Hx & _). apply Hx. simpl. set_solver.
    + assert (Hne : troot (plug (f :: c') (Br l' n (Br Leaf x r'))) ≠ Some x).
      { apply troot_plug_ne; [done|done|simpl; set_solver]. }
      by rewrite <- Heq in Hne.
Qed.

(** * Insertion: what it stores, what it keeps, how it fails *)

(** [materialize] with the allocator and the identity of the result. *)
Lemma materialize_outcome size copy o s :
  readable size o →
  ∃ r s', materialize size copy (Some o) s = Some (r, s')
          ∧ nodes s' = nodes s ∧ maps s' = maps s ∧ iters s' = iters s
          ∧ trace s' = trace s
          ∧ match r with
            | Some g =>
                stored_bytes size copy (obj_bytes o) = Some (obj_bytes g)
                ∧ (size = 0%N → copy = None → g = o)
                ∧ avail s = (avail s' + if (0 <? size)%N then 1 else 0)%nat
            | None => checked size copy = true ∧ avail s' = avail s
                      ∧ (avail s = 0%nat ∨ stored_bytes size copy (obj_bytes o) = None)
            end.
Proof.
  intros Hrd. unfold materialize, stored_bytes, checked, readable in *.
  destruct (0 <? size)%N eqn:Hsz.
  - apply N.ltb_lt in Hsz. specialize (Hrd Hsz).
    unfold bind, malloc_bytes. destruct (avail s) as [|k] eqn:Hav.
    + exists NULL, s. rewrite Hav. split_and!; try done. by left.
    + unfold memcpy_read. rewrite !decide_True by done. cbn.
      eexists (Some _), _. split; [done|]. simpl. split_and!; try done; lia.
  - destruct copy as [f|]; simpl.
    + destruct (f (obj_bytes o)) as [bs|] eqn:Hf.
      * eexists (Some _), _. split; [done|]. simpl. split_and!; try done; lia.
      * exists NULL, s. split_and!; try done. by right.
    + exists (Some o), s. split_and!; try done; lia.
Qed.

(** [create_node] in full: the node it makes, or on failure a memory in
    which nothing is left of the attempt but, possibly, a release of the
    key it had materialised. *)
Lemma create_node_outcome ko vo cfg s :
  readable (Config.key_size cfg) ko → readable (Config.value_size cfg) vo →
  ∃ r s', create_node (Some ko) (Some vo) cfg s = Some (r, s')
          ∧ maps s' = maps s ∧ iters s' = iters s
          ∧ match r with
            | Some a =>
                ∃ gk gv,
                  nodes s !! a = None
                  ∧ nodes s' = <[a := Node.Make (Some gk) (Some gv) NIL NIL NIL RB_RED]> (nodes s)
                  ∧ trace s' = trace s
                  ∧ stored_bytes (Config.key_size cfg) (Config.key_copy cfg) (obj_bytes ko)
                    = Some (obj_bytes gk)
                  ∧ stored_bytes (Config.value_size cfg) (Config.value_copy cfg) (obj_bytes vo)
                    = Some (obj_bytes gv)
                  ∧ (Config.key_size cfg = 0%N → Config.key_copy cfg = None → gk = ko)
                  ∧ (Config.value_size cfg = 0%N → Config.value_copy cfg = None → gv = vo)
                  ∧ (avail s' < avail s ≤ avail s' + 3)%nat
            | None =>
                nodes s' = nodes s ∧ avail s' = avail s
                ∧ (trace s' = trace s
                   ∨ ∃ gk, stored_bytes (Config.key_size cfg) (Config.key_copy cfg)
                             (obj_bytes ko) = Some (obj_bytes gk)
                           ∧ (Config.key_size cfg = 0%N → Config.key_copy cfg = None → gk = ko)
                           ∧ trace s' = trace s ++ key_release cfg (Some gk))
                ∧ ((avail s < 3)%nat
                   ∨ stored_bytes (Config.key_size cfg) (Config.key_copy cfg) (obj_bytes ko) = None
                   ∨ stored_bytes (Config.value_size cfg) (Config.value_copy cfg) (obj_bytes vo)
                     = None)
            end.
Proof.
  intros Hk Hv. unfold create_node.
  unfold bind at 1. unfold malloc_node.
  destruct (avail s) as [|k] eqn:Hav.
  { exists NIL, s. split_and!; try done; [by left|left; lia]. }
  set (a := fresh (dom (nodes s))).
  assert (Ha : nodes s !! a = None) by apply not_elem_of_dom, is_fresh.
  cbn [is_nil].
  set (s0 := set_avail k (set_nodes (<[a := Node.blank]> (nodes s)) s)).
  destruct (materialize_outcome (Config.key_size cfg) (Config.key_copy cfg) ko s0 Hk)
    as (rk & s1 & E1 & Hn1 & Hm1 & Hi1 & Ht1 & Hrk).
  rewrite (bind_eq _ _ _ _ _ E1).
  assert (Ha1 : nodes s1 !! a = Some Node.blank) by (rewrite Hn1; apply lookup_insert_eq).
  rewrite (bind_eq _ _ _ _ _ (wr_eq _ _ _ _ Ha1)).
  destruct rk as [gk|].
  2:{ destruct Hrk as (Hrk & Hav1 & Hwhy1). rewrite Hrk. cbn [andb is_null].
      unfold bind, free_node. cbn [nodes set_nodes]. rewrite lookup_insert_eq.
      eexists NIL, _. split; [done|]. simpl. split_and!; try done.
      - rewrite delete_insert_eq, Hn1. simpl. rewrite delete_insert_eq. by apply delete_id.
      - rewrite Hav1. done.
      - left. by rewrite Ht1.
      - destruct Hwhy1 as [Hz|Hnone]; [left; subst s0; simpl in Hz; lia|right; by left]. }
  destruct Hrk as (Hsk & Hbk & Hav1).
  rewrite andb_false_r.
  set (s2 := set_nodes _ s1).
  destruct (materialize_outcome (Config.value_size cfg) (Config.value_copy cfg) vo s2 Hv)
    as (rv & s3 & E3 & Hn3 & Hm3 & Hi3 & Ht3 & Hrv).
  rewrite (bind_eq _ _ _ _ _ E3).
  assert (Ha3 : nodes s3 !! a = Some (Node.set_key (Some gk) Node.blank)).
  { rewrite Hn3. apply lookup_insert_eq. }
  rewrite (bind_eq _ _ _ _ _ (wr_eq _ _ _ _ Ha3)).
  destruct rv as [gv|].
  2:{ destruct Hrv as (Hrv & Hav3 & Hwhy3). rewrite Hrv. cbn [andb is_null].
      erewrite bind_eq; [|apply rd_eq; cbn [nodes set_nodes]; apply lookup_insert_eq].
      cbn [Node.key Node.set_value Node.set_key].
      match goal with |- context [bind ?rel _ ?st] =>
        destruct (release_step (Config.key_size cfg) (Config.key_destructor cfg) (Some gk)
                    EvKeyDestructor st) as (s4 & E4 & Hn4 & Hm4 & Hi4 & Hb4 & Ht4 & Ha4)
      end.
      rewrite (bind_eq _ _ _ _ _ E4).
      unfold bind, free_node. rewrite Hn4. cbn [nodes set_nodes]. rewrite lookup_insert_eq.
      eexists NIL, _. split; [done|].
      subst s2 s0. simpl in *. split_and!.
      - congruence.
      - congruence.
      - rewrite delete_insert_eq, Hn3, delete_insert_eq, Hn1, delete_insert_eq.
        by apply delete_id.
      - rewrite Ha4, Hav3. destruct (0 <? Config.key_size cfg)%N; lia.
      - right. exists gk. split_and!; [done..|]. unfold key_release. rewrite Ht4. congruence.
      - destruct Hwhy3 as [Hz|Hnone]; [left|right; by right].
        destruct (0 <? Config.key_size cfg)%N; lia. }
  destruct Hrv as (Hsv & Hbv & Hav3).
  rewrite andb_false_r.
  do 4 (erewrite bind_eq; [|apply wr_eq; cbn [nodes set_nodes]; apply lookup_insert_eq]).
  eexists (Some a), _. split; [done|].
  subst s2 s0. simpl in *. split_and!.
  - congruence.
  - congruence.
  - exists gk, gv. split_and!; try done.
    + rewrite !insert_insert_eq. rewrite Hn3, insert_insert_eq, Hn1.
      by rewrite insert_insert_eq.
    + congruence.
    + destruct (0 <? Config.key_size cfg)%N, (0 <? Config.value_size cfg)%N; lia.
    + destruct (0 <? Config.key_size cfg)%N, (0 <? Config.value_size cfg)%N; lia.
Qed.

(** [ordered_map_insert] of a key that no node holds, in full: either
    success, with the new node, the allocations it took and an unchanged
    trace, or out-of-memory with the contents untouched. *)
Lemma insert_new_outcome s map t m cmp ko vo :
  well_formed s map t → maps s !! map = Some m →
  Config.key_compare (Map.config m) = Some cmp →
  find_key cmp (nodes s) (obj_bytes ko) (inorder t) = NIL →
  readable (Config.key_size (Map.config m)) ko →
  readable (Config.value_size (Map.config m)) vo →
  (∀ kb, stored_bytes (Config.key_size (Map.config m)) (Config.key_copy (Map.config m))
           (obj_bytes ko) = Some kb → cmp (obj_bytes ko) kb = 0) →
  ∃ e s',
    ordered_map_insert (Some map) (Some ko) (Some vo) s = Some (e, s')
    ∧ ((e = ORDERED_MAP_SUCCESS
        ∧ ∃ n gk gv c t' m',
            nodes s !! n = None
            ∧ t = plug c Leaf
            ∧ inorder t' = inorder (plug c (Br Leaf n Leaf))
            ∧ well_formed s' map t'
            ∧ payload <$> nodes s' !! n = Some (Some gk, Some gv)
            ∧ stored_bytes (Config.key_size (Map.config m)) (Config.key_copy (Map.config m))
                (obj_bytes ko) = Some (obj_bytes gk)
            ∧ stored_bytes (Config.value_size (Map.config m)) (Config.value_copy (Map.config m))
                (obj_bytes vo) = Some (obj_bytes gv)
            ∧ (Config.key_size (Map.config m) = 0%N → Config.key_copy (Map.config m) = None →
               gk = ko)
            ∧ (Config.value_size (Map.config m) = 0%N →
               Config.value_copy (Map.config m) = None → gv = vo)
            ∧ (∀ a, a ≠ n → payload <$> nodes s' !! a = payload <$> nodes s !! a)
            ∧ maps s' !! map = Some m'
            ∧ Map.config m' = Map.config m
            ∧ Map.size m' = size_incr (Map.size m)
            ∧ iters s' = iters s
            ∧ trace s' = trace s
            ∧ (avail s' < avail s ≤ avail s' + 3)%nat
            ∧ (∀ N, rb (nodes s) t N → ∃ N', rb (nodes s') t' N'))
       ∨ (e = ORDERED_MAP_ERROR_OUT_OF_MEMORY
          ∧ nodes s' = nodes s ∧ maps s' = maps s ∧ iters s' = iters s
          ∧ avail s' = avail s
          ∧ (trace s' = trace s
             ∨ ∃ gk, stored_bytes (Config.key_size (Map.config m))
                       (Config.key_copy (Map.config m)) (obj_bytes ko) = Some (obj_bytes gk)
                     ∧ (Config.key_size (Map.config m) = 0%N →
                        Config.key_copy (Map.config m) = None → gk = ko)
                     ∧ trace s' = trace s ++ key_release (Map.config m) (Some gk))
          ∧ ((avail s < 3)%nat
             ∨ stored_bytes (Config.key_size (Map.config m)) (Config.key_copy (Map.config m))
                 (obj_bytes ko) = None
             ∨ stored_bytes (Config.value_size (Map.config m))
                 (Config.value_copy (Map.config m)) (obj_bytes vo) = None))).
Proof.
  intros Hwf Hm Hcmp Hfind Hrk Hrv Hfaith.
  destruct (well_formed_inv _ _ _ _ _ Hwf Hm Hcmp)
    as (Hroot & Hlaws & Hsz & Hrep & Hnd & Hpay & Hord & Hblack).
  unfold ordered_map_insert. cbn [is_null orb].
  do 2 mstep.
  rewrite (bind_eq _ _ _ _ _ (tree_search_spec s map t m cmp ko Hwf Hm Hcmp)).
  rewrite Hfind. cbn [is_nil negb].
  destruct (create_node_outcome ko vo (Map.config m) s Hrk Hrv)
    as (r & s1 & E1 & Hm1 & Hi1 & Hr).
  rewrite (bind_eq _ _ _ _ _ E1).
  destruct r as [n|]; cbn [is_nil].
  2:{ destruct Hr as (Hn1 & Ha1 & Ht1 & Hwhy). eexists _, _. split; [done|]. right.
      by split_and!. }
  destruct Hr as (gk & gv & Hfresh & Hn1 & Ht1 & Hsk & Hsv & Hbk & Hbv & Hav).
  set (N0 := Node.Make (Some gk) (Some gv) NIL NIL NIL RB_RED) in *.
  assert (HmS1 : maps s1 !! map = Some m) by (by rewrite Hm1).
  rewrite (bind_eq _ _ _ _ _ (rdm_eq Map.root _ _ _ HmS1)).
  rewrite get_fuel_eq.
  assert (Hnt : n ∉ inorder t).
  { intros Hin. destruct (rep_lookup _ _ _ _ Hrep Hin) as [x Hx]. congruence. }
  assert (Hsame : ∀ a, a ≠ n → nodes s1 !! a = nodes s !! a).
  { intros a Ha. rewrite Hn1. by apply lookup_insert_ne. }
  assert (Hint : ∀ a, a ∈ inorder t → a ≠ n) by (intros a Ha ->; done).
  assert (Hkb1 : ∀ a, a ∈ inorder t → key_bytes (nodes s1) a = key_bytes (nodes s) a).
  { intros a Ha. unfold key_bytes. by rewrite Hsame by auto. }
  assert (Hrep1 : rep (nodes s1) t NIL) by (apply (rep_ext (nodes s)); auto).
  assert (Hpay1 : payloads (Map.config m) (nodes s1) t).
  { intros a Ha. rewrite Hsame by auto. by apply Hpay. }
  assert (Hord1 : ordered cmp (nodes s1) (inorder t)) by (by apply (ordered_ext_in cmp (nodes s))).
  assert (Hn1' : nodes s1 !! n = Some N0) by (rewrite Hn1; apply lookup_insert_eq).
  assert (Hne1 : ∀ a, a ∈ inorder t → cmp (obj_bytes gk) (key_bytes (nodes s1) a) ≠ 0).
  { intros a Ha. rewrite Hkb1 by done.
    apply (cmp_equiv_ne cmp (obj_bytes ko)); [done|by apply Hfaith|].
    by apply (find_key_None cmp Hlaws (nodes s) _ (inorder t)). }
  destruct (insert_descend_spec cmp (Map.config m) s1 n N0 gk t Hlaws Hn1' eq_refl
              NIL NIL (S (size (nodes s1))) Hrep1 Hpay1 Hord1 Hne1)
    as (c & E2 & Hplug & Hbefore & Hafter).
  { by apply rep_height_lt_fuel with NIL. }
  rewrite Hroot, Hcmp. rewrite (bind_eq _ _ _ _ _ E2).
  assert (Hy : (if c is [] then NIL else cparent c) = cparent c) by (by destruct c).
  rewrite Hy. clear Hy E2.
  subst t.
  destruct (link_spec map m s1 (Map.config m) cmp c n N0 gk
              (do_ insert_fixup map (Some n);
               do sz <- rdm Map.size map;
               do_ wrm (Map.set_size (size_incr sz)) map;
               do_ record_insert map true;
               ret ORDERED_MAP_SUCCESS)
              Hlaws HmS1 Hroot Hrep1 Hnd Hpay1 Hn1' Hnt eq_refl eq_refl eq_refl Hbefore Hafter)
    as (s3 & E3 & Ht3 & Hs3 & Hc3).
  rewrite E3. clear E3.
  destruct (insert_fixup_full map s3 c Leaf n Leaf n Ht3)
    as (s4 & t4 & E4 & Ht4 & Hin4 & Hs4 & Hsh4 & Hb4 & Hrb4).
  { intros Hc. rewrite Hc3. destruct c as [|f c]; [done|].
    rewrite (troot_plug_cons f c _ Leaf). rewrite Hn1, color_of_insert_ne; [done|].
    intros Heq. apply troot_inorder in Heq. done. }
  { by left. }
  rewrite (bind_eq _ _ _ _ _ E4).
  pose proof Ht4 as (m4 & Hm4 & Hr4 & Hrep4 & Hnd4).
  assert (Hh4 : header m4 = header m).
  { pose proof (surgery_header _ _ _ Hs4) as H4. pose proof (surgery_header _ _ _ Hs3) as H3.
    rewrite H3, HmS1, Hm4 in H4. simpl in H4. congruence. }
  injection Hh4 as Hcfg4 Hsz4 Hst4 Hen4.
  rewrite (bind_eq _ _ _ _ _ (rdm_eq Map.size _ _ _ Hm4)).
  rewrite (bind_eq _ _ _ _ _ (wrm_eq _ _ _ _ Hm4)).
  set (m5 := Map.set_size (size_incr (Map.size m4)) m4).
  set (s5 := set_maps (<[map := m5]> (maps s4)) s4).
  assert (Hm5 : maps s5 !! map = Some m5) by (simpl; apply lookup_insert_eq).
  destruct (record_insert_spec map m5 s5 t4 true Hm5 Hr4 Hrep4 Hnd4) as (s6 & E6 & Hs6).
  rewrite (bind_eq _ _ _ _ _ E6).
  eexists _, s6. split; [done|]. left. split; [done|].
  assert (Hpl : ∀ a, payload <$> nodes s4 !! a = payload <$> nodes s1 !! a).
  { intros a. rewrite (surgery_payload _ _ _ Hs4). apply (surgery_payload _ _ _ Hs3). }
  assert (Hin4' : inorder t4 = cbefore c ++ n :: cafter c).
  { rewrite Hin4, inorder_plug. done. }
  assert (Hwf5 : well_formed s5 map t4).
  { exists m5, cmp. split_and!; try done.
    - simpl. by rewrite Hcfg4.
    - simpl. apply N.mod_lt. done.
    - intros a Ha. rewrite Hin4' in Ha.
      assert (∃ nd ko' vo', nodes s1 !! a = Some nd ∧ Node.key nd = Some ko'
                ∧ Node.value nd = Some vo'
                ∧ ((0 < Config.value_size (Map.config m))%N →
                   length (obj_bytes vo') = N.to_nat (Config.value_size (Map.config m))))
        as (nd & ko' & vo' & Hnd1 & Hk' & Hv' & Hlen).
      { destruct (decide (a = n)) as [->|Hne].
        - exists N0, gk, gv. split_and!; try done. intros Hpos.
          unfold stored_bytes in Hsv. apply N.ltb_lt in Hpos. rewrite Hpos in Hsv.
          destruct (decide _) as [Hle|]; [|done]. injection Hsv as <-.
          rewrite length_take. lia.
        - rewrite Hsame by done. apply Hpay. rewrite inorder_plug. simpl. set_solver. }
      specialize (Hpl a). rewrite Hnd1 in Hpl. simpl in Hpl.
      destruct (nodes s4 !! a) as [nd4|] eqn:Hnd4'; [|done]. injection Hpl as Hk4 Hv4.
      exists nd4, ko', vo'. simpl. rewrite Hcfg4. split_and!; [done|congruence|congruence|exact Hlen].
    - simpl. rewrite Hin4'.
      apply (ordered_ext_in cmp (nodes s1)); [intros a _; by apply key_bytes_payload|].
      apply StronglySorted_insert.
      + rewrite inorder_plug in Hord1. done.
      + intros a Ha. rewrite (key_bytes_eq _ _ _ _ Hn1' eq_refl). by apply Hbefore.
      + intros a Ha. rewrite (key_bytes_eq _ _ _ _ Hn1' eq_refl). by apply Hafter. }
  pose proof (well_formed_same_contents _ _ _ _ Hwf5 Hs6) as Hwf6.
  destruct Hs6 as (Hn6 & Ht6 & Hi6 & Ha6 & _ & m5' & m6 & Hm5' & Hm6 & Hr6 & Hsz6 & Hcfg6).
  rewrite Hm5 in Hm5'. injection Hm5' as <-.
  exists n, gk, gv, c, t4, m6. split_and!; try done.
  - rewrite Hn6. simpl. by rewrite Hpl, Hn1'.
  - intros a Ha. rewrite Hn6. simpl. by rewrite Hpl, Hsame.
  - by rewrite Hcfg6.
  - rewrite Hsz6. simpl. by rewrite Hsz4.
  - rewrite Hi6. simpl. rewrite (surgery_iters _ _ _ Hs4), (surgery_iters _ _ _ Hs3). done.
  - rewrite Ht6. simpl. rewrite (surgery_trace _ _ _ Hs4), (surgery_trace _ _ _ Hs3). done.
  - rewrite Ha6. simpl. rewrite (surgery_avail _ _ _ Hs4), (surgery_avail _ _ _ Hs3). lia.
  - rewrite Ha6. simpl. rewrite (surgery_avail _ _ _ Hs4), (surgery_avail _ _ _ Hs3). lia.
  - intros N HN. rewrite Hn6. simpl.
    destruct (rb_unplug (nodes s) c Leaf N HN) as (k & Hk & Hck & _).
    cbn [rb] in Hk. subst k.
    assert (Hcol : ∀ a, a ≠ n → color_of (nodes s3) (Some a) = color_of (nodes s) (Some a)).
    { intros a Ha. rewrite Hc3, Hn1. apply color_of_insert_ne. congruence. }
    assert (Hcn : color_of (nodes s3) (Some n) = RB_RED).
    { rewrite Hc3. simpl. by rewrite Hn1'. }
    apply (Hrb4 0%nat).
    + exact Hcn.
    + cbn [rb troot]. rewrite Hcn. done.
    + apply (crb_ext (nodes s)); [|done]. intros a Ha. apply Hcol, Hint.
      rewrite inorder_plug. simpl. done.
Qed.

Lemma well_formed_same_memory s s' map t :
  well_formed s map t → nodes s' = nodes s → maps s' = maps s → well_formed s' map t.
Proof.
  intros (m & cmp & H) Hn Hm. exists m, cmp. by rewrite Hn, Hm.
Qed.

Lemma find_key_skip cmp h kb l1 n l2 :
  cmp kb (key_bytes h n) ≠ 0 →
  find_key cmp h kb (l1 ++ n :: l2) = find_key cmp h kb (l1 ++ l2).
Proof.
  intros Hne. unfold find_key. by rewrite !filter_app, filter_cons_False.
Qed.

Lemma cmp_equiv_ne_r cmp a b c :
  comparator_laws cmp → cmp a b = 0 → cmp c a ≠ 0 → cmp c b ≠ 0.
Proof.
  intros Hlaws Hab Hca Hcb.
  apply (cmp_eq_sym cmp Hlaws) in Hcb.
  assert (cmp a c ≠ 0) as Hac.
  { intros H. apply (cmp_eq_sym cmp Hlaws) in H. done. }
  by apply (cmp_equiv_ne cmp a b c Hlaws Hab Hac).
Qed.

(** What [ordered_map_insert] leaves behind, whichever path it takes. *)
Lemma insert_outcome s map t m cmp ko vo :
  well_formed s map t → maps s !! map = Some m →
  Config.key_compare (Map.config m) = Some cmp →
  readable (Config.key_size (Map.config m)) ko →
  readable (Config.value_size (Map.config m)) vo →
  (∀ kb, stored_bytes (Config.key_size (Map.config m)) (Config.key_copy (Map.config m))
           (obj_bytes ko) = Some kb → cmp (obj_bytes ko) kb = 0) →
  ∃ e s1 t1 m1,
    ordered_map_insert (Some map) (Some ko) (Some vo) s = Some (e, s1)
    ∧ well_formed s1 map t1
    ∧ maps s1 !! map = Some m1
    ∧ Map.config m1 = Map.config m
    ∧ (e = ORDERED_MAP_SUCCESS ∨ e = ORDERED_MAP_ERROR_OUT_OF_MEMORY)
    ∧ (e = ORDERED_MAP_SUCCESS →
       ∃ a g, find_key cmp (nodes s1) (obj_bytes ko) (inorder t1) = Some a
              ∧ (binding (nodes s1) a).2 = Some g
              ∧ stored_bytes (Config.value_size (Map.config m))
                  (Config.value_copy (Map.config m)) (obj_bytes vo) = Some (obj_bytes g)
              ∧ (Config.value_size (Map.config m) = 0%N →
                 Config.value_copy (Map.config m) = None → g = vo))
    ∧ (∀ kb', cmp kb' (obj_bytes ko) ≠ 0 →
         find_key cmp (nodes s1) kb' (inorder t1) = find_key cmp (nodes s) kb' (inorder t)
         ∧ ∀ b, find_key cmp (nodes s) kb' (inorder t) = Some b →
                binding (nodes s1) b = binding (nodes s) b)
    ∧ (∀ N, rb (nodes s) t N → ∃ N1, rb (nodes s1) t1 N1).
Proof.
  intros Hwf Hm Hcmp Hrk Hrv Hfaith.
  destruct (well_formed_inv _ _ _ _ _ Hwf Hm Hcmp)
    as (Hroot & Hlaws & Hsz & Hrep & Hnd & Hpay & Hord & Hblack).
  destruct (find_key cmp (nodes s) (obj_bytes ko) (inorder t)) as [a|] eqn:Hfind.
  - (* the key is there *)
    pose proof (find_key_Some cmp Hlaws _ _ _ _ Hfind) as [Ha Hmatch].
    destruct (rep_lookup _ _ _ _ Hrep Ha) as [n Hn].
    destruct (stored_bytes (Config.value_size (Map.config m)) (Config.value_copy (Map.config m))
                (obj_bytes vo)) as [bs|] eqn:Hstored.
    + destruct (insert_existing_spec s map t m cmp ko vo a n bs Hwf Hm Hcmp Hfind Hn Hstored)
        as (s1 & g & E & Hg & Hborrow & Hn1 & _ & _ & (m1 & Hm1 & _ & _ & Hc1) & Hwf1).
      assert (Hkb : ∀ b, key_bytes (nodes s1) b = key_bytes (nodes s) b).
      { intros b. rewrite Hn1. by eapply key_bytes_insert. }
      exists ORDERED_MAP_SUCCESS, s1, t, m1. split_and!; try done; [by left| | |].
      3:{ intros N HN. exists N. apply (rb_ext (nodes s)); [|done]. intros b _.
          rewrite Hn1. by apply (color_of_insert _ _ n). }
      * intros _. exists a, g. split_and!; [|..|done].
        -- by rewrite (find_key_ext cmp (nodes s)).
        -- unfold binding. by rewrite Hn1, lookup_insert_eq.
        -- by rewrite Hg.
      * intros kb' Hne. split; [by rewrite (find_key_ext cmp (nodes s))|].
        intros b Hb. unfold binding. rewrite Hn1, lookup_insert_ne; [done|].
        intros <-. apply (find_key_Some cmp Hlaws) in Hb as [_ Hb].
        exact (cmp_equiv_ne_r cmp _ _ kb' Hlaws Hmatch Hne Hb).
    + destruct (insert_existing_oom s map t m cmp ko vo a Hwf Hm Hcmp Hfind Hstored)
        as [Hpos|(s1 & E & Hn1 & Hm1)].
      * exfalso. unfold stored_bytes in Hstored. specialize (Hrv Hpos).
        apply N.ltb_lt in Hpos. rewrite Hpos in Hstored. by rewrite decide_True in Hstored.
      * exists ORDERED_MAP_ERROR_OUT_OF_MEMORY, s1, t, m. split_and!; try done.
        -- by apply (well_formed_same_memory s).
        -- by rewrite Hm1.
        -- by right.
        -- intros kb' _. by rewrite Hn1.
        -- intros N HN. exists N. by rewrite Hn1.
  - (* the key is new *)
    destruct (insert_new_outcome s map t m cmp ko vo Hwf Hm Hcmp Hfind Hrk Hrv Hfaith)
      as (e & s1 & E & [[-> Hok]|(-> & Hn1 & Hm1 & _)]).
    + destruct Hok as (n & gk & gv & c & t1 & m1 & Hfresh & Ht & Hin1 & Hwf1 & Hpn & Hsk & Hsv
                       & _ & Hbv & Hpl & HmS1 & Hc1 & _ & _ & _ & _ & Hrb).
      assert (Hcmp1 : Config.key_compare (Map.config m1) = Some cmp) by (by rewrite Hc1).
      destruct (well_formed_inv _ _ _ _ _ Hwf1 HmS1 Hcmp1)
        as (_ & _ & _ & _ & _ & _ & Hord1 & _).
      rewrite inorder_plug in Hin1. simpl in Hin1.
      destruct (nodes s1 !! n) as [nd|] eqn:Hnd1; [|done]. injection Hpn as Hk Hv.
      assert (Hkn : key_bytes (nodes s1) n = obj_bytes gk) by (by apply (key_bytes_eq _ _ nd)).
      assert (Hold : ∀ b, b ∈ inorder t → b ≠ n).
      { intros b Hb ->. destruct (rep_lookup _ _ _ _ Hrep Hb) as [x Hx]. congruence. }
      exists ORDERED_MAP_SUCCESS, s1, t1, m1. split_and!; try done; [by left| |].
      * intros _. exists n, gv. split_and!; try done.
        -- apply (find_key_unique cmp Hlaws); [done|rewrite Hin1; set_solver|].
           rewrite Hkn. by apply Hfaith.
        -- unfold binding. by rewrite Hnd1, Hv.
      * intros kb' Hne.
        assert (Hskip : find_key cmp (nodes s1) kb' (inorder t1)
                        = find_key cmp (nodes s) kb' (inorder t)).
        { rewrite Hin1, find_key_skip.
          - rewrite Ht, inorder_plug. simpl. apply find_key_ext_in.
            intros b Hb. apply key_bytes_payload, Hpl, Hold.
            rewrite Ht, inorder_plug. done.
          - rewrite Hkn. apply (cmp_equiv_ne_r cmp (obj_bytes ko)); [done|by apply Hfaith|done]. }
        split; [done|]. intros b Hb. apply binding_payload, Hpl, Hold.
        by apply (find_key_Some cmp Hlaws) in Hb as [Hb _].
    + exists ORDERED_MAP_ERROR_OUT_OF_MEMORY, s1, t, m. split_and!; try done.
      * by apply (well_formed_same_memory s).
      * by rewrite Hm1.
      * by right.
      * intros kb' _. by rewrite Hn1.
      * intros N HN. exists N. by rewrite Hn1.
Qed.

(** What a successful [ordered_map_insert] hands to the destructors:
    nothing when the key is new, and what the update path hands to the
    value destructor when a node holds the key. *)
Lemma insert_success_events s map t m cmp ko vo s1 :
  well_formed s map t → maps s !! map = Some m →
  Config.key_compare (Map.config m) = Some cmp →
  readable (Config.key_size (Map.config m)) ko →
  readable (Config.value_size (Map.config m)) vo →
  (∀ kb, stored_bytes (Config.key_size (Map.config m)) (Config.key_copy (Map.config m))
           (obj_bytes ko) = Some kb → cmp (obj_bytes ko) kb = 0) →
  ordered_map_insert (Some map) (Some ko) (Some vo) s = Some (ORDERED_MAP_SUCCESS, s1) →
  trace s1 = trace s ++ match find_key cmp (nodes s) (obj_bytes ko) (inorder t) with
                        | Some a => overwrite_release (Map.config m) (binding (nodes s) a).2
                        | None => []
                        end.
Proof.
  intros Hwf Hm Hcmp Hrk Hrv Hfaith E.
  destruct (well_formed_inv _ _ _ _ _ Hwf Hm Hcmp)
    as (Hroot & Hlaws & Hsz & Hrep & Hnd & Hpay & Hord & Hblack).
  destruct (find_key cmp (nodes s) (obj_bytes ko) (inorder t)) as [a|] eqn:Hfind.
  - pose proof (find_key_Some cmp Hlaws _ _ _ _ Hfind) as [Ha _].
    destruct (rep_lookup _ _ _ _ Hrep Ha) as [n Hn].
    assert (Hb : (binding (nodes s) a).2 = Node.value n) by (unfold binding; by rewrite Hn).
    rewrite Hb.
    destruct (stored_bytes (Config.value_size (Map.config m)) (Config.value_copy (Map.config m))
                (obj_bytes vo)) as [bs|] eqn:Hstored.
    + destruct (insert_existing_events s map t m cmp ko vo a n bs Hwf Hm Hcmp Hfind Hn Hstored)
        as (s' & E' & Ht).
      rewrite E in E'. apply (inj Some) in E'. by injection E' as <-.
    + destruct (insert_existing_oom s map t m cmp ko vo a Hwf Hm Hcmp Hfind Hstored)
        as [Hpos|(s' & E' & _)].
      * exfalso. unfold stored_bytes in Hstored. specialize (Hrv Hpos).
        apply N.ltb_lt in Hpos. rewrite Hpos in Hstored. by rewrite decide_True in Hstored.
      * rewrite E in E'. by apply (inj Some) in E'.
  - destruct (insert_new_outcome s map t m cmp ko vo Hwf Hm Hcmp Hfind Hrk Hrv Hfaith)
      as (e & s' & E' & [[-> Hok]|(-> & _)]).
    + destruct Hok as (n & gk & gv & c & t1 & m1 & _ & _ & _ & _ & _ & _ & _
                       & _ & _ & _ & _ & _ & _ & _ & Ht & _).
      rewrite E in E'. apply (inj Some) in E'. injection E' as <-.
      by rewrite app_nil_r.
    + rewrite E in E'. by apply (inj Some) in E'.
Qed.

(** X9.  Insert and lookup round trip.  On every well-formed map, for a
    key and a value that can be read and a key whose stored form the
    comparator finds equal to it, and unless the key is there on a map
    with a value destructor, [ordered_map_insert] returns success or
    out-of-memory; after a success [ordered_map_contains] finds the key,
    [ordered_map_get] returns a pointer to the stored form of the value
    just given: its first [value_size] bytes, what the copy hook made of
    it, or the caller's pointer itself in borrow mode; and the call has
    called no destructor hook and freed nothing.  The case left out is
    the one in which the update path hands the old value to the value
    destructor before it stores the new one. *)
Theorem insert_then_get (s : state) (map : positive) (t : tree) (m : Map.t)
    (cmp : list Z → list Z → Z) (ko vo : object) :
  well_formed s map t → maps s !! map = Some m →
  Config.key_compare (Map.config m) = Some cmp →
  readable (Config.key_size (Map.config m)) ko →
  readable (Config.value_size (Map.config m)) vo →
  (∀ kb, stored_bytes (Config.key_size (Map.config m)) (Config.key_copy (Map.config m))
           (obj_bytes ko) = Some kb → cmp (obj_bytes ko) kb = 0) →
  run (ordered_map_contains (Some map) (Some ko)) s = Some false
  ∨ Config.value_destructor (Map.config m) = false →
  ∃ e s1,
    ordered_map_insert (Some map) (Some ko) (Some vo) s = Some (e, s1)
    ∧ (e = ORDERED_MAP_SUCCESS ∨ e = ORDERED_MAP_ERROR_OUT_OF_MEMORY)
    ∧ (e = ORDERED_MAP_SUCCESS →
       run (ordered_map_contains (Some map) (Some ko)) s1 = Some true
       ∧ (∃ g, run (ordered_map_get (Some map) (Some ko)) s1 = Some (Some g)
               ∧ stored_bytes (Config.value_size (Map.config m))
                   (Config.value_copy (Map.config m)) (obj_bytes vo) = Some (obj_bytes g)
               ∧ (Config.value_size (Map.config m) = 0%N →
                  Config.value_copy (Map.config m) = None → g = vo))
       ∧ trace s1 = trace s).
Proof.
  intros Hwf Hm Hcmp Hrk Hrv Hfaith Hmode.
  destruct (insert_outcome s map t m cmp ko vo Hwf Hm Hcmp Hrk Hrv Hfaith)
    as (e & s1 & t1 & m1 & E & Hwf1 & Hm1 & Hc1 & He & Hok & _).
  exists e, s1. split_and!; [done..|]. intros Hs.
  destruct (Hok Hs) as (a & g & Hfind & Hval & Hsv & Hbv).
  assert (Hcmp1 : Config.key_compare (Map.config m1) = Some cmp) by (by rewrite Hc1).
  destruct (contains_spec s1 map t1 m1 cmp ko Hwf1 Hm1 Hcmp1) as (s2 & E2 & _).
  destruct (get_spec s1 map t1 m1 cmp ko Hwf1 Hm1 Hcmp1) as (s3 & E3 & _).
  unfold run. rewrite E2, E3, Hfind, Hval. split_and!; [done|by exists g|].
  rewrite Hs in E.
  rewrite (insert_success_events s map t m cmp ko vo s1 Hwf Hm Hcmp Hrk Hrv Hfaith E).
  destruct (find_key cmp (nodes s) (obj_bytes ko) (inorder t)) as [b|] eqn:Hb;
    [|by rewrite app_nil_r].
  destruct Hmode as [Habsent|Hnone].
  - destruct (contains_spec s map t m cmp ko Hwf Hm Hcmp) as (s0 & E0 & _).
    unfold run in Habsent. rewrite E0, Hb in Habsent. done.
  - by rewrite (overwrite_release_none _ _ Hnone), app_nil_r.
Qed.

Lemma plain_map : ∃ m, maps plain_state !! 1%positive = Some m ∧ Map.config m = plain_config.
Proof.
  assert (Hcfg : Map.config <$> maps plain_state !! 1%positive = Some plain_config)
    by reflexivity.
  destruct (maps plain_state !! 1%positive) as [m|]; [|done].
  injection Hcfg as Hcfg. by exists m.
Qed.

Lemma insert_then_get_witness :
  ∃ e s1,
    ordered_map_insert (Some 1%positive) (int_at 1 2) (int_at 2 55) plain_state = Some (e, s1)
    ∧ (e = ORDERED_MAP_SUCCESS ∨ e = ORDERED_MAP_ERROR_OUT_OF_MEMORY)
    ∧ (e = ORDERED_MAP_SUCCESS →
       run (ordered_map_contains (Some 1%positive) (int_at 1 2)) s1 = Some true
       ∧ (∃ g, run (ordered_map_get (Some 1%positive) (int_at 1 2)) s1 = Some (Some g)
               ∧ stored_bytes (Config.value_size plain_config) (Config.value_copy plain_config)
                   (bytes_of_int 55) = Some (obj_bytes g)
               ∧ (Config.value_size plain_config = 0%N →
                  Config.value_copy plain_config = None → g = Obj 2 (bytes_of_int 55)))
       ∧ trace s1 = trace plain_state).
Proof.
  destruct plain_map as (m & Hm & Hcfg). rewrite <- Hcfg.
  apply (insert_then_get plain_state 1 plain_tree m int_compare
           (Obj 1 (bytes_of_int 2)) (Obj 2 (bytes_of_int 55)) plain_well_formed Hm).
  - by rewrite Hcfg.
  - rewrite Hcfg. intros _. simpl. lia.
  - rewrite Hcfg. intros _. simpl. lia.
  - rewrite Hcfg. intros kb Hkb. vm_compute in Hkb. injection Hkb as <-. reflexivity.
  - right. by rewrite Hcfg.
Defined.

(** X10.  Insert leaves the other keys alone.  Under the conditions of
    X9 on the key and the value, in every ownership mode, whatever
    [ordered_map_insert] of a key returns, for every other key (one the
    comparator does not find equal to it) [ordered_map_get] returns the
    very pointer it returned before and [ordered_map_contains] answers as
    before. *)
Theorem insert_keeps_other_keys (s : state) (map : positive) (t : tree) (m : Map.t)
    (cmp : list Z → list Z → Z) (ko vo ko' : object) :
  well_formed s map t → maps s !! map = Some m →
  Config.key_compare (Map.config m) = Some cmp →
  readable (Config.key_size (Map.config m)) ko →
  readable (Config.value_size (Map.config m)) vo →
  (∀ kb, stored_bytes (Config.key_size (Map.config m)) (Config.key_copy (Map.config m))
           (obj_bytes ko) = Some kb → cmp (obj_bytes ko) kb = 0) →
  cmp (obj_bytes ko') (obj_bytes ko) ≠ 0 →
  ∃ e s1 r,
    ordered_map_insert (Some map) (Some ko) (Some vo) s = Some (e, s1)
    ∧ run (ordered_map_get (Some map) (Some ko')) s = Some r
    ∧ run (ordered_map_get (Some map) (Some ko')) s1 = Some r
    ∧ run (ordered_map_contains (Some map) (Some ko')) s1
      = run (ordered_map_contains (Some map) (Some ko')) s.
Proof.
  intros Hwf Hm Hcmp Hrk Hrv Hfaith Hother.
  destruct (insert_outcome s map t m cmp ko vo Hwf Hm Hcmp Hrk Hrv Hfaith)
    as (e & s1 & t1 & m1 & E & Hwf1 & Hm1 & Hc1 & _ & _ & Hkeep & _).
  destruct (Hkeep (obj_bytes ko') Hother) as [Hfind Hbind].
  assert (Hcmp1 : Config.key_compare (Map.config m1) = Some cmp) by (by rewrite Hc1).
  destruct (contains_spec s map t m cmp ko' Hwf Hm Hcmp) as (s2 & E2 & _).
  destruct (get_spec s map t m cmp ko' Hwf Hm Hcmp) as (s3 & E3 & _).
  destruct (contains_spec s1 map t1 m1 cmp ko' Hwf1 Hm1 Hcmp1) as (s2' & E2' & _).
  destruct (get_spec s1 map t1 m1 cmp ko' Hwf1 Hm1 Hcmp1) as (s3' & E3' & _).
  exists e, s1. eexists. unfold run. rewrite E, E2, E3, E2', E3', Hfind.
  split_and!; [done..| |done]. simpl.
  destruct (find_key cmp (nodes s) (obj_bytes ko') (inorder t)) as [b|] eqn:Hb; [|done].
  by rewrite (Hbind b eq_refl).
Qed.

Lemma insert_keeps_other_keys_witness :
  ∃ e s1 r,
    ordered_map_insert (Some 1%positive) (int_at 1 99) (int_at 2 55) demo_state = Some (e, s1)
    ∧ run (ordered_map_get (Some 1%positive) (int_at 3 7)) demo_state = Some r
    ∧ run (ordered_map_get (Some 1%positive) (int_at 3 7)) s1 = Some r
    ∧ run (ordered_map_contains (Some 1%positive) (int_at 3 7)) s1
      = run (ordered_map_contains (Some 1%positive) (int_at 3 7)) demo_state.
Proof.
  destruct demo_map as (m & Hm & Hcfg).
  apply (insert_keeps_other_keys demo_state 1 demo_tree m int_compare
           (Obj 1 (bytes_of_int 99)) (Obj 2 (bytes_of_int 55)) (Obj 3 (bytes_of_int 7))
           demo_well_formed Hm).
  - by rewrite Hcfg.
  - rewrite Hcfg. intros _. simpl. lia.
  - rewrite Hcfg. intros _. simpl. lia.
  - rewrite Hcfg. intros kb Hkb. vm_compute in Hkb. injection Hkb as <-. reflexivity.
  - vm_compute. discriminate.
Defined.

(** X11.  Insert keeps the map well formed.  Under the conditions of X9
    on the key and the value, in every ownership mode, whatever
    [ordered_map_insert] returns, the map is afterwards again a
    search tree whose header points at its root, with every address once,
    a key and a value in every node, keys strictly ascending in order
    under the comparator and a black root, and its configuration is the
    one it had. *)
Theorem insert_keeps_well_formed (s : state) (map : positive) (t : tree) (m : Map.t)
    (cmp : list Z → list Z → Z) (ko vo : object) :
  well_formed s map t → maps s !! map = Some m →
  Config.key_compare (Map.config m) = Some cmp →
  readable (Config.key_size (Map.config m)) ko →
  readable (Config.value_size (Map.config m)) vo →
  (∀ kb, stored_bytes (Config.key_size (Map.config m)) (Config.key_copy (Map.config m))
           (obj_bytes ko) = Some kb → cmp (obj_bytes ko) kb = 0) →
  ∃ e s1 t1 m1,
    ordered_map_insert (Some map) (Some ko) (Some vo) s = Some (e, s1)
    ∧ well_formed s1 map t1
    ∧ maps s1 !! map = Some m1
    ∧ Map.config m1 = Map.config m.
Proof.
  intros Hwf Hm Hcmp Hrk Hrv Hfaith.
  destruct (insert_outcome s map t m cmp ko vo Hwf Hm Hcmp Hrk Hrv Hfaith)
    as (e & s1 & t1 & m1 & E & Hwf1 & Hm1 & Hc1 & _).
  by exists e, s1, t1, m1.
Qed.

Lemma insert_keeps_well_formed_witness :
  ∃ e s1 t1 m1,
    ordered_map_insert (Some 1%positive) (int_at 1 99) (int_at 2 55) demo_state = Some (e, s1)
    ∧ well_formed s1 1 t1
    ∧ maps s1 !! 1%positive = Some m1
    ∧ Map.config m1 = int_config.
Proof.
  destruct demo_map as (m & Hm & Hcfg). rewrite <- Hcfg.
  apply (insert_keeps_well_formed demo_state 1 demo_tree m int_compare
           (Obj 1 (bytes_of_int 99)) (Obj 2 (bytes_of_int 55)) demo_well_formed Hm).
  - by rewrite Hcfg.
  - rewrite Hcfg. intros _. simpl. lia.
  - rewrite Hcfg. intros _. simpl. lia.
  - rewrite Hcfg. intros kb Hkb. vm_compute in Hkb. injection Hkb as <-. reflexivity.
Defined.

Lemma set_avail_nodes n s : nodes (set_avail n s) = nodes s.
Proof. reflexivity. Qed.

Lemma set_avail_maps n s : maps (set_avail n s) = maps s.
Proof. reflexivity. Qed.

Lemma stored_readable size copy o bs :
  stored_bytes size copy (obj_bytes o) = Some bs → readable size o.
Proof.
  unfold stored_bytes, readable. intros H Hpos. apply N.ltb_lt in Hpos. rewrite Hpos in H.
  by destruct (decide _).
Qed.

(** X12.  Insert does not fail without a reason.  On every well-formed
    map, when the key and the value can be stored (long enough for a
    fixed size, accepted by the copy hook where there is one), the
    comparator finds the stored key equal to the key given, and the
    allocator can serve three more requests, [ordered_map_insert] returns
    [ORDERED_MAP_SUCCESS], whether or not the key was there. *)
Theorem insert_succeeds_with_memory (s : state) (map : positive) (t : tree) (m : Map.t)
    (cmp : list Z → list Z → Z) (ko vo : object) (kb vb : list Z) :
  well_formed s map t → maps s !! map = Some m →
  Config.key_compare (Map.config m) = Some cmp →
  stored_bytes (Config.key_size (Map.config m)) (Config.key_copy (Map.config m))
    (obj_bytes ko) = Some kb →
  cmp (obj_bytes ko) kb = 0 →
  stored_bytes (Config.value_size (Map.config m)) (Config.value_copy (Map.config m))
    (obj_bytes vo) = Some vb →
  (3 ≤ avail s)%nat →
  ∃ s1, ordered_map_insert (Some map) (Some ko) (Some vo) s = Some (ORDERED_MAP_SUCCESS, s1).
Proof.
  intros Hwf Hm Hcmp Hsk Hfaith Hsv Hav.
  destruct (well_formed_inv _ _ _ _ _ Hwf Hm Hcmp)
    as (Hroot & Hlaws & Hsz & Hrep & Hnd & Hpay & Hord & Hblack).
  destruct (find_key cmp (nodes s) (obj_bytes ko) (inorder t)) as [a|] eqn:Hfind.
  - pose proof (find_key_Some cmp Hlaws _ _ _ _ Hfind) as [Ha _].
    destruct (Hpay a Ha) as (n & _ & _ & Hn & _).
    destruct (insert_existing_spec s map t m cmp ko vo a n vb Hwf Hm Hcmp Hfind Hn Hsv)
      as (s1 & g & E & _).
    by exists s1.
  - destruct (insert_new_outcome s map t m cmp ko vo Hwf Hm Hcmp Hfind
                (stored_readable _ _ _ _ Hsk) (stored_readable _ _ _ _ Hsv))
      as (e & s1 & E & [[-> _]|(_ & _ & _ & _ & _ & _ & Hwhy)]).
    + intros kb' Hkb'. congruence.
    + by exists s1.
    + exfalso. destruct Hwhy as [?|[?|?]]; [lia|congruence|congruence].
Qed.

Lemma insert_succeeds_with_memory_witness :
  ∃ s1, ordered_map_insert (Some 1%positive) (int_at 1 99) (int_at 2 55) demo_state
        = Some (ORDERED_MAP_SUCCESS, s1).
Proof.
  destruct demo_map as (m & Hm & Hcfg).
  apply (insert_succeeds_with_memory demo_state 1 demo_tree m int_compare
           (Obj 1 (bytes_of_int 99)) (Obj 2 (bytes_of_int 55))
           (bytes_of_int 99) (bytes_of_int 55) demo_well_formed Hm).
  - by rewrite Hcfg.
  - rewrite Hcfg. reflexivity.
  - reflexivity.
  - rewrite Hcfg. reflexivity.
  - vm_compute. lia.
Defined.

(** X13.  Insert of an absent key adds exactly one binding.  On every
    well-formed map, for a key that [ordered_map_contains] does not find
    (and the conditions of X9 on the key and the value), when
    [ordered_map_insert] returns success
    the size has grown by one (modulo 2^64), a forward traversal yields
    the sequence it yielded before with one binding more, at one place,
    holding the stored forms of the key and the value given (the caller's
    own pointers in borrow mode), no destructor hook was called and no
    buffer freed, and no iterator was touched. *)
Theorem insert_absent_adds_one_binding (s : state) (map : positive) (t : tree) (m : Map.t)
    (cmp : list Z → list Z → Z) (ko vo : object) :
  well_formed s map t → maps s !! map = Some m →
  Config.key_compare (Map.config m) = Some cmp →
  run (ordered_map_contains (Some map) (Some ko)) s = Some false →
  readable (Config.key_size (Map.config m)) ko →
  readable (Config.value_size (Map.config m)) vo →
  (∀ kb, stored_bytes (Config.key_size (Map.config m)) (Config.key_copy (Map.config m))
           (obj_bytes ko) = Some kb → cmp (obj_bytes ko) kb = 0) →
  ∃ e s1,
    ordered_map_insert (Some map) (Some ko) (Some vo) s = Some (e, s1)
    ∧ (e = ORDERED_MAP_SUCCESS →
       ∃ gk gv pre suf,
         run (traverse (Some map) ORDERED_MAP_ITER_FORWARD) s = Some (Some (pre ++ suf))
         ∧ (avail s1 ≠ 0%nat →
            run (traverse (Some map) ORDERED_MAP_ITER_FORWARD) s1
            = Some (Some (pre ++ (Some gk, Some gv) :: suf)))
         ∧ stored_bytes (Config.key_size (Map.config m)) (Config.key_copy (Map.config m))
             (obj_bytes ko) = Some (obj_bytes gk)
         ∧ stored_bytes (Config.value_size (Map.config m)) (Config.value_copy (Map.config m))
             (obj_bytes vo) = Some (obj_bytes gv)
         ∧ (Config.key_size (Map.config m) = 0%N → Config.key_copy (Map.config m) = None →
            gk = ko)
         ∧ (Config.value_size (Map.config m) = 0%N → Config.value_copy (Map.config m) = None →
            gv = vo)
         ∧ run (ordered_map_size (Some map)) s1 = Some (size_incr (Map.size m))
         ∧ trace s1 = trace s
         ∧ iters s1 = iters s).
Proof.
  intros Hwf Hm Hcmp Habsent Hrk Hrv Hfaith.
  destruct (well_formed_inv _ _ _ _ _ Hwf Hm Hcmp)
    as (Hroot & Hlaws & Hsz & Hrep & Hnd & Hpay & Hord & Hblack).
  assert (Hfind : find_key cmp (nodes s) (obj_bytes ko) (inorder t) = NIL).
  { destruct (contains_spec s map t m cmp ko Hwf Hm Hcmp) as (s0 & E0 & _).
    unfold run in Habsent. rewrite E0 in Habsent. simpl in Habsent.
    by destruct (find_key _ _ _ _). }
  destruct (insert_new_outcome s map t m cmp ko vo Hwf Hm Hcmp Hfind Hrk Hrv Hfaith)
    as (e & s1 & E & [[-> Hok]|(-> & _)]).
  2:{ by exists ORDERED_MAP_ERROR_OUT_OF_MEMORY, s1. }
  exists ORDERED_MAP_SUCCESS, s1. split; [done|]. intros _.
  destruct Hok as (n & gk & gv & c & t1 & m1 & Hfresh & Ht & Hin1 & Hwf1 & Hpn & Hsk & Hsv
                   & Hbk & Hbv & Hpl & Hm1 & Hc1 & Hsz1 & Hi1 & Htr1 & Hav & _).
  assert (Hcmp1 : Config.key_compare (Map.config m1) = Some cmp) by (by rewrite Hc1).
  destruct (well_formed_inv _ _ _ _ _ Hwf1 Hm1 Hcmp1)
    as (Hroot1 & _ & _ & Hrep1 & Hnd1 & _ & _ & _).
  rewrite inorder_plug in Hin1. simpl in Hin1.
  assert (Hold : ∀ b, b ∈ inorder t → b ≠ n).
  { intros b Hb ->. destruct (rep_lookup _ _ _ _ Hrep Hb) as [x Hx]. congruence. }
  assert (Hint : inorder t = cbefore c ++ cafter c) by (by rewrite Ht, inorder_plug).
  exists gk, gv, (binding (nodes s) <$> cbefore c), (binding (nodes s) <$> cafter c).
  split_and!; try done.
  - destruct (avail s) as [|k] eqn:Hk; [lia|]. unfold run.
    rewrite (traverse_spec s map m t ORDERED_MAP_ITER_FORWARD k Hm Hroot Hrep Hnd Hk).
    simpl. by rewrite Hint, fmap_app.
  - intros Hne. destruct (avail s1) as [|k] eqn:Hk; [done|]. unfold run.
    rewrite (traverse_spec s1 map m1 t1 ORDERED_MAP_ITER_FORWARD k Hm1 Hroot1 Hrep1 Hnd1 Hk).
    simpl. rewrite Hin1, fmap_app, fmap_cons. do 2 f_equal.
    assert (Hb : ∀ l : list positive, (∀ b, b ∈ l → b ∈ inorder t) →
                 binding (nodes s1) <$> l = binding (nodes s) <$> l).
    { intros l Hl. apply list_fmap_ext. intros i b Hb. apply binding_payload, Hpl, Hold, Hl.
      by eapply list_elem_of_lookup_2. }
    rewrite !Hb by (intros b Hb'; rewrite Hint; set_solver).
    do 2 f_equal. unfold binding.
    destruct (nodes s1 !! n) as [nd|]; [|done]. by injection Hpn as -> ->.
  - by rewrite (run_size _ _ _ Hm1), Hsz1.
Qed.

Lemma insert_absent_adds_one_binding_witness :
  ∃ e s1,
    ordered_map_insert (Some 1%positive) (int_at 1 99) (int_at 2 55) demo_state = Some (e, s1)
    ∧ (e = ORDERED_MAP_SUCCESS →
       ∃ gk gv pre suf,
         run (traverse (Some 1%positive) ORDERED_MAP_ITER_FORWARD) demo_state
         = Some (Some (pre ++ suf))
         ∧ (avail s1 ≠ 0%nat →
            run (traverse (Some 1%positive) ORDERED_MAP_ITER_FORWARD) s1
            = Some (Some (pre ++ (Some gk, Some gv) :: suf)))
         ∧ obj_bytes gk = bytes_of_int 99
         ∧ obj_bytes gv = bytes_of_int 55
         ∧ trace s1 = trace demo_state).
Proof.
  destruct demo_map as (m & Hm & Hcfg).
  destruct (insert_absent_adds_one_binding demo_state 1 demo_tree m int_compare
              (Obj 1 (bytes_of_int 99)) (Obj 2 (bytes_of_int 55)) demo_well_formed Hm)
    as (e & s1 & E & Hok).
  - by rewrite Hcfg.
  - reflexivity.
  - rewrite Hcfg. intros _. simpl. lia.
  - rewrite Hcfg. intros _. simpl. lia.
  - rewrite Hcfg. intros kb Hkb. vm_compute in Hkb. injection Hkb as <-. reflexivity.
  - exists e, s1. split; [exact E|]. intros He.
    destruct (Hok He) as (gk & gv & pre & suf & H1 & H2 & H3 & H4 & _ & _ & _ & H5 & _).
    exists gk, gv, pre, suf. rewrite Hcfg in H3, H4.
    split_and!; [exact H1|exact H2| | |exact H5].
    + vm_compute in H3. by injection H3.
    + vm_compute in H4. by injection H4.
Defined.

(** X14.  A failed insert of an absent key leaves the map as it was.
    On every well-formed map, for a key that [ordered_map_contains] does
    not find (and the conditions of X9 on the key and the value), when
    [ordered_map_insert]
    returns out-of-memory, every node, the map header with its size and
    statistics, every iterator and the allocator's budget are what they
    were; fewer than three allocations were available or a payload could
    not be stored; and the only release that can have happened is that of
    the key just stored: its buffer freed, or the key destructor called,
    in borrow mode on the caller's own key. *)
Theorem failed_insert_changes_nothing (s : state) (map : positive) (t : tree) (m : Map.t)
    (cmp : list Z → list Z → Z) (ko vo : object) :
  well_formed s map t → maps s !! map = Some m →
  Config.key_compare (Map.config m) = Some cmp →
  run (ordered_map_contains (Some map) (Some ko)) s = Some false →
  readable (Config.key_size (Map.config m)) ko →
  readable (Config.value_size (Map.config m)) vo →
  (∀ kb, stored_bytes (Config.key_size (Map.config m)) (Config.key_copy (Map.config m))
           (obj_bytes ko) = Some kb → cmp (obj_bytes ko) kb = 0) →
  ∃ e s1,
    ordered_map_insert (Some map) (Some ko) (Some vo) s = Some (e, s1)
    ∧ (e = ORDERED_MAP_ERROR_OUT_OF_MEMORY →
       nodes s1 = nodes s ∧ maps s1 = maps s ∧ iters s1 = iters s ∧ avail s1 = avail s
       ∧ ((avail s < 3)%nat
          ∨ stored_bytes (Config.key_size (Map.config m)) (Config.key_copy (Map.config m))
              (obj_bytes ko) = None
          ∨ stored_bytes (Config.value_size (Map.config m)) (Config.value_copy (Map.config m))
              (obj_bytes vo) = None)
       ∧ (trace s1 = trace s
          ∨ ∃ gk, stored_bytes (Config.key_size (Map.config m))
                    (Config.key_copy (Map.config m)) (obj_bytes ko) = Some (obj_bytes gk)
                  ∧ (Config.key_size (Map.config m) = 0%N →
                     Config.key_copy (Map.config m) = None → gk = ko)
                  ∧ trace s1 = trace s ++ key_release (Map.config m) (Some gk))).
Proof.
  intros Hwf Hm Hcmp Habsent Hrk Hrv Hfaith.
  assert (Hfind : find_key cmp (nodes s) (obj_bytes ko) (inorder t) = NIL).
  { destruct (contains_spec s map t m cmp ko Hwf Hm Hcmp) as (s0 & E0 & _).
    unfold run in Habsent. rewrite E0 in Habsent. simpl in Habsent.
    by destruct (find_key _ _ _ _). }
  destruct (insert_new_outcome s map t m cmp ko vo Hwf Hm Hcmp Hfind Hrk Hrv Hfaith)
    as (e & s1 & E & [[-> _]|(-> & Hn & Hmp & Hi & Ha & Ht & Hwhy)]).
  { by exists ORDERED_MAP_SUCCESS, s1. }
  exists ORDERED_MAP_ERROR_OUT_OF_MEMORY, s1. split; [done|]. intros _. by split_and!.
Qed.

Lemma failed_insert_changes_nothing_witness :
  ∃ e s1,
    ordered_map_insert (Some 1%positive) (int_at 1 99) (int_at 2 55) (set_avail 2 demo_state)
    = Some (e, s1)
    ∧ (e = ORDERED_MAP_ERROR_OUT_OF_MEMORY →
       nodes s1 = nodes (set_avail 2 demo_state)
       ∧ maps s1 = maps (set_avail 2 demo_state)
       ∧ iters s1 = iters (set_avail 2 demo_state)
       ∧ avail s1 = avail (set_avail 2 demo_state)).
Proof.
  destruct demo_map as (m & Hm & Hcfg).
  destruct (failed_insert_changes_nothing (set_avail 2 demo_state) 1 demo_tree m int_compare
              (Obj 1 (bytes_of_int 99)) (Obj 2 (bytes_of_int 55)))
    as (e & s1 & E & Hfail).
  - apply (well_formed_same_memory demo_state _ _ _ demo_well_formed).
    + apply set_avail_nodes.
    + apply set_avail_maps.
  - by rewrite set_avail_maps.
  - by rewrite Hcfg.
  - vm_compute. reflexivity.
  - rewrite Hcfg. intros _. simpl. lia.
  - rewrite Hcfg. intros _. simpl. lia.
  - rewrite Hcfg. intros kb Hkb. vm_compute in Hkb. injection Hkb as <-. reflexivity.
  - exists e, s1. split; [exact E|]. intros He.
    destruct (Hfail He) as (H1 & H2 & H3 & H4 & _). by split_and!.
Defined.

(** * Iterators: repositioning a cursor *)

Lemma iter_map_eq s it i map :
  iters s !! it = Some i → Iter.map i = Some map → iter_map it s = Some (map, s).
Proof.
  intros Hit Hmap. unfold iter_map. rewrite (bind_eq _ _ _ _ _ (rdi_eq Iter.map _ _ _ Hit)).
  by rewrite Hmap.
Qed.

(** The loop from a cursor that stands on a node of the traversal. *)
Lemma iterate_spec s t it i pre suf :
  rep (nodes s) t NIL → NoDup (inorder t) →
  visit_order (Iter.direction i) (inorder t) = pre ++ suf →
  iters s !! it = Some i → Iter.valid i = true → Iter.current i = head suf →
  iterate (Some it) s
  = Some (binding (nodes s) <$> suf,
          set_iters (<[it := Iter.set_current NIL i]> (iters s)) s).
Proof.
  intros Hrep Hnd Hord Hit Hv Hc. unfold iterate. rewrite get_fuel_eq.
  apply (iterate_loop_spec s t it (Iter.direction i) _ pre suf i); try done.
  pose proof (rep_length_le_size _ _ _ Hrep Hnd) as Hle.
  assert (length (visit_order (Iter.direction i) (inorder t)) = length (inorder t)) as Hlen.
  { destruct (Iter.direction i); cbn [visit_order]; by rewrite ?length_reverse. }
  rewrite Hord, length_app in Hlen. lia.
Qed.

Lemma seek_spec s map t m cmp it i ko :
  well_formed s map t → maps s !! map = Some m →
  Config.key_compare (Map.config m) = Some cmp →
  iters s !! it = Some i → Iter.map i = Some map →
  let c := find_key cmp (nodes s) (obj_bytes ko) (inorder t) in
  ordered_map_iterator_seek (Some it) (Some ko) s
  = Some (if c is Some _ then ORDERED_MAP_SUCCESS else ORDERED_MAP_ERROR_KEY_NOT_FOUND,
          set_iters (<[it := Iter.set_current c i]> (iters s)) s).
Proof.
  intros Hwf Hm Hcmp Hit Hmap c. unfold ordered_map_iterator_seek. cbn [is_null].
  rewrite (bind_eq _ _ _ _ _ (iter_map_eq _ _ _ _ Hit Hmap)).
  rewrite (bind_eq _ _ _ _ _ (rdm_eq Map.root _ _ _ Hm)).
  rewrite (bind_eq _ _ _ _ _ (rdm_eq Map.config _ _ _ Hm)).
  rewrite (bind_eq _ _ _ _ _ (tree_search_spec s map t m cmp ko Hwf Hm Hcmp)).
  rewrite (bind_eq _ _ _ _ _ (wri_eq _ _ _ _ Hit)).
  erewrite bind_eq; [|apply rdi_eq; simpl; apply lookup_insert_eq].
  fold c. simpl. by destruct c.
Qed.

Lemma seek_end_spec s map t m it i (last_end : bool) :
  maps s !! map = Some m → Map.root m = troot t →
  rep (nodes s) t NIL → NoDup (inorder t) →
  iters s !! it = Some i → Iter.map i = Some map →
  let l := visit_order (Iter.direction i) (inorder t) in
  (if last_end then ordered_map_iterator_seek_last else ordered_map_iterator_seek_first)
    (Some it) s
  = Some (ORDERED_MAP_SUCCESS,
          set_iters (<[it := Iter.set_current (if last_end then last l else head l) i]>
                       (iters s)) s).
Proof.
  intros Hm Hroot Hrep Hnd Hit Hmap l.
  assert (E : ∀ fwd_is_min : bool,
    (do m0 <- iter_map it;
     do root <- rdm Map.root m0;
     do c <- (if is_nil root then ret NIL else
              do d <- rdi Iter.direction it;
              if bool_decide (d = ORDERED_MAP_ITER_FORWARD)
              then (if fwd_is_min then tree_minimum root else tree_maximum root)
              else (if fwd_is_min then tree_maximum root else tree_minimum root));
     do_ wri (Iter.set_current c) it;
     ret ORDERED_MAP_SUCCESS) s
    = Some (ORDERED_MAP_SUCCESS,
            set_iters (<[it := Iter.set_current (if fwd_is_min then head l else last l) i]>
                         (iters s)) s)).
  { intros b.
    rewrite (bind_eq _ _ _ _ _ (iter_map_eq _ _ _ _ Hit Hmap)).
    rewrite (bind_eq _ _ _ _ _ (rdm_eq Map.root _ _ _ Hm)), Hroot.
    assert (Hc : (if is_nil (troot t) then ret NIL else
                  do d <- rdi Iter.direction it;
                  if bool_decide (d = ORDERED_MAP_ITER_FORWARD)
                  then (if b then tree_minimum (troot t) else tree_maximum (troot t))
                  else (if b then tree_maximum (troot t) else tree_minimum (troot t))) s
                 = Some (if b then head l else last l, s)).
    { destruct (decide (t = Leaf)) as [->|Hne].
      - subst l. simpl. by destruct b, (Iter.direction i).
      - rewrite is_nil_troot by done.
        rewrite (bind_eq _ _ _ _ _ (rdi_eq Iter.direction _ _ _ Hit)).
        subst l.
        destruct (Iter.direction i), b; cbn [visit_order bool_decide decide_rel];
          rewrite ?head_reverse, ?last_reverse; simpl.
        + by apply tree_minimum_spec.
        + by apply tree_maximum_spec.
        + by apply tree_maximum_spec.
        + by apply tree_minimum_spec. }
    rewrite (bind_eq _ _ _ _ _ Hc).
    by rewrite (bind_eq _ _ _ _ _ (wri_eq _ _ _ _ Hit)). }
  destruct last_end.
  - exact (E false).
  - exact (E true).
Qed.

Lemma well_formed_set_iters s map t v :
  well_formed s map t → well_formed (set_iters v s) map t.
Proof. intros H. by apply (well_formed_same_memory s). Qed.

Lemma run_contains_find s map t m cmp ko :
  well_formed s map t → maps s !! map = Some m →
  Config.key_compare (Map.config m) = Some cmp →
  run (ordered_map_contains (Some map) (Some ko)) s
  = Some (negb (is_nil (find_key cmp (nodes s) (obj_bytes ko) (inorder t)))).
Proof.
  intros Hwf Hm Hcmp. destruct (contains_spec s map t m cmp ko Hwf Hm Hcmp) as (s' & E & _).
  unfold run. by rewrite E.
Qed.

Lemma run_get_find s map t m cmp ko :
  well_formed s map t → maps s !! map = Some m →
  Config.key_compare (Map.config m) = Some cmp →
  run (ordered_map_get (Some map) (Some ko)) s
  = Some (match find_key cmp (nodes s) (obj_bytes ko) (inorder t) with
          | Some a => (binding (nodes s) a).2
          | None => NULL
          end).
Proof.
  intros Hwf Hm Hcmp. destruct (get_spec s map t m cmp ko Hwf Hm Hcmp) as (s' & E & _).
  unfold run. by rewrite E.
Qed.

Lemma run_traverse s map t m d :
  well_formed s map t → maps s !! map = Some m → avail s ≠ 0%nat →
  run (traverse (Some map) d) s = Some (Some (binding (nodes s) <$> visit_order d (inorder t))).
Proof.
  intros (m' & cmp & Hm' & Hroot & _ & _ & _ & Hrep & Hnd & _) Hm Hav.
  rewrite Hm in Hm'. injection Hm' as <-.
  destruct (avail s) as [|k] eqn:Hk; [done|]. unfold run.
  by rewrite (traverse_spec s map m t d k Hm Hroot Hrep Hnd Hk).
Qed.

Lemma visit_order_elem d l (a : positive) : a ∈ visit_order d l ↔ a ∈ l.
Proof. destruct d; cbn [visit_order]; [done|]. by rewrite elem_of_reverse. Qed.

(** X15.  Seek positions the cursor on the key.  On every well-formed
    map with a valid iterator on it, [ordered_map_iterator_seek] returns
    success when [ordered_map_contains] finds the key and key-not-found
    otherwise; it changes no node and no map header (no lookup is
    counted); afterwards [ordered_map_iterator_has_next] answers what
    [ordered_map_contains] answers, [ordered_map_iterator_value] returns
    what [ordered_map_get] returns, and iterating on from the cursor
    yields the tail of the full traversal in the iterator's direction
    that starts at the binding of the key, or nothing when the key is
    absent. *)
Theorem seek_then_iterate (s : state) (map : positive) (t : tree) (m : Map.t)
    (cmp : list Z → list Z → Z) (it : positive) (i : Iter.t) (ko : object) :
  well_formed s map t → maps s !! map = Some m →
  Config.key_compare (Map.config m) = Some cmp →
  iters s !! it = Some i → Iter.map i = Some map → Iter.valid i = true →
  ∃ e s1 pre rest,
    ordered_map_iterator_seek (Some it) (Some ko) s = Some (e, s1)
    ∧ nodes s1 = nodes s ∧ maps s1 = maps s
    ∧ ((e = ORDERED_MAP_SUCCESS
        ∧ run (ordered_map_contains (Some map) (Some ko)) s = Some true
        ∧ ∃ k v rest', rest = (Some k, v) :: rest' ∧ cmp (obj_bytes ko) (obj_bytes k) = 0)
       ∨ (e = ORDERED_MAP_ERROR_KEY_NOT_FOUND
          ∧ run (ordered_map_contains (Some map) (Some ko)) s = Some false
          ∧ rest = []))
    ∧ run (ordered_map_iterator_has_next (Some it)) s1
      = run (ordered_map_contains (Some map) (Some ko)) s
    ∧ run (ordered_map_iterator_value (Some it)) s1
      = run (ordered_map_get (Some map) (Some ko)) s
    ∧ run (iterate (Some it)) s1 = Some rest
    ∧ (avail s ≠ 0%nat →
       run (traverse (Some map) (Iter.direction i)) s = Some (Some (pre ++ rest))).
Proof.
  intros Hwf Hm Hcmp Hit Hmap Hv.
  destruct (well_formed_inv _ _ _ _ _ Hwf Hm Hcmp)
    as (Hroot & Hlaws & Hsz & Hrep & Hnd & Hpay & Hord & Hblack).
  pose proof (seek_spec s map t m cmp it i ko Hwf Hm Hcmp Hit Hmap) as E. cbv zeta in E.
  rewrite (run_contains_find s map t m cmp ko Hwf Hm Hcmp).
  rewrite (run_get_find s map t m cmp ko Hwf Hm Hcmp).
  set (d := Iter.direction i).
  destruct (find_key cmp (nodes s) (obj_bytes ko) (inorder t)) as [a|] eqn:Hfind.
  - pose proof (find_key_Some cmp Hlaws _ _ _ _ Hfind) as [Ha Hmatch].
    assert (Ha' : a ∈ visit_order d (inorder t)) by (by apply visit_order_elem).
    apply list_elem_of_split in Ha' as (l1 & l2 & Hsplit).
    set (i1 := Iter.set_current (Some a) i).
    set (s1 := set_iters (<[it := i1]> (iters s)) s) in *.
    assert (Hit1 : iters s1 !! it = Some i1) by (subst s1; simpl; apply lookup_insert_eq).
    destruct (Hpay a Ha) as (n & ka & va & Hn & Hka & Hva & _).
    exists ORDERED_MAP_SUCCESS, s1, (binding (nodes s) <$> l1), (binding (nodes s) <$> a :: l2).
    split_and!; try done.
    + left. split_and!; try done. exists ka, (Some va), (binding (nodes s) <$> l2).
      split.
      * rewrite fmap_cons. unfold binding at 1. by rewrite Hn, Hka, Hva.
      * unfold key_bytes in Hmatch. by rewrite Hn, Hka in Hmatch.
    + unfold run. rewrite (has_next_eq _ _ _ Hit1). subst i1. simpl. by rewrite Hv.
    + unfold run. rewrite (iterator_value_eq s1 it i1 a n Hit1 eq_refl Hn).
      unfold binding. by rewrite Hn.
    + unfold run.
      by rewrite (iterate_spec s1 t it i1 l1 (a :: l2) Hrep Hnd Hsplit Hit1 Hv eq_refl).
    + intros Hav. rewrite (run_traverse s map t m d Hwf Hm Hav).
      fold d. by rewrite Hsplit, fmap_app.
  - set (i1 := Iter.set_current NIL i).
    set (s1 := set_iters (<[it := i1]> (iters s)) s) in *.
    assert (Hit1 : iters s1 !! it = Some i1) by (subst s1; simpl; apply lookup_insert_eq).
    exists ORDERED_MAP_ERROR_KEY_NOT_FOUND, s1,
      (binding (nodes s) <$> visit_order d (inorder t)), [].
    split_and!; try done.
    + right. by split_and!.
    + unfold run. rewrite (has_next_eq _ _ _ Hit1). subst i1. simpl. by rewrite Hv.
    + unfold run, ordered_map_iterator_value.
      by rewrite (bind_eq _ _ _ _ _ (rdi_eq Iter.current _ _ _ Hit1)).
    + unfold run.
      rewrite (iterate_spec s1 t it i1 (visit_order d (inorder t)) [] Hrep Hnd); try done.
      by rewrite app_nil_r.
    + intros Hav. rewrite (run_traverse s map t m d Hwf Hm Hav). by rewrite app_nil_r.
Qed.

Lemma demo_cursor_well_formed : well_formed demo_cursor_state 1 demo_tree.
Proof. apply well_formed_set_iters, demo_well_formed. Qed.

Lemma set_iters_maps v s : maps (set_iters v s) = maps s.
Proof. reflexivity. Qed.

Lemma set_iters_iters v s : iters (set_iters v s) = v.
Proof. reflexivity. Qed.

Lemma demo_cursor_map :
  ∃ m, maps demo_cursor_state !! 1%positive = Some m ∧ Map.config m = int_config.
Proof.
  destruct demo_map as (m & Hm & Hcfg). exists m. split; [|exact Hcfg].
  unfold demo_cursor_state. rewrite set_iters_maps. exact Hm.
Qed.

Lemma demo_cursor_lookup : iters demo_cursor_state !! 1%positive = Some demo_cursor.
Proof. unfold demo_cursor_state. rewrite set_iters_iters. apply lookup_insert_eq. Qed.

Lemma seek_then_iterate_witness :
  ∃ e s1 pre rest,
    ordered_map_iterator_seek (Some 1%positive) (int_at 1 7) demo_cursor_state = Some (e, s1)
    ∧ run (ordered_map_iterator_value (Some 1%positive)) s1
      = run (ordered_map_get (Some 1%positive) (int_at 1 7)) demo_cursor_state
    ∧ run (iterate (Some 1%positive)) s1 = Some rest
    ∧ (avail demo_cursor_state ≠ 0%nat →
       run (traverse (Some 1%positive) ORDERED_MAP_ITER_FORWARD) demo_cursor_state
       = Some (Some (pre ++ rest))).
Proof.
  destruct demo_cursor_map as (m & Hm & Hcfg).
  destruct (seek_then_iterate demo_cursor_state 1 demo_tree m int_compare 1 demo_cursor
              (Obj 1 (bytes_of_int 7)) demo_cursor_well_formed Hm)
    as (e & s1 & pre & rest & E & _ & _ & _ & _ & Hval & Hrest & Hall).
  - rewrite Hcfg. reflexivity.
  - exact demo_cursor_lookup.
  - reflexivity.
  - reflexivity.
  - exists e, s1, pre, rest. split_and!; [exact E|exact Hval|exact Hrest|exact Hall].
Defined.

(** X16.  Seek-first rewinds.  On every well-formed map with a valid
    iterator on it, wherever its cursor stands,
    [ordered_map_iterator_seek_first] returns success, changes no node
    and no map header, and iterating on from the cursor then yields the
    full traversal in the iterator's direction: ascending for a forward
    iterator, descending for a backward one. *)
Theorem seek_first_rewinds (s : state) (map : positive) (t : tree) (m : Map.t)
    (it : positive) (i : Iter.t) :
  well_formed s map t → maps s !! map = Some m →
  iters s !! it = Some i → Iter.map i = Some map → Iter.valid i = true →
  ∃ s1 all,
    ordered_map_iterator_seek_first (Some it) s = Some (ORDERED_MAP_SUCCESS, s1)
    ∧ nodes s1 = nodes s ∧ maps s1 = maps s
    ∧ run (iterate (Some it)) s1 = Some all
    ∧ all = binding (nodes s) <$> visit_order (Iter.direction i) (inorder t)
    ∧ (avail s ≠ 0%nat → run (traverse (Some map) (Iter.direction i)) s = Some (Some all)).
Proof.
  intros Hwf Hm Hit Hmap Hv.
  pose proof Hwf as (m' & cmp & Hm' & Hroot & _ & _ & _ & Hrep & Hnd & _).
  rewrite Hm in Hm'. injection Hm' as <-.
  pose proof (seek_end_spec s map t m it i false Hm Hroot Hrep Hnd Hit Hmap) as E.
  cbv zeta iota in E.
  set (d := Iter.direction i) in *.
  set (i1 := Iter.set_current (head (visit_order d (inorder t))) i) in *.
  set (s1 := set_iters (<[it := i1]> (iters s)) s) in *.
  assert (Hit1 : iters s1 !! it = Some i1) by (subst s1; simpl; apply lookup_insert_eq).
  exists s1, (binding (nodes s) <$> visit_order d (inorder t)).
  split_and!; try done.
  - unfold run.
    by rewrite (iterate_spec s1 t it i1 [] (visit_order d (inorder t)) Hrep Hnd eq_refl
                  Hit1 Hv eq_refl).
  - intros Hav. by rewrite (run_traverse s map t m d Hwf Hm Hav).
Qed.

Lemma seek_first_rewinds_witness :
  ∃ s1 all,
    ordered_map_iterator_seek_first (Some 1%positive) demo_cursor_state
    = Some (ORDERED_MAP_SUCCESS, s1)
    ∧ run (iterate (Some 1%positive)) s1 = Some all
    ∧ (avail demo_cursor_state ≠ 0%nat →
       run (traverse (Some 1%positive) ORDERED_MAP_ITER_FORWARD) demo_cursor_state
       = Some (Some all)).
Proof.
  destruct demo_cursor_map as (m & Hm & Hcfg).
  destruct (seek_first_rewinds demo_cursor_state 1 demo_tree m 1 demo_cursor
              demo_cursor_well_formed Hm demo_cursor_lookup eq_refl eq_refl)
    as (s1 & all & E & _ & _ & Hall & _ & Htr).
  exists s1, all. split_and!; [exact E|exact Hall|exact Htr].
Defined.

Lemma last_split {A} (l : list A) : ∃ pre, l = pre ++ option_list (last l).
Proof.
  induction l as [|x l _] using rev_ind; [by exists []|].
  exists l. by rewrite last_snoc.
Qed.

(** X17.  Seek-last leaves one step.  On every well-formed map with a
    valid iterator on it, [ordered_map_iterator_seek_last] returns
    success, changes no node and no map header, and puts the cursor on
    the last binding of the traversal in the iterator's direction (the
    greatest key for a forward iterator, the least for a backward one):
    iterating on yields that one binding and stops, and nothing on an
    empty map. *)
Theorem seek_last_leaves_one_step (s : state) (map : positive) (t : tree) (m : Map.t)
    (it : positive) (i : Iter.t) :
  well_formed s map t → maps s !! map = Some m →
  iters s !! it = Some i → Iter.map i = Some map → Iter.valid i = true →
  ∃ s1 all,
    ordered_map_iterator_seek_last (Some it) s = Some (ORDERED_MAP_SUCCESS, s1)
    ∧ nodes s1 = nodes s ∧ maps s1 = maps s
    ∧ all = binding (nodes s) <$> visit_order (Iter.direction i) (inorder t)
    ∧ (avail s ≠ 0%nat → run (traverse (Some map) (Iter.direction i)) s = Some (Some all))
    ∧ run (iterate (Some it)) s1 = Some (option_list (last all))
    ∧ run (ordered_map_iterator_key (Some it)) s1
      = run (if bool_decide (Iter.direction i = ORDERED_MAP_ITER_FORWARD)
             then ordered_map_max_key (Some map) else ordered_map_min_key (Some map)) s.
Proof.
  intros Hwf Hm Hit Hmap Hv.
  pose proof Hwf as (m' & cmp & Hm' & Hroot & _ & _ & _ & Hrep & Hnd & _).
  rewrite Hm in Hm'. injection Hm' as <-.
  pose proof (seek_end_spec s map t m it i true Hm Hroot Hrep Hnd Hit Hmap) as E.
  cbv zeta iota in E.
  set (d := Iter.direction i) in *.
  set (l := visit_order d (inorder t)) in *.
  set (i1 := Iter.set_current (last l) i) in *.
  set (s1 := set_iters (<[it := i1]> (iters s)) s) in *.
  assert (Hit1 : iters s1 !! it = Some i1) by (subst s1; simpl; apply lookup_insert_eq).
  destruct (last_split l) as [pre Hsplit].
  assert (Hhead : last l = head (option_list (last l))) by (by destruct (last l)).
  exists s1, (binding (nodes s) <$> l).
  split_and!; try done.
  - intros Hav. by rewrite (run_traverse s map t m d Hwf Hm Hav).
  - unfold run.
    rewrite (iterate_spec s1 t it i1 pre (option_list (last l)) Hrep Hnd Hsplit Hit1 Hv Hhead).
    simpl. rewrite fmap_last. by destruct (last l).
  - unfold run, ordered_map_iterator_key.
    rewrite (bind_eq _ _ _ _ _ (rdi_eq Iter.current _ _ _ Hit1)).
    subst i1. cbn [Iter.current Iter.set_current].
    assert (Hlast : last l = if bool_decide (d = ORDERED_MAP_ITER_FORWARD)
                             then last (inorder t) else head (inorder t)).
    { subst l. destruct d; cbn [visit_order]; [done|]. by rewrite last_reverse. }
    rewrite Hlast.
    unfold ordered_map_max_key, ordered_map_min_key.
    destruct (decide (t = Leaf)) as [->|Hne].
    + destruct d; simpl; rewrite (bind_eq _ _ _ _ _ (rdm_eq Map.root _ _ _ Hm)), Hroot;
        reflexivity.
    + destruct d; simpl; rewrite (bind_eq _ _ _ _ _ (rdm_eq Map.root _ _ _ Hm)), Hroot,
        is_nil_troot by done.
      * rewrite (bind_eq _ _ _ _ _ (tree_maximum_spec s t Hrep Hnd Hne)).
        destruct (last (inorder t)) as [x|] eqn:Hx.
        -- unfold rd. subst s1. simpl. by destruct (nodes s !! x).
        -- apply last_None in Hx. by apply inorder_nonempty in Hne.
      * rewrite (bind_eq _ _ _ _ _ (tree_minimum_spec s t Hrep Hnd Hne)).
        destruct (head (inorder t)) as [x|] eqn:Hx.
        -- unfold rd. subst s1. simpl. by destruct (nodes s !! x).
        -- apply head_None in Hx. by apply inorder_nonempty in Hne.
Qed.

Lemma seek_last_leaves_one_step_witness :
  ∃ s1 all,
    ordered_map_iterator_seek_last (Some 1%positive) demo_cursor_state
    = Some (ORDERED_MAP_SUCCESS, s1)
    ∧ (avail demo_cursor_state ≠ 0%nat →
       run (traverse (Some 1%positive) ORDERED_MAP_ITER_FORWARD) demo_cursor_state
       = Some (Some all))
    ∧ run (iterate (Some 1%positive)) s1 = Some (option_list (last all))
    ∧ run (ordered_map_iterator_key (Some 1%positive)) s1
      = run (ordered_map_max_key (Some 1%positive)) demo_cursor_state.
Proof.
  destruct demo_cursor_map as (m & Hm & Hcfg).
  destruct (seek_last_leaves_one_step demo_cursor_state 1 demo_tree m 1 demo_cursor
              demo_cursor_well_formed Hm demo_cursor_lookup eq_refl eq_refl)
    as (s1 & all & E & _ & _ & _ & Htr & Hone & Hkey).
  exists s1, all. split_and!; [exact E|exact Htr|exact Hone|exact Hkey].
Defined.

(** X18.  Clear leaves cursors dangling.  On every well-formed map, an
    iterator whose cursor stands on a node of the map is not touched by
    [ordered_map_clear]: afterwards [ordered_map_iterator_has_next] still
    answers true although the map is empty, and
    [ordered_map_iterator_key], [ordered_map_iterator_value] and
    [ordered_map_iterator_next] read the node that was freed, which
    has no defined result. *)
Theorem clear_leaves_cursors_dangling (s : state) (map : positive) (t : tree) (m : Map.t)
    (it : positive) (i : Iter.t) (a : positive) :
  well_formed s map t → maps s !! map = Some m →
  iters s !! it = Some i → Iter.valid i = true →
  Iter.current i = Some a → a ∈ inorder t →
  ∃ s1,
    ordered_map_clear (Some map) s = Some (ORDERED_MAP_SUCCESS, s1)
    ∧ run (ordered_map_empty (Some map)) s1 = Some true
    ∧ iters s1 !! it = Some i
    ∧ run (ordered_map_iterator_has_next (Some it)) s1 = Some true
    ∧ ordered_map_iterator_key (Some it) s1 = None
    ∧ ordered_map_iterator_value (Some it) s1 = None
    ∧ ordered_map_iterator_next (Some it) s1 = None.
Proof.
  intros Hwf Hm Hit Hv Hc Ha.
  pose proof Hwf as (m0 & cmp & Hm0 & Hroot & Hcmp & Hlaws & Hsz & Hrep & Hnd & _).
  rewrite Hm in Hm0. injection Hm0 as <-.
  unfold ordered_map_clear.
  rewrite (bind_eq _ _ _ _ _ (rdm_eq Map.root _ _ _ Hm)).
  rewrite (bind_eq _ _ _ _ _ (rdm_eq Map.config _ _ _ Hm)).
  rewrite Hroot.
  destruct (destroy_tree_spec (Map.config m) t s Hrep Hnd)
    as (s1 & evs & E1 & Hn1 & Hm1 & Hi1 & Hb1 & Ht1 & Hp1 & Ha1).
  rewrite (bind_eq _ _ _ _ _ E1).
  assert (HmS1 : maps s1 !! map = Some m) by (by rewrite Hm1).
  rewrite (bind_eq _ _ _ _ _ (wrm_eq _ _ _ _ HmS1)).
  erewrite bind_eq; [|apply wrm_eq; simpl; apply lookup_insert_eq]. cbv beta.
  eexists. split; [done|].
  match goal with |- run _ ?s2 = _ ∧ _ => set (s' := s2) end.
  assert (Hit' : iters s' !! it = Some i) by (subst s'; simpl; by rewrite Hi1).
  assert (Hgone : nodes s' !! a = None).
  { subst s'. simpl. rewrite Hn1. by rewrite decide_True. }
  split_and!.
  - unfold run, ordered_map_empty, bind, rdm. subst s'. simpl.
    by rewrite !lookup_insert_eq.
  - done.
  - unfold run. by rewrite (has_next_eq _ _ _ Hit'), Hv, Hc.
  - unfold ordered_map_iterator_key.
    rewrite (bind_eq _ _ _ _ _ (rdi_eq Iter.current _ _ _ Hit')), Hc. cbn [is_nil].
    unfold rd. by rewrite Hgone.
  - unfold ordered_map_iterator_value.
    rewrite (bind_eq _ _ _ _ _ (rdi_eq Iter.current _ _ _ Hit')), Hc. cbn [is_nil].
    unfold rd. by rewrite Hgone.
  - unfold ordered_map_iterator_next.
    rewrite (bind_eq _ _ _ _ _ (rdi_eq Iter.valid _ _ _ Hit')), Hv. cbn [negb].
    rewrite (bind_eq _ _ _ _ _ (rdi_eq Iter.current _ _ _ Hit')), Hc. cbn [is_nil].
    rewrite (bind_eq _ _ _ _ _ (rdi_eq Iter.direction _ _ _ Hit')).
    assert (Hs : tree_successor (Some a) s' = None ∧ tree_predecessor (Some a) s' = None).
    { unfold tree_successor, tree_predecessor, bind, rd. by rewrite Hgone. }
    destruct Hs as [Hsucc Hpred].
    unfold bind. destruct (bool_decide _); [by rewrite Hsucc|by rewrite Hpred].
Qed.

Lemma clear_leaves_cursors_dangling_witness :
  ∃ s1,
    ordered_map_clear (Some 1%positive) demo_cursor_state = Some (ORDERED_MAP_SUCCESS, s1)
    ∧ run (ordered_map_empty (Some 1%positive)) s1 = Some true
    ∧ iters s1 !! 1%positive = Some demo_cursor
    ∧ run (ordered_map_iterator_has_next (Some 1%positive)) s1 = Some true
    ∧ ordered_map_iterator_key (Some 1%positive) s1 = None
    ∧ ordered_map_iterator_value (Some 1%positive) s1 = None
    ∧ ordered_map_iterator_next (Some 1%positive) s1 = None.
Proof.
  destruct demo_cursor_map as (m & Hm & Hcfg).
  apply (clear_leaves_cursors_dangling demo_cursor_state 1 demo_tree m 1 demo_cursor 4
           demo_cursor_well_formed Hm demo_cursor_lookup eq_refl).
  - vm_compute. reflexivity.
  - vm_compute. constructor.
Defined.

(** * Statistics and the comparator of the tests *)

Lemma size_incr_of_nat (n : nat) :
  (N.of_nat (S n) < SIZE_MOD)%N → size_incr (N.of_nat n) = N.of_nat (S n).
Proof.
  intros H. unfold size_incr. rewrite N.mod_small; lia.
Qed.

(** [tree_height] computes the height of the tree, as long as that is a
    [size_t]. *)
Lemma tree_height_rec_value s t par fuel :
  rep (nodes s) t par → (height t < fuel)%nat → (N.of_nat (height t) < SIZE_MOD)%N →
  tree_height_rec fuel (troot t) s = Some (N.of_nat (height t), s).
Proof.
  revert par fuel. induction t as [|l IHl a r IHr]; intros par fuel Hrep Hfuel Hlt;
    (destruct fuel as [|fuel]; [lia|]); simpl in Hfuel; cbn [tree_height_rec troot is_nil].
  - done.
  - destruct Hrep as (n & Hn & _ & Hl & Hr & Hrl & Hrr).
    cbn [height] in Hlt.
    rewrite (bind_eq _ _ _ _ _ (rd_eq Node.left _ _ _ Hn)), Hl.
    rewrite (bind_eq _ _ _ _ _ (IHl (Some a) fuel Hrl ltac:(lia) ltac:(lia))).
    rewrite (bind_eq _ _ _ _ _ (rd_eq Node.right _ _ _ Hn)), Hr.
    rewrite (bind_eq _ _ _ _ _ (IHr (Some a) fuel Hrr ltac:(lia) ltac:(lia))).
    unfold ret. do 2 f_equal. cbn [height].
    rewrite <- (size_incr_of_nat (Nat.max (height l) (height r))) by done. f_equal.
    destruct (N.ltb_spec (N.of_nat (height r)) (N.of_nat (height l))); lia.
Qed.

Lemma tree_height_value s t :
  rep (nodes s) t NIL → NoDup (inorder t) → (N.of_nat (height t) < SIZE_MOD)%N →
  tree_height (troot t) s = Some (N.of_nat (height t), s).
Proof.
  intros Hrep Hnd Hlt. unfold tree_height. rewrite get_fuel_eq.
  apply (tree_height_rec_value s t NIL); [done| |done]. by eapply rep_height_lt_fuel.
Qed.

(** X19.  The statistics report the height as it is.  On every
    well-formed map whose tree is less than 2^64 high,
    [ordered_map_get_stats] changes nothing and returns the counters
    stored in the map with [current_height] replaced by the height of the
    tree at the time of the call (the longest path from the root down,
    counted in nodes), whether or not statistics are enabled and whatever
    height was stored. *)
Theorem get_stats_reports_height (s : state) (map : positive) (t : tree) (m : Map.t) :
  well_formed s map t → maps s !! map = Some m →
  (N.of_nat (height t) < SIZE_MOD)%N →
  ordered_map_get_stats (Some map) s
  = Some (Stats.set_current_height (N.of_nat (height t)) (Map.stats m), s).
Proof.
  intros (m' & cmp & Hm' & Hroot & _ & _ & _ & Hrep & Hnd & _) Hm Hlt.
  rewrite Hm in Hm'. injection Hm' as <-.
  unfold ordered_map_get_stats.
  rewrite (bind_eq _ _ _ _ _ (rdm_eq Map.stats _ _ _ Hm)).
  rewrite (bind_eq _ _ _ _ _ (rdm_eq Map.root _ _ _ Hm)), Hroot.
  by rewrite (bind_eq _ _ _ _ _ (tree_height_value s t Hrep Hnd Hlt)).
Qed.

Lemma get_stats_reports_height_witness :
  ∃ st, ordered_map_get_stats (Some 1%positive) demo_state = Some (st, demo_state)
        ∧ Stats.current_height st = 4%N.
Proof.
  destruct demo_map as (m & Hm & Hcfg).
  exists (Stats.set_current_height (N.of_nat (height demo_tree)) (Map.stats m)).
  split.
  - apply (get_stats_reports_height demo_state 1 demo_tree m demo_well_formed Hm).
    vm_compute. reflexivity.
  - vm_compute. reflexivity.
Defined.

(** X20.  Resetting the statistics touches nothing else.  On every
    well-formed map whose tree is less than 2^64 high,
    [ordered_map_reset_stats] leaves every node, the root, the size, the
    configuration, the enable flag, the iterators and the allocator as
    they were, so the map is well formed with the same tree; afterwards
    [ordered_map_get_stats] returns zero for every counter and the
    height of the tree for [current_height]. *)
Theorem reset_stats_keeps_contents (s : state) (map : positive) (t : tree) (m : Map.t) :
  well_formed s map t → maps s !! map = Some m →
  (N.of_nat (height t) < SIZE_MOD)%N →
  ∃ s1 m1,
    ordered_map_reset_stats (Some map) s = Some (tt, s1)
    ∧ nodes s1 = nodes s ∧ iters s1 = iters s ∧ avail s1 = avail s ∧ trace s1 = trace s
    ∧ maps s1 !! map = Some m1
    ∧ Map.root m1 = Map.root m ∧ Map.size m1 = Map.size m ∧ Map.config m1 = Map.config m
    ∧ Map.stats_enabled m1 = Map.stats_enabled m
    ∧ (∀ other, other ≠ map → maps s1 !! other = maps s !! other)
    ∧ well_formed s1 map t
    ∧ ordered_map_get_stats (Some map) s1
      = Some (Stats.Make 0 0 0 0 0 (N.of_nat (height t)), s1).
Proof.
  intros Hwf Hm Hlt. unfold ordered_map_reset_stats.
  rewrite (wrm_eq _ _ _ _ Hm).
  set (m1 := Map.set_stats Stats.zero m).
  set (s1 := set_maps (<[map := m1]> (maps s)) s).
  assert (Hm1 : maps s1 !! map = Some m1) by (subst s1; simpl; apply lookup_insert_eq).
  assert (Hsame : same_contents map s s1) by (by apply (same_contents_stats map m)).
  pose proof (well_formed_same_contents _ _ _ _ Hwf Hsame) as Hwf1.
  exists s1, m1. split_and!; try done.
  - intros other Hne. subst s1. simpl. by rewrite lookup_insert_ne.
  - pose proof Hwf1 as (m' & cmp & Hm' & Hroot & _ & _ & _ & Hrep & Hnd & _).
    rewrite Hm1 in Hm'. injection Hm' as <-.
    unfold ordered_map_get_stats.
    rewrite (bind_eq _ _ _ _ _ (rdm_eq Map.stats _ _ _ Hm1)).
    rewrite (bind_eq _ _ _ _ _ (rdm_eq Map.root _ _ _ Hm1)), Hroot.
    by rewrite (bind_eq _ _ _ _ _ (tree_height_value s1 t Hrep Hnd Hlt)).
Qed.

Lemma reset_stats_keeps_contents_witness :
  ∃ s1 m1,
    ordered_map_reset_stats (Some 1%positive) demo_state = Some (tt, s1)
    ∧ nodes s1 = nodes demo_state
    ∧ maps s1 !! 1%positive = Some m1
    ∧ well_formed s1 1 demo_tree
    ∧ ordered_map_get_stats (Some 1%positive) s1
      = Some (Stats.Make 0 0 0 0 0 (N.of_nat (height demo_tree)), s1).
Proof.
  destruct demo_map as (m & Hm & Hcfg).
  destruct (reset_stats_keeps_contents demo_state 1 demo_tree m demo_well_formed Hm)
    as (s1 & m1 & E & Hn & _ & _ & _ & Hm1 & _ & _ & _ & _ & _ & Hwf1 & Hget).
  - vm_compute. reflexivity.
  - exists s1, m1. split_and!; [exact E|exact Hn|exact Hm1|exact Hwf1|exact Hget].
Defined.

(** X21.  The comparator of the tests is a lawful order.  [int_compare]
    returns -1, 0 or 1, the sign of the difference of the two [int]s read
    from its arguments: it is antisymmetric, returns 0 exactly on equal
    integers, and is transitive, so it never reports an order that a
    subtraction overflow would invert. *)
Theorem int_compare_is_an_order (a b c : list Z) :
  int_compare a b = Z.sgn (int_of_bytes a - int_of_bytes b)
  ∧ int_compare b a = - int_compare a b
  ∧ (int_compare a b = 0 ↔ int_of_bytes a = int_of_bytes b)
  ∧ (int_compare a b < 0 → int_compare b c < 0 → int_compare a c < 0)
  ∧ (int_compare a b = 0 → int_compare a c = int_compare b c).
Proof.
  unfold int_compare.
  repeat match goal with
         | |- context [(?x <? ?y)] => destruct (Z.ltb_spec x y)
         end; lia.
Qed.

(** * Insertion keeps the tree balanced *)

(** The checks over the memory and the invariants over the tree shape
    say the same. *)
Lemma rb_checks h t : ∀ par n fuel,
  rep h t par → rb h t n → (height t < fuel)%nat →
  black_height fuel h (troot t) = Some n ∧ no_red_red fuel h (troot t) = true.
Proof.
  induction t as [|l IHl a r IHr]; intros par n fuel Hrep Hrb Hfuel;
    (destruct fuel as [|fuel]; [lia|]).
  - simpl in *. by subst.
  - destruct Hrep as (nd & Hnd & _ & Hl & Hr & Hrl & Hrr).
    cbn [black_height no_red_red troot]. rewrite Hnd, Hl, Hr.
    assert (Hc : color_of h (Some a) = Node.color nd) by (simpl; by rewrite Hnd).
    cbn [rb] in Hrb. rewrite Hc in Hrb. cbn [height] in Hfuel.
    destruct (Node.color nd).
    + destruct Hrb as (Cl & Cr & Rl & Rr).
      destruct (IHl _ _ fuel Hrl Rl ltac:(lia)) as [-> ->].
      destruct (IHr _ _ fuel Hrr Rr ltac:(lia)) as [-> ->].
      rewrite decide_True by done. by rewrite Cl, Cr.
    + destruct Hrb as (k & -> & Rl & Rr).
      destruct (IHl _ _ fuel Hrl Rl ltac:(lia)) as [-> ->].
      destruct (IHr _ _ fuel Hrr Rr ltac:(lia)) as [-> ->].
      by rewrite decide_True by done.
Qed.

Lemma checks_rb h t : ∀ par n fuel,
  rep h t par →
  black_height fuel h (troot t) = Some n → no_red_red fuel h (troot t) = true →
  rb h t n.
Proof.
  induction t as [|l IHl a r IHr]; intros par n fuel Hrep Hbh Hrr;
    (destruct fuel as [|fuel]; [done|]).
  - simpl in *. by injection Hbh.
  - destruct Hrep as (nd & Hnd & _ & Hl & Hr & Hrl & Hrr').
    cbn [black_height no_red_red troot] in Hbh, Hrr. rewrite Hnd, Hl, Hr in Hbh, Hrr.
    assert (Hc : color_of h (Some a) = Node.color nd) by (simpl; by rewrite Hnd).
    cbn [rb]. rewrite Hc.
    destruct (black_height fuel h (troot l)) as [bl|] eqn:El; [|done].
    destruct (black_height fuel h (troot r)) as [br|] eqn:Er; [|done].
    destruct (decide (bl = br)) as [<-|]; [|done].
    apply andb_prop in Hrr as [Hrr Hnr]. apply andb_prop in Hrr as [Hcol Hnl].
    destruct (Node.color nd).
    + injection Hbh as <-. apply andb_prop in Hcol as [Cl Cr].
      unfold color_eqb in Cl, Cr. apply bool_decide_eq_true in Cl, Cr.
      split_and!; [done|done|by eapply IHl|by eapply IHr].
    + injection Hbh as <-. exists bl. split_and!; [done|by eapply IHl|by eapply IHr].
Qed.

Lemma run_red_black_invariants s map m :
  maps s !! map = Some m →
  run (red_black_invariants map) s
  = Some (color_eqb (color_of (nodes s) (Map.root m)) RB_BLACK
          && no_red_red (S (size (nodes s))) (nodes s) (Map.root m)
          && bool_decide (is_Some (black_height (S (size (nodes s))) (nodes s) (Map.root m)))).
Proof.
  intros Hm.
  unfold run, red_black_invariants, bind, root_is_black, red_nodes_have_black_children,
    black_heights_agree, ret.
  rewrite Hm. cbv beta iota. rewrite Hm. cbv beta iota. rewrite Hm. reflexivity.
Qed.

Lemma red_black_invariants_rb s map t :
  well_formed s map t →
  (run (red_black_invariants map) s = Some true ↔ ∃ n, rb (nodes s) t n).
Proof.
  intros (m & cmp & Hm & Hroot & _ & _ & _ & Hrep & Hnd & _ & _ & Hblack).
  rewrite (run_red_black_invariants s map m Hm), Hroot, Hblack.
  pose proof (rep_height_lt_fuel _ _ _ Hrep Hnd) as Hfuel.
  split.
  - intros H. apply (inj Some) in H.
    apply andb_prop in H as [H Hbh]. apply andb_prop in H as [_ Hnr].
    apply bool_decide_eq_true in Hbh as [n Hn]. exists n. by eapply checks_rb.
  - intros [n Hn]. destruct (rb_checks _ _ NIL n _ Hrep Hn Hfuel) as [E1 E2].
    rewrite E1, E2. reflexivity.
Qed.

Lemma rb_low h t n :
  rb h t n → color_of h (troot t) = RB_BLACK →
  (height t ≤ 2 * Nat.log2 (S (length (inorder t))))%nat.
Proof.
  intros Hrb Hblack. pose proof (rb_height _ _ _ Hrb) as Hh. rewrite Hblack in Hh.
  pose proof (rb_size _ _ _ Hrb) as Hs.
  assert (n ≤ Nat.log2 (S (length (inorder t))))%nat.
  { rewrite <- (Nat.log2_pow2 n) by lia. by apply Nat.log2_le_mono. }
  lia.
Qed.

(** X22.  Insertion keeps the red-black invariants.  On every
    well-formed map on which the three checks of the invariants succeed
    (black root, no red node with a red child, equally many black nodes
    on every path down from a node), and under the conditions of X9 on
    the key and the value, in every ownership mode,
    [ordered_map_insert] leaves a well-formed map on which they succeed
    again, whatever it returns and whichever path it takes (overwrite,
    new node with recolourings and rotations, failure).  The tree is then
    no higher than twice the binary logarithm of its number of nodes plus
    one. *)
Theorem insert_keeps_red_black (s : state) (map : positive) (t : tree) (m : Map.t)
    (cmp : list Z → list Z → Z) (ko vo : object) :
  well_formed s map t → maps s !! map = Some m →
  Config.key_compare (Map.config m) = Some cmp →
  readable (Config.key_size (Map.config m)) ko →
  readable (Config.value_size (Map.config m)) vo →
  (∀ kb, stored_bytes (Config.key_size (Map.config m)) (Config.key_copy (Map.config m))
           (obj_bytes ko) = Some kb → cmp (obj_bytes ko) kb = 0) →
  run (red_black_invariants map) s = Some true →
  ∃ e s1 t1,
    ordered_map_insert (Some map) (Some ko) (Some vo) s = Some (e, s1)
    ∧ well_formed s1 map t1
    ∧ run (red_black_invariants map) s1 = Some true
    ∧ (height t1 ≤ 2 * Nat.log2 (S (length (inorder t1))))%nat.
Proof.
  intros Hwf Hm Hcmp Hrk Hrv Hfaith Hinv.
  apply (red_black_invariants_rb s map t Hwf) in Hinv as [N HN].
  destruct (insert_outcome s map t m cmp ko vo Hwf Hm Hcmp Hrk Hrv Hfaith)
    as (e & s1 & t1 & m1 & E & Hwf1 & Hm1 & Hc1 & _ & _ & _ & Hrb).
  destruct (Hrb N HN) as [N1 HN1].
  exists e, s1, t1. split_and!; [done|done| |].
  - apply (red_black_invariants_rb s1 map t1 Hwf1). by exists N1.
  - apply (rb_low (nodes s1) t1 N1 HN1).
    by destruct Hwf1 as (? & ? & _ & _ & _ & _ & _ & _ & _ & _ & _ & ?).
Qed.

Lemma insert_keeps_red_black_witness :
  ∃ e s1 t1,
    ordered_map_insert (Some 1%positive) (int_at 1 99) (int_at 2 55) demo_state = Some (e, s1)
    ∧ well_formed s1 1 t1
    ∧ run (red_black_invariants 1) s1 = Some true
    ∧ (height t1 ≤ 2 * Nat.log2 (S (length (inorder t1))))%nat.
Proof.
  destruct demo_map as (m & Hm & Hcfg).
  apply (insert_keeps_red_black demo_state 1 demo_tree m int_compare
           (Obj 1 (bytes_of_int 99)) (Obj 2 (bytes_of_int 55)) demo_well_formed Hm).
  - by rewrite Hcfg.
  - rewrite Hcfg. intros _. simpl. lia.
  - rewrite Hcfg. intros _. simpl. lia.
  - rewrite Hcfg. intros kb Hkb. vm_compute in Hkb. injection Hkb as <-. reflexivity.
  - vm_compute. reflexivity.
Defined.

Lemma insert_each_spec cmp kvs : ∀ s map t m,
  well_formed s map t → maps s !! map = Some m →
  Config.key_compare (Map.config m) = Some cmp →
  Forall (insertable (Map.config m) cmp) kvs →
  (∃ N, rb (nodes s) t N) →
  ∃ es s1 t1 m1,
    insert_each (Some map) kvs s = Some (es, s1)
    ∧ well_formed s1 map t1
    ∧ maps s1 !! map = Some m1
    ∧ (∃ N1, rb (nodes s1) t1 N1)
    ∧ length es = length kvs
    ∧ Forall (λ e, e = ORDERED_MAP_SUCCESS ∨ e = ORDERED_MAP_ERROR_OUT_OF_MEMORY) es.
Proof.
  induction kvs as [|[k v] kvs IH]; intros s map t m Hwf Hm Hcmp Hall Hrb.
  { exists [], s, t, m. by split_and!. }
  apply Forall_cons in Hall as [(Hrk & Hrv & Hfaith) Hall]. cbn [insert_each].
  destruct (insert_outcome s map t m cmp k v Hwf Hm Hcmp Hrk Hrv Hfaith)
    as (e & s1 & t1 & m1 & E & Hwf1 & Hm1 & Hc1 & He & _ & _ & Hrb1).
  rewrite (bind_eq _ _ _ _ _ E).
  destruct Hrb as [N HN]. destruct (Hrb1 N HN) as [N1 HN1].
  rewrite <- Hc1 in Hcmp, Hall.
  destruct (IH s1 map t1 m1 Hwf1 Hm1 Hcmp Hall) as (es & s2 & t2 & m2 & E2 & H2);
    [by exists N1|].
  rewrite (bind_eq _ _ _ _ _ E2).
  destruct H2 as (Hwf2 & Hm2 & Hrb2 & Hlen & Hes).
  exists (e :: es), s2, t2, m2. split_and!; try done.
  - simpl. by rewrite Hlen.
  - by constructor.
Qed.

(** X23.  Every map built by insertions alone is balanced.  From any
    memory, [ordered_map_create] with a lawful comparator followed by any
    sequence of [ordered_map_insert] calls with keys and values that can
    be read returns; each insert returns success or out-of-memory; and
    when the map was created it is afterwards well formed, the three
    checks of the red-black invariants succeed on it, and its tree is no
    higher than twice the binary logarithm of its number of nodes plus
    one. *)
Theorem built_by_inserts_is_red_black (cfg : Config.t) (cmp : list Z → list Z → Z)
    (kvs : list (object * object)) (s : state) :
  Config.key_compare cfg = Some cmp → comparator_laws cmp →
  Forall (insertable cfg cmp) kvs →
  ∃ r es s1,
    (do map <- ordered_map_create (Some cfg);
     do es <- insert_each map kvs;
     ret (map, es)) s = Some ((r, es), s1)
    ∧ length es = length kvs
    ∧ ∀ map, r = Some map →
        Forall (λ e, e = ORDERED_MAP_SUCCESS ∨ e = ORDERED_MAP_ERROR_OUT_OF_MEMORY) es
        ∧ run (red_black_invariants map) s1 = Some true
        ∧ ∃ t1, well_formed s1 map t1
                ∧ (height t1 ≤ 2 * Nat.log2 (S (length (inorder t1))))%nat.
Proof.
  intros Hcmp Hlaws Hall. unfold ordered_map_create. rewrite Hcmp.
  set (m0 := Map.Make NIL cfg 0 Stats.zero true).
  destruct (avail s) as [|k] eqn:Hav.
  - assert (E0 : malloc_map m0 s = Some (None, s)) by (unfold malloc_map; by rewrite Hav).
    rewrite (bind_eq _ _ _ _ _ E0).
    assert (E : ∀ l, insert_each None l s
                     = Some (replicate (length l) ORDERED_MAP_ERROR_NULL_POINTER, s)).
    { induction l as [|[a b] l IHl]; [done|]. cbn [insert_each ordered_map_insert].
      unfold bind at 1. unfold ret at 1. by rewrite (bind_eq _ _ _ _ _ IHl). }
    rewrite (bind_eq _ _ _ _ _ (E kvs)).
    eexists None, _, s. split_and!; [done|by rewrite length_replicate|done].
  - set (map := fresh (dom (maps s))).
    set (s0 := set_avail k (set_maps (<[map := m0]> (maps s)) s)).
    assert (E0 : malloc_map m0 s = Some (Some map, s0)) by (unfold malloc_map; by rewrite Hav).
    rewrite (bind_eq _ _ _ _ _ E0).
    assert (Hm0 : maps s0 !! map = Some m0) by (subst s0; simpl; by rewrite lookup_insert_eq).
    assert (Hwf0 : well_formed s0 map Leaf) by (by apply (well_formed_empty s0 map _ cmp Hm0)).
    destruct (insert_each_spec cmp kvs s0 map Leaf m0 Hwf0 Hm0 Hcmp Hall)
      as (es & s1 & t1 & m1 & E & Hwf1 & Hm1 & [N1 HN1] & Hlen & Hes); [by exists 0%nat|].
    rewrite (bind_eq _ _ _ _ _ E).
    exists (Some map), es, s1. split_and!; [done|done|].
    intros map' [= <-]. split_and!; [done| |].
    + apply (red_black_invariants_rb s1 map t1 Hwf1). by exists N1.
    + exists t1. split; [done|]. apply (rb_low (nodes s1) t1 N1 HN1).
      by destruct Hwf1 as (? & ? & _ & _ & _ & _ & _ & _ & _ & _ & _ & ?).
Qed.

Lemma built_by_inserts_is_red_black_witness :
  ∃ r es s1,
    (do map <- ordered_map_create (Some int_config);
     do es <- insert_each map [(Obj 1 (bytes_of_int 3), Obj 2 (bytes_of_int 30));
                               (Obj 1 (bytes_of_int 1), Obj 2 (bytes_of_int 10));
                               (Obj 1 (bytes_of_int 2), Obj 2 (bytes_of_int 20))];
     ret (map, es)) boot = Some ((r, es), s1)
    ∧ length es = 3%nat
    ∧ ∀ map, r = Some map →
        Forall (λ e, e = ORDERED_MAP_SUCCESS ∨ e = ORDERED_MAP_ERROR_OUT_OF_MEMORY) es
        ∧ run (red_black_invariants map) s1 = Some true
        ∧ ∃ t1, well_formed s1 map t1
                ∧ (height t1 ≤ 2 * Nat.log2 (S (length (inorder t1))))%nat.
Proof.
  apply (built_by_inserts_is_red_black int_config int_compare
           [(Obj 1 (bytes_of_int 3), Obj 2 (bytes_of_int 30));
            (Obj 1 (bytes_of_int 1), Obj 2 (bytes_of_int 10));
            (Obj 1 (bytes_of_int 2), Obj 2 (bytes_of_int 20))] boot).
  - reflexivity.
  - exact int_compare_laws.
  - repeat constructor; simpl; try lia;
      intros kb Hkb; vm_compute in Hkb; injection Hkb as <-; reflexivity.
Defined.

(** * Overwriting where the old value is released once *)

(** With memory for a node and payloads that can be stored,
    [ordered_map_insert] cannot return anything but success. *)
Lemma insert_result_with_memory s map t m cmp ko vo kb vb e s1 :
  well_formed s map t → maps s !! map = Some m →
  Config.key_compare (Map.config m) = Some cmp →
  stored_bytes (Config.key_size (Map.config m)) (Config.key_copy (Map.config m))
    (obj_bytes ko) = Some kb →
  cmp (obj_bytes ko) kb = 0 →
  stored_bytes (Config.value_size (Map.config m)) (Config.value_copy (Map.config m))
    (obj_bytes vo) = Some vb →
  (3 ≤ avail s)%nat →
  ordered_map_insert (Some map) (Some ko) (Some vo) s = Some (e, s1) →
  e = ORDERED_MAP_SUCCESS.
Proof.
  intros Hwf Hm Hcmp Hsk Hfaith Hsv Hav E.
  destruct (well_formed_inv _ _ _ _ _ Hwf Hm Hcmp)
    as (Hroot & Hlaws & Hsz & Hrep & Hnd & Hpay & Hord & Hblack).
  destruct (find_key cmp (nodes s) (obj_bytes ko) (inorder t)) as [a|] eqn:Hfind.
  - pose proof (find_key_Some cmp Hlaws _ _ _ _ Hfind) as [Ha _].
    destruct (Hpay a Ha) as (n & _ & _ & Hn & _).
    destruct (insert_existing_spec s map t m cmp ko vo a n vb Hwf Hm Hcmp Hfind Hn Hsv)
      as (s' & g & E' & _).
    rewrite E in E'. apply (inj Some) in E'. by injection E' as -> _.
  - destruct (insert_new_outcome s map t m cmp ko vo Hwf Hm Hcmp Hfind
                (stored_readable _ _ _ _ Hsk) (stored_readable _ _ _ _ Hsv))
      as (e' & s' & E' & Hcases).
    + intros kb' Hkb'. congruence.
    + rewrite E in E'. apply (inj Some) in E'. injection E' as <- <-.
      destruct Hcases as [[-> _]|(_ & _ & _ & _ & _ & _ & Hwhy)]; [done|].
      exfalso. destruct Hwhy as [?|[?|?]]; [lia|congruence|congruence].
Qed.

(** Two inserts of one key, with memory for a node and payloads that can
    be stored, where no value destructor is configured or values are
    stored inline: what the map holds after each and what the second
    insert hands to the value destructor. *)
Lemma overwriting_insert_outcome (s : state) (map : positive) (t : tree) (m : Map.t)
    (cmp : list Z → list Z → Z) (ko vo vo' : object) (kb vb vb' : list Z) :
  well_formed s map t → maps s !! map = Some m →
  Config.key_compare (Map.config m) = Some cmp →
  stored_bytes (Config.key_size (Map.config m)) (Config.key_copy (Map.config m))
    (obj_bytes ko) = Some kb →
  cmp (obj_bytes ko) kb = 0 →
  stored_bytes (Config.value_size (Map.config m)) (Config.value_copy (Map.config m))
    (obj_bytes vo) = Some vb →
  stored_bytes (Config.value_size (Map.config m)) (Config.value_copy (Map.config m))
    (obj_bytes vo') = Some vb' →
  (3 ≤ avail s)%nat →
  Config.value_destructor (Map.config m) = false ∨ (0 < Config.value_size (Map.config m))%N →
  ∃ s1 s2 t1 a g1 g2,
    ordered_map_insert (Some map) (Some ko) (Some vo) s = Some (ORDERED_MAP_SUCCESS, s1)
    ∧ run (ordered_map_get (Some map) (Some ko)) s1 = Some (Some g1)
    ∧ obj_bytes g1 = vb
    ∧ ordered_map_insert (Some map) (Some ko) (Some vo') s1 = Some (ORDERED_MAP_SUCCESS, s2)
    ∧ run (ordered_map_get (Some map) (Some ko)) s2 = Some (Some g2)
    ∧ obj_bytes g2 = vb'
    ∧ (Config.value_size (Map.config m) = 0%N → Config.value_copy (Map.config m) = None →
       g2 = vo')
    ∧ run (ordered_map_size (Some map)) s2 = run (ordered_map_size (Some map)) s1
    ∧ well_formed s1 map t1 ∧ well_formed s2 map t1
    ∧ find_key cmp (nodes s1) (obj_bytes ko) (inorder t1) = Some a
    ∧ find_key cmp (nodes s2) (obj_bytes ko) (inorder t1) = Some a
    ∧ (binding (nodes s1) a).1 ≠ NULL
    ∧ (∀ b, (binding (nodes s2) b).1 = (binding (nodes s1) b).1)
    ∧ trace s2 = trace s1 ++ (if Config.value_destructor (Map.config m)
                              then [EvValueDestructor (Some g1)] else []).
Proof.
  intros Hwf Hm Hcmp Hsk Hfaith Hsv Hsv' Hav Hmode.
  assert (Hfaith' : ∀ kb', stored_bytes (Config.key_size (Map.config m))
                             (Config.key_copy (Map.config m)) (obj_bytes ko) = Some kb' →
                           cmp (obj_bytes ko) kb' = 0) by (intros kb' Hkb'; congruence).
  (* the first insert *)
  destruct (insert_outcome s map t m cmp ko vo Hwf Hm Hcmp
              (stored_readable _ _ _ _ Hsk) (stored_readable _ _ _ _ Hsv) Hfaith')
    as (e & s1 & t1 & m1 & E1 & Hwf1 & Hm1 & Hc1 & _ & Hok & _).
  pose proof (insert_result_with_memory s map t m cmp ko vo kb vb e s1
                Hwf Hm Hcmp Hsk Hfaith Hsv Hav E1) as ->.
  destruct (Hok eq_refl) as (a & g1 & Hfind1 & Hval1 & Hg1 & _).
  assert (Hcmp1 : Config.key_compare (Map.config m1) = Some cmp) by (by rewrite Hc1).
  destruct (well_formed_inv _ _ _ _ _ Hwf1 Hm1 Hcmp1)
    as (_ & Hlaws & _ & Hrep1 & _ & Hpay1 & _ & _).
  pose proof (find_key_Some cmp Hlaws _ _ _ _ Hfind1) as [Ha _].
  destruct (Hpay1 a Ha) as (n & ka & va & Hn & Hka & _).
  assert (Hold : Node.value n = Some g1).
  { unfold binding in Hval1. by rewrite Hn in Hval1. }
  destruct (get_spec s1 map t1 m1 cmp ko Hwf1 Hm1 Hcmp1) as (s1' & Hget1 & _).
  rewrite Hfind1, Hval1 in Hget1.
  (* the second insert *)
  rewrite <- Hc1 in Hsv'.
  destruct (insert_existing_spec s1 map t1 m1 cmp ko vo' a n vb' Hwf1 Hm1 Hcmp1 Hfind1 Hn Hsv')
    as (s2 & g2 & E2 & Hg2 & Hborrow & Hn2 & _ & _ & (m2 & Hm2 & _ & Hsz2 & Hc2) & Hwf2).
  destruct (insert_existing_events s1 map t1 m1 cmp ko vo' a n vb' Hwf1 Hm1 Hcmp1 Hfind1 Hn Hsv')
    as (s2' & E2' & Ht2).
  rewrite E2 in E2'. apply (inj Some) in E2'. injection E2' as <-.
  rewrite Hold, Hc1, (overwrite_release_once _ _ Hmode) in Ht2.
  assert (Hkb : ∀ b, key_bytes (nodes s2) b = key_bytes (nodes s1) b).
  { intros b. rewrite Hn2. by eapply key_bytes_insert. }
  assert (Hfind2 : find_key cmp (nodes s2) (obj_bytes ko) (inorder t1) = Some a).
  { by rewrite (find_key_ext cmp (nodes s1)). }
  assert (Hcmp2 : Config.key_compare (Map.config m2) = Some cmp) by (by rewrite Hc2).
  destruct (get_spec s2 map t1 m2 cmp ko Hwf2 Hm2 Hcmp2) as (s3 & Hget2 & _).
  assert (Hval2 : (binding (nodes s2) a).2 = Some g2).
  { unfold binding. by rewrite Hn2, lookup_insert_eq. }
  rewrite Hfind2, Hval2 in Hget2.
  exists s1, s2, t1, a, g1, g2. split_and!; try done.
  - unfold run. by rewrite Hget1.
  - congruence.
  - unfold run. by rewrite Hget2.
  - rewrite <- Hc1. exact Hborrow.
  - rewrite (run_size _ _ _ Hm2), (run_size _ _ _ Hm1). by rewrite Hsz2.
  - unfold binding. by rewrite Hn, Hka.
  - intros b. unfold binding. rewrite Hn2.
    destruct (decide (b = a)) as [->|Hne].
    + by rewrite lookup_insert_eq, Hn.
    + by rewrite lookup_insert_ne.
Qed.

(** X24.  Overwriting insert without a value destructor.  On every
    well-formed map on which no value destructor is configured, when the
    key and two values can be stored, the comparator finds the stored key
    equal to the key given and the allocator can serve three more
    requests: insert of the key with the first value returns success,
    whether or not the key was there, and get then returns a pointer to
    the stored form of the first value; a second insert of the same key
    with the second value returns success too, after which get returns a
    pointer to the stored form of the second value (the caller's pointer
    itself in borrow mode), the size is what it was after the first
    insert, the tree has the shape it had, every node holds the key
    pointer it held, and the second insert has called no destructor hook
    and freed nothing. *)
Theorem overwriting_insert_without_destructor (s : state) (map : positive) (t : tree) (m : Map.t)
    (cmp : list Z → list Z → Z) (ko vo vo' : object) (kb vb vb' : list Z) :
  well_formed s map t → maps s !! map = Some m →
  Config.key_compare (Map.config m) = Some cmp →
  stored_bytes (Config.key_size (Map.config m)) (Config.key_copy (Map.config m))
    (obj_bytes ko) = Some kb →
  cmp (obj_bytes ko) kb = 0 →
  stored_bytes (Config.value_size (Map.config m)) (Config.value_copy (Map.config m))
    (obj_bytes vo) = Some vb →
  stored_bytes (Config.value_size (Map.config m)) (Config.value_copy (Map.config m))
    (obj_bytes vo') = Some vb' →
  (3 ≤ avail s)%nat →
  Config.value_destructor (Map.config m) = false →
  ∃ s1 s2 t1 a g1 g2,
    ordered_map_insert (Some map) (Some ko) (Some vo) s = Some (ORDERED_MAP_SUCCESS, s1)
    ∧ run (ordered_map_get (Some map) (Some ko)) s1 = Some (Some g1)
    ∧ obj_bytes g1 = vb
    ∧ ordered_map_insert (Some map) (Some ko) (Some vo') s1 = Some (ORDERED_MAP_SUCCESS, s2)
    ∧ run (ordered_map_get (Some map) (Some ko)) s2 = Some (Some g2)
    ∧ obj_bytes g2 = vb'
    ∧ (Config.value_size (Map.config m) = 0%N → Config.value_copy (Map.config m) = None →
       g2 = vo')
    ∧ run (ordered_map_size (Some map)) s2 = run (ordered_map_size (Some map)) s1
    ∧ well_formed s1 map t1 ∧ well_formed s2 map t1
    ∧ find_key cmp (nodes s1) (obj_bytes ko) (inorder t1) = Some a
    ∧ find_key cmp (nodes s2) (obj_bytes ko) (inorder t1) = Some a
    ∧ (binding (nodes s1) a).1 ≠ NULL
    ∧ (∀ b, (binding (nodes s2) b).1 = (binding (nodes s1) b).1)
    ∧ trace s2 = trace s1.
Proof.
  intros Hwf Hm Hcmp Hsk Hfaith Hsv Hsv' Hav Hnone.
  destruct (overwriting_insert_outcome s map t m cmp ko vo vo' kb vb vb'
              Hwf Hm Hcmp Hsk Hfaith Hsv Hsv' Hav (or_introl Hnone))
    as (s1 & s2 & t1 & a & g1 & g2 & E1 & G1 & B1 & E2 & G2 & B2 & Hborrow & Hsize
        & Hwf1 & Hwf2 & Hf1 & Hf2 & Hkey & Hkeys & Htrace).
  rewrite Hnone, app_nil_r in Htrace.
  exists s1, s2, t1, a, g1, g2. split_and!; assumption.
Qed.

Lemma overwriting_insert_without_destructor_witness :
  ∃ s1 s2 t1 a g1 g2,
    ordered_map_insert (Some 1%positive) (int_at 1 9) (int_at 2 55) plain_state
    = Some (ORDERED_MAP_SUCCESS, s1)
    ∧ run (ordered_map_get (Some 1%positive) (int_at 1 9)) s1 = Some (Some g1)
    ∧ obj_bytes g1 = bytes_of_int 55
    ∧ ordered_map_insert (Some 1%positive) (int_at 1 9) (int_at 3 66) s1
      = Some (ORDERED_MAP_SUCCESS, s2)
    ∧ run (ordered_map_get (Some 1%positive) (int_at 1 9)) s2 = Some (Some g2)
    ∧ obj_bytes g2 = bytes_of_int 66
    ∧ (Config.value_size plain_config = 0%N → Config.value_copy plain_config = None →
       g2 = Obj 3 (bytes_of_int 66))
    ∧ run (ordered_map_size (Some 1%positive)) s2 = run (ordered_map_size (Some 1%positive)) s1
    ∧ well_formed s1 1 t1 ∧ well_formed s2 1 t1
    ∧ find_key int_compare (nodes s1) (bytes_of_int 9) (inorder t1) = Some a
    ∧ find_key int_compare (nodes s2) (bytes_of_int 9) (inorder t1) = Some a
    ∧ (binding (nodes s1) a).1 ≠ NULL
    ∧ (∀ b, (binding (nodes s2) b).1 = (binding (nodes s1) b).1)
    ∧ trace s2 = trace s1.
Proof.
  destruct plain_map as (m & Hm & Hcfg). rewrite <- Hcfg.
  apply (overwriting_insert_without_destructor plain_state 1 plain_tree m int_compare
           (Obj 1 (bytes_of_int 9)) (Obj 2 (bytes_of_int 55)) (Obj 3 (bytes_of_int 66))
           (bytes_of_int 9) (bytes_of_int 55) (bytes_of_int 66) plain_well_formed Hm).
  - by rewrite Hcfg.
  - rewrite Hcfg. reflexivity.
  - reflexivity.
  - rewrite Hcfg. reflexivity.
  - rewrite Hcfg. reflexivity.
  - vm_compute. lia.
  - by rewrite Hcfg.
Defined.

(** [ordered_map_replace] of a key that a node holds, where no value
    destructor is configured or values are stored inline. *)
Lemma replace_present_outcome (s : state) (map : positive) (t : tree) (m : Map.t)
    (cmp : list Z → list Z → Z) (ko vo : object) (bs : list Z) (a : positive) :
  well_formed s map t → maps s !! map = Some m →
  Config.key_compare (Map.config m) = Some cmp →
  a ∈ inorder t → cmp (obj_bytes ko) (key_bytes (nodes s) a) = 0 →
  Config.value_destructor (Map.config m) = false ∨ (0 < Config.value_size (Map.config m))%N →
  stored_bytes (Config.value_size (Map.config m)) (Config.value_copy (Map.config m))
    (obj_bytes vo) = Some bs →
  ∃ s',
    ordered_map_replace (Some map) (Some ko) (Some vo) s = Some (ORDERED_MAP_SUCCESS, s')
    ∧ find_key cmp (nodes s) (obj_bytes ko) (inorder t) = Some a
    ∧ (∃ g, run (ordered_map_get (Some map) (Some ko)) s' = Some (Some g)
            ∧ obj_bytes g = bs
            ∧ (Config.value_size (Map.config m) = 0%N →
               Config.value_copy (Map.config m) = None → g = vo))
    ∧ run (ordered_map_size (Some map)) s' = run (ordered_map_size (Some map)) s
    ∧ (∀ b, (binding (nodes s') b).1 = (binding (nodes s) b).1)
    ∧ trace s' = trace s ++ (if Config.value_destructor (Map.config m)
                             then [EvValueDestructor (binding (nodes s) a).2] else []).
Proof.
  intros Hwf Hm Hcmp Ha Hmatch Hmode Hstored.
  pose proof (well_formed_inv _ _ _ _ _ Hwf Hm Hcmp)
    as (Hroot & Hlaws & Hsz & Hrep & Hnd & Hpay & Hord & Hblack).
  destruct (contains_spec s map t m cmp ko Hwf Hm Hcmp) as (s0 & Hcontains & Hsame).
  unfold ordered_map_replace. rewrite (bind_eq _ _ _ _ _ Hcontains).
  pose proof (find_key_unique cmp Hlaws _ _ _ _ Hord Ha Hmatch) as Hfind.
  rewrite Hfind. cbn [is_nil negb].
  pose proof (well_formed_same_contents _ _ _ _ Hwf Hsame) as Hwf0.
  pose proof Hsame as (Hn0 & Ht0 & _ & _ & _ & m1 & m0 & Hm1 & Hm0 & Hr0 & Hs0 & Hc0).
  rewrite Hm in Hm1. injection Hm1 as <-.
  assert (Hcmp0 : Config.key_compare (Map.config m0) = Some cmp) by by rewrite Hc0.
  destruct (rep_lookup _ _ _ _ Hrep Ha) as [n Hn].
  assert (Hfind0 : find_key cmp (nodes s0) (obj_bytes ko) (inorder t) = Some a)
    by (by rewrite Hn0).
  assert (Hn' : nodes s0 !! a = Some n) by by rewrite Hn0.
  rewrite <- Hc0 in Hstored, Hmode.
  destruct (insert_existing_spec s0 map t m0 cmp ko vo a n bs Hwf0 Hm0 Hcmp0 Hfind0 Hn' Hstored)
    as (s' & g & Hins & Hg & Hborrow & Hnodes' & _ & _ & (m' & Hm' & Hr' & Hs' & Hc') & Hwf').
  destruct (insert_existing_events s0 map t m0 cmp ko vo a n bs Hwf0 Hm0 Hcmp0 Hfind0 Hn' Hstored)
    as (s'' & Hins' & Ht').
  rewrite Hins in Hins'. apply (inj Some) in Hins'. injection Hins' as <-.
  rewrite (overwrite_release_once _ _ Hmode), Ht0 in Ht'.
  exists s'. split_and!; [done|done| | | |].
  - assert (Hcmp' : Config.key_compare (Map.config m') = Some cmp) by by rewrite Hc'.
    destruct (get_spec s' map t m' cmp ko Hwf' Hm' Hcmp') as (s3 & Hget & _).
    assert (Hfind' : find_key cmp (nodes s') (obj_bytes ko) (inorder t) = Some a).
    { rewrite Hnodes'. rewrite (find_key_ext cmp (nodes s0)); [done|].
      intros b. by eapply key_bytes_insert. }
    rewrite Hfind' in Hget.
    assert (Hval : (binding (nodes s') a).2 = Some g).
    { unfold binding. by rewrite Hnodes', lookup_insert_eq. }
    rewrite Hval in Hget. exists g. unfold run. rewrite Hget. split_and!; [done..|].
    rewrite <- Hc0. exact Hborrow.
  - rewrite (run_size _ _ _ Hm'), (run_size _ _ _ Hm). congruence.
  - intros b. unfold binding. rewrite Hnodes', Hn0.
    destruct (decide (b = a)) as [->|Hne].
    + by rewrite lookup_insert_eq, Hn.
    + by rewrite lookup_insert_ne.
  - rewrite Ht', <- Hc0. unfold binding. by rewrite Hn.
Qed.

(** X25.  Replace without a value destructor.  On every well-formed
    map: when some node holds a key equal to the key given and no value
    destructor is configured, [ordered_map_replace] with a value that can
    be stored returns success, after which get on that key returns a
    pointer to the stored form of the new value (the caller's pointer
    itself in borrow mode), the size is as before, every node holds the
    key pointer it held, and no destructor hook has been called and
    nothing freed; when no node holds an equal key,
    [ordered_map_replace] returns key-not-found, in every ownership
    mode, and nodes, root, size, configuration and trace are as
    before. *)
Theorem replace_without_destructor (s : state) (map : positive) (t : tree) (m : Map.t)
    (cmp : list Z → list Z → Z) (ko : object) (value : void_ptr) :
  well_formed s map t → maps s !! map = Some m →
  Config.key_compare (Map.config m) = Some cmp →
  ((∃ a, a ∈ inorder t ∧ cmp (obj_bytes ko) (key_bytes (nodes s) a) = 0) →
   Config.value_destructor (Map.config m) = false →
   ∀ vo bs,
     value = Some vo →
     stored_bytes (Config.value_size (Map.config m)) (Config.value_copy (Map.config m))
       (obj_bytes vo) = Some bs →
     ∃ s' a,
       ordered_map_replace (Some map) (Some ko) value s = Some (ORDERED_MAP_SUCCESS, s')
       ∧ find_key cmp (nodes s) (obj_bytes ko) (inorder t) = Some a
       ∧ (∃ g, run (ordered_map_get (Some map) (Some ko)) s' = Some (Some g)
               ∧ obj_bytes g = bs
               ∧ (Config.value_size (Map.config m) = 0%N →
                  Config.value_copy (Map.config m) = None → g = vo))
       ∧ run (ordered_map_size (Some map)) s' = run (ordered_map_size (Some map)) s
       ∧ (∀ b, (binding (nodes s') b).1 = (binding (nodes s) b).1)
       ∧ trace s' = trace s)
  ∧ ((∀ a, a ∈ inorder t → cmp (obj_bytes ko) (key_bytes (nodes s) a) ≠ 0) →
     ∃ s', ordered_map_replace (Some map) (Some ko) value s
           = Some (ORDERED_MAP_ERROR_KEY_NOT_FOUND, s')
           ∧ same_contents map s s').
Proof.
  intros Hwf Hm Hcmp. split.
  - intros (a & Ha & Hmatch) Hnone vo bs -> Hstored.
    destruct (replace_present_outcome s map t m cmp ko vo bs a Hwf Hm Hcmp Ha Hmatch
                (or_introl Hnone) Hstored)
      as (s' & E & Hfind & Hget & Hsize & Hkeys & Htrace).
    rewrite Hnone, app_nil_r in Htrace.
    exists s', a. split_and!; assumption.
  - intros Habsent.
    pose proof (well_formed_inv _ _ _ _ _ Hwf Hm Hcmp)
      as (Hroot & Hlaws & Hsz & Hrep & Hnd & Hpay & Hord & Hblack).
    destruct (contains_spec s map t m cmp ko Hwf Hm Hcmp) as (s0 & Hcontains & Hsame).
    unfold ordered_map_replace. rewrite (bind_eq _ _ _ _ _ Hcontains).
    rewrite (find_key_none cmp Hlaws) by done. cbn [is_nil negb].
    by exists s0.
Qed.

Lemma replace_without_destructor_witness :
  ∃ s' a,
    ordered_map_replace (Some 1%positive) (int_at 1 2) (int_at 2 55) plain_state
    = Some (ORDERED_MAP_SUCCESS, s')
    ∧ find_key int_compare (nodes plain_state) (bytes_of_int 2) (inorder plain_tree) = Some a
    ∧ (∃ g, run (ordered_map_get (Some 1%positive) (int_at 1 2)) s' = Some (Some g)
            ∧ obj_bytes g = bytes_of_int 55
            ∧ (Config.value_size plain_config = 0%N → Config.value_copy plain_config = None →
               g = Obj 2 (bytes_of_int 55)))
    ∧ run (ordered_map_size (Some 1%positive)) s'
      = run (ordered_map_size (Some 1%positive)) plain_state
    ∧ (∀ b, (binding (nodes s') b).1 = (binding (nodes plain_state) b).1)
    ∧ trace s' = trace plain_state.
Proof.
  destruct plain_map as (m & Hm & Hcfg). rewrite <- Hcfg.
  assert (Hcmp : Config.key_compare (Map.config m) = Some int_compare) by (by rewrite Hcfg).
  refine (proj1 (replace_without_destructor plain_state 1 plain_tree m int_compare
                   (Obj 1 (bytes_of_int 2)) (int_at 2 55) plain_well_formed Hm Hcmp)
            _ _ (Obj 2 (bytes_of_int 55)) (bytes_of_int 55) eq_refl _).
  - exists 2%positive. split.
    + apply list_elem_of_In. vm_compute. tauto.
    + vm_compute. reflexivity.
  - by rewrite Hcfg.
  - rewrite Hcfg. reflexivity.
Defined.

(** X26.  Overwriting insert with inline values.  On every well-formed
    map that stores values inline ([value_size] above 0), under the
    conditions of X24 on the key, the values and the allocator: both
    inserts return success, get returns a pointer to the first
    [value_size] bytes of the first value after the first insert and of
    the second value after the second, the size is what it was after the
    first insert, the tree has the shape it had and every node holds the
    key pointer it held.  Where a value destructor is configured, the
    second insert has called it once, on the node's buffer as get
    returned it after the first insert, before copying the new bytes
    into that buffer, and it has called no other hook and freed nothing.
    The buffer is the map's own, allocated by [create_node] and freed by
    [destroy_node]; the statement is about hooks that leave it in place,
    as [int_destructor] of the tests does. *)
Theorem overwriting_insert_inline (s : state) (map : positive) (t : tree) (m : Map.t)
    (cmp : list Z → list Z → Z) (ko vo vo' : object) (kb vb vb' : list Z) :
  well_formed s map t → maps s !! map = Some m →
  Config.key_compare (Map.config m) = Some cmp →
  stored_bytes (Config.key_size (Map.config m)) (Config.key_copy (Map.config m))
    (obj_bytes ko) = Some kb →
  cmp (obj_bytes ko) kb = 0 →
  stored_bytes (Config.value_size (Map.config m)) (Config.value_copy (Map.config m))
    (obj_bytes vo) = Some vb →
  stored_bytes (Config.value_size (Map.config m)) (Config.value_copy (Map.config m))
    (obj_bytes vo') = Some vb' →
  (3 ≤ avail s)%nat →
  (0 < Config.value_size (Map.config m))%N →
  ∃ s1 s2 t1 a g1 g2,
    ordered_map_insert (Some map) (Some ko) (Some vo) s = Some (ORDERED_MAP_SUCCESS, s1)
    ∧ run (ordered_map_get (Some map) (Some ko)) s1 = Some (Some g1)
    ∧ obj_bytes g1 = vb
    ∧ ordered_map_insert (Some map) (Some ko) (Some vo') s1 = Some (ORDERED_MAP_SUCCESS, s2)
    ∧ run (ordered_map_get (Some map) (Some ko)) s2 = Some (Some g2)
    ∧ obj_bytes g2 = vb'
    ∧ (Config.value_size (Map.config m) = 0%N → Config.value_copy (Map.config m) = None →
       g2 = vo')
    ∧ run (ordered_map_size (Some map)) s2 = run (ordered_map_size (Some map)) s1
    ∧ well_formed s1 map t1 ∧ well_formed s2 map t1
    ∧ find_key cmp (nodes s1) (obj_bytes ko) (inorder t1) = Some a
    ∧ find_key cmp (nodes s2) (obj_bytes ko) (inorder t1) = Some a
    ∧ (binding (nodes s1) a).1 ≠ NULL
    ∧ (∀ b, (binding (nodes s2) b).1 = (binding (nodes s1) b).1)
    ∧ trace s2 = trace s1 ++ (if Config.value_destructor (Map.config m)
                              then [EvValueDestructor (Some g1)] else []).
Proof.
  intros Hwf Hm Hcmp Hsk Hfaith Hsv Hsv' Hav Hinline.
  destruct (overwriting_insert_outcome s map t m cmp ko vo vo' kb vb vb'
              Hwf Hm Hcmp Hsk Hfaith Hsv Hsv' Hav (or_intror Hinline))
    as (s1 & s2 & t1 & a & g1 & g2 & E1 & G1 & B1 & E2 & G2 & B2 & Hborrow & Hsize
        & Hwf1 & Hwf2 & Hf1 & Hf2 & Hkey & Hkeys & Htrace).
  exists s1, s2, t1, a, g1, g2. split_and!; assumption.
Qed.

Lemma overwriting_insert_inline_witness :
  ∃ s1 s2 t1 a g1 g2,
    ordered_map_insert (Some 1%positive) (int_at 1 99) (int_at 2 55) demo_state
    = Some (ORDERED_MAP_SUCCESS, s1)
    ∧ run (ordered_map_get (Some 1%positive) (int_at 1 99)) s1 = Some (Some g1)
    ∧ obj_bytes g1 = bytes_of_int 55
    ∧ ordered_map_insert (Some 1%positive) (int_at 1 99) (int_at 3 66) s1
      = Some (ORDERED_MAP_SUCCESS, s2)
    ∧ run (ordered_map_get (Some 1%positive) (int_at 1 99)) s2 = Some (Some g2)
    ∧ obj_bytes g2 = bytes_of_int 66
    ∧ (Config.value_size int_config = 0%N → Config.value_copy int_config = None →
       g2 = Obj 3 (bytes_of_int 66))
    ∧ run (ordered_map_size (Some 1%positive)) s2 = run (ordered_map_size (Some 1%positive)) s1
    ∧ well_formed s1 1 t1 ∧ well_formed s2 1 t1
    ∧ find_key int_compare (nodes s1) (bytes_of_int 99) (inorder t1) = Some a
    ∧ find_key int_compare (nodes s2) (bytes_of_int 99) (inorder t1) = Some a
    ∧ (binding (nodes s1) a).1 ≠ NULL
    ∧ (∀ b, (binding (nodes s2) b).1 = (binding (nodes s1) b).1)
    ∧ trace s2 = trace s1 ++ (if Config.value_destructor int_config
                              then [EvValueDestructor (Some g1)] else []).
Proof.
  destruct demo_map as (m & Hm & Hcfg). rewrite <- Hcfg.
  apply (overwriting_insert_inline demo_state 1 demo_tree m int_compare
           (Obj 1 (bytes_of_int 99)) (Obj 2 (bytes_of_int 55)) (Obj 3 (bytes_of_int 66))
           (bytes_of_int 99) (bytes_of_int 55) (bytes_of_int 66) demo_well_formed Hm).
  - by rewrite Hcfg.
  - rewrite Hcfg. reflexivity.
  - reflexivity.
  - rewrite Hcfg. reflexivity.
  - rewrite Hcfg. reflexivity.
  - vm_compute. lia.
  - by rewrite Hcfg.
Defined.

(** X27.  Replace with inline values.  On every well-formed map that
    stores values inline ([value_size] above 0), when a node holds a key
    equal to the key given and the value is long enough,
    [ordered_map_replace] returns success, after which get on that key
    returns a pointer to the first [value_size] bytes of the new value,
    the size is as before and every node holds the key pointer it held.
    Where a value destructor is configured it has been called once, on
    the node's buffer with the old value, before the new bytes were
    copied into that buffer, and no other hook has been called and
    nothing freed.  As in X26 the buffer is the map's own and the
    statement is about hooks that leave it in place. *)
Theorem replace_inline (s : state) (map : positive) (t : tree) (m : Map.t)
    (cmp : list Z → list Z → Z) (ko vo : object) (bs : list Z) (a : positive) :
  well_formed s map t → maps s !! map = Some m →
  Config.key_compare (Map.config m) = Some cmp →
  a ∈ inorder t → cmp (obj_bytes ko) (key_bytes (nodes s) a) = 0 →
  (0 < Config.value_size (Map.config m))%N →
  stored_bytes (Config.value_size (Map.config m)) (Config.value_copy (Map.config m))
    (obj_bytes vo) = Some bs →
  ∃ s' g,
    ordered_map_replace (Some map) (Some ko) (Some vo) s = Some (ORDERED_MAP_SUCCESS, s')
    ∧ run (ordered_map_get (Some map) (Some ko)) s' = Some (Some g)
    ∧ obj_bytes g = take (N.to_nat (Config.value_size (Map.config m))) (obj_bytes vo)
    ∧ run (ordered_map_size (Some map)) s' = run (ordered_map_size (Some map)) s
    ∧ (∀ b, (binding (nodes s') b).1 = (binding (nodes s) b).1)
    ∧ trace s' = trace s ++ (if Config.value_destructor (Map.config m)
                             then [EvValueDestructor (binding (nodes s) a).2] else []).
Proof.
  intros Hwf Hm Hcmp Ha Hmatch Hinline Hstored.
  destruct (replace_present_outcome s map t m cmp ko vo bs a Hwf Hm Hcmp Ha Hmatch
              (or_intror Hinline) Hstored)
    as (s' & E & _ & (g & Hget & Hg & _) & Hsize & Hkeys & Htrace).
  exists s', g. split_and!; try assumption.
  rewrite Hg. unfold stored_bytes in Hstored.
  apply N.ltb_lt in Hinline. rewrite Hinline in Hstored.
  destruct (decide _); [|done]. by injection Hstored as <-.
Qed.

Lemma replace_inline_witness :
  ∃ s' g,
    ordered_map_replace (Some 1%positive) (int_at 1 8) (int_at 2 55) demo_state
    = Some (ORDERED_MAP_SUCCESS, s')
    ∧ run (ordered_map_get (Some 1%positive) (int_at 1 8)) s' = Some (Some g)
    ∧ obj_bytes g = take (N.to_nat (Config.value_size int_config)) (bytes_of_int 55)
    ∧ run (ordered_map_size (Some 1%positive)) s'
      = run (ordered_map_size (Some 1%positive)) demo_state
    ∧ (∀ b, (binding (nodes s') b).1 = (binding (nodes demo_state) b).1)
    ∧ trace s' = trace demo_state
                 ++ (if Config.value_destructor int_config
                     then [EvValueDestructor (binding (nodes demo_state) 3).2] else []).
Proof.
  destruct demo_map as (m & Hm & Hcfg). rewrite <- Hcfg.
  apply (replace_inline demo_state 1 demo_tree m int_compare
           (Obj 1 (bytes_of_int 8)) (Obj 2 (bytes_of_int 55)) (bytes_of_int 55) 3
           demo_well_formed Hm).
  - by rewrite Hcfg.
  - apply list_elem_of_In. vm_compute. tauto.
  - vm_compute. reflexivity.
  - by rewrite Hcfg.
  - rewrite Hcfg. reflexivity.
Defined.
